(** * A shallow embedding of the virtio-net driver core (net/virtio.cc)

    The development follows the source file top to bottom:

    - fixed-width arithmetic as the C++ code performs it,
    - the split virtqueue engine [vring] (free-descriptor list, post,
      kick policy, completion and interrupt re-arming),
    - the transmit queue (virtio-net header, descriptor chains),
    - the receive queue (mergeable-buffer reassembly),
    - the queue-pair memory layout and the ring-size option.

    The host side of the shared rings is an environment: wherever the
    driver loads a host-written word the model reads the shared state, and
    a host schedule says what the host has published before each load. *)

From Stdlib Require Import ZArith Lia List Bool.
From stdpp Require Import base option list gmap strings.

Local Open Scope Z_scope.

(** ** Fixed-width unsigned arithmetic *)

Definition u16 (z : Z) : Z := z mod 2 ^ 16.
Definition u32 (z : Z) : Z := z mod 2 ^ 32.
Definition u64 (z : Z) : Z := z mod 2 ^ 64.

(** Flag bits of virtio-interface.hh.  Modelled from the spec: the header
    is not part of the sources; the values are the NO_INTERRUPT and
    NO_NOTIFY bits the spec names, bit 0 of the respective flags word (the
    enum [used_layout::no_notify = 1] in virtio.cc agrees). *)
Definition VRING_AVAIL_F_NO_INTERRUPT : Z := 1.
Definition VRING_USED_F_NO_NOTIFY : Z := 1.

(** ** Data model of the ring *)

(** [vring::buffer] *)
Module buffer.
Record t := mk { addr : Z; len : Z; writeable : bool }.
End buffer.

(** [vring::desc]; the three flag bits are kept as booleans. *)
Module desc.
Record t := mk {
  _paddr : Z;
  _len : Z;
  has_next : bool;
  writeable : bool;
  indirect : bool;
  _next : Z
}.
(** zero-initialised ring storage *)
Definition zero : t := mk 0 0 false false false 0.
Definition set_next (n : Z) (d : t) : t :=
  mk (_paddr d) (_len d) (has_next d) (writeable d) (indirect d) n.
Definition set_has_next (b : bool) (d : t) : t :=
  mk (_paddr d) (_len d) b (writeable d) (indirect d) (_next d).
End desc.

(** [vring::used_elem] *)
Module used_elem.
Record t := mk { _id : Z; _len : Z }.
End used_elem.

(** [vring::config]; the three pointers are byte addresses. *)
Module config.
Record t := mk {
  descs : Z;
  avail : Z;
  used : Z;
  size : Z;
  event_index : bool;
  indirect : bool;
  mergable_buffers : bool
}.
End config.

(** What the driver does that an observer (the host, the notifier, the
    owner of a completion) can see.  [K] is whatever a completion carries:
    the continuation attached to [buffer_chain::completed]. *)
Inductive event (K : Type) : Type :=
| EvFence                                  (* atomic_thread_fence(seq_cst) *)
| EvStoreAvailFlags (x : Z)                (* _avail._shared->_flags.store *)
| EvStoreUsedEvent (x : Z)                 (* _used_event->store *)
| EvStoreAvailRing (slot : Z) (head : Z)   (* _avail._shared->_ring[slot] = head *)
| EvStoreAvailIdx (x : Z)                  (* _avail._shared->_idx.store *)
| EvLoadUsedIdx (x : Z)                    (* _used._shared->_idx.load *)
| EvNotify                                 (* _notifier->notify() *)
| EvWait                                   (* _notifier->wait() *)
| EvSetValue (id : Z) (k : option K) (len : Z). (* _completions[id].set_value(len) *)

Arguments EvFence {K}.
Arguments EvStoreAvailFlags {K} x.
Arguments EvStoreUsedEvent {K} x.
Arguments EvStoreAvailRing {K} slot head.
Arguments EvStoreAvailIdx {K} x.
Arguments EvLoadUsedIdx {K} x.
Arguments EvNotify {K}.
Arguments EvWait {K}.
Arguments EvSetValue {K} id k len.

(** The state of one [vring] together with the shared memory it points to.

    - [_descs], [avail_*], [used_event]: written by the driver
      ([avail_flags] is [_avail._shared->_flags], [avail_head] is
      [_avail._head], and so on);
    - [used_flags], [used_idx], [used_elements], [avail_event]: written by
      the host;
    - [_completions]: a slot is [Some k] while a promise moved in by [post]
      has not been fulfilled;
    - [_free_head], [_free_last]: ints, -1 for "none";
    - [trace]: the events so far, most recent first. *)
Record vring (K : Type) : Type := Build_vring {
  _config : config.t;
  _descs : list desc.t;
  avail_flags : Z;
  avail_idx : Z;
  avail_ring : list Z;
  used_event : Z;
  used_flags : Z;
  used_idx : Z;
  used_elements : list used_elem.t;
  avail_event : Z;
  avail_head : Z;
  avail_added_since_kick : Z;
  used_tail : Z;
  _completions : list (option K);
  _available_descriptors : Z;
  _free_head : Z;
  _free_last : Z;
  _batch : list Z;
  _poll_mode : bool;
  trace : list (event K)
}.

Arguments Build_vring {K}.
Arguments _config {K} v.
Arguments _descs {K} v.
Arguments avail_flags {K} v.
Arguments avail_idx {K} v.
Arguments avail_ring {K} v.
Arguments used_event {K} v.
Arguments used_flags {K} v.
Arguments used_idx {K} v.
Arguments used_elements {K} v.
Arguments avail_event {K} v.
Arguments avail_head {K} v.
Arguments avail_added_since_kick {K} v.
Arguments used_tail {K} v.
Arguments _completions {K} v.
Arguments _available_descriptors {K} v.
Arguments _free_head {K} v.
Arguments _free_last {K} v.
Arguments _batch {K} v.
Arguments _poll_mode {K} v.
Arguments trace {K} v.

Section Vring.
Context {K : Type}.
Local Abbreviation vring := (vring K).

(** Field updates. *)
Definition set_descs (x : list desc.t) (v : vring) : vring :=
  Build_vring (_config v) x (avail_flags v) (avail_idx v) (avail_ring v)
    (used_event v) (used_flags v) (used_idx v) (used_elements v) (avail_event v)
    (avail_head v) (avail_added_since_kick v) (used_tail v) (_completions v)
    (_available_descriptors v) (_free_head v) (_free_last v) (_batch v)
    (_poll_mode v) (trace v).
Definition set_avail_flags (x : Z) (v : vring) : vring :=
  Build_vring (_config v) (_descs v) x (avail_idx v) (avail_ring v)
    (used_event v) (used_flags v) (used_idx v) (used_elements v) (avail_event v)
    (avail_head v) (avail_added_since_kick v) (used_tail v) (_completions v)
    (_available_descriptors v) (_free_head v) (_free_last v) (_batch v)
    (_poll_mode v) (trace v).
Definition set_avail_idx (x : Z) (v : vring) : vring :=
  Build_vring (_config v) (_descs v) (avail_flags v) x (avail_ring v)
    (used_event v) (used_flags v) (used_idx v) (used_elements v) (avail_event v)
    (avail_head v) (avail_added_since_kick v) (used_tail v) (_completions v)
    (_available_descriptors v) (_free_head v) (_free_last v) (_batch v)
    (_poll_mode v) (trace v).
Definition set_avail_ring (x : list Z) (v : vring) : vring :=
  Build_vring (_config v) (_descs v) (avail_flags v) (avail_idx v) x
    (used_event v) (used_flags v) (used_idx v) (used_elements v) (avail_event v)
    (avail_head v) (avail_added_since_kick v) (used_tail v) (_completions v)
    (_available_descriptors v) (_free_head v) (_free_last v) (_batch v)
    (_poll_mode v) (trace v).
Definition set_used_event (x : Z) (v : vring) : vring :=
  Build_vring (_config v) (_descs v) (avail_flags v) (avail_idx v) (avail_ring v)
    x (used_flags v) (used_idx v) (used_elements v) (avail_event v)
    (avail_head v) (avail_added_since_kick v) (used_tail v) (_completions v)
    (_available_descriptors v) (_free_head v) (_free_last v) (_batch v)
    (_poll_mode v) (trace v).
Definition set_used_idx (x : Z) (v : vring) : vring :=
  Build_vring (_config v) (_descs v) (avail_flags v) (avail_idx v) (avail_ring v)
    (used_event v) (used_flags v) x (used_elements v) (avail_event v)
    (avail_head v) (avail_added_since_kick v) (used_tail v) (_completions v)
    (_available_descriptors v) (_free_head v) (_free_last v) (_batch v)
    (_poll_mode v) (trace v).
Definition set_used_elements (x : list used_elem.t) (v : vring) : vring :=
  Build_vring (_config v) (_descs v) (avail_flags v) (avail_idx v) (avail_ring v)
    (used_event v) (used_flags v) (used_idx v) x (avail_event v)
    (avail_head v) (avail_added_since_kick v) (used_tail v) (_completions v)
    (_available_descriptors v) (_free_head v) (_free_last v) (_batch v)
    (_poll_mode v) (trace v).
Definition set_avail_head (x : Z) (v : vring) : vring :=
  Build_vring (_config v) (_descs v) (avail_flags v) (avail_idx v) (avail_ring v)
    (used_event v) (used_flags v) (used_idx v) (used_elements v) (avail_event v)
    x (avail_added_since_kick v) (used_tail v) (_completions v)
    (_available_descriptors v) (_free_head v) (_free_last v) (_batch v)
    (_poll_mode v) (trace v).
Definition set_avail_added_since_kick (x : Z) (v : vring) : vring :=
  Build_vring (_config v) (_descs v) (avail_flags v) (avail_idx v) (avail_ring v)
    (used_event v) (used_flags v) (used_idx v) (used_elements v) (avail_event v)
    (avail_head v) x (used_tail v) (_completions v)
    (_available_descriptors v) (_free_head v) (_free_last v) (_batch v)
    (_poll_mode v) (trace v).
Definition set_used_tail (x : Z) (v : vring) : vring :=
  Build_vring (_config v) (_descs v) (avail_flags v) (avail_idx v) (avail_ring v)
    (used_event v) (used_flags v) (used_idx v) (used_elements v) (avail_event v)
    (avail_head v) (avail_added_since_kick v) x (_completions v)
    (_available_descriptors v) (_free_head v) (_free_last v) (_batch v)
    (_poll_mode v) (trace v).
Definition set_completions (x : list (option K)) (v : vring) : vring :=
  Build_vring (_config v) (_descs v) (avail_flags v) (avail_idx v) (avail_ring v)
    (used_event v) (used_flags v) (used_idx v) (used_elements v) (avail_event v)
    (avail_head v) (avail_added_since_kick v) (used_tail v) x
    (_available_descriptors v) (_free_head v) (_free_last v) (_batch v)
    (_poll_mode v) (trace v).
Definition set_available_descriptors (x : Z) (v : vring) : vring :=
  Build_vring (_config v) (_descs v) (avail_flags v) (avail_idx v) (avail_ring v)
    (used_event v) (used_flags v) (used_idx v) (used_elements v) (avail_event v)
    (avail_head v) (avail_added_since_kick v) (used_tail v) (_completions v)
    x (_free_head v) (_free_last v) (_batch v)
    (_poll_mode v) (trace v).
Definition set_free_head (x : Z) (v : vring) : vring :=
  Build_vring (_config v) (_descs v) (avail_flags v) (avail_idx v) (avail_ring v)
    (used_event v) (used_flags v) (used_idx v) (used_elements v) (avail_event v)
    (avail_head v) (avail_added_since_kick v) (used_tail v) (_completions v)
    (_available_descriptors v) x (_free_last v) (_batch v)
    (_poll_mode v) (trace v).
Definition set_free_last (x : Z) (v : vring) : vring :=
  Build_vring (_config v) (_descs v) (avail_flags v) (avail_idx v) (avail_ring v)
    (used_event v) (used_flags v) (used_idx v) (used_elements v) (avail_event v)
    (avail_head v) (avail_added_since_kick v) (used_tail v) (_completions v)
    (_available_descriptors v) (_free_head v) x (_batch v)
    (_poll_mode v) (trace v).
Definition set_batch (x : list Z) (v : vring) : vring :=
  Build_vring (_config v) (_descs v) (avail_flags v) (avail_idx v) (avail_ring v)
    (used_event v) (used_flags v) (used_idx v) (used_elements v) (avail_event v)
    (avail_head v) (avail_added_since_kick v) (used_tail v) (_completions v)
    (_available_descriptors v) (_free_head v) (_free_last v) x
    (_poll_mode v) (trace v).
Definition set_trace (x : list (event K)) (v : vring) : vring :=
  Build_vring (_config v) (_descs v) (avail_flags v) (avail_idx v) (avail_ring v)
    (used_event v) (used_flags v) (used_idx v) (used_elements v) (avail_event v)
    (avail_head v) (avail_added_since_kick v) (used_tail v) (_completions v)
    (_available_descriptors v) (_free_head v) (_free_last v) (_batch v)
    (_poll_mode v) x.

(** Record an event. *)
Definition emit (e : event K) (v : vring) : vring := set_trace (e :: trace v) v.

(** How often the notifier has been kicked. *)
Fixpoint count_notify (t : list (event K)) : nat :=
  match t with
  | [] => O
  | EvNotify :: t' => S (count_notify t')
  | _ :: t' => count_notify t'
  end.

(** ** [size], [mask], [masked] *)

Definition size (v : vring) : Z := config.size (_config v).
Definition mask (v : vring) : Z := size v - 1.
Definition masked (v : vring) (idx : Z) : Z := Z.land idx (mask v).

(** ** Interrupt and notification flags *)

Definition interrupts_disabled (v : vring) : bool :=
  negb (Z.land (avail_flags v) VRING_AVAIL_F_NO_INTERRUPT =? 0).

Definition notifications_disabled (v : vring) : bool :=
  negb (Z.land (used_flags v) VRING_USED_F_NO_NOTIFY =? 0).

(** ** The kick policy, [vring::kick]

    [kick_threshold] is the constant [(uint16_t)(~0) / 2] of the source. *)
Definition kick_threshold : Z := u16 (Z.lnot 0) / 2.

Definition kick (v : vring) : vring :=
  let v := emit EvFence v in
  let notify_if (need_kick : bool) :=
    if need_kick || (kick_threshold <=? avail_added_since_kick v)
    then set_avail_added_since_kick 0 (emit EvNotify v)
    else v in
  if config.event_index (_config v) then
    let avail_idx := avail_idx v in
    let avail_event := avail_event v in
    notify_if (u16 (avail_idx - avail_event - 1) <? avail_added_since_kick v)
  else
    if notifications_disabled v then v
    else notify_if true.

(** [kick] called the notifier. *)
Definition kicked (v : vring) : Prop :=
  count_notify (trace (kick v)) <> count_notify (trace v).


(** ** The host as an environment

    The host writes [used_elements], [used_idx], [used_flags] and
    [avail_event].  The driver's control flow depends on the used ring
    only; a host schedule lists, for each of the driver's loads of
    [used.idx] in turn, the used elements the host has published since
    the previous load.  An exhausted schedule is a host that stays
    quiet. *)

Definition set_used_flags (x : Z) (v : vring) : vring :=
  Build_vring (_config v) (_descs v) (avail_flags v) (avail_idx v) (avail_ring v)
    (used_event v) x (used_idx v) (used_elements v) (avail_event v)
    (avail_head v) (avail_added_since_kick v) (used_tail v) (_completions v)
    (_available_descriptors v) (_free_head v) (_free_last v) (_batch v)
    (_poll_mode v) (trace v).
Definition set_avail_event (x : Z) (v : vring) : vring :=
  Build_vring (_config v) (_descs v) (avail_flags v) (avail_idx v) (avail_ring v)
    (used_event v) (used_flags v) (used_idx v) (used_elements v) x
    (avail_head v) (avail_added_since_kick v) (used_tail v) (_completions v)
    (_available_descriptors v) (_free_head v) (_free_last v) (_batch v)
    (_poll_mode v) (trace v).

Definition host_publish1 (v : vring) (e : used_elem.t) : vring :=
  set_used_idx (u16 (used_idx v + 1))
    (set_used_elements
       (<[Z.to_nat (masked v (used_idx v)) := e]> (used_elements v)) v).

Definition host_publish (es : list used_elem.t) (v : vring) : vring :=
  foldl host_publish1 v es.

Definition host_sched : Type := list (list used_elem.t).

(** The host's writes that the next load of [used.idx] observes. *)
Definition host_before_load (hs : host_sched) (v : vring) : vring * host_sched :=
  match hs with
  | [] => (v, [])
  | h :: hs' => (host_publish h v, hs')
  end.

(** An index into one of the arrays; [None] where the C++ access is out of
    bounds (undefined behaviour). *)
Definition at_index {A : Type} (l : list A) (i : Z) : option A :=
  if (0 <=? i) && (i <? Z.of_nat (length l)) then l !! Z.to_nat i else None.

(** ** [vring::allocate_desc]

    [None] is the failed [assert(_free_head != -1)] (or an access outside
    the descriptor table). *)
Definition allocate_desc (v : vring) : option (Z * vring) :=
  if _free_head v =? -1 then None
  else
    let desc := _free_head v in
    if desc =? _free_last v then
      Some (desc, set_free_head (-1) (set_free_last (-1) v))
    else
      d ← at_index (_descs v) desc;
      Some (desc, set_free_head (desc._next d) v).

(** ** [vring::setup] and the constructor *)

Definition setup (v : vring) : vring :=
  let descs :=
    foldl (fun ds i => alter (desc.set_next (u16 (Z.of_nat i + 1))) i ds)
          (_descs v) (seq 0 (Z.to_nat (size v))) in
  set_available_descriptors (_available_descriptors v + size v)
    (set_free_last (size v - 1) (set_free_head 0 (set_descs descs v))).

(** [vring::vring(conf, poll_mode)] over the zero-initialised storage that
    [qp::qp] hands it: free list unset (-1), semaphore 0, cursors 0, then
    [setup()]. *)
Definition vring_new (conf : config.t) (poll_mode : bool) : vring :=
  let n := Z.to_nat (config.size conf) in
  setup
    (Build_vring conf (replicate n desc.zero) 0 0 (replicate n 0) 0
       0 0 (replicate n (used_elem.mk 0 0)) 0
       0 0 0 (replicate n None) 0 (-1) (-1) [] poll_mode []).

(** ** Interrupt arming *)

Definition disable_interrupts (v : vring) : vring :=
  if negb (_poll_mode v) && negb (config.event_index (_config v)) then
    emit (EvStoreAvailFlags VRING_AVAIL_F_NO_INTERRUPT)
      (set_avail_flags VRING_AVAIL_F_NO_INTERRUPT v)
  else v.

(** [vring::enable_interrupts]: "true" if there are pending buffers.  The
    host's writes up to the final load are taken from the schedule. *)
Definition enable_interrupts (hs : host_sched) (v : vring)
  : bool * vring * host_sched :=
  if _poll_mode v then (false, v, hs)
  else
    let tail := used_tail v in
    let v :=
      if negb (config.event_index (_config v)) then
        emit (EvStoreAvailFlags 0) (set_avail_flags 0 v)
      else
        emit (EvStoreUsedEvent tail) (set_used_event tail v) in
    let v := emit EvFence v in
    let '(v, hs) := host_before_load hs v in
    let used_head := used_idx v in
    let v := emit (EvLoadUsedIdx used_head) v in
    (negb (used_head =? tail), v, hs).

(** ** [vring::do_complete] *)

(** The inner [while (true)] walk along [has_next]/[_next]: the last
    descriptor of the chain and the value of [count].  The walk reads a
    table that it does not change, so if it has not stopped after as many
    steps as there are descriptors it never will: [None] is that
    divergence, or a step outside the table. *)
Fixpoint chain_walk (fuel : nat) (descs : list desc.t) (id : Z) (count : Z)
  : option (Z * Z) :=
  match fuel with
  | O => None
  | S fuel' =>
      d ← at_index descs id;
      let count := count + 1 in
      if desc.has_next d then chain_walk fuel' descs (desc._next d) count
      else Some (id, count)
  end.

(** [if (_free_last != -1) _descs[_free_last]._next = id; else _free_head = id;] *)
Definition link_to_free_list (v : vring) (id : Z) : option vring :=
  if negb (_free_last v =? -1) then
    _ ← at_index (_descs v) (_free_last v);
    Some (set_descs (alter (desc.set_next (u16 id))
                           (Z.to_nat (_free_last v)) (_descs v)) v)
  else Some (set_free_head id v).

(** One turn of [while (used_head != _used._tail)]. *)
Definition complete_one (v : vring) : option vring :=
  ue ← at_index (used_elements v) (masked v (used_tail v));
  let v := set_used_tail (u16 (used_tail v + 1)) v in
  let id := used_elem._id ue in
  k ← at_index (_completions v) id;
  let v := emit (EvSetValue id k (used_elem._len ue))
             (set_completions (<[Z.to_nat id := None]> (_completions v)) v) in
  v ← link_to_free_list v id;
  '(last, _) ← chain_walk (length (_descs v)) (_descs v) id 0;
  Some (set_free_last last v).

(** [_used._tail] is 16 bits wide, so the loop meets [used_head] within
    2^16 turns. *)
Fixpoint drain (fuel : nat) (used_head : Z) (v : vring) : option vring :=
  if used_head =? used_tail v then Some v
  else
    match fuel with
    | O => None
    | S fuel' => v' ← complete_one v; drain fuel' used_head v'
    end.

(** One pass of the [do { ... } while (enable_interrupts())] body, with the
    loop condition it ends on. *)
Definition do_complete_pass (hs : host_sched) (v : vring)
  : option (bool * vring * host_sched) :=
  let v := disable_interrupts v in
  let '(v, hs) := host_before_load hs v in
  let used_head := used_idx v in
  let v := emit (EvLoadUsedIdx used_head) v in
  v ← drain (Z.to_nat 65536) used_head v;
  Some (enable_interrupts hs v).

Fixpoint do_complete_loop (fuel : nat) (hs : host_sched) (v : vring)
  : option (vring * host_sched) :=
  match fuel with
  | O => None
  | S fuel' =>
      '(again, v', hs') ← do_complete_pass hs v;
      if again : bool then do_complete_loop fuel' hs' v' else Some (v', hs')
  end.

(** A pass is repeated only when the host published something new during
    it; [S (length hs)] passes always suffice (see [do_complete_loop_fuel]). *)
Definition do_complete (hs : host_sched) (v : vring)
  : option (vring * host_sched) :=
  do_complete_loop (S (length hs)) hs v.

(** [vring::complete]: drain, then wait for the host's next signal (the
    continuation of the wait is another [complete]). *)
Definition complete (hs : host_sched) (v : vring) : option (vring * host_sched) :=
  '(v', hs') ← do_complete hs v;
  Some (emit EvWait v', hs').

(** ** Publishing to the available ring *)

(** [_avail._shared->_ring[masked(_avail._head++)] = desc_head] *)
Definition publish_head (v : vring) (desc_head : Z) : vring :=
  let slot := masked v (avail_head v) in
  emit (EvStoreAvailRing slot desc_head)
    (set_avail_head (u16 (avail_head v + 1))
       (set_avail_ring (<[Z.to_nat slot := desc_head]> (avail_ring v)) v)).

(** [_avail._shared->_idx.store(_avail._head, release)] *)
Definition store_avail_idx (v : vring) : vring :=
  emit (EvStoreAvailIdx (avail_head v)) (set_avail_idx (avail_head v) v).

Definition flush_batch (v : vring) : vring :=
  match _batch v with
  | [] => v
  | batch =>
      let v := foldl publish_head v batch in
      let v := set_batch [] v in
      kick (store_avail_idx v)
  end.

(** ** [vring::post] *)

(** The [buffer_chain] concept: buffers and the promise [completed]. *)
Record buffer_chain : Type := mk_chain {
  bufs : list buffer.t;
  completed : K
}.

(** What the loop over one chain carries: the ring, [pseudo_head], and
    [prev] ([None] while it still points at [pseudo_head]). *)
Definition chain_state : Type := vring * desc.t * option Z.

Definition post_buffer (st : chain_state) (b : buffer.t) : option chain_state :=
  let '(v, pseudo_head, prev) := st in
  '(desc_idx, v) ← allocate_desc v;
  let link := fun d => desc.set_next (u16 desc_idx) (desc.set_has_next true d) in
  '(v, pseudo_head) ←
     match prev with
     | None => Some (v, link pseudo_head)
     | Some p =>
         _ ← at_index (_descs v) p;
         Some (set_descs (alter link (Z.to_nat p) (_descs v)) v, pseudo_head)
     end;
  d ← at_index (_descs v) desc_idx;
  let d := desc.mk (buffer.addr b) (buffer.len b) false (buffer.writeable b)
             false (desc._next d) in
  Some (set_descs (<[Z.to_nat desc_idx := d]> (_descs v)) v, pseudo_head,
        Some desc_idx).

Fixpoint post_buffers (st : chain_state) (bs : list buffer.t) : option chain_state :=
  match bs with
  | [] => Some st
  | b :: bs' => st' ← post_buffer st b; post_buffers st' bs'
  end.

(** The body of the [for_each] over the chains: the loop over the buffers,
    then, in [record_chain], the statements after it. *)
Definition record_chain (v : vring) (desc_head : Z) (completed : K) : option vring :=
  _ ← at_index (_completions v) desc_head;
  let v := set_completions
             (<[Z.to_nat desc_head := Some completed]> (_completions v)) v in
  let v := if negb (_poll_mode v) then publish_head v desc_head
           else set_batch (_batch v ++ [desc_head]) v in
  Some (set_avail_added_since_kick (u16 (avail_added_since_kick v + 1)) v).

Definition post_chain (v : vring) (bc : buffer_chain) : option vring :=
  '(v, pseudo_head, _) ← post_buffers (v, desc.zero, None) (bufs bc);
  let desc_head := desc._next pseudo_head in
  record_chain v desc_head (completed bc).

Fixpoint post_chains (v : vring) (bcs : list buffer_chain) : option vring :=
  match bcs with
  | [] => Some v
  | bc :: bcs' => v' ← post_chain v bc; post_chains v' bcs'
  end.

Definition post (hs : host_sched) (v : vring) (bcs : list buffer_chain)
  : option (vring * host_sched) :=
  v ← post_chains v bcs;
  if negb (_poll_mode v) then
    do_complete hs (kick (store_avail_idx v))
  else if 16 <=? Z.of_nat (length (_batch v)) then
    Some (flush_batch v, hs)
  else Some (v, hs).

(** [vring::run].  In poll mode the reactor calls the poller every tick;
    [poll_tick] is its body. *)
Definition poll_tick (hs : host_sched) (v : vring) : option (vring * host_sched) :=
  do_complete hs (flush_batch v).

Definition run (hs : host_sched) (v : vring) : option (vring * host_sched) :=
  if negb (_poll_mode v) then complete hs v else Some (v, hs).

End Vring.


(** ** Concrete rings used as test inputs *)

(** A 256-entry ring of a vhost queue; [ei] is the negotiated EVENT_IDX. *)
Definition conf256 (ei : bool) : config.t :=
  config.mk 0 4096 8192 256 ei false false.

(** EVENT_IDX on; the host has kept [avail_event] level with [avail.idx]
    for 32767 posts, so nothing was kicked since the counter was last
    reset. *)
Definition ring_pinned : vring unit :=
  set_avail_added_since_kick 32767
    (set_avail_event 32767
       (set_avail_idx 32767
          (set_avail_head 32767 (vring_new (conf256 true) false)))).

(** EVENT_IDX off; the host has set NO_NOTIFY, and 2^15 chains were added
    since the last kick. *)
Definition ring_no_notify : vring unit :=
  set_avail_added_since_kick 32768
    (set_used_flags VRING_USED_F_NO_NOTIFY
       (set_avail_idx 32768
          (set_avail_head 32768 (vring_new (conf256 false) false)))).

(** EVENT_IDX on; three chains added, the host asked to be kicked at the
    second of them. *)
Definition ring_want_kick : vring unit :=
  set_avail_added_since_kick 3
    (set_avail_event 8
       (set_avail_idx 10
          (set_avail_head 10 (vring_new (conf256 true) false)))).

(** EVENT_IDX on, [avail_event] level with [avail.idx], 2^15 chains added
    since the last kick. *)
Definition ring_forced : vring unit :=
  set_avail_added_since_kick 32768
    (set_avail_event 32768
       (set_avail_idx 32768
          (set_avail_head 32768 (vring_new (conf256 true) false)))).

(** ** Packets and device features

    Modelled from the spec: net/packet.hh, net/net.hh and net/ip.hh are not
    part of the sources.  A packet is "an externally owned list of
    fragments plus a deleter"; prepending a fragment gives a packet with
    one fragment more; [offload_info] and [hw_features] carry the fields
    that [txq::post] reads; [eth_hdr_len], the size of an Ethernet header,
    is 14. *)

Module fragment.
Record t := mk { base : Z; size : Z }.
End fragment.

Inductive ip_protocol_num : Type := icmp | tcp | udp | unused.

Module offload_info.
Record t := mk {
  protocol : ip_protocol_num;
  needs_csum : bool;
  ip_hdr_len : Z;
  tcp_hdr_len : Z;
  udp_hdr_len : Z
}.
End offload_info.

Module hw_features.
Record t := mk {
  tx_csum_l4_offload : bool;
  rx_csum_offload : bool;
  tx_tso : bool;
  tx_ufo : bool;
  mtu : Z
}.
End hw_features.

Module packet.
(** [deleter]: the buffers that are freed when the packet is dropped. *)
Record t := mk {
  fragments : list fragment.t;
  offload : offload_info.t;
  deleter : list Z
}.
Definition nr_frags (p : t) : Z := Z.of_nat (length (fragments p)).
Definition len (p : t) : Z := foldr (fun f n => fragment.size f + n) 0 (fragments p).
(** [packet(fragment, packet&&)] *)
Definition prepend (f : fragment.t) (p : t) : t :=
  mk (f :: fragments p) (offload p) (deleter p).
End packet.

Definition eth_hdr_len : Z := 14.

(** ** The virtio-net header, [qp::net_hdr_mrg] *)

Module net_hdr.
Definition gso_none : Z := 0.
Definition gso_tcpv4 : Z := 1.
Definition gso_udp : Z := 3.
Definition gso_tcpv6 : Z := 4.
Definition gso_ecn : Z := 128.
Record t := mk {
  needs_csum : Z;
  flags_reserved : Z;
  gso_type : Z;
  hdr_len : Z;
  gso_size : Z;
  csum_start : Z;
  csum_offset : Z;
  num_buffers : Z
}.
Definition zero : t := mk 0 0 0 0 0 0 0 0.
Definition set_csum (start offset : Z) (h : t) : t :=
  mk 1 (flags_reserved h) (gso_type h) (hdr_len h) (gso_size h)
     (u16 start) (u16 offset) (num_buffers h).
Definition set_gso (type hlen size : Z) (h : t) : t :=
  mk (needs_csum h) (flags_reserved h) type (u16 hlen) (u16 size)
     (csum_start h) (csum_offset h) (num_buffers h).
(** [sizeof(net_hdr)] and [sizeof(net_hdr_mrg)] *)
Definition sizeof_net_hdr : Z := 10.
Definition sizeof_net_hdr_mrg : Z := 12.
End net_hdr.

(** ** [qp::txq::post]: the header *)

(** The first part of [txq::post]: the header built from the packet's
    offload information ([plen] is [p.len()]). *)
Definition txq_vhdr (hw : hw_features.t) (oi : offload_info.t) (plen : Z)
  : net_hdr.t :=
  let vhdr := net_hdr.zero in
  if hw_features.tx_csum_l4_offload hw then
    let ip_hdr_len := offload_info.ip_hdr_len oi in
    let mtu := hw_features.mtu hw in
    match offload_info.protocol oi with
    | tcp =>
        let tcp_hdr_len := offload_info.tcp_hdr_len oi in
        let vhdr :=
          if offload_info.needs_csum oi
          then net_hdr.set_csum (eth_hdr_len + ip_hdr_len) 16 vhdr
          else vhdr in
        if hw_features.tx_tso hw && (mtu + eth_hdr_len <? plen)
        then net_hdr.set_gso net_hdr.gso_tcpv4
               (eth_hdr_len + ip_hdr_len + tcp_hdr_len)
               (mtu - ip_hdr_len - tcp_hdr_len) vhdr
        else vhdr
    | udp =>
        let udp_hdr_len := offload_info.udp_hdr_len oi in
        let vhdr :=
          if offload_info.needs_csum oi
          then net_hdr.set_csum (eth_hdr_len + ip_hdr_len) 6 vhdr
          else vhdr in
        if hw_features.tx_ufo hw && (mtu + eth_hdr_len <? plen)
        then net_hdr.set_gso net_hdr.gso_udp
               (eth_hdr_len + ip_hdr_len + udp_hdr_len)
               (mtu - ip_hdr_len - udp_hdr_len) vhdr
        else vhdr
    | _ => vhdr
    end
  else vhdr.

(** The fields of [offload_info] and [hw_features] hold 8- and 16-bit
    values. *)
Definition offload_typed (hw : hw_features.t) (oi : offload_info.t) : Prop :=
  0 <= offload_info.ip_hdr_len oi < 256
  /\ 0 <= offload_info.tcp_hdr_len oi < 256
  /\ 0 <= offload_info.udp_hdr_len oi < 256
  /\ 0 <= hw_features.mtu hw < 65536.

(** Scenario: a 9000-byte TCP segment, TSO and checksum offload on. *)
Definition hw_all_on : hw_features.t := hw_features.mk true true true true 1500.
Definition oi_tcp : offload_info.t := offload_info.mk tcp true 20 20 8.
Definition oi_udp : offload_info.t := offload_info.mk udp true 20 20 8.
(** "csum-offload off" with "tso" left on, as [device::setup_features]
    sets the features up for those options. *)
Definition hw_csum_off : hw_features.t := hw_features.mk false false true true 1500.

(** ** Ring storage: [virtio_buffer], [vring_storage_size], [common_config] *)

(** Modelled from the spec: core/align.hh is not part of the sources;
    [align_up v a] is [v] rounded up to a multiple of [a]. *)
Definition align_up (v align : Z) : Z := (v + align - 1) / align * align.

Definition vring_storage_size (ring_size : Z) : Z :=
  u64 (3 * 4096 + ring_size * (16 + 2 + 8)).

(** [virtio_buffer(size)]: a page-aligned block, zeroed by [bzero].  The
    address is [posix_memalign]'s choice; the contents are what matters. *)
Definition virtio_buffer (size : Z) : list Byte.byte :=
  replicate (Z.to_nat size) Byte.x00.

Section Layout.
(** The feature bit of virtio-interface.hh, which is not part of the
    sources. *)
Variable VIRTIO_RING_F_EVENT_IDX : Z.

(** [features] is [_dev->features()].  [r.size] is an [unsigned], so the
    products [16 * r.size] and [2 * r.size] are taken in 32 bits before
    they are added to the [char*] pointers. *)
Definition common_config (features : Z) (r : config.t) : config.t :=
  let avail := config.descs r + u32 (16 * config.size r) in
  let used := align_up (avail + u32 (2 * config.size r) + 6) 4096 in
  config.mk (config.descs r) avail used (config.size r)
    (negb (Z.land features VIRTIO_RING_F_EVENT_IDX =? 0)) false
    (config.mergable_buffers r).

(** [storage] is [_txq_storage.get()]; the fields that [common_config]
    sets start out unset. *)
Definition txq_config (features : Z) (storage : Z) (tx_ring_size : Z) : config.t :=
  common_config features (config.mk storage 0 0 (u32 tx_ring_size) false false false).

Definition rxq_config (features : Z) (storage : Z) (rx_ring_size : Z) : config.t :=
  common_config features (config.mk storage 0 0 (u32 rx_ring_size) false false true).

End Layout.

(** ** Options: [get_virtio_net_options_description], [config_ring_size] *)

(** Modelled from the spec: boost::program_options is an external library.
    A [variables_map] maps option names to typed values; an option with a
    default is in the map whether or not the user gave it. *)
Inductive opt_value : Type :=
| VString (s : string)
| VUnsigned (n : Z)
| VBool (b : bool).

Definition get_virtio_net_options_description : list (string * opt_value) :=
  [ ("event-index"%string, VString "on");
    ("csum-offload"%string, VString "on");
    ("tso"%string, VString "on");
    ("ufo"%string, VString "on");
    ("virtio-ring-size"%string, VUnsigned 256);
    ("virtio-poll-mode"%string, VBool false) ].

(** The values a user may give for the options of the description: each
    of the declared type. *)
Definition same_type (a b : opt_value) : bool :=
  match a, b with
  | VString _, VString _ => true
  | VUnsigned n, VUnsigned _ => (0 <=? n) && (n <? 2 ^ 32)
  | VBool _, VBool _ => true
  | _, _ => false
  end.

Definition well_typed (user : gmap string opt_value) : Prop :=
  forall k v, user !! k = Some v ->
    exists d, (list_to_map get_virtio_net_options_description
                 : gmap string opt_value) !! k = Some d
              /\ same_type v d = true.

(** Parsing against the description: what the user gave, the defaults for
    the rest. *)
Definition store (user : gmap string opt_value) : gmap string opt_value :=
  user ∪ list_to_map get_virtio_net_options_description.

(** [opts.count(name)] and [opts[name].as<unsigned>()] ([None]: the
    exception of a failed cast). *)
Definition count (opts : gmap string opt_value) (name : string) : Z :=
  match opts !! name with Some _ => 1 | None => 0 end.

Definition as_unsigned (opts : gmap string opt_value) (name : string) : option Z :=
  match opts !! name with
  | Some (VUnsigned n) => Some n
  | _ => None
  end.

Definition config_ring_size (opts : gmap string opt_value) : option Z :=
  if negb (count opts "event-index" =? 0) then
    as_unsigned opts "virtio-ring-size"
  else Some 256.

(** The ring sizes that [qp_vhost::qp_vhost] passes to [qp::qp]:
    [(rx_ring_size, tx_ring_size)]. *)
Definition qp_vhost_ring_sizes (opts : gmap string opt_value) : option (Z * Z) :=
  rx ← config_ring_size opts;
  tx ← config_ring_size opts;
  Some (rx, tx).

(** ** The descriptor semaphore

    Modelled from the spec: core/semaphore.hh is not part of the sources.
    [_available_descriptors] is a counter of permits; [wait n] takes [n]
    permits when there are that many and otherwise suspends the caller
    ([None]); [signal n] returns [n] permits; [try_wait] never suspends. *)

Definition sem_current {K : Type} (v : vring K) : Z := _available_descriptors v.

Definition sem_wait {K : Type} (n : Z) (v : vring K) : option (vring K) :=
  if n <=? _available_descriptors v
  then Some (set_available_descriptors (_available_descriptors v - n) v)
  else None.

Definition sem_try_wait {K : Type} (n : Z) (v : vring K) : bool * vring K :=
  match sem_wait n v with
  | Some v' => (true, v')
  | None => (false, v)
  end.

Definition sem_signal {K : Type} (n : Z) (v : vring K) : vring K :=
  set_available_descriptors (_available_descriptors v + n) v.

(** How a call that may have to wait for descriptors ends. *)
Inductive outcome (A : Type) : Type :=
| Done (a : A)      (* ran to the end *)
| Suspended         (* waiting on the semaphore; nothing was posted *)
| Undefined.        (* a failed assertion or an access out of bounds *)

Arguments Done {A} a.
Arguments Suspended {A}.
Arguments Undefined {A}.

(** [qp::virt_to_phys]: the identity (the vhost memory table maps the
    whole address space one to one). *)
Definition virt_to_phys (p : Z) : Z := p.

(** Modelled from the spec: the [offload_info] of a default-constructed
    packet (net/packet.hh is not part of the sources); received packets
    carry it. *)
Definition offload_default : offload_info.t := offload_info.mk unused false 20 20 8.

(** ** The receive queue, [qp::rxq] *)

Module rxq.
(** The completion of an RX chain carries the buffer it captured.
    [l2received] lists the packets handed to [l2receive], oldest first. *)
Record t := mk {
  _ring : vring Z;
  _remaining_buffers : Z;
  _fragments : list fragment.t;
  _deleters : list Z;
  l2received : list packet.t
}.
End rxq.

Section Rxq.
(** [_dev._header_len], and the [num_buffers] field that the host wrote
    into the buffer at a given address. *)
Variable header_len : Z.
Variable num_buffers_at : Z -> Z.

(** The continuation of [bc.completed.get_future()] in
    [make_buffer_chain], for the buffer [buf] and the length [len] the
    host reported. *)
Definition rx_completed (q : rxq.t) (buf : Z) (len : Z) : option rxq.t :=
  let frag_buf := buf in
  let frag_len := len in
  (* First buffer *)
  '(remaining, fragments, deleters, frag_buf, frag_len) ←
    (if rxq._remaining_buffers q =? 0 then
       let num_buffers := num_buffers_at buf in
       if 1 <=? num_buffers then
         Some (num_buffers, [], [], frag_buf + header_len, u64 (frag_len - header_len))
       else None
     else
       Some (rxq._remaining_buffers q, rxq._fragments q, rxq._deleters q,
             frag_buf, frag_len));
  (* Append current buffer *)
  let fragments := fragments ++ [fragment.mk frag_buf frag_len] in
  let deleters := deleters ++ [buf] in
  let remaining := u32 (remaining - 1) in
  (* Last buffer *)
  if remaining =? 0 then
    let '(del, deleters) :=
      if Z.of_nat (length deleters) =? 1
      then (take 1 deleters, [])
      else (deleters, []) in
    let p := packet.mk fragments offload_default del in
    Some (rxq.mk (sem_signal (Z.of_nat (length fragments)) (rxq._ring q))
            remaining fragments deleters (rxq.l2received q ++ [p]))
  else
    Some (rxq.mk (rxq._ring q) remaining fragments deleters (rxq.l2received q)).

(** The completions of several buffers, in the order in which
    [do_complete] fulfils them. *)
Fixpoint rx_completed_all (q : rxq.t) (done : list (Z * Z)) : option rxq.t :=
  match done with
  | [] => Some q
  | (buf, len) :: done' => q' ← rx_completed q buf len; rx_completed_all q' done'
  end.

(** [make_buffer_chain] for a buffer that [malloc(4096)] returned. *)
Definition make_buffer_chain (buf : Z) : buffer_chain (K := Z) :=
  mk_chain [buffer.mk (virt_to_phys buf) 4096 true] buf.

(** [rxq::prepare_buffers]; [mallocs] are the addresses that the calls of
    [malloc] return. *)
Definition prepare_buffers (mallocs : list Z) (hs : host_sched) (q : rxq.t)
  : outcome (rxq.t * host_sched) :=
  match sem_wait 1 (rxq._ring q) with
  | None => Suspended
  | Some ring =>
      let count := 1 in
      let opportunistic := sem_current ring in
      let '(ok, ring) := sem_try_wait opportunistic ring in
      let count := if ok then u32 (count + opportunistic) else count in
      if Z.of_nat (length mallocs) <? count then Undefined
      else
        match post hs ring (map make_buffer_chain (take (Z.to_nat count) mallocs)) with
        | Some (ring, hs) =>
            Done (rxq.mk ring (rxq._remaining_buffers q) (rxq._fragments q)
                    (rxq._deleters q) (rxq.l2received q), hs)
        | None => Undefined
        end
  end.

End Rxq.

(** The fragment of a buffer that continues a packet. *)
Definition frag_of (bl : Z * Z) : fragment.t := fragment.mk bl.1 bl.2.

(** [_header_len] as [qp_vhost::qp_vhost] sets it from the negotiated
    MRG_RXBUF feature. *)
Definition header_len_of (mrg_rxbuf : bool) : Z :=
  if mrg_rxbuf then net_hdr.sizeof_net_hdr_mrg else net_hdr.sizeof_net_hdr.

(** Scenario: a packet spread over two 4096-byte buffers, 4096 and 2048
    bytes written, [num_buffers = 2] in the first. *)
Definition rxq_idle : rxq.t := rxq.mk (vring_new (conf256 true) false) 0 [] [] [].
Definition two_buffers (buf : Z) : Z := if buf =? 40960 then 2 else 0.
(** A single buffer for which the host reports fewer bytes than a header. *)
Definition one_buffer (buf : Z) : Z := 1.

(** ** The transmit queue, [qp::txq] *)

Module tx_completion.
(** What the continuation of a TX chain's completion captured: [nr_frags]
    and the packet (with the header that its first fragment holds). *)
Record t := mk { nr_frags : Z; p : packet.t; vhdr : net_hdr.t }.
End tx_completion.

Module txq.
(** [hw] is [_dev._dev->hw_features()], [_header_len] is
    [_dev._header_len]. *)
Record t := mk {
  _ring : vring tx_completion.t;
  hw : hw_features.t;
  _header_len : Z
}.
End txq.

Definition fragment_to_buffer (f : fragment.t) : buffer.t :=
  buffer.mk (virt_to_phys (fragment.base f)) (u32 (fragment.size f)) false.

(** The chain that [txq::post] builds for the packet [p]: [q] is [p] with
    the header fragment in front; [vhdr_at] is where the packet keeps its
    copy of the header. *)
Definition txq_chain (t : txq.t) (vhdr_at : Z) (p : packet.t)
  : buffer_chain (K := tx_completion.t) :=
  let vhdr := txq_vhdr (txq.hw t) (packet.offload p) (packet.len p) in
  let q := packet.prepend (fragment.mk vhdr_at (txq._header_len t)) p in
  let nr_frags := packet.nr_frags q in
  mk_chain (map fragment_to_buffer (packet.fragments q))
           (tx_completion.mk nr_frags q vhdr).

(** [txq::post] *)
Definition txq_post (vhdr_at : Z) (hs : host_sched) (t : txq.t) (p : packet.t)
  : outcome (txq.t * host_sched) :=
  let vbc := txq_chain t vhdr_at p in
  let nr_frags := tx_completion.nr_frags (completed vbc) in
  match sem_wait nr_frags (txq._ring t) with
  | None => Suspended
  | Some ring =>
      match post hs ring [vbc] with
      | Some (ring, hs) => Done (txq.mk ring (txq.hw t) (txq._header_len t), hs)
      | None => Undefined
      end
  end.

(** The continuation of the completion: the permits go back (and the
    packet is dropped). *)
Definition tx_completed (t : txq.t) (k : tx_completion.t) (len : Z) : txq.t :=
  txq.mk (sem_signal (tx_completion.nr_frags k) (txq._ring t))
         (txq.hw t) (txq._header_len t).

(** ** Reading the ring as the host and as an auditor would *)

Section Observers.
Context {K : Type}.
Implicit Types (v : vring K) (ds : list desc.t).

(** The chain that starts at [id], as the host reads it: the buffers of
    the descriptors along [has_next]/[_next]. *)
Fixpoint host_read_chain (fuel : nat) ds (id : Z) : option (list buffer.t) :=
  match fuel with
  | O => None
  | S fuel' =>
      d ← at_index ds id;
      let b := buffer.mk (desc._paddr d) (desc._len d) (desc.writeable d) in
      if desc.has_next d then
        bs ← host_read_chain fuel' ds (desc._next d); Some (b :: bs)
      else Some [b]
  end.

(** The heads handed to the host so far, oldest first: those stored in
    the available ring, then those still in [_batch]. *)
Fixpoint stored_heads (t : list (event K)) : list Z :=
  match t with
  | [] => []
  | EvStoreAvailRing _ head :: t' => stored_heads t' ++ [head]
  | _ :: t' => stored_heads t'
  end.

Definition published v : list Z := stored_heads (trace v) ++ _batch v.

(** The completions fulfilled so far, oldest first. *)
Fixpoint fulfilled (t : list (event K)) : list (Z * option K * Z) :=
  match t with
  | [] => []
  | EvSetValue id k len :: t' => fulfilled t' ++ [(id, k, len)]
  | _ :: t' => fulfilled t'
  end.

Definition fired (t : list (event K)) : list (Z * Z) :=
  (fun x => (x.1.1, x.2)) <$> fulfilled t.

(** The events of [do_complete]: it stores the arm word, fences, loads
    [used.idx] and fulfils completions; it neither touches the available
    ring nor calls the notifier. *)
Definition completion_event (e : event K) : bool :=
  match e with
  | EvFence | EvStoreAvailFlags _ | EvStoreUsedEvent _
  | EvLoadUsedIdx _ | EvSetValue _ _ _ => true
  | _ => false
  end.

Definition completion_trace v v' : Prop :=
  exists t, trace v' = t ++ trace v /\ forallb completion_event t = true.

(** The length of the free list: the walk from [_free_head] along [_next]
    up to [_free_last]. *)
Fixpoint free_walk (fuel : nat) ds (cur last : Z) : option Z :=
  match fuel with
  | O => None
  | S fuel' =>
      d ← at_index ds cur;
      if cur =? last then Some 1
      else n ← free_walk fuel' ds (desc._next d) last; Some (1 + n)
  end.

Definition free_count v : option Z :=
  if _free_head v =? -1 then Some 0
  else free_walk (length (_descs v)) (_descs v) (_free_head v) (_free_last v).

(** A completion is outstanding while its promise is unfulfilled. *)
Definition outstanding v (h : Z) : Prop :=
  exists k, at_index (_completions v) h = Some (Some k).

Definition is_outstanding v (h : Z) : bool :=
  match at_index (_completions v) h with
  | Some (Some _) => true
  | _ => false
  end.

Definition outstanding_heads v : list Z :=
  filter (fun h => Is_true (is_outstanding v h))
         (seqZ 0 (Z.of_nat (length (_completions v)))).

(** The descriptors in chains with an outstanding completion: [count] of
    the walk of [do_complete], summed over the outstanding heads. *)
Definition outstanding_count v : option Z :=
  foldr (fun h acc =>
           a ← acc;
           '(_, n) ← chain_walk (length (_descs v)) (_descs v) h 0;
           Some (n + a))
        (Some 0) (outstanding_heads v).

End Observers.

(** ** The ring invariant *)

Section Invariant.
Context {K : Type}.
Implicit Types (v : vring K) (ds : list desc.t) (fl : list Z) (cs : list (list Z)).

(** Consecutive descriptors of the free list are linked by [_next]. *)
Fixpoint free_path ds (l : list Z) : Prop :=
  match l with
  | [] => True
  | x :: l' =>
      (exists d, at_index ds x = Some d
                 /\ match l' with [] => True | y :: _ => desc._next d = y end)
      /\ free_path ds l'
  end.

(** The descriptors of a chain: linked by [_next] with [has_next] set, up
    to the last, where [has_next] is clear. *)
Fixpoint is_chain ds (c : list Z) : Prop :=
  match c with
  | [] => False
  | x :: c' =>
      exists d, at_index ds x = Some d
        /\ match c' with
           | [] => desc.has_next d = false
           | y :: _ => desc.has_next d = true /\ desc._next d = y /\ is_chain ds c'
           end
  end.

Definition free_rep v fl : Prop :=
  free_path (_descs v) fl
  /\ _free_head v = default (-1) (head fl)
  /\ _free_last v = default (-1) (last fl).

(** A descriptor that holds a buffer. *)
Definition desc_holds ds (x : Z) (b : buffer.t) : Prop :=
  exists d, at_index ds x = Some d
            /\ desc._paddr d = buffer.addr b /\ desc._len d = buffer.len b
            /\ desc.writeable d = buffer.writeable b.

(** The used elements that the host has published and the driver has not
    yet taken, oldest first. *)
Definition pending v : list used_elem.t :=
  map (fun j => default (used_elem.mk 0 0)
                  (at_index (used_elements v)
                     ((used_tail v + Z.of_nat j) mod size v)))
      (seq 0 (Z.to_nat (u16 (used_idx v - used_tail v)))).

(** A well-behaved host: what it has published and what it is going to
    publish are the heads of distinct chains with an outstanding
    completion. *)
Definition sched_ok v (hs : host_sched) : Prop :=
  NoDup (map used_elem._id (pending v ++ concat hs))
  /\ Forall (fun e => outstanding v (used_elem._id e)) (pending v ++ concat hs).

(** Ring sizes: powers of two up to 32768. *)
Definition conf_ok (conf : config.t) : Prop :=
  exists k, 0 <= k <= 15 /\ config.size conf = 2 ^ k.

(** [fl] is the free list in order, [cs] the chains with an outstanding
    completion: together they are all the descriptors, each once. *)
Record vring_inv v fl cs : Prop := mk_vring_inv {
  inv_conf : conf_ok (_config v);
  inv_descs_len : Z.of_nat (length (_descs v)) = size v;
  inv_completions_len : Z.of_nat (length (_completions v)) = size v;
  inv_used_len : Z.of_nat (length (used_elements v)) = size v;
  inv_used_tail : 0 <= used_tail v < 65536;
  inv_used_idx : 0 <= used_idx v < 65536;
  inv_free : free_rep v fl;
  inv_chains : Forall (is_chain (_descs v)) cs;
  inv_heads : forall h, outstanding v h <-> h ∈ omap head cs;
  inv_nodup : NoDup (fl ++ concat cs);
  inv_count : Z.of_nat (length (fl ++ concat cs)) = size v
}.

(** The fields that the invariant reads. *)
Definition same_core v v' : Prop :=
  _config v = _config v' /\ _descs v = _descs v'
  /\ _completions v = _completions v' /\ used_elements v = used_elements v'
  /\ used_tail v = used_tail v' /\ used_idx v = used_idx v'
  /\ _free_head v = _free_head v' /\ _free_last v = _free_last v'.

(** [v'] differs from [v] at most in what the host and [do_complete]
    write. *)
Definition frame_completion v v' : Prop :=
  v' = set_descs (_descs v')
         (set_completions (_completions v')
            (set_free_head (_free_head v')
               (set_free_last (_free_last v')
                  (set_used_tail (used_tail v')
                     (set_trace (trace v')
                        (set_avail_flags (avail_flags v')
                           (set_used_event (used_event v')
                              (set_used_idx (used_idx v')
                                 (set_used_elements (used_elements v') v))))))))).

(** [v'] differs from [v] in the descriptor table and the free list only. *)
Definition frame_descs v v' : Prop :=
  v' = set_descs (_descs v') (set_free_head (_free_head v') (set_free_last (_free_last v') v)).

(** The state of the loop over the buffers of one chain: [c] are the
    descriptors allocated so far, holding the buffers [done]. *)
Record building v fl cs c (done : list buffer.t) (pseudo : desc.t) (prev : option Z)
  : Prop := mk_building {
  bld_conf : conf_ok (_config v);
  bld_len : Z.of_nat (length (_descs v)) = size v;
  bld_free : free_rep v fl;
  bld_chains : Forall (is_chain (_descs v)) cs;
  bld_nodup : NoDup (fl ++ c ++ concat cs);
  bld_prev : prev = last c;
  bld_chain : c <> [] -> is_chain (_descs v) c /\ head c = Some (desc._next pseudo);
  bld_holds : Forall2 (desc_holds (_descs v)) c done
}.

(** [v'] differs from [v] only in what [complete_one] writes. *)
Definition frame_complete v v' : Prop :=
  v' = set_descs (_descs v')
         (set_completions (_completions v')
            (set_free_head (_free_head v')
               (set_free_last (_free_last v')
                  (set_used_tail (used_tail v') (set_trace (trace v') v))))).

(** Sums over lists of descriptors, and the length of the chain at [h]. *)
Definition sumZ (f : Z -> Z) (l : list Z) : Z := foldr (fun h a => f h + a) 0 l.

Definition chain_count ds (h : Z) : Z :=
  match chain_walk (length ds) ds h 0 with
  | Some (_, n) => n
  | None => 0
  end.

(** The arm word is set, then fenced, then [used.idx] was loaded. *)
Definition armed v : Prop :=
  (exists older,
     trace v
     = EvLoadUsedIdx (used_idx v) :: EvFence
       :: (if config.event_index (_config v)
           then EvStoreUsedEvent (used_tail v)
           else EvStoreAvailFlags 0)
       :: older)
  /\ (if config.event_index (_config v)
      then used_event v = used_tail v
      else interrupts_disabled v = false).

(** In interrupt mode nothing is batched. *)
Definition batch_ok v : Prop := _poll_mode v = false -> _batch v = [].

(** ** Reachable states

    The ring after construction, and after any sequence of driver
    operations and host steps.  The host is well behaved ([sched_ok]), the
    callers post chains that have at least one buffer, and an operation
    that aborts (a failed assertion) has no successor. *)
Inductive reachable (conf : config.t) (poll_mode : bool) : vring K -> Prop :=
| reach_new :
    reachable conf poll_mode (vring_new conf poll_mode)
| reach_host_publish v es :
    reachable conf poll_mode v -> sched_ok v [es] ->
    reachable conf poll_mode (host_publish es v)
| reach_host_flags v x :
    reachable conf poll_mode v -> reachable conf poll_mode (set_used_flags x v)
| reach_host_avail_event v x :
    reachable conf poll_mode v -> reachable conf poll_mode (set_avail_event x v)
| reach_semaphore v x :
    reachable conf poll_mode v ->
    reachable conf poll_mode (set_available_descriptors x v)
| reach_post v hs bcs v' hs' :
    reachable conf poll_mode v ->
    Forall (fun bc => bufs bc <> []) bcs ->
    (forall v1, post_chains v bcs = Some v1 -> sched_ok v1 hs) ->
    post hs v bcs = Some (v', hs') ->
    reachable conf poll_mode v'
| reach_do_complete v hs v' hs' :
    reachable conf poll_mode v -> sched_ok v hs ->
    do_complete hs v = Some (v', hs') ->
    reachable conf poll_mode v'
| reach_complete v hs v' hs' :
    reachable conf poll_mode v -> sched_ok v hs ->
    complete hs v = Some (v', hs') ->
    reachable conf poll_mode v'
| reach_flush_batch v :
    reachable conf poll_mode v -> reachable conf poll_mode (flush_batch v).

End Invariant.

(** ** A small ring for scenarios *)

(** Four descriptors, no EVENT_IDX, interrupt mode. *)
Definition conf4 : config.t := config.mk 0 64 4096 4 false false false.

(** A two-buffer read-only chain. *)
Definition chain2 : buffer_chain (K := unit) :=
  mk_chain [buffer.mk 1000 10 false; buffer.mk 2000 1500 false] tt.

(** The ring after [post] of that chain while the host stays quiet. *)
Definition ring_posted : vring unit :=
  (default (vring_new conf4 false, []) (post [] (vring_new conf4 false) [chain2])).1.

(** The re-arming race: nothing is published before the first load of
    [used.idx]; the host completes chain 0 after the driver has armed. *)
Definition race_sched : host_sched := [ []; [used_elem.mk 0 0] ].

Definition ring_raced : vring unit :=
  (default (ring_posted, []) (do_complete race_sched ring_posted)).1.


(** A transmit queue on that ring, and a packet of two fragments. *)
Definition txq4 : txq.t :=
  txq.mk (vring_new conf4 false) hw_all_on net_hdr.sizeof_net_hdr.

Definition packet2 : packet.t :=
  packet.mk [fragment.mk 8192 54; fragment.mk 12288 1000] offload_default [].


(** ** The events of [do_complete], by mode *)

Section ModeEvents.
Context {K : Type}.

(** What [do_complete] may do on a ring of the given mode: it loads
    [used.idx] and fulfils completions; an interrupt-driven ring also
    fences and stores its arm word, [avail.flags] without EVENT_IDX and
    [used_event] with it. *)
Definition mode_event (poll_mode event_index : bool) (e : event K) : bool :=
  match e with
  | EvLoadUsedIdx _ | EvSetValue _ _ _ => true
  | EvFence => negb poll_mode
  | EvStoreAvailFlags _ => negb poll_mode && negb event_index
  | EvStoreUsedEvent _ => negb poll_mode && event_index
  | _ => false
  end.

(** [v'] has the trace of [v] and, after it, events that satisfy [P]. *)
Definition trace_ext (P : event K -> bool) (v v' : vring K) : Prop :=
  exists t, trace v' = t ++ trace v /\ forallb P t = true.

End ModeEvents.


(** A polling ring of four descriptors, and three single-buffer chains. *)
Definition ring_polling : vring unit := vring_new conf4 true.

Definition chains3 : list (buffer_chain (K := unit)) :=
  [ mk_chain [buffer.mk 1000 10 false] tt;
    mk_chain [buffer.mk 2000 20 false] tt;
    mk_chain [buffer.mk 3000 30 false] tt ].


(** ** Features: [device::setup_features] and [qp_vhost::qp_vhost]

    Modelled from the spec: virtio-interface.hh and linux/if_tun.h are
    not part of the sources.  The spec names the feature bits and the
    tap offload flags; their values are left open. *)

Module virtio_interface.
Record t := mk {
  VIRTIO_RING_F_INDIRECT_DESC : Z;
  VIRTIO_RING_F_EVENT_IDX : Z;
  VIRTIO_NET_F_MRG_RXBUF : Z;
  VIRTIO_NET_F_CSUM : Z;
  VIRTIO_NET_F_GUEST_CSUM : Z;
  VIRTIO_NET_F_HOST_TSO4 : Z;
  VIRTIO_NET_F_GUEST_TSO4 : Z;
  VIRTIO_NET_F_HOST_UFO : Z;
  VIRTIO_NET_F_GUEST_UFO : Z;
  VIRTIO_NET_F_MAC : Z;
  TUN_F_CSUM : Z;
  TUN_F_TSO4 : Z;
  TUN_F_UFO : Z
}.
(** The feature bits are single bits of a 64-bit word, each its own. *)
Definition feature_bits (I : t) : list Z :=
  [ VIRTIO_RING_F_INDIRECT_DESC I; VIRTIO_RING_F_EVENT_IDX I;
    VIRTIO_NET_F_MRG_RXBUF I; VIRTIO_NET_F_CSUM I; VIRTIO_NET_F_GUEST_CSUM I;
    VIRTIO_NET_F_HOST_TSO4 I; VIRTIO_NET_F_GUEST_TSO4 I;
    VIRTIO_NET_F_HOST_UFO I; VIRTIO_NET_F_GUEST_UFO I; VIRTIO_NET_F_MAC I ].
Definition ok (I : t) : Prop :=
  exists ks : list Z,
    feature_bits I = map (fun k => 2 ^ k) ks
    /\ Forall (fun k => 0 <= k < 64) ks /\ NoDup ks.
(** The values of the virtio specification and of Linux, used as a test
    input. *)
Definition standard : t :=
  mk (2 ^ 28) (2 ^ 29) (2 ^ 15) (2 ^ 0) (2 ^ 1) (2 ^ 11) (2 ^ 7) (2 ^ 14) (2 ^ 10)
     (2 ^ 5) 1 2 16.
End virtio_interface.

(** [opts[name].as<std::string>()] ([None]: the exception of a failed
    cast). *)
Definition as_string (opts : gmap string opt_value) (name : string) : option string :=
  match opts !! name with
  | Some (VString s) => Some s
  | _ => None
  end.

(** [opts.count(name) && opts[name].as<std::string>() == "off"] *)
Definition option_is_off (opts : gmap string opt_value) (name : string)
  : option bool :=
  if negb (count opts name =? 0) then
    s ← as_string opts name; Some (String.eqb s "off")
  else Some false.

(** [device::setup_features]: the feature word and [_hw_features], whose
    [mtu] the function leaves as it was. *)
Definition setup_features (I : virtio_interface.t) (opts : gmap string opt_value)
    (_hw_features : hw_features.t) : option (Z * hw_features.t) :=
  let seastar_supported_features :=
    Z.lor (virtio_interface.VIRTIO_RING_F_INDIRECT_DESC I)
          (virtio_interface.VIRTIO_NET_F_MRG_RXBUF I) in
  off ← option_is_off opts "event-index";
  let seastar_supported_features :=
    if negb off
    then Z.lor seastar_supported_features (virtio_interface.VIRTIO_RING_F_EVENT_IDX I)
    else seastar_supported_features in
  off ← option_is_off opts "csum-offload";
  let seastar_supported_features :=
    if negb off
    then Z.lor seastar_supported_features
           (Z.lor (virtio_interface.VIRTIO_NET_F_CSUM I)
                  (virtio_interface.VIRTIO_NET_F_GUEST_CSUM I))
    else seastar_supported_features in
  let tx_csum_l4_offload := negb off in
  let rx_csum_offload := negb off in
  off ← option_is_off opts "tso";
  let seastar_supported_features :=
    if negb off
    then Z.lor (Z.lor seastar_supported_features
                      (virtio_interface.VIRTIO_NET_F_HOST_TSO4 I))
               (virtio_interface.VIRTIO_NET_F_GUEST_TSO4 I)
    else seastar_supported_features in
  let tx_tso := negb off in
  off ← option_is_off opts "ufo";
  let seastar_supported_features :=
    if negb off
    then Z.lor (Z.lor seastar_supported_features
                      (virtio_interface.VIRTIO_NET_F_HOST_UFO I))
               (virtio_interface.VIRTIO_NET_F_GUEST_UFO I)
    else seastar_supported_features in
  let tx_ufo := negb off in
  let seastar_supported_features :=
    Z.lor seastar_supported_features (virtio_interface.VIRTIO_NET_F_MAC I) in
  Some (u64 seastar_supported_features,
        hw_features.mk tx_csum_l4_offload rx_csum_offload tx_tso tx_ufo
          (hw_features.mtu _hw_features)).

(** [qp_vhost::qp_vhost]: the features set with VHOST_SET_FEATURES
    ([vhost_supported_features] is what VHOST_GET_FEATURES returned), the
    header length and the offload flags of TUNSETOFFLOAD. *)
Definition qp_vhost_features (features vhost_supported_features : Z) : Z :=
  Z.land vhost_supported_features features.

Definition qp_vhost_header_len (I : virtio_interface.t)
    (vhost_supported_features : Z) : Z :=
  header_len_of
    (negb (Z.land vhost_supported_features
             (virtio_interface.VIRTIO_NET_F_MRG_RXBUF I) =? 0)).

Definition qp_vhost_offload (I : virtio_interface.t) (hw : hw_features.t) : Z :=
  if hw_features.tx_csum_l4_offload hw && hw_features.rx_csum_offload hw then
    let offload := virtio_interface.TUN_F_CSUM I in
    let offload :=
      if hw_features.tx_tso hw
      then Z.lor offload (virtio_interface.TUN_F_TSO4 I) else offload in
    if hw_features.tx_ufo hw
    then Z.lor offload (virtio_interface.TUN_F_UFO I) else offload
  else 0.

(** The option was given as "off". *)
Definition opt_off (opts : gmap string opt_value) (name : string) : bool :=
  match opts !! name with
  | Some (VString s) => String.eqb s "off"
  | _ => false
  end.


(** A store to a slot of the available ring. *)
Definition is_ring_store {K : Type} (e : event K) : bool :=
  match e with
  | EvStoreAvailRing _ _ => true
  | _ => false
  end.

(** A store to the available ring: to a slot or to [avail.idx]. *)
Definition is_avail_store {K : Type} (e : event K) : bool :=
  match e with
  | EvStoreAvailRing _ _ | EvStoreAvailIdx _ => true
  | _ => false
  end.

(** ** Callers of [txq::post] that wait for descriptors

    Modelled from the spec: core/semaphore.hh and core/future.hh are not
    part of the sources.  "[available_descriptors().wait(n)] may suspend
    when the ring is full" and "packets handed to [txq.post] are posted to
    the host in call order": the semaphore keeps its suspended callers in
    a list, the oldest first.  [wait n] takes the permits at once only
    when nobody is waiting and the permits are there; otherwise the caller
    joins the list at its end.  After [signal] has returned permits, the
    callers at the front of the list are resumed one after the other, for
    as long as the permits cover what the first one asked for; the
    continuation of a resumed caller runs before any later call of
    [wait]. *)

Module tx_waiter.
(** What the continuation of [wait] captured: the packet, and where the
    packet keeps its header. *)
Record t := mk { vhdr_at : Z; p : packet.t }.
End tx_waiter.

Module tx_sending.
(** A transmit queue and the callers suspended in [wait], oldest first. *)
Record t := mk { q : txq.t; _wait_list : list tx_waiter.t }.
End tx_sending.

(** What the host finds when the chain of [p] has just been handed over
    (after the loop of [vring::post] over the chain, before [post] goes on
    to kick and to collect completions): the head handed over last, and
    the buffers it reads from there along [has_next]/[_next]. *)
Definition tx_seen (vhdr_at : Z) (t : txq.t) (p : packet.t)
  : option (Z * list buffer.t) :=
  let vbc := txq_chain t vhdr_at p in
  ring ← sem_wait (tx_completion.nr_frags (completed vbc)) (txq._ring t);
  v1 ← post_chains ring [vbc];
  h ← last (published v1);
  bs ← host_read_chain (length (_descs v1)) (_descs v1) h;
  Some (h, bs).

(** A caller whose continuation has run, with what the host found. *)
Definition publication : Type := tx_waiter.t * option (Z * list buffer.t).

(** [txq::post] for the caller [w], from the call of [wait] on. *)
Definition tx_continue (hs : host_sched) (t : txq.t) (w : tx_waiter.t)
  : outcome (txq.t * host_sched * publication) :=
  match txq_post (tx_waiter.vhdr_at w) hs t (tx_waiter.p w) with
  | Done (t', hs') =>
      Done (t', hs', (w, tx_seen (tx_waiter.vhdr_at w) t (tx_waiter.p w)))
  | Suspended => Suspended
  | Undefined => Undefined
  end.

(** A call of [txq::post]: behind the callers that wait already, or, when
    there are none, at once if the permits are there. *)
Definition tx_call (hs : host_sched) (s : tx_sending.t) (w : tx_waiter.t)
  : option (tx_sending.t * host_sched * list publication) :=
  match tx_sending._wait_list s with
  | [] =>
      match tx_continue hs (tx_sending.q s) w with
      | Done (t', hs', pub) => Some (tx_sending.mk t' [], hs', [pub])
      | Suspended => Some (tx_sending.mk (tx_sending.q s) [w], hs, [])
      | Undefined => None
      end
  | ws => Some (tx_sending.mk (tx_sending.q s) (ws ++ [w]), hs, [])
  end.

(** The caller at the front of the list is resumed: the permits cover
    what it asked for. *)
Definition tx_resume (hs : host_sched) (s : tx_sending.t)
  : option (tx_sending.t * host_sched * list publication) :=
  match tx_sending._wait_list s with
  | [] => None
  | w :: ws =>
      match tx_continue hs (tx_sending.q s) w with
      | Done (t', hs', pub) => Some (tx_sending.mk t' ws, hs', [pub])
      | _ => None
      end
  end.

(** The host is well behaved while the chain of [w] is posted. *)
Definition tx_host_ok (hs : host_sched) (t : txq.t) (w : tx_waiter.t) : Prop :=
  let vbc := txq_chain t (tx_waiter.vhdr_at w) (tx_waiter.p w) in
  forall ring v1,
    sem_wait (tx_completion.nr_frags (completed vbc)) (txq._ring t) = Some ring ->
    post_chains ring [vbc] = Some v1 -> sched_ok v1 hs.

(** The queue with another ring. *)
Definition tx_with_ring (s : tx_sending.t) (ring : vring tx_completion.t)
  : tx_sending.t :=
  tx_sending.mk
    (txq.mk ring (txq.hw (tx_sending.q s)) (txq._header_len (tx_sending.q s)))
    (tx_sending._wait_list s).

(** What a transmit queue goes through from the state [t0] on, nobody
    waiting at first: calls of [txq::post] ([calls] lists them in call
    order), continuations of completions (which [signal]), suspended
    callers being resumed, the interrupt-driven [complete] and the ticks
    of the poller.  [pubs] lists the callers whose continuation has run,
    in the order in which they ran. *)
Inductive tx_run (t0 : txq.t)
  : list tx_waiter.t -> tx_sending.t -> list publication -> Prop :=
| run_start :
    tx_run t0 [] (tx_sending.mk t0 []) []
| run_call calls s pubs hs w s' hs' out :
    tx_run t0 calls s pubs ->
    (tx_sending._wait_list s = [] -> tx_host_ok hs (tx_sending.q s) w) ->
    tx_call hs s w = Some (s', hs', out) ->
    tx_run t0 (calls ++ [w]) s' (pubs ++ out)
| run_signal calls s pubs k len :
    tx_run t0 calls s pubs ->
    tx_run t0 calls
      (tx_sending.mk (tx_completed (tx_sending.q s) k len) (tx_sending._wait_list s))
      pubs
| run_resume calls s pubs hs w s' hs' out :
    tx_run t0 calls s pubs ->
    head (tx_sending._wait_list s) = Some w ->
    tx_host_ok hs (tx_sending.q s) w ->
    tx_resume hs s = Some (s', hs', out) ->
    tx_run t0 calls s' (pubs ++ out)
| run_complete calls s pubs hs ring' hs' :
    tx_run t0 calls s pubs ->
    sched_ok (txq._ring (tx_sending.q s)) hs ->
    complete hs (txq._ring (tx_sending.q s)) = Some (ring', hs') ->
    tx_run t0 calls (tx_with_ring s ring') pubs
| run_poll calls s pubs hs ring' hs' :
    tx_run t0 calls s pubs ->
    sched_ok (flush_batch (txq._ring (tx_sending.q s))) hs ->
    poll_tick hs (txq._ring (tx_sending.q s)) = Some (ring', hs') ->
    tx_run t0 calls (tx_with_ring s ring') pubs.

(** Scenario: a ring of four descriptors.  The first packet takes three
    of them; the second, as large, has to wait; the third needs only the
    one descriptor that is left, and is called last. *)
Definition packet0 : packet.t := packet.mk [] offload_default [].

Definition waiter_a : tx_waiter.t := tx_waiter.mk 4096 packet2.
Definition waiter_b : tx_waiter.t := tx_waiter.mk 4200 packet2.
Definition waiter_c : tx_waiter.t := tx_waiter.mk 4300 packet0.


(** * Proofs *)

(** ** Fixed-width arithmetic *)

Lemma u16_range z : 0 <= u16 z < 65536.
Proof. unfold u16. change (2 ^ 16) with 65536. apply Z.mod_pos_bound. lia. Qed.

Lemma u16_small z : 0 <= z < 65536 -> u16 z = z.
Proof. intros H. unfold u16. change (2 ^ 16) with 65536. apply Z.mod_small. exact H. Qed.

Lemma u64_range z : 0 <= u64 z < 2 ^ 64.
Proof. unfold u64. apply Z.mod_pos_bound. lia. Qed.

Lemma u64_small z : 0 <= z < 2 ^ 64 -> u64 z = z.
Proof. intros H. unfold u64. apply Z.mod_small. exact H. Qed.

(** ** The kick policy *)

Section KickProofs.
Context {K : Type}.
Implicit Types v : vring K.

Lemma kick_threshold_val : kick_threshold = 32767.
Proof. reflexivity. Qed.

Lemma count_notify_emit_notify v :
  count_notify (trace (emit EvNotify v)) = S (count_notify (trace v)).
Proof. reflexivity. Qed.

(** The two ways [kick] can end. *)
Lemma kick_cases v :
  (kick v = set_avail_added_since_kick 0 (emit EvNotify (emit EvFence v))
   /\ kicked v)
  \/ (kick v = emit EvFence v /\ ~ kicked v).
Proof.
  unfold kicked, kick.
  destruct (config.event_index (_config (emit EvFence v))).
  - destruct (_ || _); [left | right]; split; try reflexivity; simpl; lia.
  - destruct (notifications_disabled (emit EvFence v)).
    + right. split; [reflexivity | simpl; lia].
    + simpl orb. left. split; [reflexivity | simpl; lia].
Qed.

(** When exactly the notifier is called, with EVENT_IDX negotiated. *)
Lemma kicked_event_idx v :
  config.event_index (_config v) = true ->
  kicked v <->
  (u16 (avail_idx v - avail_event v - 1) < avail_added_since_kick v
   \/ 32767 <= avail_added_since_kick v).
Proof.
  intros Hei. unfold kicked, kick. simpl. rewrite Hei.
  rewrite kick_threshold_val.
  destruct (u16 (avail_idx v - avail_event v - 1) <? avail_added_since_kick v)
    eqn:E1; simpl.
  - apply Z.ltb_lt in E1. split; [intros _; left; exact E1 | intros _; lia].
  - apply Z.ltb_ge in E1.
    destruct (32767 <=? avail_added_since_kick v) eqn:E2; simpl.
    + apply Z.leb_le in E2. split; [intros _; right; exact E2 | intros _; lia].
    + apply Z.leb_gt in E2. split; [intros H; exfalso; apply H; reflexivity | lia].
Qed.

(** When exactly the notifier is called, without EVENT_IDX. *)
Lemma kicked_no_event_idx v :
  config.event_index (_config v) = false ->
  kicked v <-> notifications_disabled v = false.
Proof.
  intros Hei. unfold kicked, kick. simpl. rewrite Hei.
  change (notifications_disabled (emit EvFence v)) with (notifications_disabled v).
  destruct (notifications_disabled v); simpl.
  - split; [intros H; exfalso; apply H; reflexivity | discriminate].
  - split; [reflexivity | intros _; lia].
Qed.

End KickProofs.

(** C1 (as stated) fails: with EVENT_IDX negotiated and [avail_event] equal
    to [avail.idx] the event-index condition is false, and yet the notifier
    is called, because 32767 chains were added since the last kick. *)
Lemma kick_iff_event_idx_condition_fails :
  config.event_index (_config ring_pinned) = true
  /\ avail_event ring_pinned = avail_idx ring_pinned
  /\ ~ (u16 (avail_idx ring_pinned - avail_event ring_pinned - 1)
        < avail_added_since_kick ring_pinned)
  /\ kicked ring_pinned.
Proof.
  split; [reflexivity |]. split; [reflexivity |]. split.
  - vm_compute. discriminate.
  - apply kicked_event_idx; [reflexivity |]. right. vm_compute. discriminate.
Qed.

(** C1 (amended): with EVENT_IDX negotiated, [kick] calls the notifier if
    and only if [(uint16_t)(avail.idx - avail_event - 1)] is below
    [avail_added_since_kick] or that counter has reached
    [(uint16_t)(~0) / 2 = 32767].  In particular a kick occurs when
    [avail_event = avail.idx - 1 - k] for some [0 <= k <
    avail_added_since_kick], and none occurs when [avail_event = avail.idx]
    and fewer than 32767 chains were added since the last kick. *)
Theorem kick_event_idx_policy {K : Type} (v : vring K) :
  config.event_index (_config v) = true ->
  0 <= avail_added_since_kick v < 65536 ->
  (kicked v <->
     (u16 (avail_idx v - avail_event v - 1) < avail_added_since_kick v
      \/ 32767 <= avail_added_since_kick v))
  /\ (forall k, 0 <= k < avail_added_since_kick v ->
        avail_event v = u16 (avail_idx v - 1 - k) -> kicked v)
  /\ (avail_event v = avail_idx v ->
        avail_added_since_kick v < 32767 -> ~ kicked v).
Proof.
  intros Hei Hrange. split; [apply kicked_event_idx; exact Hei |]. split.
  - intros k Hk Hev. apply kicked_event_idx; [exact Hei |]. left.
    rewrite Hev. unfold u16.
    replace (avail_idx v - (avail_idx v - 1 - k) mod 2 ^ 16 - 1)
      with (k + (avail_idx v - 1 - k - (avail_idx v - 1 - k) mod 2 ^ 16)) by lia.
    rewrite (Z.mod_eq (avail_idx v - 1 - k) (2 ^ 16)) by lia.
    replace (k + (avail_idx v - 1 - k
                  - (avail_idx v - 1 - k
                     - 2 ^ 16 * ((avail_idx v - 1 - k) / 2 ^ 16))))
      with (k + ((avail_idx v - 1 - k) / 2 ^ 16) * 2 ^ 16) by lia.
    rewrite Z.mod_add by lia. rewrite Z.mod_small; lia.
  - intros Hev Hlt Hk. apply kicked_event_idx in Hk; [| exact Hei].
    rewrite Hev in Hk.
    replace (avail_idx v - avail_idx v - 1) with (-1) in Hk by lia.
    change (u16 (-1)) with 65535 in Hk. lia.
Qed.

Lemma kick_event_idx_policy_witness :
  kicked ring_want_kick.
Proof.
  refine (proj1 (proj2 (kick_event_idx_policy ring_want_kick _ _)) 1 _ _).
  - reflexivity.
  - vm_compute. split; [discriminate | reflexivity].
  - vm_compute. split; [discriminate | reflexivity].
  - reflexivity.
Defined.

(** C7 (as stated) fails: without EVENT_IDX and with the host's NO_NOTIFY
    flag set, [kick] returns before it looks at the counter, however many
    chains were added. *)
Lemma kick_forced_regardless_fails :
  2 ^ 15 <= avail_added_since_kick ring_no_notify
  /\ ~ kicked ring_no_notify
  /\ avail_added_since_kick (kick ring_no_notify) = 2 ^ 15.
Proof.
  split; [vm_compute; discriminate |]. split; [| reflexivity].
  intros H. apply kicked_no_event_idx in H; [| reflexivity].
  vm_compute in H. discriminate.
Qed.

(** C7 (amended): when [avail_added_since_kick >= 2^15], [kick] calls the
    notifier if EVENT_IDX is negotiated (whatever the event-index
    condition) or the host's NO_NOTIFY flag is clear; with EVENT_IDX off
    and NO_NOTIFY set it returns without notifying and leaves the counter
    alone.  Whenever [kick] calls the notifier, the very next thing it
    does is reset [avail_added_since_kick] to zero. *)
Theorem kick_forced_policy {K : Type} (v : vring K) :
  (2 ^ 15 <= avail_added_since_kick v ->
     (config.event_index (_config v) = true
      \/ notifications_disabled v = false -> kicked v)
     /\ (config.event_index (_config v) = false ->
         notifications_disabled v = true ->
         ~ kicked v /\ kick v = emit EvFence v))
  /\ (kicked v ->
        kick v = set_avail_added_since_kick 0 (emit EvNotify (emit EvFence v))
        /\ avail_added_since_kick (kick v) = 0).
Proof.
  split.
  - intros Hbig. split.
    + intros [Hei | Hnn].
      * apply kicked_event_idx; [exact Hei |]. right.
        change (2 ^ 15) with 32768 in Hbig. lia.
      * destruct (config.event_index (_config v)) eqn:Hei.
        -- apply kicked_event_idx; [exact Hei |]. right.
           change (2 ^ 15) with 32768 in Hbig. lia.
        -- apply kicked_no_event_idx; assumption.
    + intros Hei Hnn.
      assert (Hk : ~ kicked v).
      { intros Hk. apply kicked_no_event_idx in Hk; [congruence | exact Hei]. }
      split; [exact Hk |].
      destruct (kick_cases v) as [[_ Hyes] | [Heq _]]; [contradiction | exact Heq].
  - intros Hk. destruct (kick_cases v) as [[Heq _] | [_ Hno]]; [| contradiction].
    split; [exact Heq | rewrite Heq; reflexivity].
Qed.

Lemma kick_forced_policy_witness :
  2 ^ 15 <= avail_added_since_kick ring_forced
  /\ kicked ring_forced
  /\ avail_added_since_kick (kick ring_forced) = 0.
Proof.
  assert (Hbig : 2 ^ 15 <= avail_added_since_kick ring_forced)
    by (vm_compute; discriminate).
  assert (Hk : kicked ring_forced).
  { exact (proj1 (proj1 (kick_forced_policy ring_forced) Hbig)
             (or_introl eq_refl)). }
  split; [exact Hbig |]. split; [exact Hk |].
  exact (proj2 (proj2 (kick_forced_policy ring_forced) Hk)).
Defined.

(** ** The virtio-net header of a transmitted packet *)

(** C6 (as stated) fails: with "csum-offload off" and TSO still on, an
    oversized TCP packet gets no GSO fields at all. *)
Lemma txq_vhdr_tso_without_csum_fails :
  hw_features.tx_tso hw_csum_off = true
  /\ offload_info.protocol oi_tcp = tcp
  /\ hw_features.mtu hw_csum_off + eth_hdr_len < 9000
  /\ net_hdr.gso_type (txq_vhdr hw_csum_off oi_tcp 9000) = net_hdr.gso_none
  /\ net_hdr.gso_type (txq_vhdr hw_csum_off oi_tcp 9000) <> net_hdr.gso_tcpv4.
Proof. repeat split; try reflexivity. vm_compute. discriminate. Qed.

(** C6 (amended): for a packet longer than [mtu + eth_hdr_len], if TX L4
    checksum offload is on and the TSO (TCP) or UFO (UDP) feature is on,
    the header gets [gso_type] GSO_TCPv4 or GSO_UDP, [hdr_len = eth_hdr_len
    + ip_hdr_len + l4_hdr_len] and [gso_size = mtu - ip_hdr_len -
    l4_hdr_len] as a 16-bit value (exactly that difference when the
    headers fit in the mtu).  A 9000-byte TCP segment with TSO and csum on
    and mtu 1500 gets needs_csum=1, csum_start=34, csum_offset=16,
    gso_type=GSO_TCPv4, hdr_len=54, gso_size=1460. *)
Theorem txq_vhdr_gso (hw : hw_features.t) (oi : offload_info.t) (plen : Z) :
  offload_typed hw oi ->
  hw_features.tx_csum_l4_offload hw = true ->
  hw_features.mtu hw + eth_hdr_len < plen ->
  let h := txq_vhdr hw oi plen in
  let ip := offload_info.ip_hdr_len oi in
  let mtu := hw_features.mtu hw in
  (offload_info.protocol oi = tcp -> hw_features.tx_tso hw = true ->
     let l4 := offload_info.tcp_hdr_len oi in
     net_hdr.gso_type h = net_hdr.gso_tcpv4
     /\ net_hdr.hdr_len h = eth_hdr_len + ip + l4
     /\ net_hdr.gso_size h = u16 (mtu - ip - l4)
     /\ (ip + l4 <= mtu -> net_hdr.gso_size h = mtu - ip - l4))
  /\ (offload_info.protocol oi = udp -> hw_features.tx_ufo hw = true ->
     let l4 := offload_info.udp_hdr_len oi in
     net_hdr.gso_type h = net_hdr.gso_udp
     /\ net_hdr.hdr_len h = eth_hdr_len + ip + l4
     /\ net_hdr.gso_size h = u16 (mtu - ip - l4)
     /\ (ip + l4 <= mtu -> net_hdr.gso_size h = mtu - ip - l4))
  /\ txq_vhdr hw_all_on oi_tcp 9000 = net_hdr.mk 1 0 net_hdr.gso_tcpv4 54 1460 34 16 0.
Proof.
  intros (Hip & Htcp & Hudp & Hmtu) Hcsum Hlen. cbv zeta.
  apply Z.ltb_lt in Hlen. unfold eth_hdr_len in *.
  split; [| split; [| reflexivity]].
  - intros Hp Htso. unfold txq_vhdr. rewrite Hcsum, Hp, Htso.
    unfold eth_hdr_len. rewrite Hlen. simpl andb.
    destruct (offload_info.needs_csum oi); simpl;
      (split; [reflexivity |]; split; [apply u16_small; lia |];
       split; [reflexivity | intros Hfit; apply u16_small; lia]).
  - intros Hp Hufo. unfold txq_vhdr. rewrite Hcsum, Hp, Hufo.
    unfold eth_hdr_len. rewrite Hlen. simpl andb.
    destruct (offload_info.needs_csum oi); simpl;
      (split; [reflexivity |]; split; [apply u16_small; lia |];
       split; [reflexivity | intros Hfit; apply u16_small; lia]).
Qed.

Lemma txq_vhdr_gso_witness :
  net_hdr.gso_type (txq_vhdr hw_all_on oi_udp 9000) = net_hdr.gso_udp
  /\ net_hdr.hdr_len (txq_vhdr hw_all_on oi_udp 9000) = 14 + 20 + 8
  /\ net_hdr.gso_size (txq_vhdr hw_all_on oi_udp 9000) = 1500 - 20 - 8.
Proof.
  assert (Ht : offload_typed hw_all_on oi_udp) by (vm_compute; intuition discriminate).
  assert (Hl : hw_features.mtu hw_all_on + eth_hdr_len < 9000) by reflexivity.
  destruct (proj1 (proj2 (txq_vhdr_gso hw_all_on oi_udp 9000 Ht eq_refl Hl))
              eq_refl eq_refl) as (H1 & H2 & _ & H4).
  split; [exact H1 |]. split; [exact H2 |]. apply H4. vm_compute. discriminate.
Defined.

(** ** Ring storage layout *)

Lemma align_up_add_pages (m c : Z) :
  align_up (m * 4096 + c) 4096 = m * 4096 + align_up c 4096.
Proof.
  unfold align_up.
  replace (m * 4096 + c + 4096 - 1) with (c + 4096 - 1 + m * 4096) by lia.
  rewrite Z.div_add by lia. lia.
Qed.

Lemma virtio_buffer_zeroed (size : Z) :
  length (virtio_buffer size) = Z.to_nat size
  /\ Forall (fun b => b = Byte.x00) (virtio_buffer size).
Proof.
  unfold virtio_buffer. split; [apply length_replicate |].
  apply Forall_replicate. reflexivity.
Qed.

(** C8: for a ring of size N (a power of two, at most 32768) in a
    page-aligned block, [common_config] puts the available ring at offset
    16 N and the used ring at offset [align_up (avail_offset + avail_size)
    4096] with [avail_size = 6 + N*2 + 2]; the block is [3*4096 + N*26]
    bytes, all zero. *)
Theorem ring_layout (ei_bit features storage N : Z) (k : Z) :
  0 <= k <= 15 -> N = 2 ^ k -> storage mod 4096 = 0 ->
  let avail_size := 6 + N * 2 + 2 in
  (forall r, r = txq_config ei_bit features storage N
             \/ r = rxq_config ei_bit features storage N ->
     config.size r = N
     /\ config.descs r = storage
     /\ config.avail r - storage = N * 16
     /\ config.used r - storage
        = align_up (config.avail r - storage + avail_size) 4096)
  /\ vring_storage_size N = 3 * 4096 + N * 26
  /\ length (virtio_buffer (vring_storage_size N)) = Z.to_nat (3 * 4096 + N * 26)
  /\ Forall (fun b => b = Byte.x00) (virtio_buffer (vring_storage_size N)).
Proof.
  intros Hk HN Hst. cbv zeta.
  assert (Hcases : k = 0 \/ k = 1 \/ k = 2 \/ k = 3 \/ k = 4 \/ k = 5 \/ k = 6
                   \/ k = 7 \/ k = 8 \/ k = 9 \/ k = 10 \/ k = 11 \/ k = 12
                   \/ k = 13 \/ k = 14 \/ k = 15) by lia.
  apply Z.div_exact in Hst; [| lia].
  set (m := storage / 4096) in *.
  assert (Hsz : vring_storage_size N = 3 * 4096 + N * 26).
  { unfold vring_storage_size. rewrite u64_small; [lia |].
    assert (0 < N <= 2 ^ 15).
    { subst N. split; [apply Z.pow_pos_nonneg; lia |].
      apply Z.pow_le_mono_r; lia. }
    change (2 ^ 15) with 32768 in *. change (2 ^ 64) with 18446744073709551616. lia. }
  split; [| split; [exact Hsz | rewrite Hsz; apply virtio_buffer_zeroed]].
  intros r Hr.
  assert (Hu32 : u32 N = N).
  { unfold u32. apply Z.mod_small. subst N.
    split; [apply Z.pow_nonneg; lia |].
    apply Z.lt_le_trans with (2 ^ 16); [apply Z.pow_lt_mono_r; lia | ].
    apply Z.pow_le_mono_r; lia. }
  assert (Hused :
    align_up (storage + 16 * N + 2 * N + 6) 4096 - storage
    = align_up (storage + 16 * N - storage + (6 + N * 2 + 2)) 4096).
  { rewrite Hst.
    replace (4096 * m + 16 * N + 2 * N + 6) with (m * 4096 + (18 * N + 6)) by lia.
    replace (4096 * m + 16 * N - 4096 * m + (6 + N * 2 + 2)) with (18 * N + 8) by lia.
    rewrite align_up_add_pages.
    assert (align_up (18 * N + 6) 4096 = align_up (18 * N + 8) 4096);
      [| lia].
    subst N.
    destruct Hcases as [-> | [-> | [-> | [-> | [-> | [-> | [-> | [-> | [-> |
      [-> | [-> | [-> | [-> | [-> | [-> | ->]]]]]]]]]]]]]]]; reflexivity. }
  assert (HN16 : 0 <= N < 2 ^ 16).
  { subst N. split; [apply Z.pow_nonneg; lia |]. apply Z.pow_lt_mono_r; lia. }
  assert (Hu16 : u32 (16 * N) = 16 * N).
  { unfold u32. apply Z.mod_small.
    change (2 ^ 16) with 65536 in HN16. change (2 ^ 32) with 4294967296. lia. }
  assert (Hu2 : u32 (2 * N) = 2 * N).
  { unfold u32. apply Z.mod_small.
    change (2 ^ 16) with 65536 in HN16. change (2 ^ 32) with 4294967296. lia. }
  destruct Hr as [-> | ->]; unfold txq_config, rxq_config, common_config;
    cbn [config.size config.descs config.avail config.used];
    rewrite Hu32, Hu16, Hu2; (split; [reflexivity |]; split; [reflexivity |];
                   split; [lia | exact Hused]).
Qed.

Lemma ring_layout_witness :
  config.used (rxq_config (2 ^ 29) 0 8192 256) - 8192
  = align_up (config.avail (rxq_config (2 ^ 29) 0 8192 256) - 8192
              + (6 + 256 * 2 + 2)) 4096.
Proof.
  assert (Hk : 0 <= 8 <= 15) by (split; discriminate).
  pose proof (proj1 (ring_layout (2 ^ 29) 0 8192 256 8 Hk eq_refl eq_refl)
                (rxq_config (2 ^ 29) 0 8192 256) (or_intror eq_refl)) as H.
  exact (proj2 (proj2 (proj2 H))).
Defined.

(** ** The ring-size option *)

Lemma store_lookup_default (user : gmap string opt_value) (k : string) (d : opt_value) :
  (list_to_map get_virtio_net_options_description : gmap string opt_value) !! k
  = Some d ->
  store user !! k = Some (default d (user !! k)).
Proof.
  intros Hd. unfold store. rewrite lookup_union, Hd.
  destruct (user !! k); reflexivity.
Qed.

(** C9: for an options map made from the driver's own description (so
    "event-index" is always present, "on" by default), [config_ring_size]
    returns the value of "virtio-ring-size" (256 unless the user gave
    another), and both rings of a vhost queue pair get that size. *)
Theorem config_ring_size_from_description (user : gmap string opt_value) :
  well_typed user ->
  exists n,
    store user !! "virtio-ring-size"%string = Some (VUnsigned n)
    /\ (user !! "virtio-ring-size"%string = None -> n = 256)
    /\ config_ring_size (store user) = Some n
    /\ qp_vhost_ring_sizes (store user) = Some (n, n)
    /\ forall ei_bit features rx_storage tx_storage,
         config.size (rxq_config ei_bit features rx_storage n) = n
         /\ config.size (txq_config ei_bit features tx_storage n) = n.
Proof.
  intros Hwt.
  assert (Hei : exists e, store user !! "event-index"%string = Some e).
  { eexists. apply (store_lookup_default user "event-index" (VString "on")).
    reflexivity. }
  destruct Hei as [e He].
  assert (Hrs : exists n,
             store user !! "virtio-ring-size"%string = Some (VUnsigned n)
             /\ (user !! "virtio-ring-size"%string = None -> n = 256)
             /\ 0 <= n < 2 ^ 32).
  { pose proof (store_lookup_default user "virtio-ring-size" (VUnsigned 256)
                  eq_refl) as Hs.
    destruct (user !! "virtio-ring-size"%string) as [v |] eqn:Hu.
    - destruct (Hwt _ _ Hu) as (d & Hd & Hty).
      assert (d = VUnsigned 256) by (vm_compute in Hd; congruence). subst d.
      destruct v as [s | n | b]; simpl in Hty; try discriminate.
      exists n. split; [exact Hs |]. split; [discriminate |]. lia.
    - exists 256. split; [exact Hs |]. split; [reflexivity |].
      split; [discriminate | reflexivity]. }
  destruct Hrs as (n & Hn & Hdef & Hrange). exists n.
  assert (Hc : config_ring_size (store user) = Some n).
  { unfold config_ring_size, count, as_unsigned. rewrite He, Hn. reflexivity. }
  split; [exact Hn |]. split; [exact Hdef |]. split; [exact Hc |].
  split; [unfold qp_vhost_ring_sizes; rewrite Hc; reflexivity |].
  intros. unfold rxq_config, txq_config, common_config; simpl.
  unfold u32. rewrite Z.mod_small by lia. split; reflexivity.
Qed.

Lemma config_ring_size_from_description_witness :
  exists n,
    config_ring_size (store {[ "virtio-ring-size"%string := VUnsigned 512 ]}) = Some n.
Proof.
  assert (Hwt : well_typed {[ "virtio-ring-size"%string := VUnsigned 512 ]}).
  { intros k v Hkv. apply lookup_singleton_Some in Hkv as [<- <-].
    exists (VUnsigned 256). split; reflexivity. }
  destruct (config_ring_size_from_description _ Hwt) as (n & _ & _ & Hn & _).
  exists n. exact Hn.
Defined.

(** ** Receive: reassembly of mergeable buffers *)

Section RxqProofs.
Variable header_len : Z.
Variable num_buffers_at : Z -> Z.

Local Abbreviation rx_completed := (rx_completed header_len num_buffers_at).
Local Abbreviation rx_completed_all := (rx_completed_all header_len num_buffers_at).

(** A buffer that is not the last of its packet is only recorded. *)
Lemma rx_completed_middle (q : rxq.t) (buf len : Z) :
  2 <= rxq._remaining_buffers q < 2 ^ 32 ->
  rx_completed q buf len
  = Some (rxq.mk (rxq._ring q) (rxq._remaining_buffers q - 1)
            (rxq._fragments q ++ [fragment.mk buf len])
            (rxq._deleters q ++ [buf]) (rxq.l2received q)).
Proof.
  intros Hr. unfold rx_completed.
  destruct (rxq._remaining_buffers q =? 0) eqn:E; [apply Z.eqb_eq in E; lia |].
  simpl. assert (Hu : u32 (rxq._remaining_buffers q - 1) = rxq._remaining_buffers q - 1).
  { unfold u32. apply Z.mod_small. lia. }
  rewrite Hu.
  destruct (rxq._remaining_buffers q - 1 =? 0) eqn:E'; [apply Z.eqb_eq in E'; lia |].
  reflexivity.
Qed.

(** The last buffer of a packet of several: the packet is delivered with
    all the buffers in its deleter, and the permits are returned. *)
Lemma rx_completed_last (q : rxq.t) (buf len : Z) :
  rxq._remaining_buffers q = 1 ->
  rxq._deleters q <> [] ->
  rx_completed q buf len
  = Some (rxq.mk
            (sem_signal (Z.of_nat (length (rxq._fragments q ++ [fragment.mk buf len])))
               (rxq._ring q))
            0 (rxq._fragments q ++ [fragment.mk buf len]) []
            (rxq.l2received q
               ++ [packet.mk (rxq._fragments q ++ [fragment.mk buf len])
                     offload_default (rxq._deleters q ++ [buf])])).
Proof.
  intros Hr Hd. unfold rx_completed. rewrite Hr. simpl.
  destruct (Z.of_nat (length (rxq._deleters q ++ [buf])) =? 1) eqn:E; [| reflexivity].
  apply Z.eqb_eq in E. rewrite length_app in E. simpl in E.
  destruct (rxq._deleters q); [contradiction | simpl in E; lia].
Qed.

(** The buffers after the first, up to the delivery. *)
Lemma rx_completed_rest (rest : list (Z * Z)) : forall q : rxq.t,
  rest <> [] ->
  rxq._remaining_buffers q = Z.of_nat (length rest) ->
  Z.of_nat (length rest) < 2 ^ 32 ->
  rxq._deleters q <> [] ->
  rx_completed_all q rest
  = Some (rxq.mk
            (sem_signal (Z.of_nat (length (rxq._fragments q ++ map frag_of rest)))
               (rxq._ring q))
            0 (rxq._fragments q ++ map frag_of rest) []
            (rxq.l2received q
               ++ [packet.mk (rxq._fragments q ++ map frag_of rest)
                     offload_default (rxq._deleters q ++ map fst rest)])).
Proof.
  induction rest as [| [buf len] tl IH]; intros q Hne Hr Hlt Hd; [contradiction |].
  destruct (decide (tl = [])) as [-> | Htl].
  - simpl. rewrite rx_completed_last by assumption. reflexivity.
  - assert (Hpos : (0 < length tl)%nat) by (destruct tl; [contradiction | simpl; lia]).
    change (rx_completed_all q ((buf, len) :: tl))
      with (rx_completed q buf len ≫= fun q' => rx_completed_all q' tl).
    rewrite rx_completed_middle.
    2:{ rewrite Hr. cbn [length] in *. lia. }
    cbn [mbind option_bind].
    rewrite IH; cbn [rxq._fragments rxq._deleters rxq._ring rxq.l2received
                     rxq._remaining_buffers].
    + cbn [map]. unfold frag_of at 3. cbn [fst snd].
      rewrite <- !app_assoc. reflexivity.
    + exact Htl.
    + rewrite Hr. cbn [length]. lia.
    + cbn [length] in *. lia.
    + intros H. apply app_eq_nil in H as [_ H]. discriminate.
Qed.

End RxqProofs.

(** C4: when the host completes M posted RX buffers and the header in the
    first says [num_buffers = M], the receive queue hands exactly one
    packet to [l2receive].  Its fragments are [{buf_1 + header_len, len_1 -
    header_len}] (in [size_t] arithmetic) and then [{buf_i, len_i}]; its
    deleter holds each of the M buffers once and the queue keeps none of
    them; M permits go back to the semaphore.  The lengths add up to
    [sum len_i - header_len] when [len_1] covers the header. *)
Theorem rx_mergeable_reassembly (header_len : Z) (num_buffers_at : Z -> Z)
    (q : rxq.t) (buf1 len1 : Z) (rest : list (Z * Z)) :
  rxq._remaining_buffers q = 0 ->
  num_buffers_at buf1 = Z.of_nat (S (length rest)) ->
  num_buffers_at buf1 < 2 ^ 16 ->
  let M := Z.of_nat (S (length rest)) in
  let frags := fragment.mk (buf1 + header_len) (u64 (len1 - header_len))
               :: map frag_of rest in
  let p := packet.mk frags offload_default (buf1 :: map fst rest) in
  exists q',
    rx_completed_all header_len num_buffers_at q ((buf1, len1) :: rest) = Some q'
    /\ rxq.l2received q' = rxq.l2received q ++ [p]
    /\ packet.nr_frags p = M
    /\ sem_current (rxq._ring q') = sem_current (rxq._ring q) + M
    /\ rxq._deleters q' = []
    /\ rxq._remaining_buffers q' = 0
    /\ (0 <= header_len <= len1 -> len1 < 2 ^ 64 ->
        packet.len p
        = len1 + foldr (fun bl n => bl.2 + n) 0 rest - header_len).
Proof.
  intros Hidle Hnum Hu16. cbv zeta.
  assert (Hlen : forall l, foldr (fun f n => fragment.size f + n) 0 (map frag_of l)
                           = foldr (fun bl n => bl.2 + n) 0 l).
  { induction l as [| a l IH]; simpl; [reflexivity | rewrite IH; reflexivity]. }
  assert (Htotal : 0 <= header_len <= len1 -> len1 < 2 ^ 64 ->
     packet.len (packet.mk (fragment.mk (buf1 + header_len) (u64 (len1 - header_len))
                            :: map frag_of rest) offload_default (buf1 :: map fst rest))
     = len1 + foldr (fun bl n => bl.2 + n) 0 rest - header_len).
  { intros Hh Hl. unfold packet.len. simpl. rewrite Hlen, u64_small; lia. }
  assert (Hnr : packet.nr_frags
                  (packet.mk (fragment.mk (buf1 + header_len) (u64 (len1 - header_len))
                              :: map frag_of rest) offload_default (buf1 :: map fst rest))
                = Z.of_nat (S (length rest))).
  { unfold packet.nr_frags. simpl. rewrite length_map. reflexivity. }
  cbn [rx_completed_all]. unfold rx_completed at 1. rewrite Hidle. simpl Z.eqb.
  cbv iota. rewrite Hnum.
  destruct (1 <=? Z.of_nat (S (length rest))) eqn:E1; [| apply Z.leb_gt in E1; lia].
  cbn [mbind option_bind].
  assert (Hu : u32 (Z.of_nat (S (length rest)) - 1) = Z.of_nat (length rest)).
  { unfold u32. rewrite Z.mod_small; [lia |].
    rewrite Hnum in Hu16. change (2 ^ 16) with 65536 in Hu16.
    change (2 ^ 32) with 4294967296. lia. }
  rewrite Hu.
  destruct rest as [| bl tl].
  - (* M = 1: the single buffer goes into a free deleter *)
    simpl. eexists. split; [reflexivity |].
    cbn [rxq.l2received rxq._ring rxq._deleters rxq._remaining_buffers].
    split; [reflexivity |]. split; [reflexivity |].
    split; [reflexivity |]. split; [reflexivity |]. split; [reflexivity |].
    exact Htotal.
  - destruct (Z.of_nat (length (bl :: tl)) =? 0) eqn:E2;
      [apply Z.eqb_eq in E2; simpl in E2; lia |].
    cbn [mbind option_bind].
    rewrite rx_completed_rest; cbn [rxq._fragments rxq._deleters rxq._ring
                                   rxq.l2received rxq._remaining_buffers].
    + eexists. split; [reflexivity |].
      cbn [rxq.l2received rxq._ring rxq._deleters rxq._remaining_buffers].
      split; [reflexivity |]. split; [exact Hnr |].
      split.
      { unfold sem_current, sem_signal. simpl.
        rewrite length_map. reflexivity. }
      split; [reflexivity |]. split; [reflexivity |]. exact Htotal.
    + discriminate.
    + reflexivity.
    + rewrite Hnum in Hu16. change (2 ^ 16) with 65536 in Hu16.
      change (2 ^ 32) with 4294967296. cbn [length] in *. lia.
    + discriminate.
Qed.

(** The spec's scenario: buffers at 40960 and 45056, 4096 and 2048 bytes
    written, a 12-byte header. *)
Lemma rx_mergeable_reassembly_witness :
  exists q',
    rx_completed_all 12 two_buffers rxq_idle [(40960, 4096); (45056, 2048)] = Some q'
    /\ rxq.l2received q'
       = [packet.mk [fragment.mk 40972 4084; fragment.mk 45056 2048]
            offload_default [40960; 45056]]
    /\ sem_current (rxq._ring q') = 256 + 2.
Proof.
  destruct (rx_mergeable_reassembly 12 two_buffers rxq_idle 40960 4096
              [(45056, 2048)] eq_refl eq_refl eq_refl)
    as (q' & H1 & H2 & _ & H4 & _).
  exists q'. split; [exact H1 |]. split; [exact H2 | exact H4].
Defined.

(** C10: the length of a packet's first fragment is [len - header_len] in
    unsigned 64-bit arithmetic, whatever [len] the host reports: no path
    compares [len] with [header_len].  The difference is exact when [len
    >= header_len]; a smaller [len] does not stop the completion but wraps
    to [2^64 + len - header_len]. *)
Theorem rx_first_fragment_unguarded (mrg_rxbuf : bool) (num_buffers_at : Z -> Z)
    (q : rxq.t) (buf len : Z) :
  rxq._remaining_buffers q = 0 ->
  1 <= num_buffers_at buf < 2 ^ 16 ->
  0 <= len < 2 ^ 32 ->
  let header_len := header_len_of mrg_rxbuf in
  exists q' first,
    rx_completed header_len num_buffers_at q buf len = Some q'
    /\ head (rxq._fragments q') = Some first
    /\ fragment.base first = buf + header_len
    /\ fragment.size first = u64 (len - header_len)
    /\ (header_len <= len -> fragment.size first = len - header_len)
    /\ (len < header_len ->
        fragment.size first = 2 ^ 64 + len - header_len
        /\ 2 ^ 64 - 12 <= fragment.size first).
Proof.
  intros Hidle Hnum Hlen. cbv zeta.
  assert (Hh : header_len_of mrg_rxbuf = 10 \/ header_len_of mrg_rxbuf = 12).
  { destruct mrg_rxbuf; [right | left]; reflexivity. }
  set (hl := header_len_of mrg_rxbuf) in *.
  assert (Hwrap : (hl <= len -> u64 (len - hl) = len - hl)
                  /\ (len < hl -> u64 (len - hl) = 2 ^ 64 + len - hl
                                  /\ 2 ^ 64 - 12 <= u64 (len - hl))).
  { change (2 ^ 32) with 4294967296 in Hlen. split.
    - intros H. apply u64_small. change (2 ^ 64) with 18446744073709551616. lia.
    - intros H.
      assert (E : u64 (len - hl) = 2 ^ 64 + len - hl).
      { unfold u64. replace (len - hl) with (2 ^ 64 + len - hl + (-1) * 2 ^ 64) by lia.
        rewrite Z.mod_add by lia. apply Z.mod_small.
        change (2 ^ 64) with 18446744073709551616. lia. }
      rewrite E. change (2 ^ 64) with 18446744073709551616. lia. }
  unfold rx_completed. rewrite Hidle. simpl Z.eqb. cbv iota.
  destruct (1 <=? num_buffers_at buf) eqn:E1; [| apply Z.leb_gt in E1; lia].
  cbn [mbind option_bind app].
  destruct (u32 (num_buffers_at buf - 1) =? 0);
    (eexists; eexists; split; [reflexivity |]; cbn;
     split; [reflexivity |]; split; [reflexivity |]; split; [reflexivity |];
     exact Hwrap).
Qed.

Lemma rx_first_fragment_unguarded_witness :
  exists q' first,
    rx_completed 12 one_buffer rxq_idle 40960 4 = Some q'
    /\ head (rxq._fragments q') = Some first
    /\ fragment.size first = 2 ^ 64 - 8.
Proof.
  assert (Hn : 1 <= one_buffer 40960 < 2 ^ 16) by (split; [discriminate | reflexivity]).
  assert (Hl : 0 <= 4 < 2 ^ 32) by (split; [discriminate | reflexivity]).
  destruct (rx_first_fragment_unguarded true one_buffer rxq_idle 40960 4
              eq_refl Hn Hl) as (q' & first & H1 & H2 & _ & _ & _ & H6).
  exists q', first. split; [exact H1 |]. split; [exact H2 |].
  destruct H6 as [H6 _]; [reflexivity |]. rewrite H6. reflexivity.
Defined.

(** ** Array accesses *)

Section AtIndex.
Context {A : Type}.
Implicit Types (l : list A) (i p : Z).

Lemma at_index_Some l i x :
  at_index l i = Some x <-> 0 <= i /\ l !! Z.to_nat i = Some x.
Proof.
  unfold at_index. split.
  - destruct (0 <=? i) eqn:E1; [| discriminate].
    destruct (i <? Z.of_nat (length l)) eqn:E2; [| discriminate]. simpl.
    apply Z.leb_le in E1. auto.
  - intros [H0 Hl]. pose proof (lookup_lt_Some _ _ _ Hl) as Hlt.
    destruct (0 <=? i) eqn:E1; [| apply Z.leb_gt in E1; lia].
    destruct (i <? Z.of_nat (length l)) eqn:E2; [exact Hl |].
    apply Z.ltb_ge in E2. lia.
Qed.

Lemma at_index_range l i x :
  at_index l i = Some x -> 0 <= i < Z.of_nat (length l).
Proof.
  intros H. apply at_index_Some in H as [H0 Hl].
  apply lookup_lt_Some in Hl. lia.
Qed.

Lemma at_index_is_Some l i :
  0 <= i < Z.of_nat (length l) -> exists x, at_index l i = Some x.
Proof.
  intros H. destruct (lookup_lt_is_Some_2 l (Z.to_nat i)) as [x Hx]; [lia |].
  exists x. apply at_index_Some. split; [lia | exact Hx].
Qed.

Lemma at_index_alter_eq l i (f : A -> A) :
  at_index (alter f (Z.to_nat i) l) i = f <$> at_index l i.
Proof.
  unfold at_index. rewrite length_alter.
  destruct ((0 <=? i) && (i <? Z.of_nat (length l))); [| reflexivity].
  apply list_lookup_alter_eq.
Qed.

Lemma at_index_alter_ne l i p (f : A -> A) :
  0 <= p -> i <> p ->
  at_index (alter f (Z.to_nat p) l) i = at_index l i.
Proof.
  intros Hp Hne. unfold at_index. rewrite length_alter.
  destruct (0 <=? i) eqn:E; [| reflexivity]. apply Z.leb_le in E.
  destruct (i <? Z.of_nat (length l)); [| reflexivity]. simpl.
  apply list_lookup_alter_ne. lia.
Qed.

Lemma at_index_insert_eq l i x :
  0 <= i < Z.of_nat (length l) ->
  at_index (<[Z.to_nat i := x]> l) i = Some x.
Proof.
  intros H. apply at_index_Some. split; [lia |].
  apply list_lookup_insert_eq. lia.
Qed.

Lemma at_index_insert_ne l i p x :
  0 <= p -> i <> p ->
  at_index (<[Z.to_nat p := x]> l) i = at_index l i.
Proof.
  intros Hp Hne. unfold at_index. rewrite length_insert.
  destruct (0 <=? i) eqn:E; [| reflexivity]. apply Z.leb_le in E.
  destruct (i <? Z.of_nat (length l)); [| reflexivity]. simpl.
  apply list_lookup_insert_ne. lia.
Qed.

End AtIndex.

(** ** Lists of descriptors: free list and chains *)

Lemma elem_of_concat {A : Type} (x : A) (lss : list (list A)) :
  x ∈ concat lss <-> exists l, x ∈ l /\ l ∈ lss.
Proof.
  induction lss as [| l lss IH]; simpl.
  - split; [intros H; inversion H | intros (l & _ & H); inversion H].
  - rewrite elem_of_app, IH. split.
    + intros [H | (l' & H1 & H2)]; [exists l | exists l'];
        (split; [assumption |]); [left | right; exact H2].
    + intros (l' & H1 & H2). apply elem_of_cons in H2 as [-> | H2];
        [left; exact H1 | right; eauto].
Qed.

Section Paths.
Implicit Types (ds : list desc.t) (l c : list Z).

Lemma free_path_range ds l x :
  free_path ds l -> x ∈ l -> 0 <= x < Z.of_nat (length ds).
Proof.
  induction l as [| y l IH]; intros Hp Hx; [inversion Hx |].
  destruct Hp as [(d & Hd & _) Hp'].
  apply elem_of_cons in Hx as [-> | Hx]; [exact (at_index_range _ _ _ Hd) | auto].
Qed.

Lemma is_chain_free_path ds c : is_chain ds c -> free_path ds c.
Proof.
  induction c as [| x c IH]; [intros [] |].
  intros (d & Hd & Hrest). destruct c as [| y c'].
  - split; [exists d; auto | exact I].
  - destruct Hrest as (_ & Hn & Hc). split; [exists d; auto | auto].
Qed.

Lemma is_chain_range ds c x :
  is_chain ds c -> x ∈ c -> 0 <= x < Z.of_nat (length ds).
Proof. intros Hc. apply free_path_range, is_chain_free_path, Hc. Qed.

Lemma is_chain_nonempty ds c : is_chain ds c -> c <> [].
Proof. destruct c; [intros [] | discriminate]. Qed.

(** Writing a descriptor outside a list leaves the list as it was. *)
Lemma free_path_frame ds ds' l :
  (forall x, x ∈ l -> at_index ds' x = at_index ds x) ->
  free_path ds l -> free_path ds' l.
Proof.
  induction l as [| x l IH]; intros Hsame Hp; [exact I |].
  destruct Hp as [(d & Hd & Hn) Hp']. split.
  - exists d. rewrite Hsame by (left). auto.
  - apply IH; [| exact Hp']. intros y Hy. apply Hsame. right. exact Hy.
Qed.

Lemma is_chain_frame ds ds' c :
  (forall x, x ∈ c -> at_index ds' x = at_index ds x) ->
  is_chain ds c -> is_chain ds' c.
Proof.
  induction c as [| x c IH]; intros Hsame Hc; [exact Hc |].
  destruct Hc as (d & Hd & Hrest). exists d.
  rewrite Hsame by (left). split; [exact Hd |].
  destruct c as [| y c']; [exact Hrest |].
  destruct Hrest as (Hh & Hn & Hc). repeat split; auto.
  apply IH; [| exact Hc]. intros z Hz. apply Hsame. right. exact Hz.
Qed.

(** Joining two paths needs the link between them. *)
Lemma free_path_app ds l1 l2 :
  free_path ds l1 -> free_path ds l2 ->
  (forall x y, last l1 = Some x -> head l2 = Some y ->
     exists d, at_index ds x = Some d /\ desc._next d = y) ->
  free_path ds (l1 ++ l2).
Proof.
  induction l1 as [| x l1 IH]; intros H1 H2 Hlink; [exact H2 |].
  destruct H1 as [(d & Hd & Hn) H1']. simpl. split.
  - destruct l1 as [| y l1'].
    + simpl. destruct l2 as [| y l2']; [exists d; auto |].
      destruct (Hlink x y eq_refl eq_refl) as (d' & Hd' & Hn').
      exists d'. auto.
    + exists d. auto.
  - apply IH; [exact H1' | exact H2 |].
    intros a b Ha Hb. apply Hlink; [| exact Hb].
    destruct l1; [discriminate | exact Ha].
Qed.

Lemma free_path_app_inv ds l1 l2 :
  free_path ds (l1 ++ l2) -> free_path ds l1 /\ free_path ds l2.
Proof.
  induction l1 as [| x l1 IH]; intros H; [split; [exact I | exact H] |].
  destruct H as [(d & Hd & Hn) H']. apply IH in H' as [H1 H2].
  split; [| exact H2]. split; [| exact H1].
  exists d. split; [exact Hd |]. destruct l1; [exact I | exact Hn].
Qed.

Lemma default_last_cons (x y : Z) l : default x (last (y :: l)) = default y (last l).
Proof. rewrite last_cons. destruct (last l); reflexivity. Qed.

(** The walk of [do_complete] along a chain ends at its last descriptor
    and counts its descriptors. *)
Lemma chain_walk_is_chain ds c : forall (fuel : nat) (n : Z) x,
  is_chain ds (x :: c) -> (length c < fuel)%nat ->
  chain_walk fuel ds x n
  = Some (default x (last c), n + Z.of_nat (S (length c))).
Proof.
  induction c as [| y c IH]; intros fuel n x (d & Hd & Hrest) Hfuel;
    (destruct fuel as [| fuel]; [simpl in Hfuel; lia |]); simpl; rewrite Hd; simpl.
  - rewrite Hrest. reflexivity.
  - destruct Hrest as (Hh & Hn & Hc). rewrite Hh, Hn.
    rewrite (IH fuel (n + 1) y Hc) by (simpl in Hfuel; lia).
    rewrite <- (default_last_cons x y c).
    replace (n + 1 + Z.of_nat (S (length c)))
      with (n + Z.of_nat (S (length (y :: c)))) by (simpl length; lia).
    reflexivity.
Qed.

(** The host reads along the same links. *)
Lemma free_walk_free_path ds l : forall (fuel : nat) x,
  free_path ds (x :: l) -> NoDup (x :: l) -> (length l < fuel)%nat ->
  free_walk fuel ds x (default x (last l)) = Some (Z.of_nat (S (length l))).
Proof.
  induction l as [| y l IH]; intros fuel x [(d & Hd & Hn) Hp] Hnd Hfuel;
    (destruct fuel as [| fuel]; [simpl in Hfuel; lia |]); simpl; rewrite Hd; simpl.
  - rewrite Z.eqb_refl. reflexivity.
  - assert (Hne : x <> default y (last l)).
    { apply NoDup_cons in Hnd as [Hx _]. intros ->. apply Hx.
      destruct (last l) as [z |] eqn:El; simpl.
      - right. apply last_Some_elem_of. exact El.
      - left. }
    rewrite (default_last_cons x y l). apply Z.eqb_neq in Hne. rewrite Hne, Hn.
    rewrite (IH fuel y Hp) by (try (apply NoDup_cons in Hnd; tauto); simpl in Hfuel; lia).
    simpl. f_equal. simpl length. lia.
Qed.

End Paths.

(** ** The invariant: construction *)

Section InvariantInit.
Context {K : Type}.
Implicit Types (v : vring K) (ds : list desc.t) (fl : list Z) (cs : list (list Z)).

Lemma same_core_refl v : same_core v v.
Proof. repeat split. Qed.

Lemma same_core_trans v1 v2 v3 : same_core v1 v2 -> same_core v2 v3 -> same_core v1 v3.
Proof.
  unfold same_core.
  intros (?&?&?&?&?&?&?&?) (?&?&?&?&?&?&?&?). repeat split; congruence.
Qed.

Lemma same_core_outstanding v v' h :
  same_core v v' -> outstanding v h <-> outstanding v' h.
Proof. intros (_&_&Hc&_). unfold outstanding. rewrite Hc. reflexivity. Qed.

Lemma same_core_pending v v' : same_core v v' -> pending v = pending v'.
Proof.
  intros (Hcf&_&_&Hu&Ht&Hi&_). unfold pending, size. rewrite Hcf, Hu, Ht, Hi.
  reflexivity.
Qed.

Lemma same_core_sched_ok v v' hs : same_core v v' -> sched_ok v hs -> sched_ok v' hs.
Proof.
  intros Hs [H1 H2]. unfold sched_ok. rewrite <- (same_core_pending v v' Hs).
  split; [exact H1 |]. eapply Forall_impl; [exact H2 |].
  intros e. apply (same_core_outstanding v v' _ Hs).
Qed.

Lemma same_core_inv v v' fl cs : same_core v v' -> vring_inv v fl cs -> vring_inv v' fl cs.
Proof.
  intros Hs Hinv. pose proof Hs as (Hcf&Hd&Hc&Hu&Ht&Hi&Hfh&Hfl).
  destruct Hinv. constructor; unfold size, free_rep in *;
    rewrite <- ?Hcf, <- ?Hd, <- ?Hc, <- ?Hu, <- ?Ht, <- ?Hi, <- ?Hfh, <- ?Hfl;
    try assumption.
  intros h. rewrite <- (same_core_outstanding v v' h Hs). auto.
Qed.

Lemma conf_ok_size (conf : config.t) :
  conf_ok conf -> 0 < config.size conf <= 32768.
Proof.
  intros (k & Hk & ->). split; [apply Z.pow_pos_nonneg; lia |].
  change 32768 with (2 ^ 15). apply Z.pow_le_mono_r; lia.
Qed.

(** [masked] is the remainder modulo the ring size. *)
Lemma masked_mod v x : conf_ok (_config v) -> masked v x = x mod size v.
Proof.
  intros (k & Hk & Hsz). unfold masked, mask, size. rewrite Hsz.
  replace (2 ^ k - 1) with (Z.ones k) by (rewrite Z.ones_equiv; lia).
  apply Z.land_ones. lia.
Qed.

Lemma size_divides_u16 v : conf_ok (_config v) -> (size v | 65536).
Proof.
  intros (k & Hk & Hsz). unfold size. rewrite Hsz.
  exists (2 ^ (16 - k)). rewrite <- Z.pow_add_r by lia.
  replace (16 - k + k) with 16 by lia. reflexivity.
Qed.

Lemma u16_mod_size v x : conf_ok (_config v) -> u16 x mod size v = x mod size v.
Proof.
  intros Hc. unfold u16. change (2 ^ 16) with 65536.
  apply Z.mod_mod_divide, size_divides_u16, Hc.
Qed.

(** The loop of [setup]. *)
Lemma setup_descs_lookup (n : nat) : forall (a : nat) ds (i : nat),
  foldl (fun ds j => alter (desc.set_next (u16 (Z.of_nat j + 1))) j ds) ds (seq a n) !! i
  = if decide (a <= i < a + n)%nat
    then desc.set_next (u16 (Z.of_nat i + 1)) <$> ds !! i
    else ds !! i.
Proof.
  induction n as [| n IH]; intros a ds i; simpl.
  - destruct (decide _); [lia | reflexivity].
  - rewrite IH. destruct (decide (a = i)) as [-> | Hne].
    + rewrite list_lookup_alter_eq.
      destruct (decide (S i <= i < S i + n)%nat); [lia |].
      destruct (decide (i <= i < i + S n)%nat); [reflexivity | lia].
    + rewrite list_lookup_alter_ne by exact Hne.
      destruct (decide (S a <= i < S a + n)%nat), (decide (a <= i < a + S n)%nat);
        try reflexivity; lia.
Qed.

Lemma setup_descs_length (n : nat) : forall (a : nat) ds,
  length (foldl (fun ds j => alter (desc.set_next (u16 (Z.of_nat j + 1))) j ds)
                ds (seq a n)) = length ds.
Proof.
  induction n as [| n IH]; intros a ds; simpl; [reflexivity |].
  rewrite IH. apply length_alter.
Qed.

Lemma free_path_seqZ ds (n : nat) : forall a,
  (forall i, a <= i < a + Z.of_nat n ->
     exists d, at_index ds i = Some d /\ desc._next d = i + 1) ->
  free_path ds (seqZ a (Z.of_nat n)).
Proof.
  induction n as [| n IH]; intros a H; [exact I |].
  rewrite seqZ_cons by lia.
  replace (Z.pred (Z.of_nat (S n))) with (Z.of_nat n) by lia.
  split.
  - destruct (H a) as (d & Hd & Hn); [lia |]. exists d. split; [exact Hd |].
    destruct n as [| n']; [exact I |].
    rewrite seqZ_cons by lia. lia.
  - apply IH. intros i Hi. apply H. lia.
Qed.

Lemma head_seqZ a (n : nat) : head (seqZ a (Z.of_nat (S n))) = Some a.
Proof. rewrite seqZ_cons by lia. reflexivity. Qed.

Lemma last_seqZ a (n : nat) : last (seqZ a (Z.of_nat (S n))) = Some (a + Z.of_nat n).
Proof. rewrite seqZ_S. apply last_snoc. Qed.

(** The state after construction: every descriptor [i] points to [i + 1],
    the free list is 0, 1, ..., N-1, nothing is outstanding. *)
Lemma vring_new_descs (conf : config.t) (poll_mode : bool) (i : Z) :
  conf_ok conf -> 0 <= i < config.size conf ->
  at_index (_descs (vring_new (K := K) conf poll_mode)) i
  = Some (desc.set_next (i + 1) desc.zero).
Proof.
  intros Hc Hi. pose proof (conf_ok_size _ Hc) as Hsz.
  apply at_index_Some. split; [lia |].
  unfold vring_new, setup. simpl. unfold size. simpl.
  rewrite setup_descs_lookup.
  destruct (decide _) as [_ | Hn]; [| lia].
  rewrite lookup_replicate_2 by lia. simpl.
  rewrite Z2Nat.id by lia. rewrite u16_small by lia. reflexivity.
Qed.

Lemma vring_new_inv (conf : config.t) (poll_mode : bool) :
  conf_ok conf ->
  vring_inv (vring_new (K := K) conf poll_mode) (seqZ 0 (config.size conf)) [].
Proof.
  intros Hc. pose proof (conf_ok_size _ Hc) as Hsz.
  set (n := Z.to_nat (config.size conf)).
  assert (Hn : config.size conf = Z.of_nat (S (pred n))) by lia.
  constructor.
  - exact Hc.
  - unfold vring_new, setup, size. simpl. fold n.
    rewrite setup_descs_length, length_replicate. lia.
  - unfold vring_new, setup, size. simpl. rewrite length_replicate. lia.
  - unfold vring_new, setup, size. simpl. rewrite length_replicate. lia.
  - simpl. lia.
  - simpl. lia.
  - split; [| split].
    + rewrite <- (Z2Nat.id (config.size conf)) by lia.
      apply free_path_seqZ. intros i Hi.
      exists (desc.set_next (i + 1) desc.zero). split; [| reflexivity].
      apply vring_new_descs; [exact Hc | lia].
    + rewrite Hn, head_seqZ. reflexivity.
    + rewrite Hn, last_seqZ. unfold vring_new, setup, size. simpl. lia.
  - constructor.
  - intros h. split.
    + intros [k Hk]. apply at_index_Some in Hk as [_ Hk].
      unfold vring_new, setup in Hk. simpl in Hk.
      apply lookup_replicate in Hk as [Hk _]. discriminate.
    + intros Hin. inversion Hin.
  - simpl. rewrite app_nil_r. apply NoDup_seqZ.
  - simpl. rewrite app_nil_r, length_seqZ. unfold vring_new, setup, size. simpl. lia.
Qed.

End InvariantInit.

(** ** The invariant: allocating descriptors and building a chain *)

Section InvariantPost.
Context {K : Type}.
Implicit Types (v : vring K) (ds : list desc.t) (fl c : list Z) (cs : list (list Z)).

Lemma frame_descs_refl v : frame_descs v v.
Proof. unfold frame_descs. destruct v; reflexivity. Qed.

Lemma frame_descs_trans v1 v2 v3 :
  frame_descs v1 v2 -> frame_descs v2 v3 -> frame_descs v1 v3.
Proof.
  unfold frame_descs. intros H12 H23. rewrite H23 at 1. rewrite H12 at 1.
  reflexivity.
Qed.

Lemma free_rep_head_range v x fl :
  free_rep v (x :: fl) -> 0 <= x < Z.of_nat (length (_descs v)).
Proof. intros [Hp _]. apply (free_path_range _ _ x Hp). left. Qed.

(** [allocate_desc] pops the head of the free list, and fails on an empty
    list. *)
Lemma allocate_desc_nil v : free_rep v [] -> allocate_desc v = None.
Proof. intros (_ & Hh & _). unfold allocate_desc. rewrite Hh. reflexivity. Qed.

Lemma allocate_desc_cons v x fl :
  free_rep v (x :: fl) -> NoDup (x :: fl) ->
  exists v', allocate_desc v = Some (x, v')
             /\ free_rep v' fl /\ _descs v' = _descs v /\ frame_descs v v'.
Proof.
  intros Hrep Hnd. pose proof (free_rep_head_range _ _ _ Hrep) as Hx.
  destruct Hrep as ([(d & Hd & Hn) Hp] & Hh & Hl). simpl in Hh.
  unfold allocate_desc. rewrite Hh.
  destruct (x =? -1) eqn:E; [apply Z.eqb_eq in E; lia |].
  destruct fl as [| y fl'].
  - simpl in Hl. rewrite Hl, Z.eqb_refl. eexists. split; [reflexivity |].
    split; [| split; [reflexivity |]].
    + split; [exact I | split; reflexivity].
    + unfold frame_descs. destruct v; reflexivity.
  - rewrite last_cons_cons in Hl. rewrite Hl.
    assert (Hne : x <> default (-1) (last (y :: fl'))).
    { apply NoDup_cons in Hnd as [Hnotin _]. intros Heq. apply Hnotin.
      destruct (last (y :: fl')) as [z |] eqn:El.
      - simpl in Heq. subst z. apply last_Some_elem_of. exact El.
      - simpl in Heq. lia. }
    apply Z.eqb_neq in Hne. rewrite Hne, Hd. simpl. rewrite Hn.
    eexists. split; [reflexivity |]. split; [| split; [reflexivity |]].
    + split; [exact Hp | split; [reflexivity |]]. exact Hl.
    + unfold frame_descs. destruct v; reflexivity.
Qed.


(** Appending a freshly written descriptor to a chain whose last
    descriptor now links to it. *)
Lemma is_chain_snoc ds ds' c p x dp dx :
  is_chain ds c -> NoDup c -> last c = Some p ->
  at_index ds p = Some dp ->
  at_index ds' p = Some (desc.set_next x (desc.set_has_next true dp)) ->
  (forall y, y ∈ c -> y <> p -> at_index ds' y = at_index ds y) ->
  at_index ds' x = Some dx -> desc.has_next dx = false ->
  is_chain ds' (c ++ [x]).
Proof.
  intros Hc Hnd Hlast Hp Hp' Hsame Hx Hxn.
  induction c as [| y c IH]; [destruct Hc |].
  destruct Hc as (d & Hd & Hrest). destruct c as [| z c'].
  - simpl in Hlast. injection Hlast as ->. simpl.
    eexists. split; [exact Hp' |]. split; [reflexivity |]. split; [reflexivity |].
    exists dx. auto.
  - destruct Hrest as (Hh & Hn & Hc').
    assert (Hyp : y <> p).
    { apply NoDup_cons in Hnd as [Hnotin _]. intros ->. apply Hnotin.
      rewrite last_cons_cons in Hlast. apply last_Some_elem_of. exact Hlast. }
    change ((y :: z :: c') ++ [x]) with (y :: z :: (c' ++ [x])).
    exists d. rewrite Hsame by (try left; assumption).
    split; [exact Hd |]. split; [exact Hh |]. split; [exact Hn |].
    apply IH.
    + exact Hc'.
    + apply NoDup_cons in Hnd. tauto.
    + rewrite last_cons_cons in Hlast. exact Hlast.
    + intros w Hw. apply Hsame. right. exact Hw.
Qed.

Lemma building_extend v v3 x fl cs c done pseudo pseudo' prev b d :
  building v (x :: fl) cs c done pseudo prev ->
  _config v3 = _config v ->
  length (_descs v3) = length (_descs v) ->
  _free_head v3 = default (-1) (head fl) ->
  _free_last v3 = default (-1) (last fl) ->
  at_index (_descs v3) x = Some d ->
  desc.has_next d = false ->
  desc._paddr d = buffer.addr b -> desc._len d = buffer.len b ->
  desc.writeable d = buffer.writeable b ->
  (forall y, y <> x -> Some y <> prev ->
     at_index (_descs v3) y = at_index (_descs v) y) ->
  (forall p dp, prev = Some p -> at_index (_descs v) p = Some dp ->
     at_index (_descs v3) p = Some (desc.set_next x (desc.set_has_next true dp))) ->
  (prev = None -> desc._next pseudo' = x) ->
  (prev <> None -> pseudo' = pseudo) ->
  building v3 fl cs (c ++ [x]) (done ++ [b]) pseudo' (Some x).
Proof.
  intros [Hconf Hlen Hfree Hchains Hnd Hprev Hchain Hholds]
         Hcf Hl3 Hfh Hfl Hx Hxn Hpa Hle Hwr Hsame Hlink Hps0 Hps1.
  assert (Hxc : (x ∉ c) /\ (x ∉ concat cs) /\ (x ∉ fl)).
  { simpl in Hnd. apply NoDup_cons in Hnd as [Hnotin _].
    rewrite !elem_of_app in Hnotin. tauto. }
  destruct Hxc as (Hxc & Hxcs & Hxfl).
  assert (Hndc : NoDup c).
  { change ((x :: fl) ++ c ++ concat cs) with (x :: (fl ++ c ++ concat cs)) in Hnd.
    apply NoDup_cons in Hnd as [_ Hnd'].
    apply NoDup_app in Hnd' as (_ & _ & Hnd'). apply NoDup_app in Hnd'. tauto. }
  assert (Hpc : forall p, prev = Some p -> p ∈ c).
  { intros p Hp. rewrite Hprev in Hp. apply last_Some_elem_of. exact Hp. }
  assert (Hdisj : forall y, y ∈ fl \/ y ∈ concat cs -> y <> x /\ Some y <> prev).
  { intros y Hy. split.
    - intros ->. tauto.
    - intros Hyp. symmetry in Hyp. apply Hpc in Hyp.
      simpl in Hnd. apply NoDup_cons in Hnd as [_ Hnd].
      apply NoDup_app in Hnd as (_ & Hd1 & Hnd).
      apply NoDup_app in Hnd as (_ & Hd2 & _).
      destruct Hy as [Hy | Hy].
      + apply (Hd1 y Hy). apply elem_of_app. left. exact Hyp.
      + apply (Hd2 y Hyp Hy). }
  constructor.
  - rewrite Hcf. exact Hconf.
  - unfold size. rewrite Hcf, Hl3. exact Hlen.
  - destruct Hfree as ([_ Hp] & _ & _). split; [| split; assumption].
    eapply free_path_frame; [| exact Hp].
    intros y Hy. apply Hsame; apply Hdisj; left; exact Hy.
  - rewrite Forall_forall in Hchains. apply Forall_forall. intros ch Hch.
    eapply is_chain_frame; [| apply Hchains, Hch].
    intros y Hy. apply Hsame; apply Hdisj; right;
      apply elem_of_concat; exists ch; split; assumption.
  - simpl in Hnd. apply NoDup_cons in Hnd as [_ Hnd].
    apply NoDup_app in Hnd as (Hn1 & Hd1 & Hnd).
    apply NoDup_app in Hnd as (Hn2 & Hd2 & Hn3).
    apply NoDup_app. split; [exact Hn1 |]. split.
    + intros y Hy. rewrite !elem_of_app, list_elem_of_singleton.
      intros [[Hyc | ->] | Hycs]; [| tauto |].
      * apply (Hd1 y Hy). apply elem_of_app. left. exact Hyc.
      * apply (Hd1 y Hy). apply elem_of_app. right. exact Hycs.
    + apply NoDup_app. split; [| split; [| exact Hn3]].
      * apply NoDup_app. split; [exact Hn2 |]. split; [| apply NoDup_singleton].
        intros y Hy. rewrite list_elem_of_singleton. intros ->. tauto.
      * intros y. rewrite elem_of_app, list_elem_of_singleton.
        intros [Hyc | ->]; [apply Hd2; exact Hyc | exact Hxcs].
  - symmetry. apply last_snoc.
  - intros _. destruct c as [| y c'].
    + simpl. split; [| rewrite Hps0 by (rewrite Hprev; reflexivity); reflexivity].
      exists d. auto.
    + destruct (Hchain ltac:(discriminate)) as [Hc Hhd].
      destruct (last (y :: c')) as [p |] eqn:Hlast;
        [| apply last_None in Hlast; discriminate].
      assert (Hp : p ∈ y :: c') by (apply last_Some_elem_of; exact Hlast).
      destruct (at_index_is_Some (_descs v) p) as [dp Hdp];
        [exact (is_chain_range _ _ _ Hc Hp) |].
      split.
      * apply (is_chain_snoc (_descs v) (_descs v3) (y :: c') p x dp d);
          [exact Hc | exact Hndc | exact Hlast | exact Hdp
          | apply Hlink; [exact Hprev | exact Hdp] | | exact Hx | exact Hxn].
        intros w Hw Hwp. apply Hsame; [intros ->; tauto |].
        rewrite Hprev. intros [= ->]. tauto.
      * rewrite Hps1 by (rewrite Hprev; discriminate). exact Hhd.
  - apply Forall2_app; [| constructor; [exists d; auto | constructor]].
    clear - Hholds Hsame Hlink Hxc.
    induction Hholds as [| y b' c' done' Hyb Hrest IH]; constructor.
    + destruct Hyb as (dy & Hdy & Ha & Hl & Hw).
      destruct (decide (Some y = prev)) as [Heq | Hne].
      * exists (desc.set_next x (desc.set_has_next true dy)).
        split; [apply Hlink; auto |]. simpl. auto.
      * exists dy. rewrite Hsame; auto. intros ->. apply Hxc. left.
    + apply IH. intros Hin. apply Hxc. right. exact Hin.
Qed.

Lemma frame_descs_set_descs v v1 ds :
  frame_descs v v1 -> frame_descs v (set_descs ds v1).
Proof. unfold frame_descs. intros H. rewrite H at 1. reflexivity. Qed.

Lemma post_buffer_nil v cs c done pseudo prev b :
  building v [] cs c done pseudo prev -> post_buffer (v, pseudo, prev) b = None.
Proof.
  intros Hb. unfold post_buffer. rewrite allocate_desc_nil; [reflexivity | apply Hb].
Qed.

Lemma post_buffer_cons v x fl cs c done pseudo prev b :
  building v (x :: fl) cs c done pseudo prev ->
  exists v' pseudo',
    post_buffer (v, pseudo, prev) b = Some (v', pseudo', Some x)
    /\ building v' fl cs (c ++ [x]) (done ++ [b]) pseudo' (Some x)
    /\ frame_descs v v'.
Proof.
  intros Hb. pose proof Hb as [Hconf Hlen Hfree Hchains Hnd Hprev Hchain Hholds].
  assert (Hndfl : NoDup (x :: fl)) by (apply NoDup_app in Hnd; tauto).
  destruct (allocate_desc_cons v x fl Hfree Hndfl) as (v1 & Ha & Hfree1 & Hds1 & Hfr1).
  pose proof (free_rep_head_range _ _ _ Hfree) as Hx.
  pose proof (conf_ok_size _ Hconf) as Hsz. unfold size in Hlen.
  assert (Hu : u16 x = x) by (apply u16_small; lia).
  destruct (at_index_is_Some (_descs v) x Hx) as [d0 Hd0].
  destruct Hfree1 as (_ & Hfh1 & Hfl1).
  assert (Hcf1 : _config v1 = _config v) by (rewrite Hfr1; reflexivity).
  unfold post_buffer. rewrite Ha. cbn [mbind option_bind]. rewrite Hu.
  destruct prev as [p |].
  - assert (Hpc : p ∈ c) by (apply last_Some_elem_of; symmetry; exact Hprev).
    assert (Hcne : c <> []) by (intros ->; inversion Hpc).
    destruct (Hchain Hcne) as [Hc _].
    pose proof (is_chain_range _ _ _ Hc Hpc) as Hp.
    destruct (at_index_is_Some (_descs v) p Hp) as [dp Hdp].
    assert (Hxp : x <> p).
    { intros ->. change ((p :: fl) ++ c ++ concat cs)
        with (p :: (fl ++ c ++ concat cs)) in Hnd.
      apply NoDup_cons in Hnd as [Hnotin _]. apply Hnotin.
      rewrite !elem_of_app. tauto. }
    rewrite Hds1, Hdp. cbn [mbind option_bind _descs set_descs].
    rewrite at_index_alter_ne by lia. rewrite Hd0. cbn [mbind option_bind].
    eexists _, _. split; [reflexivity |]. split.
    + apply (building_extend v _ x fl cs c done pseudo pseudo (Some p) b
               (desc.mk (buffer.addr b) (buffer.len b) false (buffer.writeable b)
                        false (desc._next d0)) Hb);
        cbn [_config _descs _free_head _free_last set_descs desc.has_next
             desc._paddr desc._len desc.writeable].
      * exact Hcf1.
      * rewrite length_insert, length_alter. reflexivity.
      * exact Hfh1.
      * exact Hfl1.
      * apply at_index_insert_eq. rewrite length_alter. exact Hx.
      * reflexivity.
      * reflexivity.
      * reflexivity.
      * reflexivity.
      * intros y Hyx Hyp. rewrite at_index_insert_ne by (lia || auto).
        apply at_index_alter_ne; [lia | congruence].
      * intros p' dp' [= <-] Hdp'. rewrite at_index_insert_ne by (lia || auto).
        rewrite at_index_alter_eq, Hdp'. reflexivity.
      * discriminate.
      * reflexivity.
    + apply frame_descs_set_descs, frame_descs_set_descs. exact Hfr1.
  - cbn [mbind option_bind]. rewrite Hds1, Hd0. cbn [mbind option_bind].
    eexists _, _. split; [reflexivity |]. split.
    + apply (building_extend v _ x fl cs c done pseudo _ None b
               (desc.mk (buffer.addr b) (buffer.len b) false (buffer.writeable b)
                        false (desc._next d0)) Hb);
        cbn [_config _descs _free_head _free_last set_descs desc.has_next
             desc._paddr desc._len desc.writeable desc._next desc.set_next].
      * exact Hcf1.
      * rewrite length_insert. reflexivity.
      * exact Hfh1.
      * exact Hfl1.
      * apply at_index_insert_eq. exact Hx.
      * reflexivity.
      * reflexivity.
      * reflexivity.
      * reflexivity.
      * intros y Hyx _. rewrite at_index_insert_ne by (lia || auto). reflexivity.
      * discriminate.
      * reflexivity.
      * intros H. contradiction.
    + apply frame_descs_set_descs. exact Hfr1.
Qed.

Lemma post_buffers_enough bs : forall v fl cs c done pseudo prev,
  building v fl cs c done pseudo prev ->
  (length bs <= length fl)%nat ->
  exists v' pseudo' prev',
    post_buffers (v, pseudo, prev) bs = Some (v', pseudo', prev')
    /\ building v' (drop (length bs) fl) cs (c ++ take (length bs) fl)
         (done ++ bs) pseudo' prev'
    /\ frame_descs v v'.
Proof.
  induction bs as [| b bs IH]; intros v fl cs c done pseudo prev Hb Hlen.
  - exists v, pseudo, prev. split; [reflexivity |].
    rewrite take_0, drop_0, !app_nil_r. split; [exact Hb | apply frame_descs_refl].
  - destruct fl as [| x fl]; [simpl in Hlen; lia |].
    destruct (post_buffer_cons v x fl cs c done pseudo prev b Hb)
      as (v1 & pseudo1 & Hpost & Hb1 & Hfr1).
    destruct (IH v1 fl cs (c ++ [x]) (done ++ [b]) pseudo1 (Some x) Hb1)
      as (v' & pseudo' & prev' & Hposts & Hb' & Hfr'); [simpl in Hlen; lia |].
    exists v', pseudo', prev'. cbn [post_buffers]. rewrite Hpost.
    cbn [mbind option_bind]. split; [exact Hposts |]. split.
    + cbn [length take drop]. rewrite <- !app_assoc in Hb'. exact Hb'.
    + eapply frame_descs_trans; eassumption.
Qed.

Lemma post_buffers_short bs : forall v fl cs c done pseudo prev,
  building v fl cs c done pseudo prev ->
  (length fl < length bs)%nat ->
  post_buffers (v, pseudo, prev) bs = None.
Proof.
  induction bs as [| b bs IH]; intros v fl cs c done pseudo prev Hb Hlen;
    [simpl in Hlen; lia |].
  cbn [post_buffers]. destruct fl as [| x fl].
  - rewrite (post_buffer_nil v cs c done pseudo prev b Hb). reflexivity.
  - destruct (post_buffer_cons v x fl cs c done pseudo prev b Hb)
      as (v1 & pseudo1 & Hpost & Hb1 & _).
    rewrite Hpost. cbn [mbind option_bind].
    apply (IH v1 fl cs (c ++ [x]) (done ++ [b]) pseudo1 (Some x) Hb1).
    simpl in Hlen. lia.
Qed.

Lemma vring_inv_building v fl cs :
  vring_inv v fl cs -> building v fl cs [] [] desc.zero None.
Proof.
  intros [Hconf Hlen _ _ _ _ Hfree Hchains _ Hnd _]. constructor; auto.
  intros H. contradiction.
Qed.

(** The statements after the loop, for a chain [c] that was built. *)
Lemma record_chain_inv v v1 fl cs fl1 c done pseudo prev k :
  vring_inv v fl cs -> frame_descs v v1 ->
  building v1 fl1 cs c done pseudo prev -> c <> [] ->
  length (fl1 ++ c) = length fl ->
  exists v', record_chain v1 (desc._next pseudo) k = Some v'
             /\ vring_inv v' fl1 (cs ++ [c])
             /\ _descs v' = _descs v1 /\ _config v' = _config v1.
Proof.
  intros Hinv Hfr Hb Hne Hcount.
  destruct Hb as [Hconf Hlen Hfree Hchains Hnd Hprev Hchain Hholds].
  destruct (Hchain Hne) as [Hc Hhd].
  set (h := desc._next pseudo) in *.
  assert (Hhc : h ∈ c) by (apply head_Some_elem_of; exact Hhd).
  pose proof (is_chain_range _ _ _ Hc Hhc) as Hh.
  assert (Hcompl : _completions v1 = _completions v) by (rewrite Hfr; reflexivity).
  assert (Hcf : _config v1 = _config v) by (rewrite Hfr; reflexivity).
  assert (Hue : used_elements v1 = used_elements v) by (rewrite Hfr; reflexivity).
  assert (Hut : used_tail v1 = used_tail v) by (rewrite Hfr; reflexivity).
  assert (Hui : used_idx v1 = used_idx v) by (rewrite Hfr; reflexivity).
  destruct Hinv as [_ _ Hclen Hulen Htail Hidx _ _ Hheads Hnd0 Hcnt0].
  assert (Hh' : 0 <= h < Z.of_nat (length (_completions v1))).
  { rewrite Hcompl. unfold size in *. rewrite Hcf in Hlen. lia. }
  destruct (at_index_is_Some _ _ Hh') as [old Hold].
  unfold record_chain. rewrite Hold. cbn [mbind option_bind].
  eexists. split; [reflexivity |].
  split; [| split; destruct (negb _); reflexivity].
  set (v2 := set_completions (<[Z.to_nat h:=Some k]> (_completions v1)) v1).
  assert (Hcore : same_core v2
            (set_avail_added_since_kick
               (u16 (avail_added_since_kick
                       (if negb (_poll_mode v2) then publish_head v2 h
                        else set_batch (_batch v2 ++ [h]) v2) + 1))
               (if negb (_poll_mode v2) then publish_head v2 h
                else set_batch (_batch v2 ++ [h]) v2))).
  { destruct (negb (_poll_mode v2)); repeat split. }
  apply (same_core_inv v2 _ _ _ Hcore).
  assert (Hperm : fl1 ++ concat (cs ++ [c]) ≡ₚ fl1 ++ c ++ concat cs).
  { rewrite concat_app. simpl. rewrite app_nil_r.
    apply Permutation_app_head, Permutation_app_comm. }
  constructor; unfold size; cbn [v2 _config _descs _completions used_elements used_tail
                                 used_idx set_completions].
  - rewrite Hcf. rewrite Hcf in Hconf. exact Hconf.
  - exact Hlen.
  - rewrite length_insert, Hcompl, Hcf. exact Hclen.
  - rewrite Hue, Hcf. exact Hulen.
  - rewrite Hut. exact Htail.
  - rewrite Hui. exact Hidx.
  - exact Hfree.
  - apply Forall_app. split; [| constructor; [| constructor]]; assumption.
  - intros h'. rewrite omap_app.
    replace (omap head [c]) with [h] by (simpl; rewrite Hhd; reflexivity).
    rewrite elem_of_app, list_elem_of_singleton, <- Hheads.
    unfold outstanding, v2. cbn [_completions set_completions].
    destruct (decide (h' = h)) as [-> | Hneq].
    + rewrite at_index_insert_eq by exact Hh'. split; [auto | eauto].
    + rewrite at_index_insert_ne by (lia || auto). rewrite Hcompl. tauto.
  - rewrite Hperm. exact Hnd.
  - rewrite Hperm, Hcf. unfold size in Hcnt0. rewrite <- Hcnt0.
    rewrite !length_app in *. lia.
Qed.

(** Posting one chain when the free list is long enough: the chain takes
    the first descriptors of the free list, in order. *)
Lemma post_chain_enough v fl cs (bc : buffer_chain (K := K)) :
  vring_inv v fl cs -> bufs bc <> [] ->
  (length (bufs bc) <= length fl)%nat ->
  let c := take (length (bufs bc)) fl in
  exists v1 pseudo prev v',
    post_buffers (v, desc.zero, None) (bufs bc) = Some (v1, pseudo, prev)
    /\ frame_descs v v1
    /\ record_chain v1 (desc._next pseudo) (completed bc) = Some v'
    /\ post_chain v bc = Some v'
    /\ vring_inv v' (drop (length (bufs bc)) fl) (cs ++ [c])
    /\ head c = Some (desc._next pseudo)
    /\ is_chain (_descs v') c
    /\ Forall2 (desc_holds (_descs v')) c (bufs bc)
    /\ _config v' = _config v.
Proof.
  intros Hinv Hne Hlen c.
  destruct (post_buffers_enough (bufs bc) v fl cs [] [] desc.zero None
              (vring_inv_building v fl cs Hinv) Hlen)
    as (v1 & pseudo & prev & Hposts & Hb & Hfr).
  rewrite !app_nil_l in Hb. fold c in Hb.
  assert (Hcne : c <> []).
  { unfold c. destruct (bufs bc); [contradiction |].
    destruct fl; [simpl in Hlen; lia | discriminate]. }
  destruct (record_chain_inv v v1 fl cs _ c _ pseudo prev (completed bc)
              Hinv Hfr Hb Hcne) as (v' & Hrec & Hinv' & Hds & Hcf).
  { unfold c. rewrite length_app, length_drop, length_take. lia. }
  exists v1, pseudo, prev, v'. split; [exact Hposts |]. split; [exact Hfr |].
  split; [exact Hrec |]. split.
  { unfold post_chain. rewrite Hposts. cbn [mbind option_bind]. exact Hrec. }
  split; [exact Hinv' |].
  destruct Hb as [_ _ _ _ _ _ Hchain Hholds]. destruct (Hchain Hcne) as [Hc Hhd].
  rewrite Hds. split; [exact Hhd |]. split; [exact Hc |]. split; [exact Hholds |].
  rewrite Hcf, Hfr. reflexivity.
Qed.

Lemma post_chain_short v fl cs (bc : buffer_chain (K := K)) :
  vring_inv v fl cs -> (length fl < length (bufs bc))%nat ->
  post_chain v bc = None.
Proof.
  intros Hinv Hlen. unfold post_chain.
  rewrite (post_buffers_short (bufs bc) v fl cs [] [] desc.zero None
             (vring_inv_building v fl cs Hinv) Hlen).
  reflexivity.
Qed.

Lemma post_chain_Some_inv v fl cs (bc : buffer_chain (K := K)) v' :
  vring_inv v fl cs -> bufs bc <> [] -> post_chain v bc = Some v' ->
  (length (bufs bc) <= length fl)%nat
  /\ vring_inv v' (drop (length (bufs bc)) fl)
       (cs ++ [take (length (bufs bc)) fl])
  /\ _config v' = _config v.
Proof.
  intros Hinv Hne Hpost.
  destruct (decide (length (bufs bc) <= length fl)%nat) as [Hle | Hgt].
  - split; [exact Hle |].
    destruct (post_chain_enough v fl cs bc Hinv Hne Hle)
      as (v1 & pseudo & prev & v'' & _ & _ & _ & Hpost' & Hinv' & _ & _ & _ & Hcf).
    rewrite Hpost in Hpost'. injection Hpost' as <-. auto.
  - rewrite (post_chain_short v fl cs bc Hinv) in Hpost by lia. discriminate.
Qed.

Lemma post_chains_Some_inv (bcs : list (buffer_chain (K := K))) : forall v fl cs v',
  vring_inv v fl cs -> Forall (fun bc => bufs bc <> []) bcs ->
  post_chains v bcs = Some v' ->
  _config v' = _config v /\ exists fl' cs', vring_inv v' fl' cs'.
Proof.
  induction bcs as [| bc bcs IH]; intros v fl cs v' Hinv Hne Hpost.
  - injection Hpost as <-. eauto.
  - cbn [post_chains] in Hpost.
    destruct (post_chain v bc) as [v1 |] eqn:H1; [| discriminate].
    cbn [mbind option_bind] in Hpost.
    apply Forall_cons in Hne as [Hne1 Hne].
    destruct (post_chain_Some_inv v fl cs bc v1 Hinv Hne1 H1) as (_ & Hinv1 & Hcf1).
    destruct (IH v1 _ _ v' Hinv1 Hne Hpost) as [Hcf' Hex].
    split; [congruence | exact Hex].
Qed.


End InvariantPost.

(** ** The used ring: what is pending *)

Section Pending.
Context {K : Type}.
Implicit Types (v : vring K).

Lemma u16_diff_pos (i t : Z) :
  0 <= i < 65536 -> 0 <= t < 65536 -> i <> t ->
  1 <= u16 (i - t) /\ u16 (i - u16 (t + 1)) = u16 (i - t) - 1.
Proof.
  intros Hi Ht Hne. unfold u16. change (2 ^ 16) with 65536.
  Z.div_mod_to_equations. lia.
Qed.

Lemma u16_diff_succ (i t : Z) :
  0 <= i < 65536 -> 0 <= t < 65536 -> u16 (i - t) < 65535 ->
  u16 (u16 (i + 1) - t) = u16 (i - t) + 1.
Proof.
  intros Hi Ht Hne. unfold u16 in *. change (2 ^ 16) with 65536 in *.
  Z.div_mod_to_equations. lia.
Qed.

Lemma mod_eq_small (a b n : Z) :
  0 < n -> 0 <= a - b < n -> a mod n = b mod n -> a = b.
Proof.
  intros Hn Hab Heq.
  pose proof (Z.div_mod a n ltac:(lia)) as Ha.
  pose proof (Z.div_mod b n ltac:(lia)) as Hb.
  rewrite Heq in Ha.
  assert (Hq : a / n = b / n) by nia.
  rewrite Hq in Ha. lia.
Qed.

(** The slot of the element [j] places after the tail. *)
Lemma slot_of_idx v :
  conf_ok (_config v) ->
  (used_tail v + u16 (used_idx v - used_tail v)) mod size v = used_idx v mod size v.
Proof.
  intros Hc. destruct (size_divides_u16 v Hc) as [m Hm].
  unfold u16. change (2 ^ 16) with 65536.
  rewrite (Z.mod_eq (used_idx v - used_tail v) 65536) by lia.
  rewrite Hm.
  replace (used_tail v + (used_idx v - used_tail v
            - m * size v * ((used_idx v - used_tail v) / (m * size v))))
    with (used_idx v + (- m * ((used_idx v - used_tail v) / (m * size v))) * size v)
    by lia.
  apply Z.mod_add. pose proof (conf_ok_size _ Hc). unfold size. lia.
Qed.

Lemma pending_length v : length (pending v) = Z.to_nat (u16 (used_idx v - used_tail v)).
Proof. unfold pending. rewrite length_map, length_seq. reflexivity. Qed.

Lemma pending_nil v :
  0 <= used_tail v < 65536 -> used_idx v = used_tail v -> pending v = [].
Proof.
  intros Ht Heq. unfold pending. rewrite Heq, Z.sub_diag. reflexivity.
Qed.

(** Taking the element at the tail. *)
Lemma pending_cons v :
  conf_ok (_config v) ->
  Z.of_nat (length (used_elements v)) = size v ->
  0 <= used_tail v < 65536 -> 0 <= used_idx v < 65536 ->
  used_idx v <> used_tail v ->
  exists e,
    at_index (used_elements v) (masked v (used_tail v)) = Some e
    /\ pending v = e :: pending (set_used_tail (u16 (used_tail v + 1)) v).
Proof.
  intros Hc Hlen Ht Hi Hne. pose proof (conf_ok_size _ Hc) as Hsz.
  destruct (u16_diff_pos _ _ Hi Ht Hne) as [Hpos Hpred].
  rewrite masked_mod by exact Hc.
  destruct (at_index_is_Some (used_elements v) (used_tail v mod size v)) as [e He].
  { rewrite Hlen. apply Z.mod_pos_bound. unfold size. lia. }
  exists e. split; [exact He |].
  unfold pending. cbn [used_tail used_idx used_elements set_used_tail].
  change (size (set_used_tail (u16 (used_tail v + 1)) v)) with (size v).
  rewrite Hpred.
  replace (Z.to_nat (u16 (used_idx v - used_tail v)))
    with (S (Z.to_nat (u16 (used_idx v - used_tail v) - 1))) by lia.
  cbn [seq map]. rewrite Z.add_0_r, He. cbn [default]. f_equal.
  rewrite <- fmap_S_seq. rewrite <- list_fmap_compose.
  apply list_fmap_ext. intros _ j _. cbn.
  replace ((u16 (used_tail v + 1) + Z.of_nat j) mod size v)
    with ((used_tail v + Z.of_nat (S j)) mod size v); [reflexivity |].
  rewrite (Z.add_mod (u16 (used_tail v + 1))) by (unfold size; lia).
  rewrite u16_mod_size by exact Hc.
  rewrite <- Z.add_mod by (unfold size; lia). f_equal. lia.
Qed.

(** The host publishes one element: it is appended to what is pending,
    as long as the ring is not overrun. *)
Lemma pending_host_publish1 v e :
  conf_ok (_config v) ->
  Z.of_nat (length (used_elements v)) = size v ->
  0 <= used_tail v < 65536 -> 0 <= used_idx v < 65536 ->
  Z.of_nat (length (pending v)) < size v ->
  pending (host_publish1 v e) = pending v ++ [e].
Proof.
  intros Hc Hlen Ht Hi Hroom. pose proof (conf_ok_size _ Hc) as Hsz.
  rewrite pending_length in Hroom.
  pose proof (u16_range (used_idx v - used_tail v)) as Hcnt.
  unfold size in Hroom.
  rewrite Z2Nat.id in Hroom by lia.
  unfold pending, host_publish1.
  cbn [used_tail used_idx used_elements set_used_idx set_used_elements].
  change (size (set_used_idx _ _)) with (size v).
  rewrite u16_diff_succ by (auto; lia).
  rewrite masked_mod by exact Hc.
  replace (Z.to_nat (u16 (used_idx v - used_tail v) + 1))
    with (S (Z.to_nat (u16 (used_idx v - used_tail v)))) by lia.
  rewrite seq_S, map_app. cbn [map]. f_equal.
  - apply map_ext_in. intros j Hj. apply in_seq in Hj.
    rewrite at_index_insert_ne; [reflexivity | apply Z.mod_pos_bound; unfold size; lia |].
    intros Heq. rewrite <- (slot_of_idx v Hc) in Heq.
    symmetry in Heq. apply mod_eq_small in Heq; unfold size; lia.
  - rewrite Nat.add_0_l, Z2Nat.id by lia. rewrite (slot_of_idx v Hc).
    rewrite at_index_insert_eq; [reflexivity |].
    rewrite Hlen. apply Z.mod_pos_bound. unfold size. lia.
Qed.

End Pending.

(** ** The invariant: completing a chain *)

Section InvariantComplete.
Context {K : Type}.
Implicit Types (v : vring K) (ds : list desc.t) (fl c : list Z) (cs : list (list Z)).

Lemma free_path_alter_last ds fl p (f : desc.t -> desc.t) :
  free_path ds fl -> NoDup fl -> last fl = Some p ->
  free_path (alter f (Z.to_nat p) ds) fl.
Proof.
  induction fl as [| x fl IH]; intros Hp Hnd Hlast; [exact I |].
  destruct Hp as [(d & Hd & Hn) Hp'].
  pose proof (at_index_range _ _ _ Hd) as Hx.
  apply NoDup_cons in Hnd as [Hnotin Hnd].
  destruct fl as [| y fl'].
  - injection Hlast as ->. split; [| exact I].
    exists (f d). rewrite at_index_alter_eq, Hd. auto.
  - rewrite last_cons_cons in Hlast.
    assert (Hpin : p ∈ y :: fl') by (apply last_Some_elem_of; exact Hlast).
    pose proof (free_path_range _ _ _ Hp' Hpin) as Hpr.
    split; [| apply IH; assumption].
    exists d. rewrite at_index_alter_ne by (try lia; intros ->; contradiction). auto.
Qed.

Lemma concat_split_perm cs1 c cs2 :
  concat (cs1 ++ c :: cs2) ≡ₚ c ++ concat (cs1 ++ cs2).
Proof. rewrite !concat_app. simpl. apply Permutation_app_swap_app. Qed.

Lemma frame_complete_refl v : frame_complete v v.
Proof. unfold frame_complete. destruct v; reflexivity. Qed.

Lemma frame_complete_trans v1 v2 v3 :
  frame_complete v1 v2 -> frame_complete v2 v3 -> frame_complete v1 v3.
Proof.
  unfold frame_complete. intros H12 H23. rewrite H23 at 1. rewrite H12 at 1.
  reflexivity.
Qed.

(** Linking a completed chain behind the free list. *)
Lemma link_to_free_list_spec v fl id c' cs :
  free_rep v fl -> is_chain (_descs v) (id :: c') ->
  Forall (is_chain (_descs v)) cs ->
  NoDup fl -> (forall x, x ∈ fl -> x ∉ id :: c') ->
  (forall x, x ∈ fl -> x ∉ concat cs) -> u16 id = id ->
  exists v3,
    link_to_free_list v id = Some v3
    /\ length (_descs v3) = length (_descs v)
    /\ free_path (_descs v3) (fl ++ id :: c')
    /\ _free_head v3 = default (-1) (head (fl ++ id :: c'))
    /\ is_chain (_descs v3) (id :: c')
    /\ Forall (is_chain (_descs v3)) cs
    /\ v3 = set_descs (_descs v3) (set_free_head (_free_head v3) v).
Proof.
  intros Hfree Hchain Hchains Hndfl Hfl_c Hfl_cs Hu16. unfold link_to_free_list.
  destruct Hfree as (Hpath & Hfh & Hfl).
  destruct (last fl) as [p |] eqn:Hlast.
  - assert (Hpin : p ∈ fl) by (apply last_Some_elem_of; exact Hlast).
    pose proof (free_path_range _ _ _ Hpath Hpin) as Hp.
    destruct (at_index_is_Some _ _ Hp) as [dp Hdp].
    simpl in Hfl. rewrite Hfl.
    destruct (p =? -1) eqn:E; [apply Z.eqb_eq in E; lia |].
    cbn [negb]. rewrite Hdp. cbn [mbind option_bind]. rewrite Hu16.
    eexists. split; [reflexivity |]. cbn [_descs _free_head set_descs].
    assert (Hframe : forall l : list Z, (forall x, x ∈ l -> x <> p) -> forall x, x ∈ l ->
              at_index (alter (desc.set_next id) (Z.to_nat p) (_descs v)) x
              = at_index (_descs v) x).
    { intros l Hl x Hx. apply at_index_alter_ne; [lia | apply Hl, Hx]. }
    assert (Hchain' : is_chain (alter (desc.set_next id) (Z.to_nat p) (_descs v))
                        (id :: c')).
    { eapply is_chain_frame; [| exact Hchain].
      apply Hframe. intros x Hx ->. exact (Hfl_c p Hpin Hx). }
    split; [apply length_alter |]. split; [| split; [| split; [exact Hchain' | split]]].
    + apply free_path_app.
      * apply free_path_alter_last; assumption.
      * apply is_chain_free_path, Hchain'.
      * intros a b Ha Hb. rewrite Hlast in Ha. injection Ha as <-.
        injection Hb as <-. exists (desc.set_next id dp).
        rewrite at_index_alter_eq, Hdp. auto.
    + rewrite Hfh. destruct fl; [discriminate | reflexivity].
    + rewrite Forall_forall in Hchains. apply Forall_forall. intros ch Hch.
      eapply is_chain_frame; [| exact (Hchains ch Hch)].
      apply Hframe. intros x Hx ->. apply (Hfl_cs p Hpin).
      apply elem_of_concat. exists ch. auto.
    + destruct v; reflexivity.
  - apply last_None in Hlast. subst fl. simpl in Hfl. rewrite Hfl.
    cbn [Z.eqb negb]. eexists. split; [reflexivity |].
    cbn [_descs _free_head set_free_head app head default].
    split; [reflexivity |]. split; [apply is_chain_free_path, Hchain |].
    split; [reflexivity |]. split; [exact Hchain |].
    split; [exact Hchains | destruct v; reflexivity].
Qed.

(** One turn of the loop of [do_complete]: the chain of the used element
    goes to the end of the free list. *)
Lemma complete_one_recycles v fl cs (hs : host_sched) :
  vring_inv v fl cs -> sched_ok v hs -> used_idx v <> used_tail v ->
  exists e k v' c cs1 cs2,
    cs = cs1 ++ c :: cs2 /\ head c = Some (used_elem._id e)
    /\ at_index (used_elements v) (masked v (used_tail v)) = Some e
    /\ complete_one v = Some v'
    /\ pending v = e :: pending v'
    /\ at_index (_completions v) (used_elem._id e) = Some (Some k)
    /\ trace v' = EvSetValue (used_elem._id e) (Some k) (used_elem._len e) :: trace v
    /\ used_tail v' = u16 (used_tail v + 1)
    /\ vring_inv v' (fl ++ c) (cs1 ++ cs2) /\ sched_ok v' hs
    /\ frame_complete v v'.
Proof.
  intros Hinv Hok Hne.
  pose proof Hinv as [Hc Hdl Hcl Hul Ht Hi Hfree Hchains Hheads Hnd Hcnt].
  pose proof (conf_ok_size _ Hc) as Hsz.
  destruct (pending_cons v Hc Hul Ht Hi Hne) as (e & He & Hpend).
  destruct Hok as [Hids Hall]. rewrite Hpend in Hids, Hall.
  change ((e :: ?l) ++ ?r) with (e :: (l ++ r)) in Hids, Hall.
  apply Forall_cons in Hall as [[k Hk] Hall].
  cbn [map] in Hids. apply NoDup_cons in Hids as [Hid_fresh Hids].
  set (id := used_elem._id e) in *.
  assert (Hin : id ∈ omap head cs) by (apply Hheads; exists k; exact Hk).
  apply list_elem_of_omap in Hin as (c & Hcin & Hhd).
  apply list_elem_of_split in Hcin as (cs1 & cs2 & ->).
  apply Forall_app in Hchains as [Hch1 Hch2].
  apply Forall_cons in Hch2 as [Hchain Hch2].
  apply head_Some in Hhd as [c' ->].
  pose proof (concat_split_perm cs1 (id :: c') cs2) as Hperm.
  assert (Hnd' : NoDup (fl ++ (id :: c') ++ concat (cs1 ++ cs2))) by (rewrite <- Hperm; exact Hnd).
  assert (Hndparts : NoDup fl /\ NoDup (id :: c') /\ NoDup (concat (cs1 ++ cs2))
            /\ (forall x, x ∈ fl -> x ∉ id :: c')
            /\ (forall x, x ∈ fl -> x ∉ concat (cs1 ++ cs2))
            /\ (forall x, x ∈ id :: c' -> x ∉ concat (cs1 ++ cs2))).
  { apply NoDup_app in Hnd' as (H1 & H2 & H3). apply NoDup_app in H3 as (H4 & H5 & H6).
    repeat split; auto; intros x Hx Hx'; apply (H2 x Hx), elem_of_app; auto. }
  destruct Hndparts as (Hndfl & Hndc & Hndcs & Hfl_c & Hfl_cs & Hc_cs).
  pose proof (is_chain_range _ _ id Hchain ltac:(left)) as Hid.
  assert (Hu16 : u16 id = id) by (apply u16_small; unfold size in *; lia).
  assert (Hclen : (length c' < length (_descs v))%nat).
  { assert (length (fl ++ (id :: c') ++ concat (cs1 ++ cs2)) = length (_descs v)).
    { rewrite <- Hperm. unfold size in *. lia. }
    rewrite !length_app in H. simpl in H. lia. }
  set (w := emit (EvSetValue id (Some k) (used_elem._len e))
              (set_completions (<[Z.to_nat id:=None]> (_completions v))
                 (set_used_tail (u16 (used_tail v + 1)) v))).
  destruct (link_to_free_list_spec w fl id c' (cs1 ++ cs2))
    as (v3 & Hv3 & Hlen3 & Hpath3 & Hfh3 & Hchain3 & Hchains3 & Hfr3);
    [exact Hfree | exact Hchain | apply Forall_app; auto | exact Hndfl
    | exact Hfl_c | exact Hfl_cs | exact Hu16 |].
  assert (Hwalk : chain_walk (length (_descs v3)) (_descs v3) id 0
                  = Some (default id (last c'), 0 + Z.of_nat (S (length c')))).
  { apply chain_walk_is_chain; [exact Hchain3 | rewrite Hlen3; exact Hclen]. }
  assert (Hcf3 : _config v3 = _config v) by (rewrite Hfr3; reflexivity).
  assert (Hco3 : _completions v3 = <[Z.to_nat id:=None]> (_completions v))
    by (rewrite Hfr3; reflexivity).
  assert (Hue3 : used_elements v3 = used_elements v) by (rewrite Hfr3; reflexivity).
  assert (Hut3 : used_tail v3 = u16 (used_tail v + 1)) by (rewrite Hfr3; reflexivity).
  assert (Hui3 : used_idx v3 = used_idx v) by (rewrite Hfr3; reflexivity).
  assert (Htr3 : trace v3 = EvSetValue id (Some k) (used_elem._len e) :: trace v)
    by (rewrite Hfr3; reflexivity).
  set (v' := set_free_last (default id (last c')) v3).
  assert (Hpend' : pending v' = pending (set_used_tail (u16 (used_tail v + 1)) v)).
  { unfold pending, size. cbn [v' used_elements used_tail used_idx _config
                               set_free_last set_used_tail].
    rewrite Hue3, Hut3, Hui3, Hcf3. reflexivity. }
  assert (Hout' : forall h, outstanding v' h <-> outstanding v h /\ h <> id).
  { intros h. unfold outstanding. cbn [v' _completions set_free_last]. rewrite Hco3.
    destruct (decide (h = id)) as [-> | Hneq].
    - rewrite at_index_insert_eq by (rewrite Hcl, <- Hdl; exact Hid).
      split; [intros [? [=]] | tauto].
    - rewrite at_index_insert_ne by (lia || auto). tauto. }
  exists e, k, v', (id :: c'), cs1, cs2.
  split; [reflexivity |]. split; [reflexivity |]. split; [exact He |].
  split.
  { unfold complete_one. rewrite He. cbn [mbind option_bind].
    cbn [_completions set_used_tail]. fold id. rewrite Hk.
    cbn [mbind option_bind]. fold w. rewrite Hv3. cbn [mbind option_bind].
    rewrite Hwalk. reflexivity. }
  split; [rewrite Hpend'; exact Hpend |]. split; [exact Hk |].
  split; [exact Htr3 |]. split; [exact Hut3 |]. split; [| split].
  - constructor; unfold size; cbn [v' _config _descs _completions used_elements
                                      used_tail used_idx set_free_last].
    + rewrite Hcf3. exact Hc.
    + rewrite Hlen3, Hcf3. exact Hdl.
    + rewrite Hco3, length_insert, Hcf3. exact Hcl.
    + rewrite Hue3, Hcf3. exact Hul.
    + rewrite Hut3. apply u16_range.
    + rewrite Hui3. exact Hi.
    + split; [exact Hpath3 |]. split; [exact Hfh3 |].
      cbn [_free_last set_free_last]. rewrite last_app, last_cons.
      destruct (last c'); reflexivity.
    + exact Hchains3.
    + intros h. rewrite Hout', Hheads, !omap_app.
      change (omap head ((id :: c') :: cs2)) with (id :: omap head cs2).
      rewrite !elem_of_app, elem_of_cons.
      assert (Hfresh : id ∉ omap head (cs1 ++ cs2)).
      { intros Hin. apply list_elem_of_omap in Hin as (ch & Hch & Hhd).
        apply (Hc_cs id); [left |]. apply elem_of_concat. exists ch.
        split; [apply head_Some_elem_of; exact Hhd | exact Hch]. }
      rewrite omap_app, elem_of_app in Hfresh. split.
      * intros [[H1 | [H2 | H3]] Hneq]; [left | contradiction | right]; assumption.
      * intros [H1 | H3]; (split; [tauto |]); intros ->; apply Hfresh; tauto.
    + rewrite <- app_assoc. exact Hnd'.
    + rewrite Hcf3. unfold size in Hcnt. rewrite <- Hcnt, <- app_assoc, Hperm.
      reflexivity.
  - split.
    + rewrite Hpend'. exact Hids.
    + rewrite Hpend'. rewrite Forall_forall in Hall. apply Forall_forall.
      intros e' He'. apply Hout'. split; [apply Hall, He' |].
      intros Heq. apply Hid_fresh. rewrite <- Heq.
      apply list_elem_of_fmap_2. exact He'.
  - unfold frame_complete. cbn [v' _descs _completions _free_head _free_last
                                  used_tail trace set_free_last].
    rewrite Hco3, Hut3, Htr3. unfold v'. rewrite Hfr3 at 1. reflexivity.
Qed.

Lemma complete_one_inv v fl cs (hs : host_sched) :
  vring_inv v fl cs -> sched_ok v hs -> used_idx v <> used_tail v ->
  exists e k v' fl' cs',
    complete_one v = Some v'
    /\ pending v = e :: pending v'
    /\ at_index (_completions v) (used_elem._id e) = Some (Some k)
    /\ trace v' = EvSetValue (used_elem._id e) (Some k) (used_elem._len e) :: trace v
    /\ used_tail v' = u16 (used_tail v + 1)
    /\ vring_inv v' fl' cs' /\ sched_ok v' hs
    /\ frame_complete v v'.
Proof.
  intros Hinv Hok Hne.
  destruct (complete_one_recycles v fl cs hs Hinv Hok Hne)
    as (e & k & v' & c & cs1 & cs2 & _ & _ & _ & H).
  exists e, k, v', (fl ++ c), (cs1 ++ cs2). exact H.
Qed.

Lemma frame_completion_refl v : frame_completion v v.
Proof. unfold frame_completion. destruct v; reflexivity. Qed.

Lemma frame_completion_trans v1 v2 v3 :
  frame_completion v1 v2 -> frame_completion v2 v3 -> frame_completion v1 v3.
Proof.
  unfold frame_completion. intros H12 H23. rewrite H23 at 1. rewrite H12 at 1.
  reflexivity.
Qed.

Lemma frame_complete_completion v v' : frame_complete v v' -> frame_completion v v'.
Proof. unfold frame_complete, frame_completion. intros H. rewrite H. reflexivity. Qed.

Lemma completion_trace_refl v : completion_trace v v.
Proof. exists []. split; reflexivity. Qed.

Lemma completion_trace_trans v1 v2 v3 :
  completion_trace v1 v2 -> completion_trace v2 v3 -> completion_trace v1 v3.
Proof.
  intros (t1 & H1 & F1) (t2 & H2 & F2). exists (t2 ++ t1). split.
  - rewrite H2, H1, app_assoc. reflexivity.
  - rewrite forallb_app, F1, F2. reflexivity.
Qed.

Lemma completion_trace_emit v e :
  completion_event e = true -> completion_trace v (emit e v).
Proof. intros He. exists [e]. split; [reflexivity |]. simpl. rewrite He. reflexivity. Qed.

Lemma completion_trace_same v v' : trace v' = trace v -> completion_trace v v'.
Proof. intros H. exists []. split; [exact H | reflexivity]. Qed.

Lemma fulfilled_app (t1 t2 : list (event K)) :
  fulfilled (t1 ++ t2) = fulfilled t2 ++ fulfilled t1.
Proof.
  induction t1 as [| e t1 IH]; simpl; [rewrite app_nil_r; reflexivity |].
  destruct e; try exact IH. rewrite IH, app_assoc. reflexivity.
Qed.

Lemma fired_app (t1 t2 : list (event K)) : fired (t1 ++ t2) = fired t2 ++ fired t1.
Proof. unfold fired. rewrite fulfilled_app, fmap_app. reflexivity. Qed.

Lemma pending_empty_idx v :
  0 <= used_tail v < 65536 -> 0 <= used_idx v < 65536 ->
  pending v = [] -> used_idx v = used_tail v.
Proof.
  intros Ht Hi Hp. apply (f_equal length) in Hp. rewrite pending_length in Hp.
  simpl in Hp. pose proof (u16_range (used_idx v - used_tail v)) as Hr.
  assert (H0 : u16 (used_idx v - used_tail v) = 0) by lia.
  unfold u16 in H0. change (2 ^ 16) with 65536 in H0.
  Z.div_mod_to_equations. lia.
Qed.

(** The inner loop takes everything that is pending, oldest first. *)
Lemma drain_inv (n : nat) : forall v fl cs (hs : host_sched) (fuel : nat),
  vring_inv v fl cs -> sched_ok v hs -> length (pending v) = n -> (n <= fuel)%nat ->
  exists v' fl' cs',
    drain fuel (used_idx v) v = Some v'
    /\ vring_inv v' fl' cs' /\ sched_ok v' hs
    /\ used_tail v' = used_idx v
    /\ frame_complete v v'
    /\ completion_trace v v'
    /\ fired (trace v')
       = fired (trace v) ++ map (fun e => (used_elem._id e, used_elem._len e)) (pending v).
Proof.
  induction n as [| n IH]; intros v fl cs hs fuel Hinv Hok Hlen Hfuel.
  - apply nil_length_inv in Hlen.
    pose proof (pending_empty_idx v (inv_used_tail _ _ _ Hinv)
                  (inv_used_idx _ _ _ Hinv) Hlen) as Heq.
    exists v, fl, cs. split.
    { destruct fuel; simpl; rewrite Heq, Z.eqb_refl; reflexivity. }
    rewrite Hlen, app_nil_r.
    split; [exact Hinv |]. split; [exact Hok |]. split; [symmetry; exact Heq |].
    split; [apply frame_complete_refl |]. split; [apply completion_trace_refl |].
    reflexivity.
  - assert (Hne : used_idx v <> used_tail v).
    { intros Heq. rewrite (pending_nil v (inv_used_tail _ _ _ Hinv) Heq) in Hlen.
      discriminate. }
    destruct fuel as [| fuel]; [lia |].
    destruct (complete_one_inv v fl cs hs Hinv Hok Hne)
      as (e & k & v1 & fl1 & cs1 & Hone & Hpend & Hk & Htr & Htail & Hinv1 & Hok1 & Hfr1).
    assert (Hidx1 : used_idx v1 = used_idx v) by (rewrite Hfr1; reflexivity).
    destruct (IH v1 fl1 cs1 hs fuel Hinv1 Hok1) as
      (v' & fl' & cs' & Hdrain & Hinv' & Hok' & Htail' & Hfr' & Htr' & Hfired);
      [rewrite Hpend in Hlen; simpl in Hlen; lia | lia |].
    exists v', fl', cs'. split.
    { simpl. apply Z.eqb_neq in Hne. rewrite Hne, Hone. cbn [mbind option_bind].
      rewrite <- Hidx1. exact Hdrain. }
    split; [exact Hinv' |]. split; [exact Hok' |].
    split; [rewrite Htail'; exact Hidx1 |].
    split; [eapply frame_complete_trans; eassumption |]. split.
    + eapply completion_trace_trans; [| exact Htr'].
      exists [EvSetValue (used_elem._id e) (Some k) (used_elem._len e)].
      split; [exact Htr | reflexivity].
    + rewrite Hfired, Htr, Hpend. cbn [map].
      change (EvSetValue (used_elem._id e) (Some k) (used_elem._len e) :: trace v)
        with ([EvSetValue (used_elem._id e) (Some k) (used_elem._len e)] ++ trace v).
      rewrite fired_app. unfold fired at 2. simpl. rewrite <- app_assoc. reflexivity.
Qed.

(** There are at most as many outstanding heads as descriptors in
    chains. *)
Lemma heads_length ds cs :
  Forall (is_chain ds) cs -> (length (omap head cs) <= length (concat cs))%nat.
Proof.
  induction 1 as [| c cs Hc _ IH]; [reflexivity |].
  destruct c as [| x c]; [destruct Hc |].
  change (omap head ((x :: c) :: cs)) with (x :: omap head cs).
  simpl. rewrite length_app. lia.
Qed.

Lemma sched_ok_room v fl cs (l : list used_elem.t) :
  vring_inv v fl cs ->
  NoDup (map used_elem._id l) ->
  Forall (fun e => outstanding v (used_elem._id e)) l ->
  Z.of_nat (length l) <= size v.
Proof.
  intros Hinv Hnd Hall.
  assert (Hsub : map used_elem._id l ⊆+ omap head cs).
  { apply NoDup_submseteq; [exact Hnd |]. intros x Hx.
    apply list_elem_of_fmap in Hx as (e & -> & He).
    apply (inv_heads _ _ _ Hinv). rewrite Forall_forall in Hall. apply Hall, He. }
  apply submseteq_length in Hsub. rewrite length_map in Hsub.
  pose proof (heads_length _ _ (inv_chains _ _ _ Hinv)) as Hh.
  pose proof (inv_count _ _ _ Hinv) as Hcnt. rewrite length_app in Hcnt. lia.
Qed.

Lemma host_publish1_frame v e : frame_completion v (host_publish1 v e).
Proof. unfold frame_completion, host_publish1. destruct v; reflexivity. Qed.

(** A well-behaved host step keeps the invariant and adds to what is
    pending. *)
Lemma host_publish_inv (es : list used_elem.t) : forall v fl cs (hs : host_sched),
  vring_inv v fl cs -> sched_ok v (es :: hs) ->
  vring_inv (host_publish es v) fl cs
  /\ sched_ok (host_publish es v) hs
  /\ pending (host_publish es v) = pending v ++ es
  /\ frame_completion v (host_publish es v)
  /\ trace (host_publish es v) = trace v.
Proof.
  induction es as [| e es IH]; intros v fl cs hs Hinv Hok.
  - unfold host_publish. simpl. rewrite app_nil_r.
    split; [exact Hinv |]. split; [exact Hok |]. split; [reflexivity |].
    split; [apply frame_completion_refl | reflexivity].
  - destruct Hok as [Hnd Hall]. cbn [concat] in Hnd, Hall.
    pose proof Hinv as [Hc Hdl Hcl Hul Ht Hi Hfree Hchains Hheads Hndl Hcnt].
    assert (Hroom : Z.of_nat (length (pending v)) < size v).
    { assert (Hsplit : pending v ++ (e :: es) ++ concat hs
                       = (pending v ++ [e]) ++ es ++ concat hs)
        by (rewrite <- app_assoc; reflexivity).
      assert (Hle : Z.of_nat (length (pending v ++ [e])) <= size v).
      { apply (sched_ok_room v fl cs); [exact Hinv | |].
        - rewrite Hsplit, map_app in Hnd. apply NoDup_app in Hnd as [Hnd' _].
          exact Hnd'.
        - rewrite Hsplit in Hall. apply Forall_app in Hall as [Hall' _]. exact Hall'. }
      rewrite length_app in Hle. simpl in Hle. lia. }
    pose proof (pending_host_publish1 v e Hc Hul Ht Hi Hroom) as Hp1.
    assert (Hinv1 : vring_inv (host_publish1 v e) fl cs).
    { constructor; unfold size; cbn [host_publish1 _config _descs _completions
        used_elements used_tail used_idx set_used_idx set_used_elements]; auto.
      - rewrite length_insert. exact Hul.
      - apply u16_range. }
    assert (Hok1 : sched_ok (host_publish1 v e) (es :: hs)).
    { unfold sched_ok. rewrite Hp1. cbn [concat]. rewrite <- !app_assoc.
      split; [exact Hnd |]. eapply Forall_impl; [exact Hall |].
      intros e' He'. exact He'. }
    destruct (IH (host_publish1 v e) fl cs hs Hinv1 Hok1)
      as (Hinv' & Hok' & Hp' & Hfr' & Htr').
    change (host_publish (e :: es) v) with (host_publish es (host_publish1 v e)).
    split; [exact Hinv' |]. split; [exact Hok' |].
    split; [rewrite Hp', Hp1, <- app_assoc; reflexivity |].
    split; [| rewrite Htr'; reflexivity].
    eapply frame_completion_trans; [apply host_publish1_frame | exact Hfr'].
Qed.

Lemma host_before_load_inv v fl cs (hs : host_sched) :
  vring_inv v fl cs -> sched_ok v hs ->
  let '(v', hs') := host_before_load hs v in
  vring_inv v' fl cs /\ sched_ok v' hs'
  /\ frame_completion v v' /\ trace v' = trace v
  /\ (length hs' <= length hs)%nat
  /\ (hs = [] -> v' = v)
  /\ (hs <> [] -> (length hs' < length hs)%nat)
  /\ pending v' = pending v ++ default [] (head hs).
Proof.
  intros Hinv Hok. destruct hs as [| h hs]; simpl.
  - split; [exact Hinv |]. split; [exact Hok |].
    split; [apply frame_completion_refl |]. split; [reflexivity |].
    split; [lia |]. split; [reflexivity |].
    split; [contradiction | rewrite app_nil_r; reflexivity].
  - destruct (host_publish_inv h v fl cs hs Hinv Hok) as (H1 & H2 & H3 & H4 & H5).
    split; [exact H1 |]. split; [exact H2 |]. split; [exact H4 |].
    split; [exact H5 |]. split; [lia |]. split; [discriminate |].
    split; [lia | exact H3].
Qed.

(** Steps that leave the descriptor table, the completions and the used
    ring alone. *)
Lemma disable_interrupts_step v :
  same_core v (disable_interrupts v) /\ frame_completion v (disable_interrupts v)
  /\ completion_trace v (disable_interrupts v).
Proof.
  unfold disable_interrupts. destruct (_ && _).
  - split; [repeat split |]. split.
    + unfold frame_completion. destruct v; reflexivity.
    + exists [EvStoreAvailFlags VRING_AVAIL_F_NO_INTERRUPT]. split; reflexivity.
  - split; [apply same_core_refl |].
    split; [apply frame_completion_refl | apply completion_trace_refl].
Qed.

Lemma emit_step v (e : event K) :
  completion_event e = true ->
  same_core v (emit e v) /\ frame_completion v (emit e v)
  /\ completion_trace v (emit e v).
Proof.
  intros He. split; [repeat split |]. split.
  - unfold frame_completion. destruct v; reflexivity.
  - apply completion_trace_emit, He.
Qed.

(** The host writes none of the driver's words. *)
Lemma host_publish_fields (es : list used_elem.t) : forall v,
  trace (host_publish es v) = trace v
  /\ used_event (host_publish es v) = used_event v
  /\ avail_flags (host_publish es v) = avail_flags v
  /\ used_tail (host_publish es v) = used_tail v
  /\ _config (host_publish es v) = _config v
  /\ _poll_mode (host_publish es v) = _poll_mode v.
Proof.
  induction es as [| e es IH]; intros v; [repeat split |].
  change (host_publish (e :: es) v) with (host_publish es (host_publish1 v e)).
  destruct (IH (host_publish1 v e)) as (H1 & H2 & H3 & H4 & H5 & H6).
  rewrite H1, H2, H3, H4, H5, H6. repeat split.
Qed.

Lemma host_before_load_fields (hs : host_sched) v :
  trace (host_before_load hs v).1 = trace v
  /\ used_event (host_before_load hs v).1 = used_event v
  /\ avail_flags (host_before_load hs v).1 = avail_flags v
  /\ used_tail (host_before_load hs v).1 = used_tail v
  /\ _config (host_before_load hs v).1 = _config v
  /\ _poll_mode (host_before_load hs v).1 = _poll_mode v.
Proof.
  destruct hs as [| h hs]; [repeat split | apply host_publish_fields].
Qed.

(** [enable_interrupts] in interrupt mode: the arm word, the fence, the
    load, in this order. *)
Lemma enable_interrupts_trace (hs : host_sched) v :
  _poll_mode v = false ->
  let '(again, v', hs') := enable_interrupts hs v in
  let arm := if config.event_index (_config v)
             then EvStoreUsedEvent (used_tail v)
             else EvStoreAvailFlags 0 in
  trace v' = EvLoadUsedIdx (used_idx v') :: EvFence :: arm :: trace v
  /\ (if config.event_index (_config v)
      then used_event v' = used_tail v'
      else avail_flags v' = 0)
  /\ used_tail v' = used_tail v
  /\ _config v' = _config v /\ _poll_mode v' = false
  /\ again = negb (used_idx v' =? used_tail v').
Proof.
  intros Hpoll. unfold enable_interrupts. rewrite Hpoll.
  set (w := emit EvFence _).
  pose proof (host_before_load_fields hs w) as (H1 & H2 & H3 & H4 & H5 & H6).
  destruct (host_before_load hs w) as [v6 hs6]. cbn [fst] in *.
  cbn [trace emit set_trace used_event avail_flags used_tail _config _poll_mode
       used_idx].
  rewrite H1, H2, H3, H4, H5, H6. unfold w.
  destruct (config.event_index (_config v)); cbn; rewrite ?Hpoll; repeat split.
Qed.

Lemma same_core_step v v' fl cs (hs : host_sched) :
  same_core v v' -> vring_inv v fl cs -> sched_ok v hs ->
  vring_inv v' fl cs /\ sched_ok v' hs.
Proof.
  intros Hs Hinv Hok. split; [eapply same_core_inv | eapply same_core_sched_ok];
    eassumption.
Qed.

Lemma enable_interrupts_inv v fl cs (hs : host_sched) :
  vring_inv v fl cs -> sched_ok v hs -> used_tail v = used_idx v ->
  let '(again, v', hs') := enable_interrupts hs v in
  vring_inv v' fl cs /\ sched_ok v' hs'
  /\ frame_completion v v' /\ completion_trace v v'
  /\ (length hs' <= length hs)%nat
  /\ (again = true -> (length hs' < length hs)%nat)
  /\ fired (trace v') = fired (trace v).
Proof.
  intros Hinv Hok Hdrained. unfold enable_interrupts.
  destruct (_poll_mode v).
  { split; [exact Hinv |]. split; [exact Hok |].
    split; [apply frame_completion_refl |]. split; [apply completion_trace_refl |].
    split; [lia |]. split; [discriminate | reflexivity]. }
  set (w1 := if negb (config.event_index (_config v))
             then emit (EvStoreAvailFlags 0) (set_avail_flags 0 v)
             else emit (EvStoreUsedEvent (used_tail v)) (set_used_event (used_tail v) v)).
  assert (H1 : same_core v w1 /\ frame_completion v w1 /\ completion_trace v w1).
  { unfold w1. destruct (negb _).
    - split; [repeat split |]. split.
      + unfold frame_completion. destruct v; reflexivity.
      + exists [EvStoreAvailFlags 0]. split; reflexivity.
    - split; [repeat split |]. split.
      + unfold frame_completion. destruct v; reflexivity.
      + exists [EvStoreUsedEvent (used_tail v)]. split; reflexivity. }
  destruct H1 as (Hc1 & Hf1 & Ht1).
  destruct (same_core_step v w1 fl cs hs Hc1 Hinv Hok) as [Hinv1 Hok1].
  destruct (emit_step w1 EvFence eq_refl) as (Hc2 & Hf2 & Ht2).
  destruct (same_core_step _ _ fl cs hs Hc2 Hinv1 Hok1) as [Hinv2 Hok2].
  pose proof (host_before_load_inv _ fl cs hs Hinv2 Hok2) as Hhost.
  destruct (host_before_load hs (emit EvFence w1)) as [v6 hs6].
  destruct Hhost as (Hinv6 & Hok6 & Hf6 & Htr6 & Hlen6 & Hnil6 & Hcons6 & _).
  destruct (emit_step v6 (EvLoadUsedIdx (used_idx v6)) eq_refl) as (Hc7 & Hf7 & Ht7).
  destruct (same_core_step _ _ fl cs hs6 Hc7 Hinv6 Hok6) as [Hinv7 Hok7].
  split; [exact Hinv7 |]. split; [exact Hok7 |].
  split; [| split; [| split; [| split]]].
  - eapply frame_completion_trans; [exact Hf1 |].
    eapply frame_completion_trans; [exact Hf2 |].
    eapply frame_completion_trans; [exact Hf6 | exact Hf7].
  - eapply completion_trace_trans; [exact Ht1 |].
    eapply completion_trace_trans; [exact Ht2 |].
    eapply completion_trace_trans; [apply completion_trace_same, Htr6 | exact Ht7].
  - exact Hlen6.
  - intros Hagain. destruct hs as [| h hs']; [| apply Hcons6; discriminate].
    rewrite (Hnil6 eq_refl) in Hagain.
    destruct Hc1 as (_&_&_&_&Hut&Hui&_). cbn [used_idx emit set_trace] in Hagain.
    rewrite <- Hui, Hdrained, Z.eqb_refl in Hagain. discriminate.
  - cbn [trace emit set_trace]. rewrite Htr6. unfold w1.
    destruct (negb _); reflexivity.
Qed.

(** One pass of [do_complete] succeeds and keeps the invariant. *)
Lemma do_complete_pass_inv v fl cs (hs : host_sched) :
  vring_inv v fl cs -> sched_ok v hs ->
  exists again v' hs' fl' cs',
    do_complete_pass hs v = Some (again, v', hs')
    /\ vring_inv v' fl' cs' /\ sched_ok v' hs'
    /\ frame_completion v v' /\ completion_trace v v'
    /\ (length hs' <= length hs)%nat
    /\ (again = true -> (length hs' < length hs)%nat)
    /\ fired (trace v')
       = fired (trace v)
         ++ map (fun e => (used_elem._id e, used_elem._len e))
                (pending v ++ default [] (head hs)).
Proof.
  intros Hinv Hok. unfold do_complete_pass.
  destruct (disable_interrupts_step v) as (Hc0 & Hf0 & Ht0).
  destruct (same_core_step _ _ fl cs hs Hc0 Hinv Hok) as [Hinv0 Hok0].
  pose proof (host_before_load_inv _ fl cs hs Hinv0 Hok0) as Hhost.
  destruct (host_before_load hs (disable_interrupts v)) as [v1 hs1].
  destruct Hhost as (Hinv1 & Hok1 & Hf1 & Htr1 & Hlen1 & _ & _ & Hpend1).
  destruct (emit_step v1 (EvLoadUsedIdx (used_idx v1)) eq_refl) as (Hc2 & Hf2 & Ht2).
  destruct (same_core_step _ _ fl cs hs1 Hc2 Hinv1 Hok1) as [Hinv2 Hok2].
  set (v2 := emit (EvLoadUsedIdx (used_idx v1)) v1) in *.
  assert (Hfuel : (length (pending v2) <= Z.to_nat 65536)%nat).
  { rewrite pending_length. pose proof (u16_range (used_idx v2 - used_tail v2)). lia. }
  destruct (drain_inv _ v2 fl cs hs1 _ Hinv2 Hok2 eq_refl Hfuel)
    as (v3 & fl3 & cs3 & Hdrain & Hinv3 & Hok3 & Htail3 & Hf3 & Ht3 & Hfired3).
  change (used_idx v2) with (used_idx v1) in Hdrain, Htail3.
  rewrite Hdrain. cbn [mbind option_bind].
  assert (Hidx3 : used_idx v3 = used_idx v1) by (rewrite Hf3; reflexivity).
  pose proof (enable_interrupts_inv v3 fl3 cs3 hs1 Hinv3 Hok3
                ltac:(rewrite Htail3, Hidx3; reflexivity)) as Hen.
  destruct (enable_interrupts hs1 v3) as [[again v'] hs'].
  destruct Hen as (Hinv' & Hok' & Hf' & Ht' & Hlen' & Hagain & Hfired').
  exists again, v', hs', fl3, cs3. split; [reflexivity |].
  split; [exact Hinv' |]. split; [exact Hok' |].
  split; [| split; [| split; [| split]]].
  - eapply frame_completion_trans; [exact Hf0 |].
    eapply frame_completion_trans; [exact Hf1 |].
    eapply frame_completion_trans; [exact Hf2 |].
    eapply frame_completion_trans; [apply frame_complete_completion, Hf3 | exact Hf'].
  - eapply completion_trace_trans; [exact Ht0 |].
    eapply completion_trace_trans; [apply completion_trace_same, Htr1 |].
    eapply completion_trace_trans; [exact Ht2 |].
    eapply completion_trace_trans; [exact Ht3 | exact Ht'].
  - lia.
  - intros H. specialize (Hagain H). lia.
  - rewrite Hfired', Hfired3.
    rewrite (same_core_pending _ _ Hc2) in Hpend1. rewrite Hpend1.
    rewrite <- (same_core_pending _ _ Hc0).
    replace (fired (trace v2)) with (fired (trace v)); [reflexivity |].
    unfold v2. cbn [trace emit set_trace]. change (fired (?e :: ?t)) with (fired t).
    rewrite Htr1. unfold disable_interrupts. destruct (_ && _); reflexivity.
Qed.

(** [do_complete] returns: the passes are bounded by the host's
    schedule. *)
Lemma do_complete_loop_inv (fuel : nat) : forall v fl cs (hs : host_sched),
  vring_inv v fl cs -> sched_ok v hs -> (length hs < fuel)%nat ->
  exists v' hs' fl' cs',
    do_complete_loop fuel hs v = Some (v', hs')
    /\ vring_inv v' fl' cs' /\ sched_ok v' hs'
    /\ frame_completion v v' /\ completion_trace v v'
    /\ exists more,
         fired (trace v')
         = fired (trace v)
           ++ map (fun e => (used_elem._id e, used_elem._len e)) (pending v) ++ more.
Proof.
  induction fuel as [| fuel IH]; intros v fl cs hs Hinv Hok Hfuel; [lia |].
  destruct (do_complete_pass_inv v fl cs hs Hinv Hok)
    as (again & v1 & hs1 & fl1 & cs1 & Hpass & Hinv1 & Hok1 & Hf1 & Ht1 & Hlen1
        & Hagain & Hfired1).
  cbn [do_complete_loop]. rewrite Hpass. cbn [mbind option_bind].
  rewrite map_app in Hfired1.
  destruct again.
  - destruct (IH v1 fl1 cs1 hs1 Hinv1 Hok1) as
      (v' & hs' & fl' & cs' & Hloop & Hinv' & Hok' & Hf' & Ht' & more & Hfired');
      [specialize (Hagain eq_refl); lia |].
    exists v', hs', fl', cs'. split; [exact Hloop |].
    split; [exact Hinv' |]. split; [exact Hok' |].
    split; [eapply frame_completion_trans; eassumption |].
    split; [eapply completion_trace_trans; eassumption |].
    eexists. rewrite Hfired', Hfired1, <- !app_assoc. reflexivity.
  - exists v1, hs1, fl1, cs1. split; [reflexivity |].
    split; [exact Hinv1 |]. split; [exact Hok1 |]. split; [exact Hf1 |].
    split; [exact Ht1 |]. eexists. exact Hfired1.
Qed.

Lemma do_complete_inv v fl cs (hs : host_sched) :
  vring_inv v fl cs -> sched_ok v hs ->
  exists v' hs' fl' cs',
    do_complete hs v = Some (v', hs')
    /\ vring_inv v' fl' cs' /\ sched_ok v' hs'
    /\ frame_completion v v' /\ completion_trace v v'
    /\ exists more,
         fired (trace v')
         = fired (trace v)
           ++ map (fun e => (used_elem._id e, used_elem._len e)) (pending v) ++ more.
Proof.
  intros Hinv Hok. apply (do_complete_loop_inv _ v fl cs hs Hinv Hok). lia.
Qed.

End InvariantComplete.

(** ** The invariant holds in every reachable state *)

Section InvariantReachable.
Context {K : Type}.
Implicit Types (v : vring K) (ds : list desc.t) (fl c : list Z) (cs : list (list Z)).

Lemma kick_same_core v : same_core v (kick v).
Proof.
  unfold kick. cbv zeta.
  destruct (config.event_index _); [| destruct (notifications_disabled _)];
    try destruct (_ || _); repeat split.
Qed.

Lemma store_avail_idx_same_core v : same_core v (store_avail_idx v).
Proof. repeat split. Qed.

Lemma publish_heads_same_core (batch : list Z) : forall v,
  same_core v (foldl publish_head v batch).
Proof.
  induction batch as [| h batch IH]; intros v; [apply same_core_refl |].
  simpl. eapply same_core_trans; [| apply IH]. repeat split.
Qed.

Lemma flush_batch_same_core v : same_core v (flush_batch v).
Proof.
  unfold flush_batch. destruct (_batch v) as [| h batch] eqn:Hb;
    [apply same_core_refl |].
  eapply same_core_trans; [apply (publish_heads_same_core (h :: batch)) |].
  eapply same_core_trans; [| apply kick_same_core].
  eapply same_core_trans; [| apply store_avail_idx_same_core]. repeat split.
Qed.

Lemma reachable_inv (conf : config.t) (poll_mode : bool) v :
  conf_ok conf -> reachable conf poll_mode v ->
  _config v = conf /\ exists fl cs, vring_inv v fl cs.
Proof.
  intros Hconf Hreach.
  induction Hreach as
    [ | v es _ [Hcf (fl & cs & Hinv)] Hok
      | v x _ [Hcf (fl & cs & Hinv)]
      | v x _ [Hcf (fl & cs & Hinv)]
      | v x _ [Hcf (fl & cs & Hinv)]
      | v hs bcs v' hs' _ [Hcf (fl & cs & Hinv)] Hne Hok Hpost
      | v hs v' hs' _ [Hcf (fl & cs & Hinv)] Hok Hdo
      | v hs v' hs' _ [Hcf (fl & cs & Hinv)] Hok Hdo
      | v _ [Hcf (fl & cs & Hinv)] ].
  - split; [reflexivity |]. exists (seqZ 0 (config.size conf)), [].
    apply vring_new_inv, Hconf.
  - destruct (host_publish_inv es v fl cs [] Hinv Hok) as (Hinv' & _ & _ & Hfr & _).
    split; [rewrite Hfr; exact Hcf | eauto].
  - split; [exact Hcf |]. exists fl, cs.
    apply (same_core_inv v); [repeat split | exact Hinv].
  - split; [exact Hcf |]. exists fl, cs.
    apply (same_core_inv v); [repeat split | exact Hinv].
  - split; [exact Hcf |]. exists fl, cs.
    apply (same_core_inv v); [repeat split | exact Hinv].
  - unfold post in Hpost.
    destruct (post_chains v bcs) as [v1 |] eqn:Hchains; [| discriminate].
    cbn [mbind option_bind] in Hpost.
    destruct (post_chains_Some_inv bcs v fl cs v1 Hinv Hne Hchains)
      as (Hcf1 & fl1 & cs1 & Hinv1).
    specialize (Hok v1 eq_refl).
    destruct (negb (_poll_mode v1)).
    + pose proof (same_core_trans _ _ _ (store_avail_idx_same_core v1)
                    (kick_same_core _)) as Hcore.
      destruct (same_core_step _ _ fl1 cs1 hs Hcore Hinv1 Hok) as [Hinv2 Hok2].
      destruct (do_complete_inv _ fl1 cs1 hs Hinv2 Hok2)
        as (v'' & hs'' & fl' & cs' & Hdo & Hinv' & _ & Hfr & _).
      rewrite Hdo in Hpost. injection Hpost as <- <-.
      split; [| eauto]. rewrite Hfr. cbn.
      destruct Hcore as (Hc & _). rewrite <- Hc. congruence.
    + destruct (16 <=? _); injection Hpost as <- <-.
      * split; [| exists fl1, cs1; apply (same_core_inv v1);
                  [apply flush_batch_same_core | exact Hinv1]].
        destruct (flush_batch_same_core v1) as (Hc & _). congruence.
      * split; [congruence | eauto].
  - destruct (do_complete_inv v fl cs hs Hinv Hok)
      as (v'' & hs'' & fl' & cs' & Hdo' & Hinv' & _ & Hfr & _).
    rewrite Hdo in Hdo'. injection Hdo' as <- <-.
    split; [rewrite Hfr; exact Hcf | eauto].
  - unfold complete in Hdo.
    destruct (do_complete_inv v fl cs hs Hinv Hok)
      as (v'' & hs'' & fl' & cs' & Hdo' & Hinv' & _ & Hfr & _).
    rewrite Hdo' in Hdo. cbn [mbind option_bind] in Hdo. injection Hdo as <- <-.
    split; [cbn; rewrite Hfr; exact Hcf |].
    exists fl', cs'. apply (same_core_inv v''); [repeat split | exact Hinv'].
  - destruct (flush_batch_same_core v) as (Hc & Hrest).
    split; [congruence |]. exists fl, cs.
    apply (same_core_inv v); [exact (conj Hc Hrest) | exact Hinv].
Qed.

End InvariantReachable.

(** ** Counting the descriptors *)

Section Counting.
Context {K : Type}.
Implicit Types (v : vring K) (ds : list desc.t) (fl c : list Z) (cs : list (list Z)).

Lemma sumZ_perm f (l l' : list Z) : l ≡ₚ l' -> sumZ f l = sumZ f l'.
Proof. induction 1; simpl; lia. Qed.

Lemma outstanding_count_sum ds (l : list Z) :
  (forall h, h ∈ l -> is_Some (chain_walk (length ds) ds h 0)) ->
  foldr (fun h acc =>
           a ← acc;
           '(_, n) ← chain_walk (length ds) ds h 0;
           Some (n + a))
        (Some 0) l
  = Some (sumZ (chain_count ds) l).
Proof.
  induction l as [| h l IH]; intros Hall; [reflexivity |].
  cbn [foldr]. rewrite IH by (intros h' Hh'; apply Hall; right; exact Hh').
  destruct (Hall h ltac:(left)) as [[last n] Hw].
  assert (Hn : chain_count ds h = n) by (unfold chain_count; rewrite Hw; reflexivity).
  cbn [mbind option_bind sumZ foldr]. rewrite Hw, Hn. reflexivity.
Qed.

Lemma heads_NoDup ds cs :
  Forall (is_chain ds) cs -> NoDup (concat cs) -> NoDup (omap head cs).
Proof.
  induction 1 as [| c cs Hc Hcs IH]; intros Hnd; [constructor |].
  destruct c as [| x c]; [destruct Hc |].
  change (omap head ((x :: c) :: cs)) with (x :: omap head cs).
  simpl in Hnd. apply NoDup_cons in Hnd as [Hx Hnd].
  apply NoDup_app in Hnd as (_ & _ & Hnd).
  apply NoDup_cons. split; [| apply IH, Hnd].
  intros Hin. apply list_elem_of_omap in Hin as (c' & Hc' & Hhd).
  apply Hx, elem_of_app. right. apply elem_of_concat. exists c'.
  split; [apply head_Some_elem_of, Hhd | exact Hc'].
Qed.

Lemma chain_count_heads ds cs :
  Forall (is_chain ds) cs -> (length (concat cs) <= length ds)%nat ->
  sumZ (chain_count ds) (omap head cs) = Z.of_nat (length (concat cs))
  /\ forall h, h ∈ omap head cs -> is_Some (chain_walk (length ds) ds h 0).
Proof.
  induction 1 as [| c cs Hc Hcs IH]; intros Hlen.
  - split; [reflexivity | intros h Hh; inversion Hh].
  - destruct c as [| x c]; [destruct Hc |].
    change (omap head ((x :: c) :: cs)) with (x :: omap head cs).
    simpl in Hlen. rewrite length_app in Hlen.
    destruct IH as [IH1 IH2]; [lia |].
    pose proof (chain_walk_is_chain ds c (length ds) 0 x Hc ltac:(lia)) as Hw.
    split.
    + simpl. rewrite IH1. unfold chain_count. rewrite Hw, length_app. lia.
    + intros h Hh. apply elem_of_cons in Hh as [-> | Hh]; [rewrite Hw; eauto | auto].
Qed.

Lemma outstanding_heads_elem v h : h ∈ outstanding_heads v <-> outstanding v h.
Proof.
  unfold outstanding_heads, outstanding, is_outstanding.
  rewrite list_elem_of_filter, elem_of_seqZ. split.
  - intros [Hout _]. destruct (at_index (_completions v) h) as [[k |] |];
      [eauto | destruct Hout | destruct Hout].
  - intros [k Hk]. rewrite Hk. split; [exact I |].
    apply at_index_range in Hk. lia.
Qed.

Lemma outstanding_heads_NoDup v : NoDup (outstanding_heads v).
Proof. apply NoDup_filter, NoDup_seqZ. Qed.

(** Under the invariant the two walks count the free list and the
    chains. *)
Lemma counts_of_inv v fl cs :
  vring_inv v fl cs ->
  free_count v = Some (Z.of_nat (length fl))
  /\ outstanding_count v = Some (Z.of_nat (length (concat cs))).
Proof.
  intros [Hc Hdl Hcl Hul Ht Hi Hfree Hchains Hheads Hnd Hcnt].
  assert (Hlens : (length fl + length (concat cs) = length (_descs v))%nat).
  { rewrite length_app in Hcnt. lia. }
  split.
  - destruct Hfree as (Hpath & Hfh & Hfl). unfold free_count.
    destruct fl as [| x fl]; [rewrite Hfh; reflexivity |].
    pose proof (free_path_range _ _ x Hpath ltac:(left)) as Hx.
    simpl in Hfh. rewrite Hfh.
    destruct (x =? -1) eqn:E; [apply Z.eqb_eq in E; lia |].
    rewrite Hfl, (default_last_cons (-1) x fl).
    apply free_walk_free_path; [exact Hpath | | simpl in Hlens; lia].
    apply NoDup_app in Hnd. tauto.
  - unfold outstanding_count.
    assert (Hperm : outstanding_heads v ≡ₚ omap head cs).
    { apply NoDup_Permutation.
      - apply outstanding_heads_NoDup.
      - apply (heads_NoDup _ _ Hchains). apply NoDup_app in Hnd. tauto.
      - intros h. rewrite outstanding_heads_elem. apply Hheads. }
    destruct (chain_count_heads _ _ Hchains ltac:(lia)) as [Hsum Hsome].
    rewrite outstanding_count_sum.
    + rewrite (sumZ_perm _ _ _ Hperm), Hsum. reflexivity.
    + intros h Hh. apply Hsome. rewrite <- Hperm. exact Hh.
Qed.

End Counting.

(** C3: after construction the descriptors are linked 0 -> 1 -> ... ->
    N-1, the free list runs from head 0 to tail N-1 and holds all N
    descriptors, the semaphore holds N permits and no completion is
    outstanding; and in every state reachable by the ring's operations
    (with a well-behaved host and callers that post non-empty chains) the
    length of the free list plus the number of descriptors in chains with
    an outstanding completion is N. *)
Theorem free_plus_outstanding {K : Type} (conf : config.t) (poll_mode : bool) :
  conf_ok conf ->
  let N := config.size conf in
  let v0 := vring_new (K := K) conf poll_mode in
  ((forall i, 0 <= i < N ->
      exists d, at_index (_descs v0) i = Some d /\ desc._next d = i + 1)
   /\ _free_head v0 = 0 /\ _free_last v0 = N - 1
   /\ sem_current v0 = N
   /\ free_count v0 = Some N
   /\ outstanding_heads v0 = [])
  /\ forall v : vring K,
       reachable conf poll_mode v ->
       exists f o,
         free_count v = Some f /\ outstanding_count v = Some o /\ f + o = N.
Proof.
  intros Hconf N v0. pose proof (conf_ok_size _ Hconf) as Hsz. split.
  - pose proof (vring_new_inv (K := K) conf poll_mode Hconf) as Hinv0.
    split; [| split; [reflexivity | split; [reflexivity | split; [reflexivity |]]]].
    + intros i Hi. exists (desc.set_next (i + 1) desc.zero).
      split; [apply vring_new_descs; assumption | reflexivity].
    + destruct (counts_of_inv _ _ _ Hinv0) as [Hfree _]. split.
      * fold v0 in Hfree. rewrite Hfree, length_seqZ. f_equal. fold N. lia.
      * apply elem_of_nil_inv. intros h Hh.
        apply outstanding_heads_elem, (inv_heads _ _ _ Hinv0) in Hh. inversion Hh.
  - intros v Hreach.
    destruct (reachable_inv conf poll_mode v Hconf Hreach) as [Hcf (fl & cs & Hinv)].
    destruct (counts_of_inv v fl cs Hinv) as [Hfree Hout].
    exists (Z.of_nat (length fl)), (Z.of_nat (length (concat cs))).
    split; [exact Hfree |]. split; [exact Hout |].
    pose proof (inv_count _ _ _ Hinv) as Hcnt. rewrite length_app in Hcnt.
    unfold size in Hcnt. rewrite Hcf in Hcnt. fold N in Hcnt. lia.
Qed.

(** ** Re-arming the interrupt *)

Section Rearm.
Context {K : Type}.
Implicit Types (v : vring K) (hs : host_sched).

Lemma complete_one_fields v v' :
  complete_one v = Some v' ->
  _poll_mode v' = _poll_mode v /\ _config v' = _config v
  /\ completion_trace v v' /\ frame_completion v v'.
Proof.
  unfold complete_one, link_to_free_list. intros H.
  destruct (at_index (used_elements v) _) as [ue |]; [| discriminate].
  cbn [mbind option_bind] in H.
  destruct (at_index _ (used_elem._id ue)) as [k |]; [| discriminate].
  cbn [mbind option_bind] in H.
  destruct (negb _).
  - destruct (at_index (_descs _) _) as [d |]; [| discriminate].
    cbn [mbind option_bind] in H.
    destruct (chain_walk _ _ _ _) as [[last n] |]; [| discriminate].
    injection H as <-. split; [reflexivity |]. split; [reflexivity |]. split.
    + exists [EvSetValue (used_elem._id ue) k (used_elem._len ue)]. split; reflexivity.
    + unfold frame_completion. destruct v; reflexivity.
  - cbn [mbind option_bind] in H.
    destruct (chain_walk _ _ _ _) as [[last n] |]; [| discriminate].
    injection H as <-. split; [reflexivity |]. split; [reflexivity |]. split.
    + exists [EvSetValue (used_elem._id ue) k (used_elem._len ue)]. split; reflexivity.
    + unfold frame_completion. destruct v; reflexivity.
Qed.

Lemma drain_fields (fuel : nat) : forall (used_head : Z) v v',
  drain fuel used_head v = Some v' ->
  _poll_mode v' = _poll_mode v /\ _config v' = _config v
  /\ completion_trace v v' /\ used_tail v' = used_head
  /\ frame_completion v v'.
Proof.
  induction fuel as [| fuel IH]; intros used_head v v' H; simpl in H;
    destruct (used_head =? used_tail v) eqn:E.
  - injection H as <-. apply Z.eqb_eq in E.
    split; [reflexivity |]. split; [reflexivity |].
    split; [apply completion_trace_refl |]. split; [auto | apply frame_completion_refl].
  - discriminate.
  - injection H as <-. apply Z.eqb_eq in E.
    split; [reflexivity |]. split; [reflexivity |].
    split; [apply completion_trace_refl |]. split; [auto | apply frame_completion_refl].
  - destruct (complete_one v) as [v1 |] eqn:H1; [| discriminate].
    cbn [mbind option_bind] in H.
    destruct (complete_one_fields v v1 H1) as (Hp1 & Hc1 & Ht1 & Hf1).
    destruct (IH used_head v1 v' H) as (Hp & Hc & Ht & Htail & Hf).
    split; [congruence |]. split; [congruence |].
    split; [eapply completion_trace_trans; eassumption |].
    split; [exact Htail | eapply frame_completion_trans; eassumption].
Qed.

Lemma host_publish_frame (es : list used_elem.t) : forall v,
  frame_completion v (host_publish es v).
Proof.
  induction es as [| e es IH]; intros v; [apply frame_completion_refl |].
  change (host_publish (e :: es) v) with (host_publish es (host_publish1 v e)).
  eapply frame_completion_trans; [apply host_publish1_frame | apply IH].
Qed.

Lemma host_before_load_frame hs v : frame_completion v (host_before_load hs v).1.
Proof.
  destruct hs as [| h hs]; [apply frame_completion_refl | apply host_publish_frame].
Qed.

Lemma enable_interrupts_frame hs v : frame_completion v (enable_interrupts hs v).1.2.
Proof.
  unfold enable_interrupts. destruct (_poll_mode v); [apply frame_completion_refl |].
  set (w := emit EvFence _).
  pose proof (host_before_load_frame hs w) as Hf.
  destruct (host_before_load hs w) as [v6 hs6]. cbn [fst snd] in *.
  eapply frame_completion_trans; [| eapply frame_completion_trans; [exact Hf |]].
  - unfold w, frame_completion. destruct (negb _); destruct v; reflexivity.
  - unfold frame_completion. destruct v6; reflexivity.
Qed.

Lemma armed_of_enable hs v :
  _poll_mode v = false ->
  armed (enable_interrupts hs v).1.2
  /\ (enable_interrupts hs v).1.1
     = negb (used_idx (enable_interrupts hs v).1.2
             =? used_tail (enable_interrupts hs v).1.2)
  /\ _poll_mode (enable_interrupts hs v).1.2 = false
  /\ completion_trace v (enable_interrupts hs v).1.2.
Proof.
  intros Hpoll. pose proof (enable_interrupts_trace hs v Hpoll) as H.
  destruct (enable_interrupts hs v) as [[again v'] hs']. cbn [fst snd].
  destruct H as (Htr & Harm & Htail & Hcf & Hp & Hagain).
  split; [| split; [exact Hagain | split; [exact Hp |]]].
  - unfold armed. rewrite Hcf, Htail. split; [eauto |].
    destruct (config.event_index (_config v)); [rewrite <- Htail; exact Harm |].
    unfold interrupts_disabled. rewrite Harm. reflexivity.
  - eexists [_; _; _]. split; [exact Htr |].
    destruct (config.event_index (_config v)); reflexivity.
Qed.

Lemma do_complete_pass_armed hs v again v' hs' :
  _poll_mode v = false ->
  do_complete_pass hs v = Some (again, v', hs') ->
  armed v' /\ again = negb (used_idx v' =? used_tail v')
  /\ _poll_mode v' = false /\ completion_trace v v'
  /\ frame_completion v v'.
Proof.
  intros Hpoll. unfold do_complete_pass.
  destruct (disable_interrupts_step v) as (_ & Hf0 & Ht0).
  assert (Hp0 : _poll_mode (disable_interrupts v) = false).
  { unfold disable_interrupts. destruct (_ && _); exact Hpoll. }
  pose proof (host_before_load_fields hs (disable_interrupts v))
    as (Htr1 & _ & _ & _ & _ & Hp1).
  pose proof (host_before_load_frame hs (disable_interrupts v)) as Hf1.
  destruct (host_before_load hs (disable_interrupts v)) as [v1 hs1].
  cbn [fst] in Htr1, Hp1, Hf1.
  destruct (drain _ _ _) as [v3 |] eqn:Hdrain; [| discriminate].
  cbn [mbind option_bind]. intros [= Hen].
  destruct (drain_fields _ _ _ _ Hdrain) as (Hp3 & _ & Ht3 & _ & Hf3).
  cbn [_poll_mode emit set_trace] in Hp3.
  destruct (armed_of_enable hs1 v3 ltac:(congruence)) as (Ha & Hag & Hp & Ht).
  pose proof (enable_interrupts_frame hs1 v3) as Hf4.
  rewrite Hen in Ha, Hag, Hp, Ht, Hf4. cbn [fst snd] in Ha, Hag, Hp, Ht, Hf4.
  split; [exact Ha |]. split; [exact Hag |]. split; [exact Hp |]. split.
  - eapply completion_trace_trans; [exact Ht0 |].
    eapply completion_trace_trans; [apply completion_trace_same, Htr1 |].
    eapply completion_trace_trans;
      [apply (completion_trace_emit v1 (EvLoadUsedIdx (used_idx v1))); reflexivity |].
    eapply completion_trace_trans; [exact Ht3 | exact Ht].
  - eapply frame_completion_trans; [exact Hf0 |].
    eapply frame_completion_trans; [exact Hf1 |].
    eapply frame_completion_trans;
      [apply (emit_step v1 (EvLoadUsedIdx (used_idx v1))); reflexivity |].
    eapply frame_completion_trans; [exact Hf3 | exact Hf4].
Qed.

Lemma do_complete_loop_armed (fuel : nat) : forall hs v v' hs',
  _poll_mode v = false ->
  do_complete_loop fuel hs v = Some (v', hs') ->
  armed v' /\ used_idx v' = used_tail v' /\ completion_trace v v'
  /\ frame_completion v v'.
Proof.
  induction fuel as [| fuel IH]; intros hs v v' hs' Hpoll H; [discriminate |].
  cbn [do_complete_loop] in H.
  destruct (do_complete_pass hs v) as [[[again v1] hs1] |] eqn:Hpass; [| discriminate].
  cbn [mbind option_bind] in H.
  destruct (do_complete_pass_armed hs v again v1 hs1 Hpoll Hpass)
    as (Ha & Hag & Hp & Ht & Hf).
  destruct again.
  - destruct (IH hs1 v1 v' hs' Hp H) as (Ha' & Hi' & Ht' & Hf').
    split; [exact Ha' |]. split; [exact Hi' |].
    split; [eapply completion_trace_trans | eapply frame_completion_trans];
      eassumption.
  - injection H as <- <-. split; [exact Ha |]. split; [| split; [exact Ht | exact Hf]].
    symmetry in Hag. apply negb_false_iff, Z.eqb_eq in Hag. exact Hag.
Qed.

End Rearm.

(** C2: in interrupt mode, whenever [do_complete] returns, the last things
    it did were to set the arm word ([avail.flags] without NO_INTERRUPT,
    or [used_event = used._tail] with EVENT_IDX), to fence, and to load a
    [used.idx] equal to [used._tail]; it did nothing but completion work
    (no notifier call or wait).  With a well-behaved host it does return,
    and a pass whose reload of [used.idx] differs from [used._tail] is
    followed by further passes that fulfil the newly published elements,
    oldest first. *)
Theorem do_complete_rearm {K : Type} (v : vring K) (hs : host_sched) :
  _poll_mode v = false ->
  (forall v' hs',
     do_complete hs v = Some (v', hs') ->
     armed v' /\ used_idx v' = used_tail v' /\ completion_trace v v')
  /\ (forall fl cs,
        vring_inv v fl cs -> sched_ok v hs ->
        exists v' hs',
          do_complete hs v = Some (v', hs')
          /\ forall v1 hs1,
               do_complete_pass hs v = Some (true, v1, hs1) ->
               used_idx v1 <> used_tail v1
               /\ pending v1 <> []
               /\ completion_trace v1 v'
               /\ exists more,
                    fired (trace v')
                    = fired (trace v1)
                      ++ map (fun e => (used_elem._id e, used_elem._len e)) (pending v1)
                      ++ more).
Proof.
  intros Hpoll. split.
  - intros v' hs' H.
    destruct (do_complete_loop_armed _ hs v v' hs' Hpoll H) as (Ha & Hi & Ht & _).
    auto.
  - intros fl cs Hinv Hok.
    destruct (do_complete_inv v fl cs hs Hinv Hok)
      as (v' & hs' & fl' & cs' & Hdo & _).
    exists v', hs'. split; [exact Hdo |]. intros v1 hs1 Hpass.
    destruct (do_complete_pass_armed hs v true v1 hs1 Hpoll Hpass)
      as (_ & Hag & _ & _).
    assert (Hne : used_idx v1 <> used_tail v1).
    { symmetry in Hag. apply negb_true_iff, Z.eqb_neq in Hag. exact Hag. }
    destruct (do_complete_pass_inv v fl cs hs Hinv Hok)
      as (again & v1' & hs1' & fl1 & cs1 & Hpass' & Hinv1 & Hok1 & _ & _ & _ & Hlt & _).
    rewrite Hpass in Hpass'. injection Hpass' as <- <- <-.
    specialize (Hlt eq_refl).
    destruct (do_complete_loop_inv (length hs) v1 fl1 cs1 hs1 Hinv1 Hok1 Hlt)
      as (v'' & hs'' & _ & _ & Hloop & _ & _ & _ & Ht & Hfired).
    unfold do_complete in Hdo. cbn [do_complete_loop] in Hdo.
    rewrite Hpass in Hdo. cbn [mbind option_bind] in Hdo.
    rewrite Hloop in Hdo. injection Hdo as <- <-.
    split; [exact Hne |]. split; [| split; [exact Ht | exact Hfired]].
    intros Hnil. apply Hne.
    apply pending_empty_idx; [apply (inv_used_tail _ _ _ Hinv1)
                             | apply (inv_used_idx _ _ _ Hinv1) | exact Hnil].
Qed.

(** The scenario: one chain posted, completed in the re-arming window. *)
Lemma conf4_ok : conf_ok conf4.
Proof. exists 2. split; [lia | reflexivity]. Qed.

Lemma ring_posted_reachable : reachable conf4 false ring_posted.
Proof.
  apply (reach_post conf4 false (vring_new conf4 false) [] [chain2] ring_posted []).
  - apply reach_new.
  - constructor; [discriminate | constructor].
  - intros v1 Hv1. vm_compute in Hv1. injection Hv1 as <-.
    split; [vm_compute; constructor | vm_compute; constructor].
  - vm_compute. reflexivity.
Qed.

Lemma ring_posted_interrupt_mode : _poll_mode ring_posted = false.
Proof. vm_compute. reflexivity. Qed.

Lemma race_sched_ok : sched_ok ring_posted race_sched.
Proof.
  split.
  - vm_compute. apply NoDup_singleton.
  - assert (Hp : pending ring_posted ++ concat race_sched = [used_elem.mk 0 0])
      by (vm_compute; reflexivity).
    rewrite Hp. constructor; [| constructor]. exists tt. vm_compute. reflexivity.
Qed.

Lemma do_complete_rearm_witness :
  exists v' hs',
    do_complete race_sched ring_posted = Some (v', hs')
    /\ armed v' /\ used_idx v' = used_tail v'.
Proof.
  destruct (do_complete_rearm ring_posted race_sched ring_posted_interrupt_mode)
    as [Hret Hloops].
  destruct (reachable_inv conf4 false ring_posted conf4_ok ring_posted_reachable)
    as [_ (fl & cs & Hinv)].
  destruct (Hloops fl cs Hinv race_sched_ok) as (v' & hs' & Hdo & _).
  exists v', hs'. split; [exact Hdo |].
  destruct (Hret v' hs' Hdo) as (Ha & Hi & _). split; assumption.
Defined.

Lemma ring_raced_reachable : reachable conf4 false ring_raced.
Proof.
  apply (reach_do_complete conf4 false ring_posted race_sched ring_raced []).
  - exact ring_posted_reachable.
  - exact race_sched_ok.
  - vm_compute. reflexivity.
Qed.

Lemma free_plus_outstanding_witness :
  exists f o,
    free_count ring_raced = Some f /\ outstanding_count ring_raced = Some o
    /\ f + o = 4.
Proof.
  exact (proj2 (free_plus_outstanding conf4 false conf4_ok) ring_raced
           ring_raced_reachable).
Defined.


(** ** What the host has been handed: [published] *)

Section Publication.
Context {K : Type}.
Implicit Types (v : vring K) (ds : list desc.t).

Lemma stored_heads_app (t1 t2 : list (event K)) :
  stored_heads (t1 ++ t2) = stored_heads t2 ++ stored_heads t1.
Proof.
  induction t1 as [| e t1 IH]; simpl; [rewrite app_nil_r; reflexivity |].
  destruct e; try exact IH. rewrite IH, app_assoc. reflexivity.
Qed.

Lemma stored_heads_completion (t : list (event K)) :
  forallb completion_event t = true -> stored_heads t = [].
Proof.
  induction t as [| e t IH]; [reflexivity |]. simpl. intros H.
  apply andb_true_iff in H as [He Ht]. destruct e; try discriminate; auto.
Qed.

Lemma frame_completion_batch v v' :
  frame_completion v v' -> _batch v' = _batch v /\ _poll_mode v' = _poll_mode v.
Proof. unfold frame_completion. intros ->. split; reflexivity. Qed.

Lemma published_completion v v' :
  completion_trace v v' -> frame_completion v v' -> published v' = published v.
Proof.
  intros (t & Ht & Hev) Hf. destruct (frame_completion_batch _ _ Hf) as [Hb _].
  unfold published. rewrite Ht, Hb, stored_heads_app, (stored_heads_completion t Hev).
  rewrite app_nil_r. reflexivity.
Qed.

Lemma kick_fields v :
  stored_heads (trace (kick v)) = stored_heads (trace v)
  /\ _batch (kick v) = _batch v /\ _poll_mode (kick v) = _poll_mode v.
Proof.
  unfold kick. cbv zeta.
  destruct (config.event_index _); [| destruct (notifications_disabled _)];
    try destruct (_ || _); repeat split.
Qed.

Lemma published_kick v : published (kick v) = published v.
Proof.
  destruct (kick_fields v) as (Ht & Hb & _). unfold published. rewrite Ht, Hb.
  reflexivity.
Qed.

Lemma published_store_avail_idx v : published (store_avail_idx v) = published v.
Proof. reflexivity. Qed.

Lemma publish_heads_fields (batch : list Z) : forall v,
  stored_heads (trace (foldl publish_head v batch)) = stored_heads (trace v) ++ batch
  /\ _batch (foldl publish_head v batch) = _batch v
  /\ _poll_mode (foldl publish_head v batch) = _poll_mode v.
Proof.
  induction batch as [| h batch IH]; intros v.
  - simpl. rewrite app_nil_r. repeat split.
  - simpl. destruct (IH (publish_head v h)) as (Ht & Hb & Hp).
    rewrite Ht, Hb, Hp. cbn. rewrite <- app_assoc. repeat split.
Qed.

(** [flush_batch] stores the batched heads in their order. *)
Lemma flush_batch_fields v :
  stored_heads (trace (flush_batch v)) = published v
  /\ _batch (flush_batch v) = []
  /\ _poll_mode (flush_batch v) = _poll_mode v.
Proof.
  unfold flush_batch, published. destruct (_batch v) as [| h batch] eqn:Hb.
  - rewrite Hb, app_nil_r. repeat split.
  - destruct (publish_heads_fields (h :: batch) v) as (Ht & _ & Hp).
    set (v1 := foldl publish_head v (h :: batch)) in *. clearbody v1.
    destruct (kick_fields (store_avail_idx (set_batch [] v1))) as (Ht2 & Hb2 & Hp2).
    rewrite Ht2, Hb2, Hp2. cbn. rewrite Ht, Hp. repeat split.
Qed.

Lemma published_flush_batch v : published (flush_batch v) = published v.
Proof.
  destruct (flush_batch_fields v) as (Ht & Hb & _).
  unfold published at 1. rewrite Ht, Hb, app_nil_r. reflexivity.
Qed.

(** The host reads back the buffers of a chain. *)
Lemma host_read_chain_is_chain ds (c : list Z) :
  forall (bs : list buffer.t) (fuel : nat) (h : Z),
    is_chain ds c -> Forall2 (desc_holds ds) c bs -> head c = Some h ->
    (length c <= fuel)%nat ->
    host_read_chain fuel ds h = Some bs.
Proof.
  induction c as [| x c IH]; intros bs fuel h Hc Hh Hhd Hlen; [contradiction |].
  injection Hhd as ->.
  destruct fuel as [| fuel]; [simpl in Hlen; lia |].
  inversion Hh as [| x' b c' bs' (d' & Hd' & Hpa & Hle & Hwr) Hrest]; subst.
  destruct Hc as (d & Hd & Hnext).
  rewrite Hd in Hd'. injection Hd' as <-.
  cbn [host_read_chain]. rewrite Hd. cbn [mbind option_bind].
  assert (Hb : buffer.mk (desc._paddr d) (desc._len d) (desc.writeable d) = b).
  { destruct b. cbn in Hpa, Hle, Hwr. congruence. }
  rewrite Hb. destruct c as [| y c].
  - rewrite Hnext. inversion Hrest. reflexivity.
  - destruct Hnext as (Hhn & Hnx & Hc'). rewrite Hhn, Hnx.
    rewrite (IH bs' fuel y Hc' Hrest eq_refl) by (simpl in *; lia).
    reflexivity.
Qed.

End Publication.

Section PostPublication.
Context {K : Type}.
Implicit Types (v : vring K) (fl : list Z) (cs : list (list Z)) (hs : host_sched).

Lemma frame_descs_fields v v' :
  frame_descs v v' ->
  trace v' = trace v /\ _batch v' = _batch v /\ _poll_mode v' = _poll_mode v.
Proof. unfold frame_descs. intros ->. repeat split. Qed.

(** The statements after the loop over the buffers hand exactly one head
    to the host, after all the earlier ones. *)
Lemma record_chain_published v (h : Z) (k : K) v' :
  record_chain v h k = Some v' -> batch_ok v ->
  published v' = published v ++ [h] /\ batch_ok v'
  /\ _poll_mode v' = _poll_mode v.
Proof.
  unfold record_chain, batch_ok. intros H Hok.
  destruct (at_index (_completions v) h); [| discriminate].
  cbn [mbind option_bind] in H. cbn [_poll_mode set_completions] in H.
  destruct (_poll_mode v) eqn:Hp; cbn [negb] in H; injection H as <-.
  - unfold published. cbn. rewrite Hp, app_assoc.
    split; [reflexivity |]. split; [discriminate | reflexivity].
  - unfold published. cbn. rewrite Hp, (Hok eq_refl), !app_nil_r.
    split; [reflexivity |]. split; [intros _ | ]; reflexivity.
Qed.

Lemma post_chain_published v fl cs (bc : buffer_chain (K := K)) v' :
  vring_inv v fl cs -> batch_ok v -> bufs bc <> [] ->
  post_chain v bc = Some v' ->
  let c := take (length (bufs bc)) fl in
  exists h,
    (length (bufs bc) <= length fl)%nat
    /\ vring_inv v' (drop (length (bufs bc)) fl) (cs ++ [c])
    /\ head c = Some h /\ length c = length (bufs bc)
    /\ is_chain (_descs v') c
    /\ Forall2 (desc_holds (_descs v')) c (bufs bc)
    /\ host_read_chain (length (_descs v')) (_descs v') h = Some (bufs bc)
    /\ published v' = published v ++ [h]
    /\ batch_ok v' /\ _poll_mode v' = _poll_mode v /\ _config v' = _config v.
Proof.
  intros Hinv Hok Hne Hpost c.
  destruct (post_chain_Some_inv v fl cs bc v' Hinv Hne Hpost) as (Hlen & _ & _).
  destruct (post_chain_enough v fl cs bc Hinv Hne Hlen)
    as (v1 & pseudo & prev & v'' & _ & Hfr & Hrec & Hpost' & Hinv' & Hhd & Hc & Hh & Hcf).
  rewrite Hpost in Hpost'. injection Hpost' as <-. fold c in Hinv', Hhd, Hc, Hh.
  destruct (frame_descs_fields _ _ Hfr) as (Htr1 & Hb1 & Hp1).
  assert (Hok1 : batch_ok v1) by (unfold batch_ok; rewrite Hp1, Hb1; exact Hok).
  destruct (record_chain_published _ _ _ _ Hrec Hok1) as (Hpub & Hok' & Hp').
  assert (Hlc : length c = length (bufs bc)) by (unfold c; rewrite length_take; lia).
  exists (desc._next pseudo). split; [exact Hlen |]. split; [exact Hinv' |].
  split; [exact Hhd |]. split; [exact Hlc |]. split; [exact Hc |].
  split; [exact Hh |]. split.
  { apply (host_read_chain_is_chain _ c); try assumption.
    pose proof (inv_count _ _ _ Hinv') as Hcnt.
    pose proof (inv_descs_len _ _ _ Hinv') as Hdl.
    rewrite length_app, concat_app, length_app in Hcnt. simpl in Hcnt.
    rewrite app_nil_r in Hcnt. lia. }
  split.
  { rewrite Hpub. unfold published. rewrite Htr1, Hb1. reflexivity. }
  split; [exact Hok' |]. split; [congruence | exact Hcf].
Qed.

Lemma post_chains_batch_ok (bcs : list (buffer_chain (K := K))) : forall v fl cs v',
  vring_inv v fl cs -> Forall (fun bc => bufs bc <> []) bcs ->
  post_chains v bcs = Some v' -> batch_ok v ->
  batch_ok v' /\ _poll_mode v' = _poll_mode v.
Proof.
  induction bcs as [| bc bcs IH]; intros v fl cs v' Hinv Hne Hpost Hok.
  - injection Hpost as <-. split; [exact Hok | reflexivity].
  - cbn [post_chains] in Hpost.
    destruct (post_chain v bc) as [v1 |] eqn:H1; [| discriminate].
    cbn [mbind option_bind] in Hpost. inversion Hne as [| ? ? Hne1 Hne2]; subst.
    destruct (post_chain_published v fl cs bc v1 Hinv Hok Hne1 H1)
      as (h & _ & Hinv1 & _ & _ & _ & _ & _ & _ & Hok1 & Hp1 & _).
    destruct (IH v1 _ _ v' Hinv1 Hne2 Hpost Hok1) as [Hok' Hp'].
    split; [exact Hok' | congruence].
Qed.

(** What [post] does after the loop over the chains hands nothing further
    to the host and takes nothing back. *)
Lemma post_after_chains hs v (bcs : list (buffer_chain (K := K))) v1 v' hs' :
  post_chains v bcs = Some v1 -> post hs v bcs = Some (v', hs') ->
  published v' = published v1 /\ (batch_ok v1 -> batch_ok v')
  /\ _poll_mode v' = _poll_mode v1
  /\ stored_heads (trace (flush_batch v')) = published v1.
Proof.
  intros H1 Hpost. unfold post in Hpost. rewrite H1 in Hpost.
  cbn [mbind option_bind] in Hpost.
  assert (Hgoal : published v' = published v1 /\ (batch_ok v1 -> batch_ok v')
                  /\ _poll_mode v' = _poll_mode v1).
  { destruct (_poll_mode v1) eqn:Hp; cbn [negb] in Hpost.
    - destruct (16 <=? _); injection Hpost as <- <-.
      + destruct (flush_batch_fields v1) as (_ & Hb & Hp').
        split; [apply published_flush_batch |]. split; [| congruence].
        intros _ _. exact Hb.
      + split; [reflexivity |]. split; [auto | exact Hp].
    - set (w := kick (store_avail_idx v1)) in *.
      destruct (kick_fields (store_avail_idx v1)) as (_ & Hbw & Hpw). fold w in Hbw, Hpw.
      assert (Hpollw : _poll_mode w = false) by (rewrite Hpw; exact Hp).
      destruct (do_complete_loop_armed _ hs w v' hs' Hpollw Hpost)
        as (_ & _ & Htr & Hfr).
      destruct (frame_completion_batch _ _ Hfr) as [Hb' Hp'].
      split.
      { rewrite (published_completion _ _ Htr Hfr). unfold w.
        rewrite published_kick. apply published_store_avail_idx. }
      split; [| congruence].
      unfold batch_ok. intros Hok _. rewrite Hb', Hbw. apply Hok, Hp. }
  destruct Hgoal as (Hpub & Hok & Hp). split; [exact Hpub |].
  split; [exact Hok |]. split; [exact Hp |].
  destruct (flush_batch_fields v') as (Ht & _). rewrite Ht. exact Hpub.
Qed.

(** In every reachable state the mode is the one the ring was built with,
    and only a polling ring batches. *)
Lemma reachable_batch_ok (conf : config.t) (poll_mode : bool) v :
  conf_ok conf -> reachable conf poll_mode v ->
  _poll_mode v = poll_mode /\ batch_ok v.
Proof.
  intros Hconf Hreach.
  induction Hreach as
    [ | v es Hr [Hp Hok] Hsched
      | v x Hr [Hp Hok]
      | v x Hr [Hp Hok]
      | v x Hr [Hp Hok]
      | v hs bcs v' hs' Hr [Hp Hok] Hne Hsched Hpost
      | v hs v' hs' Hr [Hp Hok] Hsched Hdo
      | v hs v' hs' Hr [Hp Hok] Hsched Hdo
      | v Hr [Hp Hok] ].
  - split; [reflexivity |]. intros _. reflexivity.
  - destruct (frame_completion_batch _ _ (host_publish_frame es v)) as [Hb Hp'].
    split; [congruence |]. unfold batch_ok. rewrite Hb, Hp'. exact Hok.
  - split; [exact Hp | exact Hok].
  - split; [exact Hp | exact Hok].
  - split; [exact Hp | exact Hok].
  - destruct (reachable_inv conf poll_mode v Hconf Hr) as [_ (fl & cs & Hinv)].
    assert (Hsome : exists v1, post_chains v bcs = Some v1).
    { unfold post in Hpost. destruct (post_chains v bcs) as [v1 |]; [eauto | discriminate]. }
    destruct Hsome as [v1 H1].
    destruct (post_chains_batch_ok bcs v fl cs v1 Hinv Hne H1 Hok) as [Hok1 Hp1].
    destruct (post_after_chains hs v bcs v1 v' hs' H1 Hpost) as (_ & Hok' & Hp' & _).
    split; [congruence | auto].
  - destruct (reachable_inv conf poll_mode v Hconf Hr) as [_ (fl & cs & Hinv)].
    destruct (do_complete_inv v fl cs hs Hinv Hsched)
      as (v'' & hs'' & fl' & cs' & Hdo' & _ & _ & Hfr & _).
    rewrite Hdo in Hdo'. injection Hdo' as <- <-.
    destruct (frame_completion_batch _ _ Hfr) as [Hb Hp'].
    split; [congruence |]. unfold batch_ok. rewrite Hb, Hp'. exact Hok.
  - destruct (reachable_inv conf poll_mode v Hconf Hr) as [_ (fl & cs & Hinv)].
    unfold complete in Hdo.
    destruct (do_complete_inv v fl cs hs Hinv Hsched)
      as (v'' & hs'' & fl' & cs' & Hdo' & _ & _ & Hfr & _).
    rewrite Hdo' in Hdo. cbn [mbind option_bind] in Hdo. injection Hdo as <- <-.
    destruct (frame_completion_batch _ _ Hfr) as [Hb Hp'].
    split; [cbn; congruence |]. unfold batch_ok. cbn. rewrite Hb, Hp'. exact Hok.
  - destruct (flush_batch_fields v) as (_ & Hb & Hp').
    split; [congruence |]. intros _. exact Hb.
Qed.

End PostPublication.

(** ** [txq::post]: one read-only chain per packet, in call order *)

Lemma txq_chain_nr_frags (t : txq.t) (vhdr_at : Z) (p : packet.t) :
  tx_completion.nr_frags (completed (txq_chain t vhdr_at p))
  = Z.of_nat (length (packet.fragments p)) + 1.
Proof.
  unfold txq_chain, packet.nr_frags, packet.prepend.
  cbn [completed tx_completion.nr_frags packet.fragments length]. lia.
Qed.

Lemma txq_chain_bufs (t : txq.t) (vhdr_at : Z) (p : packet.t) :
  bufs (txq_chain t vhdr_at p)
  = fragment_to_buffer (fragment.mk vhdr_at (txq._header_len t))
    :: map fragment_to_buffer (packet.fragments p).
Proof. reflexivity. Qed.

Lemma sem_wait_Some {K : Type} (n : Z) (v ring : vring K) :
  sem_wait n v = Some ring ->
  n <= sem_current v /\ ring = set_available_descriptors (sem_current v - n) v.
Proof.
  unfold sem_wait, sem_current. destruct (n <=? _) eqn:E; [| discriminate].
  intros [= <-]. split; [lia | reflexivity].
Qed.

(** A call of [txq::post] that ran to the end. *)
Lemma txq_post_Done (conf : config.t) (poll_mode : bool)
    (vhdr_at : Z) (hs : host_sched) (t : txq.t) (p : packet.t) t' hs' :
  conf_ok conf -> reachable conf poll_mode (txq._ring t) ->
  txq_post vhdr_at hs t p = Done (t', hs') ->
  let n := Z.of_nat (length (packet.fragments p)) + 1 in
  let vbc := txq_chain t vhdr_at p in
  exists ring v1 c h,
    sem_wait n (txq._ring t) = Some ring
    /\ post_chains ring [vbc] = Some v1
    /\ post hs ring [vbc] = Some (txq._ring t', hs')
    /\ head c = Some h /\ Z.of_nat (length c) = n
    /\ is_chain (_descs v1) c
    /\ Forall2 (desc_holds (_descs v1)) c (bufs vbc)
    /\ host_read_chain (length (_descs v1)) (_descs v1) h = Some (bufs vbc)
    /\ published v1 = published (txq._ring t) ++ [h]
    /\ published (txq._ring t') = published (txq._ring t) ++ [h]
    /\ stored_heads (trace (flush_batch (txq._ring t')))
       = published (txq._ring t) ++ [h].
Proof.
  intros Hconf Hreach Hdone n vbc. unfold txq_post in Hdone. cbv zeta in Hdone.
  rewrite txq_chain_nr_frags in Hdone. fold n vbc in Hdone.
  destruct (sem_wait n (txq._ring t)) as [ring |] eqn:Hw; [| discriminate].
  destruct (post hs ring [vbc]) as [[r hs1] |] eqn:Hpost; [| discriminate].
  injection Hdone as <- <-. cbn [txq._ring].
  destruct (sem_wait_Some _ _ _ Hw) as [_ Hring].
  assert (Hreach1 : reachable conf poll_mode ring)
    by (rewrite Hring; apply reach_semaphore, Hreach).
  destruct (reachable_inv conf poll_mode ring Hconf Hreach1) as [_ (fl & cs & Hinv)].
  destruct (reachable_batch_ok conf poll_mode ring Hconf Hreach1) as [_ Hok].
  assert (Hsome : exists v1, post_chain ring vbc = Some v1).
  { unfold post in Hpost. cbn [post_chains] in Hpost.
    destruct (post_chain ring vbc) as [v1 |]; [eauto | discriminate]. }
  destruct Hsome as [v1 H1].
  assert (Hchains : post_chains ring [vbc] = Some v1)
    by (cbn [post_chains]; rewrite H1; reflexivity).
  assert (Hne : bufs vbc <> []) by (unfold vbc; rewrite txq_chain_bufs; discriminate).
  destruct (post_chain_published ring fl cs vbc v1 Hinv Hok Hne H1)
    as (h & _ & _ & Hhd & Hlc & Hc & Hh & Hread & Hpub & _).
  destruct (post_after_chains hs ring [vbc] v1 r hs1 Hchains Hpost)
    as (Hpub' & _ & _ & Hflush).
  assert (Hpub1 : published v1 = published (txq._ring t) ++ [h])
    by (rewrite Hpub, Hring; reflexivity).
  exists ring, v1, (take (length (bufs vbc)) fl), h.
  split; [reflexivity |]. split; [exact Hchains |]. split; [exact Hpost |].
  split; [exact Hhd |]. split.
  { rewrite Hlc. unfold vbc. rewrite txq_chain_bufs. cbn [length].
    rewrite length_map. unfold n. lia. }
  split; [exact Hc |]. split; [exact Hh |]. split; [exact Hread |].
  split; [exact Hpub1 |]. split; [congruence | congruence].
Qed.

(** [txq::post] runs to the end when the permits are there, the permits
    are backed by free descriptors and the host is well behaved. *)
Lemma txq_post_runs (conf : config.t) (poll_mode : bool)
    (vhdr_at : Z) (hs : host_sched) (t : txq.t) (p : packet.t) (f : Z) :
  conf_ok conf -> reachable conf poll_mode (txq._ring t) ->
  free_count (txq._ring t) = Some f -> sem_current (txq._ring t) <= f ->
  let n := Z.of_nat (length (packet.fragments p)) + 1 in
  let vbc := txq_chain t vhdr_at p in
  (forall ring v1,
     sem_wait n (txq._ring t) = Some ring -> post_chains ring [vbc] = Some v1 ->
     sched_ok v1 hs) ->
  n <= sem_current (txq._ring t) ->
  exists t' hs',
    txq_post vhdr_at hs t p = Done (t', hs')
    /\ reachable conf poll_mode (txq._ring t').
Proof.
  intros Hconf Hreach Hfree Hcap n vbc Hsched Hn.
  set (ring := set_available_descriptors (sem_current (txq._ring t) - n) (txq._ring t)).
  assert (Hw : sem_wait n (txq._ring t) = Some ring).
  { unfold sem_wait. fold (sem_current (txq._ring t)).
    destruct (n <=? _) eqn:E; [reflexivity | lia]. }
  destruct (reachable_inv conf poll_mode _ Hconf Hreach) as [_ (fl & cs & Hinv0)].
  destruct (counts_of_inv _ _ _ Hinv0) as [Hfc _].
  rewrite Hfree in Hfc. injection Hfc as ->.
  assert (Hinv : vring_inv ring fl cs)
    by (apply (same_core_inv (txq._ring t)); [repeat split | exact Hinv0]).
  assert (Hne : bufs vbc <> []) by (unfold vbc; rewrite txq_chain_bufs; discriminate).
  assert (Hlen : (length (bufs vbc) <= length fl)%nat).
  { unfold vbc. rewrite txq_chain_bufs. cbn [length]. rewrite length_map.
    unfold n in Hn. lia. }
  destruct (post_chain_enough ring fl cs vbc Hinv Hne Hlen)
    as (_ & _ & _ & v1 & _ & _ & _ & H1 & Hinv1 & _).
  assert (Hchains : post_chains ring [vbc] = Some v1)
    by (cbn [post_chains]; rewrite H1; reflexivity).
  pose proof (Hsched ring v1 Hw Hchains) as Hok1.
  assert (Hpost : exists r hs1, post hs ring [vbc] = Some (r, hs1)).
  { unfold post. rewrite Hchains. cbn [mbind option_bind].
    destruct (negb (_poll_mode v1)).
    - pose proof (same_core_trans _ _ _ (store_avail_idx_same_core v1)
                    (kick_same_core _)) as Hcore.
      destruct (same_core_step _ _ _ _ hs Hcore Hinv1 Hok1) as [Hinv2 Hok2].
      destruct (do_complete_inv _ _ _ hs Hinv2 Hok2) as (r & hs1 & _ & _ & Hdo & _).
      eauto.
    - destruct (16 <=? _); eauto. }
  destruct Hpost as (r & hs1 & Hpost).
  exists (txq.mk r (txq.hw t) (txq._header_len t)), hs1. split.
  - unfold txq_post. cbv zeta. rewrite txq_chain_nr_frags. fold n vbc.
    rewrite Hw, Hpost. reflexivity.
  - cbn [txq._ring].
    apply (reach_post conf poll_mode ring hs [vbc] r hs1).
    + apply reach_semaphore, Hreach.
    + constructor; [exact Hne | constructor].
    + intros v1' Hv1'. exact (Hsched ring v1' Hw Hv1').
    + exact Hpost.
Qed.


Lemma desc_holds_read_only (ds : list desc.t) (c : list Z) (bs : list buffer.t) :
  Forall2 (desc_holds ds) c bs ->
  Forall (fun b => buffer.writeable b = false) bs ->
  Forall (fun x => exists d, at_index ds x = Some d /\ desc.writeable d = false) c.
Proof.
  induction 1 as [| x b c bs (d & Hd & _ & _ & Hwr) _ IH]; intros Hro;
    [constructor |].
  inversion Hro as [| ? ? Hb Hbs]; subst. constructor; [| apply IH, Hbs].
  exists d. split; [exact Hd | congruence].
Qed.

(** ** [do_complete] in either mode *)

Section DoCompleteEvents.
Context {K : Type}.
Implicit Types (v : vring K) (hs : host_sched).

Lemma trace_ext_refl (P : event K -> bool) v : trace_ext P v v.
Proof. exists []. split; reflexivity. Qed.

Lemma trace_ext_trans (P : event K -> bool) v1 v2 v3 :
  trace_ext P v1 v2 -> trace_ext P v2 v3 -> trace_ext P v1 v3.
Proof.
  intros (t1 & H1 & F1) (t2 & H2 & F2). exists (t2 ++ t1). split.
  - rewrite H2, H1, app_assoc. reflexivity.
  - rewrite forallb_app, F1, F2. reflexivity.
Qed.

Lemma trace_ext_same (P : event K -> bool) v v' : trace v' = trace v -> trace_ext P v v'.
Proof. intros H. exists []. split; [exact H | reflexivity]. Qed.

Lemma trace_ext_emit (P : event K -> bool) v e : P e = true -> trace_ext P v (emit e v).
Proof. intros He. exists [e]. split; [reflexivity |]. simpl. rewrite He. reflexivity. Qed.

Lemma trace_ext_weaken (P Q : event K -> bool) v v' :
  (forall e, P e = true -> Q e = true) -> trace_ext P v v' -> trace_ext Q v v'.
Proof.
  intros HPQ (t & Ht & Hall). exists t. split; [exact Ht |].
  apply forallb_forall. intros e He. apply HPQ.
  rewrite forallb_forall in Hall. apply Hall, He.
Qed.

(** The fields that [complete_one] leaves alone. *)
Lemma frame_complete_fields v v' :
  frame_complete v v' ->
  _config v' = _config v /\ _poll_mode v' = _poll_mode v
  /\ used_idx v' = used_idx v /\ used_elements v' = used_elements v
  /\ avail_flags v' = avail_flags v /\ used_event v' = used_event v
  /\ _batch v' = _batch v /\ _available_descriptors v' = _available_descriptors v.
Proof. unfold frame_complete. intros ->. repeat split. Qed.

Lemma frame_completion_fields v v' :
  frame_completion v v' ->
  _config v' = _config v /\ _poll_mode v' = _poll_mode v
  /\ _batch v' = _batch v /\ _available_descriptors v' = _available_descriptors v
  /\ avail_idx v' = avail_idx v /\ avail_head v' = avail_head v
  /\ avail_ring v' = avail_ring v
  /\ avail_added_since_kick v' = avail_added_since_kick v.
Proof. unfold frame_completion. intros ->. repeat split. Qed.

Lemma complete_one_frame v v' :
  complete_one v = Some v' ->
  frame_complete v v'
  /\ trace_ext (fun e => match e with EvSetValue _ _ _ => true | _ => false end) v v'.
Proof.
  unfold complete_one, link_to_free_list. intros H.
  destruct (at_index (used_elements v) _) as [ue |]; [| discriminate].
  cbn [mbind option_bind] in H.
  destruct (at_index _ (used_elem._id ue)) as [k |]; [| discriminate].
  cbn [mbind option_bind] in H.
  destruct (negb _).
  - destruct (at_index (_descs _) _) as [d |]; [| discriminate].
    cbn [mbind option_bind] in H.
    destruct (chain_walk _ _ _ _) as [[last n] |]; [| discriminate].
    injection H as <-. split.
    + unfold frame_complete. destruct v; reflexivity.
    + exists [EvSetValue (used_elem._id ue) k (used_elem._len ue)]. split; reflexivity.
  - cbn [mbind option_bind] in H.
    destruct (chain_walk _ _ _ _) as [[last n] |]; [| discriminate].
    injection H as <-. split.
    + unfold frame_complete. destruct v; reflexivity.
    + exists [EvSetValue (used_elem._id ue) k (used_elem._len ue)]. split; reflexivity.
Qed.

Lemma drain_frame (fuel : nat) : forall (used_head : Z) v v',
  drain fuel used_head v = Some v' ->
  frame_complete v v' /\ used_tail v' = used_head
  /\ trace_ext (fun e => match e with EvSetValue _ _ _ => true | _ => false end) v v'.
Proof.
  induction fuel as [| fuel IH]; intros used_head v v' H; simpl in H;
    destruct (used_head =? used_tail v) eqn:E.
  - injection H as <-. apply Z.eqb_eq in E.
    split; [apply frame_complete_refl |]. split; [auto | apply trace_ext_refl].
  - discriminate.
  - injection H as <-. apply Z.eqb_eq in E.
    split; [apply frame_complete_refl |]. split; [auto | apply trace_ext_refl].
  - destruct (complete_one v) as [v1 |] eqn:H1; [| discriminate].
    cbn [mbind option_bind] in H.
    destruct (complete_one_frame v v1 H1) as [Hf1 Ht1].
    destruct (IH used_head v1 v' H) as (Hf & Htail & Ht).
    split; [eapply frame_complete_trans; eassumption |].
    split; [exact Htail | eapply trace_ext_trans; eassumption].
Qed.

(** One pass: what it emits, and that it asks for another pass only when
    the host published between the two loads of [used.idx]. *)
Lemma do_complete_pass_events hs v again v' hs' :
  do_complete_pass hs v = Some (again, v', hs') ->
  trace_ext (mode_event (_poll_mode v) (config.event_index (_config v))) v v'
  /\ frame_completion v v'
  /\ (length hs' <= length hs)%nat
  /\ (again = true -> _poll_mode v = false /\ (length hs' < length hs)%nat)
  /\ (_poll_mode v = true ->
      hs' = tail hs /\ avail_flags v' = avail_flags v /\ used_event v' = used_event v).
Proof.
  unfold do_complete_pass. intros H.
  set (P := mode_event (_poll_mode v) (config.event_index (_config v))).
  assert (H0 : trace_ext P v (disable_interrupts v)
               /\ frame_completion v (disable_interrupts v)
               /\ (_poll_mode v = true -> disable_interrupts v = v)).
  { unfold disable_interrupts. destruct (_poll_mode v) eqn:Hp;
      destruct (config.event_index (_config v)) eqn:He; cbn [negb andb].
    - split; [apply trace_ext_refl |]. split; [apply frame_completion_refl | auto].
    - split; [apply trace_ext_refl |]. split; [apply frame_completion_refl | auto].
    - split; [apply trace_ext_refl |]. split; [apply frame_completion_refl | auto].
    - split; [| split; [| discriminate]].
      + apply (trace_ext_emit P (set_avail_flags VRING_AVAIL_F_NO_INTERRUPT v)). unfold P.
        rewrite ?Hp, ?He. reflexivity.
      + unfold frame_completion. destruct v; reflexivity. }
  destruct H0 as (Ht0 & Hf0 & Hid0).
  set (v0 := disable_interrupts v) in *.
  pose proof (host_before_load_fields hs v0) as (Htr1 & Hue1 & Haf1 & _ & _ & _).
  pose proof (host_before_load_frame hs v0) as Hf1.
  assert (Hlen1 : (length (host_before_load hs v0).2 <= length hs)%nat
                  /\ (host_before_load hs v0).2 = tail hs)
    by (destruct hs; simpl; split; auto; lia).
  destruct (host_before_load hs v0) as [v1 hs1]. cbn [fst snd] in *.
  destruct Hlen1 as [Hlen1 Htl1].
  destruct (drain _ _ _) as [v3 |] eqn:Hdrain; [| discriminate].
  cbn [mbind option_bind] in H.
  destruct (drain_frame _ _ _ _ Hdrain) as (Hf3 & Htail3 & Ht3).
  destruct (frame_complete_fields _ _ Hf3)
    as (Hcf3 & Hp3 & Hui3 & _ & Haf3 & Hue3 & _ & _).
  cbn [_config _poll_mode used_idx avail_flags used_event emit set_trace]
    in Hcf3, Hp3, Hui3, Haf3, Hue3, Htail3.
  destruct (frame_completion_fields _ _ Hf0) as (Hcf0 & Hp0 & _).
  destruct (frame_completion_fields _ _ Hf1) as (Hcf1 & Hp1 & _).
  assert (Hpre : trace_ext P v v3 /\ frame_completion v v3).
  { split.
    - eapply trace_ext_trans; [exact Ht0 |].
      eapply trace_ext_trans; [apply (trace_ext_same P v0 v1), Htr1 |].
      eapply trace_ext_trans;
        [apply (trace_ext_emit P v1 (EvLoadUsedIdx (used_idx v1))); reflexivity |].
      eapply trace_ext_weaken; [| exact Ht3]. intros [] He; try discriminate.
      reflexivity.
    - eapply frame_completion_trans; [exact Hf0 |].
      eapply frame_completion_trans; [exact Hf1 |].
      eapply frame_completion_trans;
        [apply (emit_step v1 (EvLoadUsedIdx (used_idx v1))); reflexivity |].
      apply frame_complete_completion, Hf3. }
  destruct Hpre as [Htpre Hfpre].
  assert (Hpoll3 : _poll_mode v3 = _poll_mode v) by congruence.
  assert (Hconf3 : _config v3 = _config v) by congruence.
  unfold enable_interrupts in H. rewrite Hpoll3 in H.
  destruct (_poll_mode v) eqn:Hp.
  - injection H as <- <- <-. split; [exact Htpre |]. split; [exact Hfpre |].
    split; [exact Hlen1 |]. split; [discriminate |]. intros _.
    split; [exact Htl1 |]. rewrite Haf3, Hue3, Haf1, Hue1, (Hid0 eq_refl). auto.
  - set (w := emit EvFence _) in H.
    assert (Htw : trace_ext P v3 w /\ frame_completion v3 w
                  /\ used_idx w = used_idx v3 /\ used_tail w = used_tail v3).
    { unfold w. rewrite Hconf3.
      destruct (config.event_index (_config v)) eqn:He; cbn [negb].
      - split; [| split; [unfold frame_completion; destruct v3; reflexivity | auto]].
        eapply trace_ext_trans;
          [apply (trace_ext_emit P (set_used_event (used_tail v3) v3)
                    (EvStoreUsedEvent (used_tail v3))); unfold P; rewrite ?Hp, ?He;
           reflexivity |].
        apply trace_ext_emit; unfold P; rewrite ?Hp; reflexivity.
      - split; [| split; [unfold frame_completion; destruct v3; reflexivity | auto]].
        eapply trace_ext_trans;
          [apply (trace_ext_emit P (set_avail_flags 0 v3) (EvStoreAvailFlags 0));
           unfold P; rewrite ?Hp, ?He; reflexivity |].
        apply trace_ext_emit; unfold P; rewrite ?Hp; reflexivity. }
    destruct Htw as (Htw & Hfw & Huiw & Hutw). clearbody w.
    pose proof (host_before_load_fields hs1 w) as (Htr6 & _ & _ & Hut6 & _ & _).
    pose proof (host_before_load_frame hs1 w) as Hf6.
    assert (Hlen6 : (length (host_before_load hs1 w).2 <= length hs1)%nat
                    /\ (hs1 = [] -> (host_before_load hs1 w).1 = w)
                    /\ (hs1 <> [] -> (length (host_before_load hs1 w).2 < length hs1)%nat)).
    { destruct hs1 as [| h0 hs1']; simpl.
      - split; [lia |]. split; [reflexivity | intros Hne; contradiction].
      - split; [lia |]. split; [discriminate | intros _; lia]. }
    destruct (host_before_load hs1 w) as [v6 hs6]. cbn [fst snd] in *.
    destruct Hlen6 as (Hlen6 & Hnil6 & Hne6).
    injection H as <- <- <-.
    split.
    { eapply trace_ext_trans; [exact Htpre |].
      eapply trace_ext_trans; [exact Htw |].
      eapply trace_ext_trans; [apply (trace_ext_same P w v6), Htr6 |].
      apply trace_ext_emit. reflexivity. }
    split.
    { eapply frame_completion_trans; [exact Hfpre |].
      eapply frame_completion_trans; [exact Hfw |].
      eapply frame_completion_trans; [exact Hf6 |].
      unfold frame_completion. destruct v6; reflexivity. }
    split; [lia |]. split; [| discriminate].
    intros Hagain. split; [reflexivity |].
    destruct hs1 as [| h hs1'].
    + rewrite (Hnil6 eq_refl) in Hagain.
      rewrite Huiw, Hui3, Htail3, Z.eqb_refl in Hagain. discriminate.
    + specialize (Hne6 ltac:(discriminate)). lia.
Qed.

Lemma do_complete_loop_events (fuel : nat) : forall hs v v' hs',
  do_complete_loop fuel hs v = Some (v', hs') ->
  trace_ext (mode_event (_poll_mode v) (config.event_index (_config v))) v v'
  /\ frame_completion v v'
  /\ (length hs' <= length hs)%nat
  /\ (_poll_mode v = true ->
      hs' = tail hs /\ avail_flags v' = avail_flags v /\ used_event v' = used_event v).
Proof.
  induction fuel as [| fuel IH]; intros hs v v' hs' H; [discriminate |].
  cbn [do_complete_loop] in H.
  destruct (do_complete_pass hs v) as [[[again v1] hs1] |] eqn:Hpass; [| discriminate].
  cbn [mbind option_bind] in H.
  destruct (do_complete_pass_events hs v again v1 hs1 Hpass)
    as (Ht & Hf & Hlen & Hagain & Hpoll).
  destruct again.
  - destruct (Hagain eq_refl) as [Hp Hlt].
    destruct (IH hs1 v1 v' hs' H) as (Ht' & Hf' & Hlen' & _).
    destruct (frame_completion_fields _ _ Hf) as (Hcf & Hp1 & _).
    rewrite Hcf, Hp1 in Ht'.
    split; [eapply trace_ext_trans; eassumption |].
    split; [eapply frame_completion_trans; eassumption |].
    split; [lia |]. rewrite Hp. discriminate.
  - injection H as <- <-. auto.
Qed.

(** The passes are bounded by the host's activity, not by the fuel. *)
Lemma do_complete_loop_fuel (fuel1 : nat) : forall (fuel2 : nat) hs v,
  (length hs < fuel1)%nat -> (length hs < fuel2)%nat ->
  do_complete_loop fuel1 hs v = do_complete_loop fuel2 hs v.
Proof.
  induction fuel1 as [| fuel1 IH]; intros fuel2 hs v H1 H2; [lia |].
  destruct fuel2 as [| fuel2]; [lia |]. cbn [do_complete_loop].
  destruct (do_complete_pass hs v) as [[[again v1] hs1] |] eqn:Hpass; [| reflexivity].
  cbn [mbind option_bind].
  destruct (do_complete_pass_events hs v again v1 hs1 Hpass) as (_ & _ & _ & Hagain & _).
  destruct again; [| reflexivity].
  destruct (Hagain eq_refl) as [_ Hlt]. apply IH; lia.
Qed.

End DoCompleteEvents.

Section DoCompleteProperties.
Context {K : Type}.
Implicit Types (v : vring K) (hs : host_sched).

Lemma count_notify_app (t1 t2 : list (event K)) :
  count_notify (t1 ++ t2) = (count_notify t1 + count_notify t2)%nat.
Proof.
  induction t1 as [| e t1 IH]; [reflexivity |]. simpl. destruct e; simpl; lia.
Qed.

Lemma mode_events_quiet (pm ei : bool) (t : list (event K)) :
  forallb (mode_event pm ei) t = true ->
  count_notify t = O /\ stored_heads t = [].
Proof.
  induction t as [| e t IH]; [auto |]. simpl. intros H.
  apply andb_true_iff in H as [He Ht]. destruct (IH Ht) as [Hn Hs].
  destruct e; try discriminate; auto.
Qed.

Lemma drain_done (fuel : nat) (used_head : Z) v :
  used_head = used_tail v -> drain fuel used_head v = Some v.
Proof. intros ->. destruct fuel; simpl; rewrite Z.eqb_refl; reflexivity. Qed.

(** What [do_complete] never does: it never calls the notifier and never
    touches the available ring or [avail.idx]; a polling ring makes a
    single pass, without fences and without writing [avail.flags] or
    [used_event]; with EVENT_IDX negotiated [avail.flags] is never
    written, and without it [used_event] never is. *)
Theorem do_complete_mode_discipline v hs v' hs' :
  do_complete hs v = Some (v', hs') ->
  trace_ext (mode_event (_poll_mode v) (config.event_index (_config v))) v v'
  /\ count_notify (trace v') = count_notify (trace v)
  /\ published v' = published v
  /\ avail_idx v' = avail_idx v /\ avail_ring v' = avail_ring v
  /\ (_poll_mode v = true ->
      hs' = tail hs /\ avail_flags v' = avail_flags v
      /\ used_event v' = used_event v).
Proof.
  intros H. destruct (do_complete_loop_events _ hs v v' hs' H) as (Ht & Hf & _ & Hpoll).
  destruct (frame_completion_fields _ _ Hf) as (_ & _ & Hb & _ & Hai & _ & Har & _).
  split; [exact Ht |]. destruct Ht as (t & Htr & Hall).
  destruct (mode_events_quiet _ _ _ Hall) as [Hn Hs].
  split; [rewrite Htr, count_notify_app, Hn; reflexivity |].
  split; [unfold published; rewrite Htr, stored_heads_app, Hs, Hb, app_nil_r;
          reflexivity |].
  split; [exact Hai |]. split; [exact Har | exact Hpoll].
Qed.

(** A spurious wake-up is harmless: with nothing pending and the host
    quiet, [do_complete] returns after one pass and leaves descriptors,
    promises, free list and used cursor as they were. *)
Theorem do_complete_quiet v :
  used_idx v = used_tail v ->
  exists v',
    do_complete [] v = Some (v', [])
    /\ same_core v v'
    /\ fulfilled (trace v') = fulfilled (trace v)
    /\ _available_descriptors v' = _available_descriptors v.
Proof.
  intros Hidle. unfold do_complete. cbn [length do_complete_loop].
  unfold do_complete_pass, disable_interrupts, enable_interrupts, host_before_load.
  destruct (_poll_mode v) eqn:Hp; destruct (config.event_index (_config v)) eqn:He;
    cbn [negb andb].
  - rewrite drain_done by exact Hidle. cbn [mbind option_bind].
    cbn [_poll_mode emit set_trace]. rewrite Hp. cbn [mbind option_bind].
    eexists. split; [reflexivity |]. repeat split.
  - rewrite drain_done by exact Hidle. cbn [mbind option_bind].
    cbn [_poll_mode emit set_trace]. rewrite Hp. cbn [mbind option_bind].
    eexists. split; [reflexivity |]. repeat split.
  - rewrite drain_done by exact Hidle. cbn [mbind option_bind].
    cbn [_poll_mode _config used_idx used_tail emit set_trace set_used_event].
    rewrite Hp, He. cbn [negb used_idx emit set_trace set_used_event].
    rewrite Hidle, Z.eqb_refl.
    cbn [negb mbind option_bind]. eexists. split; [reflexivity |]. repeat split.
  - rewrite drain_done by exact Hidle. cbn [mbind option_bind].
    cbn [_poll_mode _config used_idx used_tail emit set_trace set_avail_flags].
    rewrite Hp, He. cbn [negb used_idx emit set_trace set_avail_flags].
    rewrite Hidle, Z.eqb_refl.
    cbn [negb mbind option_bind]. eexists. split; [reflexivity |]. repeat split.
Qed.

End DoCompleteProperties.

Lemma do_complete_mode_discipline_witness :
  exists v' hs',
    do_complete race_sched ring_posted = Some (v', hs')
    /\ count_notify (trace v') = count_notify (trace ring_posted).
Proof.
  destruct (do_complete race_sched ring_posted) as [[v' hs'] |] eqn:H;
    [| vm_compute in H; discriminate].
  exists v', hs'. split; [reflexivity |].
  exact (proj1 (proj2 (do_complete_mode_discipline ring_posted race_sched v' hs' H))).
Defined.

Lemma do_complete_quiet_witness :
  exists v',
    do_complete [] (vring_new (K := unit) conf4 true) = Some (v', [])
    /\ same_core (vring_new conf4 true) v'.
Proof.
  destruct (do_complete_quiet (vring_new (K := unit) conf4 true)
              ltac:(vm_compute; reflexivity)) as (v' & Hdo & Hcore & _).
  exists v'. split; [exact Hdo | exact Hcore].
Defined.

(** ** Recycling: completed chains go to the end of the free list *)

Section Recycling.
Context {K : Type}.
Implicit Types (v : vring K) (fl : list Z) (cs done : list (list Z)) (hs : host_sched).

Lemma drain_recycles (n : nat) : forall v fl cs hs (fuel : nat),
  vring_inv v fl cs -> sched_ok v hs -> length (pending v) = n -> (n <= fuel)%nat ->
  exists v' done cs',
    drain fuel (used_idx v) v = Some v'
    /\ vring_inv v' (fl ++ concat done) cs' /\ sched_ok v' hs
    /\ used_tail v' = used_idx v
    /\ frame_complete v v'
    /\ cs ≡ₚ done ++ cs'
    /\ omap head done = map used_elem._id (pending v).
Proof.
  induction n as [| n IH]; intros v fl cs hs fuel Hinv Hok Hlen Hfuel.
  - apply nil_length_inv in Hlen.
    pose proof (pending_empty_idx v (inv_used_tail _ _ _ Hinv)
                  (inv_used_idx _ _ _ Hinv) Hlen) as Heq.
    exists v, [], cs. split.
    { destruct fuel; simpl; rewrite Heq, Z.eqb_refl; reflexivity. }
    rewrite Hlen. cbn [concat]. rewrite app_nil_r.
    split; [exact Hinv |]. split; [exact Hok |]. split; [symmetry; exact Heq |].
    split; [apply frame_complete_refl |]. split; reflexivity.
  - assert (Hne : used_idx v <> used_tail v).
    { intros Heq. rewrite (pending_nil v (inv_used_tail _ _ _ Hinv) Heq) in Hlen.
      discriminate. }
    destruct fuel as [| fuel]; [lia |].
    destruct (complete_one_recycles v fl cs hs Hinv Hok Hne)
      as (e & k & v1 & c & cs1 & cs2 & Hcs & Hhd & _ & Hone & Hpend & _ & _ & _
          & Hinv1 & Hok1 & Hfr1).
    assert (Hidx1 : used_idx v1 = used_idx v) by (rewrite Hfr1; reflexivity).
    destruct (IH v1 (fl ++ c) (cs1 ++ cs2) hs fuel Hinv1 Hok1) as
      (v' & done & cs' & Hdrain & Hinv' & Hok' & Htail' & Hfr' & Hperm & Hheads);
      [rewrite Hpend in Hlen; simpl in Hlen; lia | lia |].
    exists v', (c :: done), cs'. split.
    { simpl. apply Z.eqb_neq in Hne. rewrite Hne, Hone. cbn [mbind option_bind].
      rewrite <- Hidx1. exact Hdrain. }
    split; [cbn [concat]; rewrite app_assoc; exact Hinv' |].
    split; [exact Hok' |]. split; [rewrite Htail'; exact Hidx1 |].
    split; [eapply frame_complete_trans; eassumption |]. split.
    + rewrite Hcs, <- Permutation_middle. cbn [app]. rewrite Hperm. reflexivity.
    + rewrite Hpend. cbn [map]. rewrite <- Hheads. simpl. rewrite Hhd. reflexivity.
Qed.

Lemma do_complete_pass_recycles v fl cs hs :
  vring_inv v fl cs -> sched_ok v hs ->
  exists again v' hs' done cs',
    do_complete_pass hs v = Some (again, v', hs')
    /\ vring_inv v' (fl ++ concat done) cs' /\ sched_ok v' hs'
    /\ cs ≡ₚ done ++ cs'
    /\ (again = true -> (length hs' < length hs)%nat)
    /\ map fst (fired (trace v')) = map fst (fired (trace v)) ++ omap head done.
Proof.
  intros Hinv Hok.
  destruct (do_complete_pass_inv v fl cs hs Hinv Hok)
    as (again & v' & hs' & _ & _ & Hpass & _ & _ & _ & _ & _ & Hagain & Hfired).
  exists again, v', hs'. pose proof Hpass as Hpass0.
  unfold do_complete_pass in Hpass.
  destruct (disable_interrupts_step v) as (Hc0 & Hf0 & Ht0).
  destruct (same_core_step _ _ fl cs hs Hc0 Hinv Hok) as [Hinv0 Hok0].
  pose proof (host_before_load_inv _ fl cs hs Hinv0 Hok0) as Hhost.
  destruct (host_before_load hs (disable_interrupts v)) as [v1 hs1].
  destruct Hhost as (Hinv1 & Hok1 & Hf1 & Htr1 & Hlen1 & _ & _ & Hpend1).
  destruct (emit_step v1 (EvLoadUsedIdx (used_idx v1)) eq_refl) as (Hc2 & Hf2 & Ht2).
  destruct (same_core_step _ _ fl cs hs1 Hc2 Hinv1 Hok1) as [Hinv2 Hok2].
  set (v2 := emit (EvLoadUsedIdx (used_idx v1)) v1) in *.
  assert (Hfuel : (length (pending v2) <= Z.to_nat 65536)%nat).
  { rewrite pending_length. pose proof (u16_range (used_idx v2 - used_tail v2)). lia. }
  destruct (drain_recycles _ v2 fl cs hs1 _ Hinv2 Hok2 eq_refl Hfuel)
    as (v3 & done & cs3 & Hdrain & Hinv3 & Hok3 & Htail3 & Hf3 & Hperm & Hheads).
  change (used_idx v2) with (used_idx v1) in Hdrain, Htail3.
  rewrite Hdrain in Hpass. cbn [mbind option_bind] in Hpass.
  assert (Hidx3 : used_idx v3 = used_idx v1) by (rewrite Hf3; reflexivity).
  pose proof (enable_interrupts_inv v3 _ cs3 hs1 Hinv3 Hok3
                ltac:(rewrite Htail3, Hidx3; reflexivity)) as Hen.
  destruct (enable_interrupts hs1 v3) as [[again' v''] hs''].
  injection Hpass as -> -> ->.
  destruct Hen as (Hinv' & Hok' & _).
  exists done, cs3. split; [exact Hpass0 |]. split; [exact Hinv' |].
  split; [exact Hok' |]. split; [exact Hperm |]. split; [exact Hagain |].
  rewrite Hfired, map_app, map_map. cbn [fst]. rewrite Hheads.
  rewrite <- (same_core_pending _ _ Hc2), Hpend1, <- (same_core_pending _ _ Hc0).
  reflexivity.
Qed.

Lemma do_complete_loop_recycles (fuel : nat) : forall v fl cs hs,
  vring_inv v fl cs -> sched_ok v hs -> (length hs < fuel)%nat ->
  exists v' hs' done cs',
    do_complete_loop fuel hs v = Some (v', hs')
    /\ vring_inv v' (fl ++ concat done) cs' /\ sched_ok v' hs'
    /\ cs ≡ₚ done ++ cs'
    /\ map fst (fired (trace v')) = map fst (fired (trace v)) ++ omap head done.
Proof.
  induction fuel as [| fuel IH]; intros v fl cs hs Hinv Hok Hfuel; [lia |].
  destruct (do_complete_pass_recycles v fl cs hs Hinv Hok)
    as (again & v1 & hs1 & done1 & cs1 & Hpass & Hinv1 & Hok1 & Hperm1 & Hagain
        & Hfired1).
  cbn [do_complete_loop]. rewrite Hpass. cbn [mbind option_bind].
  destruct again.
  - destruct (IH v1 _ cs1 hs1 Hinv1 Hok1) as
      (v' & hs' & done & cs' & Hloop & Hinv' & Hok' & Hperm' & Hfired');
      [specialize (Hagain eq_refl); lia |].
    exists v', hs', (done1 ++ done), cs'. split; [exact Hloop |].
    split; [rewrite concat_app, app_assoc; exact Hinv' |].
    split; [exact Hok' |]. split.
    + rewrite Hperm1, Hperm', app_assoc. reflexivity.
    + rewrite Hfired', Hfired1, omap_app, app_assoc. reflexivity.
  - exists v1, hs1, done1, cs1. auto.
Qed.

(** The free list is a FIFO: [do_complete] leaves the free descriptors
    where they are and appends the descriptors of each completed chain,
    in the order in which it fulfils the completions; the chains it does
    not complete stay outstanding. *)
Theorem do_complete_recycles v fl cs hs :
  vring_inv v fl cs -> sched_ok v hs ->
  exists v' hs' done cs',
    do_complete hs v = Some (v', hs')
    /\ vring_inv v' (fl ++ concat done) cs'
    /\ cs ≡ₚ done ++ cs'
    /\ map fst (fired (trace v')) = map fst (fired (trace v)) ++ omap head done
    /\ free_count v' = Some (Z.of_nat (length fl) + Z.of_nat (length (concat done))).
Proof.
  intros Hinv Hok.
  destruct (do_complete_loop_recycles _ v fl cs hs Hinv Hok (Nat.lt_succ_diag_r _))
    as (v' & hs' & done & cs' & Hdo & Hinv' & _ & Hperm & Hfired).
  exists v', hs', done, cs'. split; [exact Hdo |]. split; [exact Hinv' |].
  split; [exact Hperm |]. split; [exact Hfired |].
  destruct (counts_of_inv _ _ _ Hinv') as [Hfc _]. rewrite Hfc, length_app.
  f_equal. lia.
Qed.

End Recycling.

Lemma do_complete_recycles_witness :
  exists v' hs', do_complete race_sched ring_posted = Some (v', hs').
Proof.
  destruct (reachable_inv conf4 false ring_posted conf4_ok ring_posted_reachable)
    as [_ (fl & cs & Hinv)].
  destruct (do_complete_recycles ring_posted fl cs race_sched Hinv race_sched_ok)
    as (v' & hs' & _ & _ & Hdo & _).
  exists v', hs'. exact Hdo.
Defined.

(** ** A chain from [post] to its completion *)

Section RoundTrip.
Context {K : Type}.
Implicit Types (v : vring K) (fl : list Z) (cs : list (list Z)).

Lemma record_chain_fields v (h : Z) (k : K) v' :
  record_chain v h k = Some v' ->
  at_index (_completions v') h = Some (Some k)
  /\ used_idx v' = used_idx v /\ used_tail v' = used_tail v
  /\ used_elements v' = used_elements v /\ _config v' = _config v
  /\ _available_descriptors v' = _available_descriptors v
  /\ avail_added_since_kick v' = u16 (avail_added_since_kick v + 1).
Proof.
  unfold record_chain. intros H.
  destruct (at_index (_completions v) h) as [old |] eqn:Hold; [| discriminate].
  cbn [mbind option_bind] in H. apply at_index_range in Hold.
  assert (Hat : at_index (<[Z.to_nat h := Some k]> (_completions v)) h = Some (Some k))
    by (apply at_index_insert_eq, Hold).
  cbn [_poll_mode set_completions] in H.
  destruct (negb (_poll_mode v)); injection H as <-; cbn; repeat split; exact Hat.
Qed.

Lemma frame_descs_used v v' :
  frame_descs v v' ->
  used_idx v' = used_idx v /\ used_tail v' = used_tail v
  /\ used_elements v' = used_elements v /\ _config v' = _config v
  /\ _available_descriptors v' = _available_descriptors v
  /\ avail_added_since_kick v' = avail_added_since_kick v.
Proof. unfold frame_descs. intros ->. repeat split. Qed.

(** In a list of chains without a shared descriptor, a head names its
    chain. *)
Lemma chain_of_head (cs cs1 cs2 : list (list Z)) (c c' : list Z) (h : Z) :
  cs ++ [c] = cs1 ++ c' :: cs2 -> NoDup (concat (cs ++ [c])) ->
  head c = Some h -> head c' = Some h ->
  c' = c /\ cs1 = cs /\ cs2 = [].
Proof.
  intros Heq Hnd Hc Hc'.
  destruct cs2 as [| x cs2 _] using rev_ind.
  - apply app_inj_tail in Heq as [-> ->]. auto.
  - exfalso. rewrite app_comm_cons, app_assoc in Heq.
    apply app_inj_tail in Heq as [-> ->].
    rewrite concat_app in Hnd. apply NoDup_app in Hnd as (_ & Hdisj & _).
    apply (Hdisj h).
    + apply elem_of_concat. exists c'.
      split; [apply head_Some_elem_of, Hc' |]. apply elem_of_app. right. left.
    + simpl. rewrite app_nil_r. apply head_Some_elem_of, Hc.
Qed.

(** A chain posted on an idle ring and then reported used by the host
    with [len] bytes: the next turn of [do_complete] fulfils the promise
    that came with the chain, with [len], and the descriptors of the
    chain go to the end of the free list, behind those that stayed free;
    the other chains are untouched. *)
Theorem post_complete_round_trip v fl cs (bc : buffer_chain (K := K)) (len : Z) :
  vring_inv v fl cs -> bufs bc <> [] -> (length (bufs bc) <= length fl)%nat ->
  used_idx v = used_tail v ->
  let n := length (bufs bc) in
  exists v1 h v3,
    post_chain v bc = Some v1
    /\ head (take n fl) = Some h
    /\ complete_one (host_publish1 v1 (used_elem.mk h len)) = Some v3
    /\ trace v3 = EvSetValue h (Some (completed bc)) len :: trace v1
    /\ vring_inv v3 (drop n fl ++ take n fl) cs
    /\ free_count v3 = free_count v.
Proof.
  intros Hinv Hne Hlen Hidle n.
  destruct (post_chain_enough v fl cs bc Hinv Hne Hlen)
    as (vm & pseudo & prev & v1 & _ & Hfr & Hrec & Hpost & Hinv1 & Hhd & _ & _ & _).
  fold n in Hinv1, Hhd. set (h := desc._next pseudo) in *.
  set (c := take n fl) in *.
  destruct (record_chain_fields _ _ _ _ Hrec) as (Hk & Hui & Hut & Hue & Hcf & _).
  destruct (frame_descs_used _ _ Hfr) as (Hui0 & Hut0 & Hue0 & Hcf0 & _).
  set (e := used_elem.mk h len).
  assert (Hpend1 : pending v1 = []).
  { apply pending_nil; [apply (inv_used_tail _ _ _ Hinv1) | congruence]. }
  assert (Hok1 : sched_ok v1 [[e]]).
  { unfold sched_ok. rewrite Hpend1. cbn [concat app map]. split.
    - apply NoDup_singleton.
    - constructor; [| constructor]. exists (completed bc). exact Hk. }
  destruct (host_publish_inv [e] v1 _ _ [] Hinv1 Hok1)
    as (Hinv2 & Hok2 & Hpend2 & Hfr2 & Htr2).
  change (host_publish [e] v1) with (host_publish1 v1 e) in *.
  set (v2 := host_publish1 v1 e) in *.
  rewrite Hpend1 in Hpend2. cbn [app] in Hpend2.
  assert (Hne2 : used_idx v2 <> used_tail v2).
  { intros Heq.
    rewrite (pending_nil v2 (inv_used_tail _ _ _ Hinv2) Heq) in Hpend2. discriminate. }
  destruct (complete_one_recycles v2 _ _ [] Hinv2 Hok2 Hne2)
    as (e' & k' & v3 & c' & cs1 & cs2 & Hcs & Hhd' & _ & Hone & Hpend3 & Hk' & Htr3
        & _ & Hinv3 & _).
  rewrite Hpend2 in Hpend3. injection Hpend3 as <- _.
  cbn [used_elem._id used_elem._len e] in Hhd', Hk', Htr3.
  assert (Hco2 : _completions v2 = _completions v1) by reflexivity.
  rewrite Hco2, Hk in Hk'. injection Hk' as <-.
  pose proof (inv_nodup _ _ _ Hinv1) as Hnd. apply NoDup_app in Hnd as (_ & _ & Hnd).
  destruct (chain_of_head cs cs1 cs2 c c' h Hcs Hnd Hhd Hhd') as (-> & -> & ->).
  rewrite app_nil_r in Hinv3.
  exists v1, h, v3. split; [exact Hpost |]. split; [exact Hhd |].
  split; [exact Hone |]. split; [rewrite Htr3, Htr2; reflexivity |].
  split; [exact Hinv3 |].
  destruct (counts_of_inv _ _ _ Hinv3) as [Hfc3 _].
  destruct (counts_of_inv _ _ _ Hinv) as [Hfc _].
  rewrite Hfc3, Hfc. unfold c. rewrite length_app, length_drop, length_take.
  f_equal. lia.
Qed.

End RoundTrip.

Lemma post_complete_round_trip_witness :
  exists v1 h v3,
    post_chain (vring_new conf4 false) chain2 = Some v1
    /\ complete_one (host_publish1 v1 (used_elem.mk h 0)) = Some v3
    /\ free_count v3 = free_count (vring_new (K := unit) conf4 false).
Proof.
  destruct (post_complete_round_trip (vring_new conf4 false) _ [] chain2 0
              (vring_new_inv conf4 false conf4_ok)
              ltac:(discriminate) ltac:(vm_compute; lia) ltac:(vm_compute; reflexivity))
    as (v1 & h & v3 & Hpost & _ & Hone & _ & _ & Hfc).
  exists v1, h, v3. split; [exact Hpost |]. split; [exact Hone | exact Hfc].
Defined.

(** ** [allocate_desc] and [post] at their limits *)

Section PostLimits.
Context {K : Type}.
Implicit Types (v : vring K) (fl : list Z) (cs : list (list Z)).

(** [allocate_desc] takes the descriptors in the order of the free list;
    on an empty free list its assertion fails. *)
Theorem allocate_desc_pops v fl cs :
  vring_inv v fl cs ->
  match fl with
  | [] => allocate_desc v = None
  | x :: fl' =>
      exists v', allocate_desc v = Some (x, v')
                 /\ free_rep v' fl' /\ _descs v' = _descs v
                 /\ _completions v' = _completions v
  end.
Proof.
  intros Hinv. pose proof (inv_free _ _ _ Hinv) as Hrep.
  destruct fl as [| x fl'].
  - apply allocate_desc_nil, Hrep.
  - pose proof (inv_nodup _ _ _ Hinv) as Hnd. apply NoDup_app in Hnd as (Hnd & _).
    destruct (allocate_desc_cons v x fl' Hrep Hnd) as (v' & Ha & Hrep' & Hds & Hfr).
    exists v'. split; [exact Ha |]. split; [exact Hrep' |]. split; [exact Hds |].
    rewrite Hfr. reflexivity.
Qed.

(** [post] of a chain fails, on the assertion of [allocate_desc], exactly
    when the chain has more buffers than there are free descriptors. *)
Theorem post_chain_capacity v fl cs (bc : buffer_chain (K := K)) :
  vring_inv v fl cs ->
  free_count v = Some (Z.of_nat (length fl))
  /\ (post_chain v bc = None <-> (length fl < length (bufs bc))%nat).
Proof.
  intros Hinv. split; [apply (counts_of_inv _ _ _ Hinv) |]. split.
  - intros Hnone. destruct (le_lt_dec (length (bufs bc)) (length fl)) as [Hle | Hlt];
      [| exact Hlt].
    exfalso. destruct (bufs bc) as [| b bs] eqn:Hb.
    + unfold post_chain in Hnone. rewrite Hb in Hnone.
      cbn [post_buffers mbind option_bind] in Hnone.
      unfold record_chain in Hnone.
      pose proof (conf_ok_size _ (inv_conf _ _ _ Hinv)) as Hsz.
      pose proof (inv_completions_len _ _ _ Hinv) as Hcl. unfold size in Hcl.
      destruct (at_index_is_Some (_completions v) (desc._next desc.zero)) as [k0 Hk0];
        [cbn; lia |].
      rewrite Hk0 in Hnone. discriminate.
    + destruct (post_chain_enough v fl cs bc Hinv) as (_ & _ & _ & v' & _ & _ & _ & Hp & _);
        [rewrite Hb; discriminate | rewrite Hb; exact Hle |].
      rewrite Hp in Hnone. discriminate.
  - intros Hlt. exact (post_chain_short v fl cs bc Hinv Hlt).
Qed.

(** A chain without buffers is not rejected: [post] allocates nothing,
    stores the chain's promise in slot 0 of [_completions] and hands
    descriptor 0 to the host. *)
Theorem post_empty_chain v fl cs (k : K) :
  vring_inv v fl cs -> batch_ok v ->
  exists v',
    post_chain v (mk_chain [] k) = Some v'
    /\ published v' = published v ++ [0]
    /\ at_index (_completions v') 0 = Some (Some k)
    /\ _descs v' = _descs v
    /\ _free_head v' = _free_head v /\ _free_last v' = _free_last v.
Proof.
  intros Hinv Hok. unfold post_chain. cbn [bufs completed post_buffers mbind option_bind].
  change (desc._next desc.zero) with 0.
  pose proof (conf_ok_size _ (inv_conf _ _ _ Hinv)) as Hsz.
  pose proof (inv_completions_len _ _ _ Hinv) as Hcl. unfold size in Hcl.
  destruct (at_index_is_Some (_completions v) 0) as [k0 Hk0]; [lia |].
  assert (Hsome : exists v', record_chain v 0 k = Some v'
                             /\ _descs v' = _descs v
                             /\ _free_head v' = _free_head v
                             /\ _free_last v' = _free_last v).
  { unfold record_chain. rewrite Hk0. cbn [mbind option_bind].
    cbn [_poll_mode set_completions].
    destruct (negb (_poll_mode v)); eexists; (split; [reflexivity |]); repeat split. }
  destruct Hsome as (v' & Hrec & Hds & Hfh & Hfl).
  destruct (record_chain_published _ _ _ _ Hrec Hok) as (Hpub & _).
  destruct (record_chain_fields _ _ _ _ Hrec) as (Hk & _).
  exists v'. auto 10.
Qed.

End PostLimits.

Lemma allocate_desc_pops_witness :
  exists v', allocate_desc (vring_new (K := unit) conf4 false) = Some (0, v').
Proof.
  destruct (allocate_desc_pops (vring_new (K := unit) conf4 false) _ []
              (vring_new_inv conf4 false conf4_ok)) as (v' & Ha & _).
  exists v'. exact Ha.
Defined.

Lemma post_chain_capacity_witness :
  free_count (vring_new (K := unit) conf4 false) = Some 4.
Proof.
  exact (proj1 (post_chain_capacity (vring_new (K := unit) conf4 false) _ [] chain2
                  (vring_new_inv conf4 false conf4_ok))).
Defined.

Lemma post_empty_chain_witness :
  exists v',
    post_chain (vring_new conf4 false) (mk_chain [] tt) = Some v'
    /\ published v' = published (vring_new (K := unit) conf4 false) ++ [0].
Proof.
  destruct (post_empty_chain (vring_new conf4 false) _ [] tt
              (vring_new_inv conf4 false conf4_ok) ltac:(intros _; reflexivity))
    as (v' & Hp & Hpub & _).
  exists v'. split; [exact Hp | exact Hpub].
Defined.

(** ** Publishing: [flush_batch], the batch of a polling ring, the slots *)

Section Publishing.
Context {K : Type}.
Implicit Types (v : vring K) (fl : list Z) (cs : list (list Z)) (hs : host_sched).

Lemma kick_avail v :
  avail_idx (kick v) = avail_idx v /\ avail_head (kick v) = avail_head v
  /\ avail_ring (kick v) = avail_ring v
  /\ (count_notify (trace (kick v)) <= S (count_notify (trace v)))%nat
  /\ (count_notify (trace v) <= count_notify (trace (kick v)))%nat.
Proof.
  destruct (kick_cases v) as [[-> _] | [-> _]]; cbn; repeat split; lia.
Qed.

Lemma publish_heads_avail (batch : list Z) : forall v,
  batch <> [] ->
  avail_head (foldl publish_head v batch)
  = u16 (avail_head v + Z.of_nat (length batch)).
Proof.
  induction batch as [| h batch IH]; intros v Hne; [contradiction |].
  destruct batch as [| h' batch].
  - cbn. reflexivity.
  - change (foldl publish_head v (h :: h' :: batch))
      with (foldl publish_head (publish_head v h) (h' :: batch)).
    rewrite IH by discriminate.
    change (avail_head (publish_head v h)) with (u16 (avail_head v + 1)).
    unfold u16. rewrite Zplus_mod_idemp_l. f_equal.
    change (length (h :: h' :: batch)) with (S (length (h' :: batch))). lia.
Qed.

Lemma flush_batch_notify v :
  (count_notify (trace (flush_batch v)) <= S (count_notify (trace v)))%nat
  /\ (count_notify (trace v) <= count_notify (trace (flush_batch v)))%nat
  /\ _available_descriptors (flush_batch v) = _available_descriptors v
  /\ _config (flush_batch v) = _config v.
Proof.
  unfold flush_batch. destruct (_batch v) as [| h batch] eqn:Hbv;
    [repeat split; lia |].
  set (v1 := foldl publish_head v (h :: batch)).
  destruct (kick_avail (store_avail_idx (set_batch [] v1))) as (_ & _ & _ & Hn & Hn').
  assert (Hc : count_notify (trace v1) = count_notify (trace v)
               /\ _available_descriptors v1 = _available_descriptors v
               /\ _config v1 = _config v).
  { unfold v1. clear. generalize (h :: batch). intros l. revert v.
    induction l as [| x l IH]; intros v; [repeat split |].
    simpl. destruct (IH (publish_head v x)) as (H1 & H2 & H3).
    rewrite H1, H2, H3. repeat split. }
  destruct Hc as (Hc & Hs & Hcf). clearbody v1.
  cbn [trace store_avail_idx emit set_trace set_avail_idx set_batch count_notify]
    in Hn, Hn'.
  rewrite Hc in Hn, Hn'. split; [exact Hn |]. split; [exact Hn' |].
  destruct (kick_cases (store_avail_idx (set_batch [] v1))) as [[-> _] | [-> _]];
    cbn; rewrite Hs, Hcf; split; reflexivity.
Qed.

(** [flush_batch] does nothing on an empty batch (no store, no fence, no
    kick); otherwise it stores the batched heads in their order,
    publishes [avail.idx] advanced by their number (modulo 2^16), empties
    the batch and kicks at most once. *)
Theorem flush_batch_publishes v :
  (_batch v = [] -> flush_batch v = v)
  /\ _batch (flush_batch v) = []
  /\ stored_heads (trace (flush_batch v)) = stored_heads (trace v) ++ _batch v
  /\ (_batch v <> [] ->
      avail_idx (flush_batch v)
      = u16 (avail_head v + Z.of_nat (length (_batch v)))
      /\ avail_head (flush_batch v) = avail_idx (flush_batch v))
  /\ (count_notify (trace (flush_batch v)) <= S (count_notify (trace v)))%nat
  /\ published (flush_batch v) = published v.
Proof.
  split; [intros Hb; unfold flush_batch; rewrite Hb; reflexivity |].
  destruct (flush_batch_fields v) as (Ht & Hb & _).
  split; [exact Hb |]. split; [exact Ht |].
  split; [| split; [apply flush_batch_notify | apply published_flush_batch]].
  - intros Hne. unfold flush_batch. destruct (_batch v) as [| h batch] eqn:Hbv;
      [contradiction |].
    set (v1 := foldl publish_head v (h :: batch)).
    destruct (kick_avail (store_avail_idx (set_batch [] v1))) as (Hi & Hh & _).
    rewrite Hi, Hh. cbn [avail_idx avail_head store_avail_idx emit set_trace
                         set_avail_idx set_batch].
    unfold v1. rewrite publish_heads_avail by discriminate. auto.
Qed.

(** The slot of a head: in a ring whose size is a power of two the head
    goes to slot [_head mod size], and the next one to the slot after it,
    also when the 16-bit [_head] wraps around. *)
Theorem publish_head_slot v (h : Z) :
  conf_ok (_config v) -> Z.of_nat (length (avail_ring v)) = size v ->
  at_index (avail_ring (publish_head v h)) (avail_head v mod size v) = Some h
  /\ masked (publish_head v h) (avail_head (publish_head v h))
     = (avail_head v mod size v + 1) mod size v
  /\ length (avail_ring (publish_head v h)) = length (avail_ring v).
Proof.
  intros Hc Hlen. pose proof (conf_ok_size _ Hc) as Hsz. fold (size v) in Hsz.
  unfold publish_head. cbn [avail_ring avail_head emit set_trace set_avail_head
                              set_avail_ring].
  rewrite (masked_mod v _ Hc).
  assert (Hr : 0 <= avail_head v mod size v < size v) by (apply Z.mod_pos_bound; lia).
  split; [apply at_index_insert_eq; lia |]. split; [| apply length_insert].
  rewrite masked_mod by exact Hc.
  change (size (set_trace _ _)) with (size v).
  rewrite (u16_mod_size v _ Hc), Zplus_mod_idemp_l. reflexivity.
Qed.

Lemma record_chain_poll v (h : Z) (k : K) v' :
  record_chain v h k = Some v' ->
  avail_idx v' = avail_idx v
  /\ (_poll_mode v = true ->
      trace v' = trace v /\ avail_ring v' = avail_ring v
      /\ avail_head v' = avail_head v /\ _batch v' = _batch v ++ [h]).
Proof.
  unfold record_chain. intros H.
  destruct (at_index (_completions v) h); [| discriminate].
  cbn [mbind option_bind] in H. cbn [_poll_mode set_completions] in H.
  destruct (_poll_mode v); cbn [negb] in H; injection H as <-.
  - split; [reflexivity |]. intros _. repeat split.
  - split; [reflexivity | discriminate].
Qed.

Lemma frame_descs_avail v v' :
  frame_descs v v' ->
  avail_idx v' = avail_idx v /\ avail_ring v' = avail_ring v
  /\ avail_head v' = avail_head v.
Proof. unfold frame_descs. intros ->. repeat split. Qed.

(** The loop of [post] over the chains, when the free descriptors
    suffice. *)
Lemma post_chains_enough (bcs : list (buffer_chain (K := K))) : forall v fl cs,
  vring_inv v fl cs -> batch_ok v -> Forall (fun bc => bufs bc <> []) bcs ->
  (length (concat (map bufs bcs)) <= length fl)%nat ->
  exists v1 heads cs1,
    post_chains v bcs = Some v1
    /\ vring_inv v1 (drop (length (concat (map bufs bcs))) fl) (cs ++ cs1)
    /\ omap head cs1 = heads /\ length cs1 = length bcs
    /\ Forall2 (fun c bc => length c = length (bufs bc)) cs1 bcs
    /\ published v1 = published v ++ heads
    /\ batch_ok v1 /\ _poll_mode v1 = _poll_mode v /\ _config v1 = _config v
    /\ _available_descriptors v1 = _available_descriptors v
    /\ avail_idx v1 = avail_idx v
    /\ (bcs <> [] ->
        avail_added_since_kick v1
        = u16 (avail_added_since_kick v + Z.of_nat (length bcs)))
    /\ (_poll_mode v = true ->
        trace v1 = trace v /\ avail_ring v1 = avail_ring v
        /\ _batch v1 = _batch v ++ heads).
Proof.
  induction bcs as [| bc bcs IH]; intros v fl cs Hinv Hok Hne Hlen.
  - exists v, [], []. cbn. rewrite !app_nil_r, drop_0.
    split; [reflexivity |]. split; [exact Hinv |]. split; [reflexivity |].
    split; [reflexivity |]. split; [constructor |]. split; [reflexivity |].
    split; [exact Hok |]. split; [reflexivity |]. split; [reflexivity |].
    split; [reflexivity |]. split; [reflexivity |]. split; [contradiction |].
    intros _. repeat split.
  - inversion Hne as [| ? ? Hne1 Hne2]; subst.
    cbn [map concat] in Hlen. rewrite length_app in Hlen.
    destruct (post_chain_enough v fl cs bc Hinv Hne1 ltac:(lia))
      as (vm & pseudo & prev & v1 & _ & Hfr & Hrec & Hpost & _ & Hhd0 & _).
    destruct (post_chain_published v fl cs bc v1 Hinv Hok Hne1 Hpost)
      as (h & _ & Hinv1 & Hhd & Hlc & _ & _ & _ & Hpub1 & Hok1 & Hp1 & Hcf1).
    rewrite Hhd in Hhd0. injection Hhd0 as Hh. rewrite <- Hh in Hrec.
    destruct (record_chain_fields _ _ _ _ Hrec) as (_ & _ & _ & _ & _ & Hsem1 & Hadd1).
    destruct (record_chain_poll _ _ _ _ Hrec) as (Hai1 & Hpoll1).
    destruct (frame_descs_used _ _ Hfr) as (_ & _ & _ & _ & Hsem0 & Hadd0).
    destruct (frame_descs_avail _ _ Hfr) as (Hai0 & Har0 & Hah0).
    destruct (frame_descs_fields _ _ Hfr) as (Htr0 & Hb0 & Hp0).
    destruct (IH v1 _ _ Hinv1 Hok1 Hne2) as
      (v2 & heads & cs2 & Hposts & Hinv2 & Hheads & Hlcs & Hlens & Hpub2 & Hok2 & Hp2
       & Hcf2 & Hsem2 & Hai2 & Hadd2 & Hpoll2);
      [rewrite length_drop; lia |].
    exists v2, (h :: heads), (take (length (bufs bc)) fl :: cs2).
    split; [cbn [post_chains]; rewrite Hpost; exact Hposts |].
    split.
    { cbn [map concat]. rewrite length_app, <- drop_drop, <- app_assoc in *.
      exact Hinv2. }
    split; [cbn; rewrite Hhd, Hheads; reflexivity |].
    split; [cbn; rewrite Hlcs; reflexivity |].
    split; [constructor; [exact Hlc | exact Hlens] |].
    split; [rewrite Hpub2, Hpub1, <- app_assoc; reflexivity |].
    split; [exact Hok2 |]. split; [congruence |]. split; [congruence |].
    split; [congruence |]. split; [congruence |]. split.
    + intros _. destruct bcs as [| bc' bcs'].
      * cbn in Hposts. injection Hposts as <-. rewrite Hadd1, Hadd0. reflexivity.
      * rewrite (Hadd2 ltac:(discriminate)), Hadd1, Hadd0. unfold u16.
        rewrite Zplus_mod_idemp_l. f_equal.
        change (length (bc :: bc' :: bcs')) with (S (length (bc' :: bcs'))). lia.
    + intros Hp. rewrite Hp0 in Hpoll1. destruct (Hpoll1 Hp) as (Htr1 & Har1 & _ & Hb1).
      assert (Hp1' : _poll_mode v1 = true) by congruence.
      destruct (Hpoll2 Hp1') as (Htr2 & Har2 & Hb2).
      split; [congruence |]. split; [congruence |].
      rewrite Hb2, Hb1, Hb0, <- app_assoc. reflexivity.
Qed.

End Publishing.

Section PollMode.
Context {K : Type}.
Implicit Types (v : vring K) (fl : list Z) (cs : list (list Z)) (hs : host_sched).

Lemma omap_head_length (cs1 : list (list Z)) (bcs : list (buffer_chain (K := K))) :
  Forall2 (fun c bc => length c = length (bufs bc)) cs1 bcs ->
  Forall (fun bc => bufs bc <> []) bcs ->
  length (omap head cs1) = length bcs.
Proof.
  induction 1 as [| c bc cs1 bcs Hc _ IH]; intros Hne; [reflexivity |].
  inversion Hne as [| ? ? Hne1 Hne2]; subst.
  destruct c as [| x c];
    [simpl in Hc; destruct (bufs bc); [contradiction | discriminate] |].
  cbn. f_equal. exact (IH Hne2).
Qed.

(** [post] when the free descriptors suffice and the host is well
    behaved. *)
Lemma post_enough v fl cs (bcs : list (buffer_chain (K := K))) hs :
  vring_inv v fl cs -> batch_ok v -> Forall (fun bc => bufs bc <> []) bcs ->
  (length (concat (map bufs bcs)) <= length fl)%nat ->
  (forall v1, post_chains v bcs = Some v1 -> sched_ok v1 hs) ->
  exists v1 heads v' hs' fl' cs',
    post_chains v bcs = Some v1
    /\ post hs v bcs = Some (v', hs')
    /\ published v' = published v ++ heads /\ length heads = length bcs
    /\ vring_inv v' fl' cs'
    /\ (length fl - length (concat (map bufs bcs)) <= length fl')%nat
    /\ _available_descriptors v' = _available_descriptors v
    /\ batch_ok v' /\ _poll_mode v' = _poll_mode v /\ _config v' = _config v.
Proof.
  intros Hinv Hok Hne Hlen Hsched.
  destruct (post_chains_enough bcs v fl cs Hinv Hok Hne Hlen)
    as (v1 & heads & cs1 & Hposts & Hinv1 & Hheads & Hlcs & Hlens & Hpub1 & Hok1 & Hp1
        & Hcf1 & Hsem1 & _).
  specialize (Hsched v1 Hposts).
  assert (Hpost : exists v' hs' fl' cs',
             post hs v bcs = Some (v', hs') /\ vring_inv v' fl' cs'
             /\ (length fl - length (concat (map bufs bcs)) <= length fl')%nat).
  { unfold post. rewrite Hposts. cbn [mbind option_bind].
    destruct (negb (_poll_mode v1)).
    - pose proof (same_core_trans _ _ _ (store_avail_idx_same_core v1)
                    (kick_same_core _)) as Hcore.
      destruct (same_core_step _ _ _ _ hs Hcore Hinv1 Hsched) as [Hinv2 Hok2].
      destruct (do_complete_loop_recycles _ _ _ _ hs Hinv2 Hok2 (Nat.lt_succ_diag_r _))
        as (v' & hs' & done & cs' & Hdo & Hinv' & _).
      exists v', hs', (drop (length (concat (map bufs bcs))) fl ++ concat done), cs'.
      split; [exact Hdo |]. split; [exact Hinv' |].
      rewrite length_app, length_drop. lia.
    - destruct (16 <=? _).
      + exists (flush_batch v1), hs, (drop (length (concat (map bufs bcs))) fl),
          (cs ++ cs1). split; [reflexivity |].
        split; [apply (same_core_inv v1); [apply flush_batch_same_core | exact Hinv1] |].
        rewrite length_drop. lia.
      + exists v1, hs, (drop (length (concat (map bufs bcs))) fl), (cs ++ cs1).
        split; [reflexivity |]. split; [exact Hinv1 |].
        rewrite length_drop. lia. }
  destruct Hpost as (v' & hs' & fl' & cs' & Hpost & Hinv' & Hfl').
  destruct (post_after_chains hs v bcs v1 v' hs' Hposts Hpost) as (Hpub' & Hok' & Hp' & _).
  exists v1, heads, v', hs', fl', cs'. split; [exact Hposts |]. split; [exact Hpost |].
  split; [congruence |].
  split; [rewrite <- Hheads; apply omap_head_length; assumption |].
  split; [exact Hinv' |]. split; [exact Hfl' |]. split; [| split; [auto |]].
  - unfold post in Hpost. rewrite Hposts in Hpost. cbn [mbind option_bind] in Hpost.
    destruct (negb (_poll_mode v1)).
    + destruct (do_complete_loop_events _ _ _ _ _ Hpost) as (_ & Hf & _).
      destruct (frame_completion_fields _ _ Hf) as (_ & _ & _ & Hs & _).
      rewrite Hs, <- Hsem1.
      destruct (kick_cases (store_avail_idx v1)) as [[-> _] | [-> _]]; reflexivity.
    + destruct (16 <=? _); injection Hpost as <- <-; [| exact Hsem1].
      destruct (flush_batch_notify v1) as (_ & _ & Hs & _). congruence.
  - split; [congruence |].
    unfold post in Hpost. rewrite Hposts in Hpost. cbn [mbind option_bind] in Hpost.
    destruct (negb (_poll_mode v1)).
    + destruct (do_complete_loop_events _ _ _ _ _ Hpost) as (_ & Hf & _).
      destruct (frame_completion_fields _ _ Hf) as (Hc & _).
      rewrite Hc, <- Hcf1.
      destruct (kick_cases (store_avail_idx v1)) as [[-> _] | [-> _]]; reflexivity.
    + destruct (16 <=? _); injection Hpost as <- <-; [| exact Hcf1].
      destruct (flush_batch_notify v1) as (_ & _ & _ & Hc). congruence.
Qed.

(** On a polling ring [post] only batches: what it posts is invisible to
    the host (no store to the available ring, [avail.idx] or the
    notifier) until at least 16 heads are batched, and then the whole
    batch is flushed. *)
Theorem post_poll_mode_batches v fl cs (bcs : list (buffer_chain (K := K))) hs :
  vring_inv v fl cs -> _poll_mode v = true ->
  Forall (fun bc => bufs bc <> []) bcs ->
  (length (concat (map bufs bcs)) <= length fl)%nat ->
  exists v1 heads,
    post_chains v bcs = Some v1
    /\ length heads = length bcs
    /\ _batch v1 = _batch v ++ heads
    /\ trace v1 = trace v /\ avail_idx v1 = avail_idx v
    /\ avail_ring v1 = avail_ring v
    /\ post hs v bcs
       = Some (if 16 <=? Z.of_nat (length (_batch v1)) then flush_batch v1 else v1, hs).
Proof.
  intros Hinv Hp Hne Hlen.
  assert (Hok : batch_ok v) by (intros Hf; congruence).
  destruct (post_chains_enough bcs v fl cs Hinv Hok Hne Hlen)
    as (v1 & heads & cs1 & Hposts & _ & Hheads & Hlcs & Hlens & _ & _ & Hp1 & _ & _
        & Hai & _ & Hpoll).
  destruct (Hpoll Hp) as (Htr & Har & Hb).
  exists v1, heads. split; [exact Hposts |]. split.
  { rewrite <- Hheads. apply omap_head_length; assumption. }
  split; [exact Hb |]. split; [exact Htr |]. split; [exact Hai |].
  split; [exact Har |].
  unfold post. rewrite Hposts. cbn [mbind option_bind]. rewrite Hp1, Hp.
  cbn [negb]. destruct (16 <=? _); reflexivity.
Qed.

(** A tick of the poller leaves nothing batched: every head handed over
    so far is in the available ring, in the order of the posts, and the
    notifier was kicked at most once. *)
Theorem poll_tick_flushes v hs v' hs' :
  poll_tick hs v = Some (v', hs') ->
  _batch v' = []
  /\ stored_heads (trace v') = published v
  /\ (count_notify (trace v') <= S (count_notify (trace v)))%nat.
Proof.
  unfold poll_tick. intros H.
  destruct (do_complete_loop_events _ hs (flush_batch v) v' hs' H) as (Ht & Hf & _).
  destruct (frame_completion_fields _ _ Hf) as (_ & _ & Hb & _).
  destruct (flush_batch_fields v) as (Hst & Hbf & _).
  destruct (flush_batch_notify v) as (Hn & _).
  destruct Ht as (t & Htr & Hall).
  destruct (mode_events_quiet _ _ _ Hall) as [Hn0 Hs0].
  split; [congruence |]. split.
  - rewrite Htr, stored_heads_app, Hs0, app_nil_r. exact Hst.
  - rewrite Htr, count_notify_app, Hn0. exact Hn.
Qed.

End PollMode.

Lemma publish_head_slot_witness :
  at_index (avail_ring (publish_head ring_polling 2)) (avail_head ring_polling mod 4)
  = Some 2.
Proof.
  exact (proj1 (publish_head_slot ring_polling 2 conf4_ok
                  ltac:(vm_compute; reflexivity))).
Defined.

Lemma post_poll_mode_batches_witness :
  exists v1, post [] ring_polling chains3 = Some (v1, []) /\ trace v1 = trace ring_polling.
Proof.
  destruct (post_poll_mode_batches ring_polling _ [] chains3 []
              (vring_new_inv conf4 true conf4_ok) ltac:(vm_compute; reflexivity)
              ltac:(repeat constructor; discriminate) ltac:(vm_compute; lia))
    as (v1 & heads & Hposts & Hlen & Hb & Htr & _ & _ & Hpost).
  assert (Hsmall : (16 <=? Z.of_nat (length (_batch v1))) = false).
  { rewrite Hb, length_app, Hlen. vm_compute. reflexivity. }
  rewrite Hsmall in Hpost. exists v1. split; [exact Hpost | exact Htr].
Defined.

Lemma poll_tick_flushes_witness :
  exists v' hs', poll_tick [] ring_polling = Some (v', hs') /\ _batch v' = [].
Proof.
  destruct (poll_tick [] ring_polling) as [[v' hs'] |] eqn:H;
    [| vm_compute in H; discriminate].
  exists v', hs'. split; [reflexivity |].
  exact (proj1 (poll_tick_flushes ring_polling [] v' hs' H)).
Defined.

(** ** Refilling the receive ring: [rxq::prepare_buffers] *)

Lemma prepare_buffers_eq (mallocs : list Z) (hs : host_sched) (q : rxq.t) :
  1 <= sem_current (rxq._ring q) < 2 ^ 32 ->
  prepare_buffers mallocs hs q
  = if Z.of_nat (length mallocs) <? sem_current (rxq._ring q) then Undefined
    else
      match post hs (set_available_descriptors 0 (rxq._ring q))
              (map make_buffer_chain
                 (take (Z.to_nat (sem_current (rxq._ring q))) mallocs)) with
      | Some (ring, hs) =>
          Done (rxq.mk ring (rxq._remaining_buffers q) (rxq._fragments q)
                  (rxq._deleters q) (rxq.l2received q), hs)
      | None => Undefined
      end.
Proof.
  intros Hs. unfold prepare_buffers, sem_try_wait, sem_wait, sem_current in *.
  destruct (1 <=? _available_descriptors (rxq._ring q)) eqn:E1; [| lia].
  cbn [_available_descriptors set_available_descriptors].
  rewrite Z.leb_refl. cbn [_available_descriptors set_available_descriptors].
  rewrite Z.sub_diag.
  replace (u32 (1 + (_available_descriptors (rxq._ring q) - 1)))
    with (_available_descriptors (rxq._ring q))
    by (unfold u32; rewrite Z.mod_small; lia).
  reflexivity.
Qed.

Lemma make_buffer_chains_total (l : list Z) :
  length (concat (map bufs (map make_buffer_chain l))) = length l.
Proof. induction l as [| x l IH]; [reflexivity |]. cbn. f_equal. exact IH. Qed.

(** [prepare_buffers] waits for one permit and then takes all there are:
    it posts as many single-buffer chains as the semaphore held permits
    and leaves none, so that the next call is suspended until a completed
    packet signals; with no permit it is suspended at once. *)
Theorem prepare_buffers_takes_all (mallocs : list Z) (hs : host_sched) (q : rxq.t)
    (fl : list Z) (cs : list (list Z)) :
  let ring := rxq._ring q in
  let s := sem_current ring in
  vring_inv ring fl cs -> batch_ok ring ->
  s <= Z.of_nat (length fl) -> s <= Z.of_nat (length mallocs) ->
  (forall v1,
     post_chains (set_available_descriptors 0 ring)
       (map make_buffer_chain (take (Z.to_nat s) mallocs)) = Some v1 ->
     sched_ok v1 hs) ->
  (s < 1 -> prepare_buffers mallocs hs q = Suspended)
  /\ (1 <= s ->
      exists q' hs' heads,
        prepare_buffers mallocs hs q = Done (q', hs')
        /\ sem_current (rxq._ring q') = 0
        /\ published (rxq._ring q') = published ring ++ heads
        /\ Z.of_nat (length heads) = s
        /\ rxq.l2received q' = rxq.l2received q
        /\ forall mallocs2 hs2, prepare_buffers mallocs2 hs2 q' = Suspended).
Proof.
  intros ring s Hinv Hok Hfree Hmallocs Hsched. split.
  - intros Hs. unfold prepare_buffers, sem_wait. fold ring. fold (sem_current ring).
    fold s. destruct (1 <=? s) eqn:E; [lia | reflexivity].
  - intros Hs.
    assert (Hbound : s < 2 ^ 32).
    { pose proof (inv_count _ _ _ Hinv) as Hcnt.
      pose proof (conf_ok_size _ (inv_conf _ _ _ Hinv)) as Hsz.
      rewrite length_app in Hcnt. unfold size in Hcnt. lia. }
    rewrite prepare_buffers_eq by (fold ring; fold s; lia). fold ring. fold s.
    destruct (Z.of_nat (length mallocs) <? s) eqn:E; [lia |].
    set (ring2 := set_available_descriptors 0 ring) in *.
    set (bcs := map make_buffer_chain (take (Z.to_nat s) mallocs)) in *.
    assert (Hinv2 : vring_inv ring2 fl cs)
      by (apply (same_core_inv ring); [repeat split | exact Hinv]).
    assert (Hne : Forall (fun bc => bufs bc <> []) bcs).
    { unfold bcs. apply Forall_forall. intros bc Hin.
      apply list_elem_of_fmap in Hin as (b & -> & _). discriminate. }
    assert (Htotal : length (concat (map bufs bcs)) = Z.to_nat s).
    { unfold bcs. rewrite make_buffer_chains_total, length_take. lia. }
    destruct (post_enough ring2 fl cs bcs hs Hinv2 Hok Hne ltac:(lia) Hsched)
      as (v1 & heads & v' & hs' & fl' & cs' & _ & Hpost & Hpub & Hlh & _ & _ & Hsem & _).
    rewrite Hpost. eexists _, hs', heads. split; [reflexivity |].
    cbn [rxq._ring rxq.l2received].
    split; [exact Hsem |]. split; [exact Hpub |]. split.
    + rewrite Hlh. unfold bcs. rewrite length_map, length_take. lia.
    + split; [reflexivity |]. intros mallocs2 hs2.
      unfold prepare_buffers, sem_wait. cbn [rxq._ring]. rewrite Hsem. reflexivity.
Qed.

Lemma prepare_buffers_takes_all_witness :
  exists q' hs',
    prepare_buffers [40960; 45056; 49152; 53248] []
      (rxq.mk (vring_new conf4 false) 0 [] [] []) = Done (q', hs')
    /\ sem_current (rxq._ring q') = 0.
Proof.
  destruct (prepare_buffers_takes_all [40960; 45056; 49152; 53248] []
              (rxq.mk (vring_new conf4 false) 0 [] [] []) _ []
              (vring_new_inv conf4 false conf4_ok))
    as [_ Hdone].
  - intros _. reflexivity.
  - vm_compute. discriminate.
  - vm_compute. discriminate.
  - intros v1 Hv1. vm_compute in Hv1. injection Hv1 as <-.
    split; vm_compute; constructor.
  - destruct (Hdone ltac:(vm_compute; discriminate))
      as (q' & hs' & heads & Hd & Hsem & _).
    exists q', hs'. split; [exact Hd | exact Hsem].
Defined.

(** ** The permits of the transmit queue *)

Lemma post_after_chains_sem {K : Type} (hs : host_sched) (v : vring K)
    (bcs : list (buffer_chain (K := K))) v1 v' hs' :
  post_chains v bcs = Some v1 -> post hs v bcs = Some (v', hs') ->
  _available_descriptors v' = _available_descriptors v1.
Proof.
  intros Hposts Hpost. unfold post in Hpost. rewrite Hposts in Hpost.
  cbn [mbind option_bind] in Hpost. destruct (negb (_poll_mode v1)).
  - destruct (do_complete_loop_events _ _ _ _ _ Hpost) as (_ & Hf & _).
    destruct (frame_completion_fields _ _ Hf) as (_ & _ & _ & Hs & _). rewrite Hs.
    destruct (kick_cases (store_avail_idx v1)) as [[-> _] | [-> _]]; reflexivity.
  - destruct (16 <=? _); injection Hpost as <- <-; [| reflexivity].
    apply flush_batch_notify.
Qed.

(** Permits are conserved: a packet of [K] fragments takes [K + 1]
    permits when it is posted, and the continuation of its completion
    gives [K + 1] back. *)
Theorem txq_post_permits (conf : config.t) (poll_mode : bool)
    (vhdr_at : Z) (hs : host_sched) (t : txq.t) (p : packet.t) t' hs' (len : Z) :
  conf_ok conf -> reachable conf poll_mode (txq._ring t) ->
  txq_post vhdr_at hs t p = Done (t', hs') ->
  let n := Z.of_nat (length (packet.fragments p)) + 1 in
  n <= sem_current (txq._ring t)
  /\ sem_current (txq._ring t') = sem_current (txq._ring t) - n
  /\ sem_current
       (txq._ring (tx_completed t' (completed (txq_chain t vhdr_at p)) len))
     = sem_current (txq._ring t).
Proof.
  intros Hconf Hreach Hdone n.
  destruct (txq_post_Done conf poll_mode vhdr_at hs t p t' hs' Hconf Hreach Hdone)
    as (ring & v1 & c & h & Hw & Hchains & Hpost & _).
  fold n in Hw. destruct (sem_wait_Some _ _ _ Hw) as [Hn Hring].
  assert (Hreach1 : reachable conf poll_mode ring)
    by (rewrite Hring; apply reach_semaphore, Hreach).
  destruct (reachable_inv conf poll_mode ring Hconf Hreach1) as [_ (fl & cs & Hinv)].
  destruct (reachable_batch_ok conf poll_mode ring Hconf Hreach1) as [_ Hok].
  set (vbc := txq_chain t vhdr_at p) in *.
  assert (Hne : bufs vbc <> []) by (unfold vbc; rewrite txq_chain_bufs; discriminate).
  assert (H1 : post_chain ring vbc = Some v1).
  { cbn [post_chains] in Hchains. destruct (post_chain ring vbc); [| discriminate].
    exact Hchains. }
  destruct (post_chain_Some_inv ring fl cs vbc v1 Hinv Hne H1) as (Hlen & _).
  destruct (post_chains_enough [vbc] ring fl cs Hinv Hok
              ltac:(constructor; [exact Hne | constructor])
              ltac:(cbn [map concat]; rewrite app_nil_r; exact Hlen))
    as (v1' & _ & _ & Hchains' & _ & _ & _ & _ & _ & _ & _ & _ & Hsem1 & _).
  rewrite Hchains in Hchains'. injection Hchains' as <-.
  pose proof (post_after_chains_sem hs ring [vbc] v1 _ hs' Hchains Hpost) as Hsem'.
  assert (Hs : sem_current (txq._ring t') = sem_current (txq._ring t) - n).
  { unfold sem_current. rewrite Hsem', Hsem1, Hring. reflexivity. }
  split; [exact Hn |]. split; [exact Hs |].
  unfold tx_completed, sem_signal. cbn [txq._ring].
  unfold sem_current in *. cbn [_available_descriptors set_available_descriptors].
  rewrite Hs. unfold vbc. rewrite txq_chain_nr_frags. fold n. lia.
Qed.

(** The permits stay backed by free descriptors: if the semaphore holds
    no more permits than there are free descriptors before [txq::post],
    the same holds after it. *)
Theorem txq_post_keeps_permits_backed (conf : config.t) (poll_mode : bool)
    (vhdr_at : Z) (hs : host_sched) (t : txq.t) (p : packet.t) (f : Z) :
  conf_ok conf -> reachable conf poll_mode (txq._ring t) ->
  free_count (txq._ring t) = Some f -> sem_current (txq._ring t) <= f ->
  let n := Z.of_nat (length (packet.fragments p)) + 1 in
  n <= sem_current (txq._ring t) ->
  (forall ring v1,
     sem_wait n (txq._ring t) = Some ring ->
     post_chains ring [txq_chain t vhdr_at p] = Some v1 -> sched_ok v1 hs) ->
  exists t' hs' f',
    txq_post vhdr_at hs t p = Done (t', hs')
    /\ free_count (txq._ring t') = Some f'
    /\ f - n <= f'
    /\ sem_current (txq._ring t') <= f'.
Proof.
  intros Hconf Hreach Hfree Hcap n Hn Hsched.
  set (vbc := txq_chain t vhdr_at p) in *.
  set (ring := set_available_descriptors (sem_current (txq._ring t) - n) (txq._ring t)).
  assert (Hw : sem_wait n (txq._ring t) = Some ring).
  { unfold sem_wait. fold (sem_current (txq._ring t)).
    destruct (n <=? _) eqn:E; [reflexivity | lia]. }
  destruct (reachable_inv conf poll_mode _ Hconf Hreach) as [_ (fl & cs & Hinv0)].
  destruct (reachable_batch_ok conf poll_mode _ Hconf Hreach) as [_ Hok0].
  destruct (counts_of_inv _ _ _ Hinv0) as [Hfc _].
  rewrite Hfree in Hfc. injection Hfc as ->.
  assert (Hinv : vring_inv ring fl cs)
    by (apply (same_core_inv (txq._ring t)); [repeat split | exact Hinv0]).
  assert (Hne : bufs vbc <> []) by (unfold vbc; rewrite txq_chain_bufs; discriminate).
  assert (Hlen : length (concat (map bufs [vbc])) = Z.to_nat n).
  { cbn [map concat]. rewrite app_nil_r. unfold vbc. rewrite txq_chain_bufs.
    cbn [length]. rewrite length_map. unfold n. lia. }
  destruct (post_enough ring fl cs [vbc] hs Hinv Hok0
              ltac:(constructor; [exact Hne | constructor]) ltac:(lia)
              (fun v1 H => Hsched ring v1 Hw H))
    as (v1 & heads & v' & hs' & fl' & cs' & _ & Hpost & _ & _ & Hinv' & Hfl' & Hsem & _).
  exists (txq.mk v' (txq.hw t) (txq._header_len t)), hs', (Z.of_nat (length fl')).
  split.
  { unfold txq_post. cbv zeta. rewrite txq_chain_nr_frags. fold n. fold vbc.
    rewrite Hw, Hpost. reflexivity. }
  cbn [txq._ring]. split; [apply (counts_of_inv _ _ _ Hinv') |].
  split; [lia |]. unfold sem_current in *. rewrite Hsem. cbn. lia.
Qed.

Lemma txq_post_permits_witness :
  exists t' hs',
    txq_post 4096 [] txq4 packet2 = Done (t', hs')
    /\ sem_current (txq._ring t') = sem_current (txq._ring txq4) - 3.
Proof.
  destruct (txq_post 4096 [] txq4 packet2) as [[t' hs'] | |] eqn:H;
    [| vm_compute in H; discriminate | vm_compute in H; discriminate].
  exists t', hs'. split; [reflexivity |].
  exact (proj1 (proj2 (txq_post_permits conf4 false 4096 [] txq4 packet2 t' hs' 0
                         conf4_ok (reach_new conf4 false) H))).
Defined.

Lemma txq_post_keeps_permits_backed_witness :
  exists t' hs' f',
    txq_post 4096 [] txq4 packet2 = Done (t', hs')
    /\ free_count (txq._ring t') = Some f'
    /\ sem_current (txq._ring t') <= f'.
Proof.
  destruct (txq_post_keeps_permits_backed conf4 false 4096 [] txq4 packet2 4 conf4_ok
              (reach_new conf4 false))
    as (t' & hs' & f' & Hd & Hf & _ & Hs).
  - vm_compute. reflexivity.
  - vm_compute. discriminate.
  - vm_compute. discriminate.
  - intros ring v1 Hw Hc. vm_compute in Hw. injection Hw as <-.
    vm_compute in Hc. injection Hc as <-. split; vm_compute; constructor.
  - exists t', hs', f'. auto.
Defined.

(** ** No second kick for the same chains *)

(** With EVENT_IDX negotiated, a kick that follows a kick with nothing
    posted in between does not call the notifier again. *)
Theorem kick_not_repeated {K : Type} (v : vring K) :
  config.event_index (_config v) = true ->
  count_notify (trace (kick (kick v))) = count_notify (trace (kick v)).
Proof.
  intros Hei.
  destruct (Nat.eq_dec (count_notify (trace (kick (kick v))))
              (count_notify (trace (kick v)))) as [Heq | Hne]; [exact Heq |].
  exfalso. change (kicked (kick v)) in Hne.
  destruct (kick_cases v) as [[Hk _] | [Hk Hnot]].
  - rewrite Hk in Hne. apply kicked_event_idx in Hne; [| exact Hei].
    cbn [avail_added_since_kick set_avail_added_since_kick] in Hne.
    destruct Hne as [Hlt | Hge]; [| lia].
    pose proof (u16_range
                  (avail_idx (set_avail_added_since_kick 0 (emit EvNotify (emit EvFence v)))
                   - avail_event
                       (set_avail_added_since_kick 0 (emit EvNotify (emit EvFence v)))
                   - 1)).
    lia.
  - rewrite Hk in Hne. apply Hnot.
    apply kicked_event_idx in Hne; [| exact Hei].
    apply kicked_event_idx; [exact Hei | exact Hne].
Qed.

Lemma kick_not_repeated_witness :
  count_notify (trace (kick (kick ring_want_kick)))
  = count_notify (trace (kick ring_want_kick)).
Proof. exact (kick_not_repeated ring_want_kick ltac:(vm_compute; reflexivity)). Defined.

(** ** The header of a transmitted packet: what [txq::post] never asks for *)

(** Segmentation is requested only with checksum offload on, for TCP with
    TSO or UDP with UFO, and only for a packet longer than an Ethernet
    frame of MTU size; the type is never TCPv6 or ECN, and without a
    request the GSO fields stay zero. *)
Theorem txq_vhdr_gso_iff (hw : hw_features.t) (oi : offload_info.t) (plen : Z) :
  let h := txq_vhdr hw oi plen in
  let big := hw_features.mtu hw + eth_hdr_len < plen in
  (net_hdr.gso_type h = net_hdr.gso_tcpv4 <->
     hw_features.tx_csum_l4_offload hw = true /\ offload_info.protocol oi = tcp
     /\ hw_features.tx_tso hw = true /\ big)
  /\ (net_hdr.gso_type h = net_hdr.gso_udp <->
     hw_features.tx_csum_l4_offload hw = true /\ offload_info.protocol oi = udp
     /\ hw_features.tx_ufo hw = true /\ big)
  /\ (net_hdr.gso_type h = net_hdr.gso_none
      \/ net_hdr.gso_type h = net_hdr.gso_tcpv4
      \/ net_hdr.gso_type h = net_hdr.gso_udp)
  /\ (net_hdr.gso_type h = net_hdr.gso_none ->
      net_hdr.hdr_len h = 0 /\ net_hdr.gso_size h = 0)
  /\ net_hdr.num_buffers h = 0 /\ net_hdr.flags_reserved h = 0.
Proof.
  intros h big. subst h big. unfold txq_vhdr.
  destruct (hw_features.tx_csum_l4_offload hw), (offload_info.protocol oi),
    (offload_info.needs_csum oi), (hw_features.tx_tso hw), (hw_features.tx_ufo hw);
    cbn [andb];
    destruct (hw_features.mtu hw + eth_hdr_len <? plen) eqn:E;
    (apply Z.ltb_lt in E || apply Z.ltb_ge in E);
    cbn; unfold net_hdr.gso_tcpv4, net_hdr.gso_udp, net_hdr.gso_none;
    repeat split; intros; try tauto; try discriminate; try lia;
    try (destruct_and?; discriminate); try (destruct_and?; lia).
Qed.

(** Checksum offload is requested exactly when the device offloads
    checksums and a TCP or UDP packet needs one; the checksum then starts
    behind the Ethernet and IP headers and sits at offset 16 (TCP) or 6
    (UDP); otherwise the checksum fields stay zero. *)
Theorem txq_vhdr_csum_iff (hw : hw_features.t) (oi : offload_info.t) (plen : Z) :
  let h := txq_vhdr hw oi plen in
  (net_hdr.needs_csum h = 1 <->
     hw_features.tx_csum_l4_offload hw = true
     /\ offload_info.needs_csum oi = true
     /\ (offload_info.protocol oi = tcp \/ offload_info.protocol oi = udp))
  /\ (net_hdr.needs_csum h = 0 \/ net_hdr.needs_csum h = 1)
  /\ (net_hdr.needs_csum h = 1 ->
      net_hdr.csum_start h = u16 (eth_hdr_len + offload_info.ip_hdr_len oi)
      /\ net_hdr.csum_offset h
         = match offload_info.protocol oi with tcp => 16 | _ => 6 end)
  /\ (net_hdr.needs_csum h = 0 ->
      net_hdr.csum_start h = 0 /\ net_hdr.csum_offset h = 0).
Proof.
  intros h. subst h. unfold txq_vhdr.
  destruct (hw_features.tx_csum_l4_offload hw), (offload_info.protocol oi),
    (offload_info.needs_csum oi), (hw_features.tx_tso hw), (hw_features.tx_ufo hw);
    cbn [andb];
    destruct (hw_features.mtu hw + eth_hdr_len <? plen);
    cbn; repeat split; intros; try tauto; try discriminate; try lia;
    try (destruct_and?; discriminate);
    try (destruct_and?; destruct_or?; discriminate).
Qed.

(** ** A packet is delivered whole *)

Section RxHeld.
Variable header_len : Z.
Variable num_buffers_at : Z -> Z.

Lemma rx_completed_held (part : list (Z * Z)) : forall q : rxq.t,
  Z.of_nat (length part) < rxq._remaining_buffers q < 2 ^ 32 ->
  rx_completed_all header_len num_buffers_at q part
  = Some (rxq.mk (rxq._ring q) (rxq._remaining_buffers q - Z.of_nat (length part))
            (rxq._fragments q ++ map frag_of part)
            (rxq._deleters q ++ map fst part) (rxq.l2received q)).
Proof.
  induction part as [| [buf len] part IH]; intros q Hr.
  - cbn. rewrite Z.sub_0_r, !app_nil_r. destruct q; reflexivity.
  - change (rx_completed_all header_len num_buffers_at q ((buf, len) :: part))
      with (rx_completed header_len num_buffers_at q buf len
              ≫= fun q' => rx_completed_all header_len num_buffers_at q' part).
    cbn [length] in Hr.
    rewrite rx_completed_middle by lia. cbn [mbind option_bind].
    rewrite IH by (cbn [rxq._remaining_buffers]; lia).
    cbn [rxq._ring rxq._remaining_buffers rxq._fragments rxq._deleters
         rxq.l2received map].
    rewrite <- !app_assoc. cbn [app].
    replace (rxq._remaining_buffers q - 1 - Z.of_nat (length part))
      with (rxq._remaining_buffers q - Z.of_nat (length ((buf, len) :: part)))
      by (cbn [length]; lia).
    reflexivity.
Qed.

(** While buffers of a packet are still to come, nothing is handed to
    [l2receive] and no permit is returned: the fragments and their
    buffers are held, and [_remaining_buffers] counts what is missing. *)
Theorem rx_incomplete_packet_held (q : rxq.t) (buf1 len1 : Z) (part : list (Z * Z)) :
  rxq._remaining_buffers q = 0 ->
  Z.of_nat (S (length part)) < num_buffers_at buf1 < 2 ^ 16 ->
  exists q',
    rx_completed_all header_len num_buffers_at q ((buf1, len1) :: part) = Some q'
    /\ rxq.l2received q' = rxq.l2received q
    /\ rxq._ring q' = rxq._ring q
    /\ rxq._remaining_buffers q' = num_buffers_at buf1 - Z.of_nat (S (length part))
    /\ rxq._fragments q'
       = fragment.mk (buf1 + header_len) (u64 (len1 - header_len)) :: map frag_of part
    /\ rxq._deleters q' = buf1 :: map fst part.
Proof.
  intros H0 HM.
  change (rx_completed_all header_len num_buffers_at q ((buf1, len1) :: part))
    with (rx_completed header_len num_buffers_at q buf1 len1
            ≫= fun q' => rx_completed_all header_len num_buffers_at q' part).
  assert (Hfirst : rx_completed header_len num_buffers_at q buf1 len1
                   = Some (rxq.mk (rxq._ring q) (num_buffers_at buf1 - 1)
                             [fragment.mk (buf1 + header_len) (u64 (len1 - header_len))]
                             [buf1] (rxq.l2received q))).
  { unfold rx_completed. rewrite H0. cbn [Z.eqb].
    destruct (1 <=? num_buffers_at buf1) eqn:E; [| lia]. cbn [mbind option_bind].
    assert (Hu : u32 (num_buffers_at buf1 - 1) = num_buffers_at buf1 - 1)
      by (unfold u32; apply Z.mod_small; lia).
    rewrite Hu. destruct (num_buffers_at buf1 - 1 =? 0) eqn:E'; [lia |]. reflexivity. }
  rewrite Hfirst. cbn [mbind option_bind].
  rewrite rx_completed_held by (cbn [rxq._remaining_buffers]; lia).
  eexists. split; [reflexivity |].
  cbn [rxq._ring rxq._remaining_buffers rxq._fragments rxq._deleters rxq.l2received app].
  repeat split. lia.
Qed.

End RxHeld.

Lemma rx_incomplete_packet_held_witness :
  exists q',
    rx_completed_all 12 (fun _ => 3) rxq_idle [(40960, 4096); (45056, 4096)] = Some q'
    /\ rxq.l2received q' = [].
Proof.
  destruct (rx_incomplete_packet_held 12 (fun _ => 3) rxq_idle 40960 4096
              [(45056, 4096)] eq_refl ltac:(cbn; lia))
    as (q' & Hq & Hl & _).
  exists q'. split; [exact Hq | exact Hl].
Defined.

(** ** The rings fit into their storage *)

Lemma align_up_bounds (v : Z) :
  v <= align_up v 4096 < v + 4096 /\ align_up v 4096 mod 4096 = 0.
Proof.
  unfold align_up. split; [| apply Z.mod_mul; lia].
  pose proof (Z.div_mod (v + 4096 - 1) 4096 ltac:(lia)) as Hdm.
  pose proof (Z.mod_pos_bound (v + 4096 - 1) 4096 ltac:(lia)) as Hb. lia.
Qed.

(** The descriptor table (16 bytes a descriptor), the available ring
    (flags, idx, the ring and [used_event]: 2N + 6 bytes) and the used
    ring (flags, idx, the elements and [avail_event]: 8N + 6 bytes).  For
    every ring size below 2^28, a power of two or not, they follow one
    another without overlap, the used ring starts on a page boundary less
    than a page behind the available ring, and all of it lies inside the
    [vring_storage_size] bytes that [qp::qp] allocates.  From 2^28 on
    the 32-bit product [16 * r.size] wraps, and the available ring starts
    inside the descriptor table (at its very start for N = 2^28). *)
Theorem ring_layout_fits (ei_bit features storage N : Z) :
  0 <= N < 2 ^ 32 ->
  forall r, r = txq_config ei_bit features storage N
            \/ r = rxq_config ei_bit features storage N ->
    config.descs r = storage
    /\ config.size r = N
    /\ config.used r mod 4096 = 0
    /\ (N < 2 ^ 28 ->
        config.descs r + 16 * N = config.avail r
        /\ config.avail r + (2 * N + 6) <= config.used r
        /\ config.used r < config.avail r + (2 * N + 6) + 4096
        /\ config.used r + (8 * N + 6) <= storage + vring_storage_size N)
    /\ (2 ^ 28 <= N ->
        config.descs r <= config.avail r < config.descs r + 16 * N
        /\ (N = 2 ^ 28 -> config.avail r = config.descs r)).
Proof.
  intros HN r Hr.
  change (2 ^ 32) with 4294967296 in HN. change (2 ^ 28) with 268435456.
  assert (Hu : u32 N = N) by (unfold u32; apply Z.mod_small; lia).
  assert (Hs : vring_storage_size N = 3 * 4096 + N * 26).
  { unfold vring_storage_size, u64. apply Z.mod_small. lia. }
  assert (Hlow : N < 268435456 -> u32 (16 * N) = 16 * N /\ u32 (2 * N) = 2 * N).
  { intros Hlt. unfold u32. change (2 ^ 32) with 4294967296.
    split; apply Z.mod_small; lia. }
  assert (Hhigh : 268435456 <= N -> 0 <= u32 (16 * N) < 16 * N).
  { intros Hge. unfold u32. change (2 ^ 32) with 4294967296.
    pose proof (Z.mod_pos_bound (16 * N) 4294967296 ltac:(lia)). lia. }
  assert (Hfields : config.descs r = storage /\ config.size r = N
                    /\ config.avail r = storage + u32 (16 * N)
                    /\ config.used r
                       = align_up (storage + u32 (16 * N) + u32 (2 * N) + 6) 4096).
  { destruct Hr as [-> | ->]; unfold txq_config, rxq_config, common_config;
      cbn [config.descs config.avail config.used config.size]; rewrite Hu;
      repeat split. }
  destruct Hfields as (Hd & Hsz & Ha & Hus).
  pose proof (align_up_bounds (storage + u32 (16 * N) + u32 (2 * N) + 6)) as [Hb Hm].
  rewrite Hd, Ha, Hus, Hs.
  split; [reflexivity |]. split; [exact Hsz |]. split; [exact Hm |]. split.
  - intros Hlt. destruct (Hlow Hlt) as [H16 H2]. rewrite H16, H2 in *. lia.
  - intros Hge. pose proof (Hhigh Hge). split; [lia |].
    intros ->. change (u32 (16 * 268435456)) with 0. lia.
Qed.

Lemma ring_layout_fits_witness :
  config.used (txq_config 0 0 4096 300) + (8 * 300 + 6)
  <= 4096 + vring_storage_size 300.
Proof.
  assert (Hr : 0 <= 300 < 2 ^ 32) by (split; [discriminate | reflexivity]).
  assert (Hlt : 300 < 2 ^ 28) by reflexivity.
  destruct (ring_layout_fits 0 0 4096 300 Hr _ (or_introl eq_refl))
    as (_ & _ & _ & Hfit & _).
  exact (proj2 (proj2 (proj2 (Hfit Hlt)))).
Defined.

(** ** Features and negotiation *)

Lemma land_pow2 (x k : Z) :
  0 <= k -> Z.land x (2 ^ k) = if Z.testbit x k then 2 ^ k else 0.
Proof.
  intros Hk. apply Z.bits_inj'. intros n Hn.
  rewrite Z.land_spec, Z.pow2_bits_eqb by lia.
  destruct (Z.eqb_spec k n) as [-> | Hne].
  - destruct (Z.testbit x n); [rewrite Z.pow2_bits_eqb, Z.eqb_refl by lia |
                               rewrite Z.bits_0]; reflexivity.
  - rewrite andb_false_r.
    destruct (Z.testbit x k); [rewrite Z.pow2_bits_eqb by lia |
                               rewrite Z.bits_0; reflexivity].
    symmetry. apply Z.eqb_neq. exact Hne.
Qed.

Lemma testbit_u64 (x k : Z) : 0 <= k < 64 -> Z.testbit (u64 x) k = Z.testbit x k.
Proof. intros Hk. unfold u64. apply Z.mod_pow2_bits_low. lia. Qed.

Lemma pow2_nonzero (k : Z) : 0 <= k -> 2 ^ k <> 0.
Proof. intros Hk. pose proof (Z.pow_pos_nonneg 2 k ltac:(lia) Hk). lia. Qed.

Lemma opt_off_spec (opts : gmap string opt_value) (name : string) :
  opt_off opts name = true <-> opts !! name = Some (VString "off").
Proof.
  unfold opt_off. destruct (opts !! name) as [[s | n | b] |]; try (split; congruence).
  rewrite String.eqb_eq. split; congruence.
Qed.

(** An option declared as a string is a string in every parsed map. *)
Lemma option_is_off_store (user : gmap string opt_value) (name d : string) :
  well_typed user ->
  (list_to_map get_virtio_net_options_description : gmap string opt_value) !! name
  = Some (VString d) ->
  option_is_off (store user) name = Some (opt_off (store user) name).
Proof.
  intros Hwt Hd. pose proof (store_lookup_default user name _ Hd) as Hs.
  assert (Hstr : exists s, store user !! name = Some (VString s)).
  { destruct (user !! name) as [v |] eqn:Hu; [| eauto].
    destruct (Hwt _ _ Hu) as (d' & Hd' & Hty). rewrite Hd in Hd'. injection Hd' as <-.
    destruct v; try discriminate. eauto. }
  destruct Hstr as [s' Hs'].
  unfold option_is_off, count, as_string, opt_off. rewrite Hs'. reflexivity.
Qed.

Lemma setup_features_store (I : virtio_interface.t) (user : gmap string opt_value)
    (hw0 : hw_features.t) :
  well_typed user ->
  let e := opt_off (store user) "event-index" in
  let c := opt_off (store user) "csum-offload" in
  let t := opt_off (store user) "tso" in
  let u := opt_off (store user) "ufo" in
  let f0 := Z.lor (virtio_interface.VIRTIO_RING_F_INDIRECT_DESC I)
                  (virtio_interface.VIRTIO_NET_F_MRG_RXBUF I) in
  let f1 := if negb e then Z.lor f0 (virtio_interface.VIRTIO_RING_F_EVENT_IDX I)
            else f0 in
  let f2 := if negb c
            then Z.lor f1 (Z.lor (virtio_interface.VIRTIO_NET_F_CSUM I)
                                 (virtio_interface.VIRTIO_NET_F_GUEST_CSUM I))
            else f1 in
  let f3 := if negb t
            then Z.lor (Z.lor f2 (virtio_interface.VIRTIO_NET_F_HOST_TSO4 I))
                       (virtio_interface.VIRTIO_NET_F_GUEST_TSO4 I)
            else f2 in
  let f4 := if negb u
            then Z.lor (Z.lor f3 (virtio_interface.VIRTIO_NET_F_HOST_UFO I))
                       (virtio_interface.VIRTIO_NET_F_GUEST_UFO I)
            else f3 in
  setup_features I (store user) hw0
  = Some (u64 (Z.lor f4 (virtio_interface.VIRTIO_NET_F_MAC I)),
          hw_features.mk (negb c) (negb c) (negb t) (negb u) (hw_features.mtu hw0)).
Proof.
  intros Hwt e c t u f0 f1 f2 f3 f4. unfold setup_features.
  rewrite (option_is_off_store user "event-index" "on" Hwt eq_refl).
  cbn [mbind option_bind].
  rewrite (option_is_off_store user "csum-offload" "on" Hwt eq_refl).
  cbn [mbind option_bind].
  rewrite (option_is_off_store user "tso" "on" Hwt eq_refl).
  cbn [mbind option_bind].
  rewrite (option_is_off_store user "ufo" "on" Hwt eq_refl).
  cbn [mbind option_bind]. reflexivity.
Qed.

(** The constants of an interface that is [ok], as powers of two with
    exponents that differ. *)
Ltac interface_bits I Hok :=
  destruct I as [c1 c2 c3 c4 c5 c6 c7 c8 c9 c10 t1 t2 t3];
  destruct Hok as (ks & Hmap & Hrange & Hnd);
  cbn [virtio_interface.feature_bits virtio_interface.VIRTIO_RING_F_INDIRECT_DESC
       virtio_interface.VIRTIO_RING_F_EVENT_IDX virtio_interface.VIRTIO_NET_F_MRG_RXBUF
       virtio_interface.VIRTIO_NET_F_CSUM virtio_interface.VIRTIO_NET_F_GUEST_CSUM
       virtio_interface.VIRTIO_NET_F_HOST_TSO4 virtio_interface.VIRTIO_NET_F_GUEST_TSO4
       virtio_interface.VIRTIO_NET_F_HOST_UFO virtio_interface.VIRTIO_NET_F_GUEST_UFO
       virtio_interface.VIRTIO_NET_F_MAC] in *;
  do 10 (destruct ks as [| ? ks]; [discriminate Hmap |]);
  (destruct ks; [| discriminate Hmap]);
  cbn [map] in Hmap; injection Hmap as -> -> -> -> -> -> -> -> -> ->;
  repeat match goal with
         | H : Forall _ (_ :: _) |- _ => apply Forall_cons in H as [? H]
         | H : NoDup (_ :: _) |- _ => apply NoDup_cons in H as [? H]
         | H : _ ∉ _ :: _ |- _ => apply not_elem_of_cons in H as [? H]
         end.

(** The value of [Z.land f (2 ^ k)] for a feature word [f] built from
    bits. *)
Ltac feature_bit :=
  rewrite ?land_pow2 by lia; rewrite ?testbit_u64 by lia;
  rewrite ?Z.lor_spec; rewrite ?Z.pow2_bits_eqb by lia;
  repeat match goal with
         | |- context [?a =? ?a] => rewrite (Z.eqb_refl a)
         | |- context [?a =? ?b] =>
             rewrite (proj2 (Z.eqb_neq a b)) by (assumption || (symmetry; assumption))
         end;
  cbn [orb andb negb].

(** The options decide the features: a feature is left out only when its
    option is exactly "off"; checksum offload is on or off for both
    directions together; MRG_RXBUF, INDIRECT_DESC and MAC are always
    offered; each offered bit agrees with the [hw_features] field that
    [txq::post] reads.  On options parsed against the description
    [setup_features] never throws. *)
Theorem setup_features_consistent (I : virtio_interface.t)
    (user : gmap string opt_value) (hw0 : hw_features.t) :
  virtio_interface.ok I -> well_typed user ->
  exists f hw,
    setup_features I (store user) hw0 = Some (f, hw)
    /\ 0 <= f < 2 ^ 64
    /\ hw_features.tx_csum_l4_offload hw = hw_features.rx_csum_offload hw
    /\ hw_features.mtu hw = hw_features.mtu hw0
    /\ (hw_features.tx_csum_l4_offload hw = false
        <-> store user !! "csum-offload"%string = Some (VString "off"))
    /\ (hw_features.tx_tso hw = false
        <-> store user !! "tso"%string = Some (VString "off"))
    /\ (hw_features.tx_ufo hw = false
        <-> store user !! "ufo"%string = Some (VString "off"))
    /\ (Z.land f (virtio_interface.VIRTIO_RING_F_EVENT_IDX I) = 0
        <-> store user !! "event-index"%string = Some (VString "off"))
    /\ Z.land f (virtio_interface.VIRTIO_NET_F_MRG_RXBUF I) <> 0
    /\ Z.land f (virtio_interface.VIRTIO_RING_F_INDIRECT_DESC I) <> 0
    /\ Z.land f (virtio_interface.VIRTIO_NET_F_MAC I) <> 0
    /\ (Z.land f (virtio_interface.VIRTIO_NET_F_CSUM I) <> 0
        <-> hw_features.tx_csum_l4_offload hw = true)
    /\ (Z.land f (virtio_interface.VIRTIO_NET_F_GUEST_CSUM I) <> 0
        <-> hw_features.rx_csum_offload hw = true)
    /\ (Z.land f (virtio_interface.VIRTIO_NET_F_HOST_TSO4 I) <> 0
        <-> hw_features.tx_tso hw = true)
    /\ (Z.land f (virtio_interface.VIRTIO_NET_F_GUEST_TSO4 I) <> 0
        <-> hw_features.tx_tso hw = true)
    /\ (Z.land f (virtio_interface.VIRTIO_NET_F_HOST_UFO I) <> 0
        <-> hw_features.tx_ufo hw = true)
    /\ (Z.land f (virtio_interface.VIRTIO_NET_F_GUEST_UFO I) <> 0
        <-> hw_features.tx_ufo hw = true).
Proof.
  intros Hok Hwt. pose proof (setup_features_store I user hw0 Hwt) as Hs.
  cbv zeta in Hs. eexists _, _. split; [exact Hs |].
  split; [apply u64_range |].
  cbn [hw_features.tx_csum_l4_offload hw_features.rx_csum_offload hw_features.tx_tso
       hw_features.tx_ufo hw_features.mtu].
  split; [reflexivity |]. split; [reflexivity |].
  rewrite <- !opt_off_spec. clear Hs.
  interface_bits I Hok.
  destruct (opt_off (store user) "event-index"), (opt_off (store user) "csum-offload"),
    (opt_off (store user) "tso"), (opt_off (store user) "ufo"); cbn [negb];
    repeat split; intros; try discriminate; try reflexivity;
    try (feature_bit; first [reflexivity | apply pow2_nonzero; lia | congruence]);
    try (exfalso; match goal with
                  | H : Z.land _ _ = 0 |- _ =>
                      revert H; feature_bit; apply pow2_nonzero; lia
                  | H : Z.land _ _ <> 0 |- _ => apply H; feature_bit; reflexivity
                  end).
Qed.

Lemma standard_interface_ok : virtio_interface.ok virtio_interface.standard.
Proof.
  exists [28; 29; 15; 0; 1; 11; 7; 14; 10; 5]. split; [reflexivity |]. split.
  - repeat constructor; lia.
  - repeat (apply NoDup_cons; split;
            [rewrite ?elem_of_cons, elem_of_nil; lia |]).
    apply NoDup_nil_2.
Qed.

Lemma well_typed_empty : well_typed ∅.
Proof. intros k v H. rewrite lookup_empty in H. discriminate. Qed.

Lemma setup_features_consistent_witness :
  exists f hw,
    setup_features virtio_interface.standard (store ∅) hw_all_on = Some (f, hw)
    /\ 0 <= f < 2 ^ 64.
Proof.
  destruct (setup_features_consistent virtio_interface.standard ∅ hw_all_on
              standard_interface_ok well_typed_empty) as (f & hw & Hs & Hr & _).
  exists f, hw. split; [exact Hs | exact Hr].
Defined.

Ltac bitwise :=
  apply Z.bits_inj'; intros ? ?; rewrite ?Z.land_spec, ?Z.lor_spec;
  repeat match goal with
         | |- context [Z.testbit ?a ?n] => destruct (Z.testbit a n)
         end; reflexivity.

(** What [txq::post] asks of the host in a packet's header, the tap
    device was told to do: with the features that [setup_features] sets
    up, a header that requests a checksum finds TUN_F_CSUM in the flags
    of TUNSETOFFLOAD, one that requests TCP segmentation TUN_F_TSO4, one
    that requests UDP fragmentation TUN_F_UFO. *)
Theorem tun_offload_covers_tx_header (I : virtio_interface.t)
    (user : gmap string opt_value) (hw0 : hw_features.t) (f : Z) (hw : hw_features.t)
    (oi : offload_info.t) (plen : Z) :
  well_typed user ->
  setup_features I (store user) hw0 = Some (f, hw) ->
  let h := txq_vhdr hw oi plen in
  let offload := qp_vhost_offload I hw in
  (net_hdr.needs_csum h = 1 ->
     Z.land offload (virtio_interface.TUN_F_CSUM I) = virtio_interface.TUN_F_CSUM I)
  /\ (net_hdr.gso_type h = net_hdr.gso_tcpv4 ->
     Z.land offload (virtio_interface.TUN_F_TSO4 I) = virtio_interface.TUN_F_TSO4 I
     /\ Z.land offload (virtio_interface.TUN_F_CSUM I) = virtio_interface.TUN_F_CSUM I)
  /\ (net_hdr.gso_type h = net_hdr.gso_udp ->
     Z.land offload (virtio_interface.TUN_F_UFO I) = virtio_interface.TUN_F_UFO I
     /\ Z.land offload (virtio_interface.TUN_F_CSUM I) = virtio_interface.TUN_F_CSUM I).
Proof.
  intros Hwt Hs h offload. subst h offload.
  pose proof (setup_features_store I user hw0 Hwt) as Hs'. cbv zeta in Hs'.
  rewrite Hs in Hs'. injection Hs' as _ ->.
  unfold txq_vhdr, qp_vhost_offload.
  cbn [hw_features.tx_csum_l4_offload hw_features.rx_csum_offload hw_features.tx_tso
       hw_features.tx_ufo hw_features.mtu].
  destruct (opt_off (store user) "csum-offload"), (opt_off (store user) "tso"),
    (opt_off (store user) "ufo"), (offload_info.protocol oi),
    (offload_info.needs_csum oi);
    cbn [negb andb];
    destruct (hw_features.mtu hw0 + eth_hdr_len <? plen);
    cbn; unfold net_hdr.gso_tcpv4, net_hdr.gso_udp;
    repeat split; intros; try discriminate; try bitwise.
Qed.

Lemma tun_offload_covers_tx_header_witness :
  exists f hw,
    setup_features virtio_interface.standard (store ∅) hw_all_on = Some (f, hw)
    /\ Z.land (qp_vhost_offload virtio_interface.standard hw) 2 = 2.
Proof.
  destruct (setup_features virtio_interface.standard (store ∅) hw_all_on)
    as [[f hw] |] eqn:Hs; [| vm_compute in Hs; discriminate].
  exists f, hw. split; [reflexivity |].
  destruct (tun_offload_covers_tx_header virtio_interface.standard ∅ hw_all_on f hw
              oi_tcp 9000 well_typed_empty Hs) as (_ & Htso & _).
  apply Htso. pose proof Hs as Hs'. vm_compute in Hs'. injection Hs' as _ <-.
  vm_compute. reflexivity.
Defined.

(** What negotiation decides and what it does not.  The header length
    follows the host's MRG_RXBUF bit alone, since the driver always
    offers the feature.  The rings use the event index whenever the
    option is not "off": [common_config] reads the driver's own feature
    word, in which the bit does not depend on what the host supports. *)
Theorem negotiation_decides (I : virtio_interface.t) (user : gmap string opt_value)
    (hw0 : hw_features.t) (f : Z) (hw : hw_features.t)
    (vhost_supported_features : Z) :
  virtio_interface.ok I -> well_typed user ->
  setup_features I (store user) hw0 = Some (f, hw) ->
  let EVENT_IDX := virtio_interface.VIRTIO_RING_F_EVENT_IDX I in
  let MRG_RXBUF := virtio_interface.VIRTIO_NET_F_MRG_RXBUF I in
  let negotiated := qp_vhost_features f vhost_supported_features in
  qp_vhost_header_len I negotiated
  = (if Z.land vhost_supported_features MRG_RXBUF =? 0
     then net_hdr.sizeof_net_hdr else net_hdr.sizeof_net_hdr_mrg)
  /\ (forall storage n,
        config.event_index (txq_config EVENT_IDX f storage n)
        = negb (opt_off (store user) "event-index")
        /\ config.event_index (rxq_config EVENT_IDX f storage n)
           = negb (opt_off (store user) "event-index"))
  /\ (Z.land vhost_supported_features EVENT_IDX = 0 ->
      Z.land negotiated EVENT_IDX = 0).
Proof.
  intros Hok Hwt Hs EVENT_IDX MRG_RXBUF negotiated.
  subst EVENT_IDX MRG_RXBUF negotiated.
  pose proof (setup_features_store I user hw0 Hwt) as Hs'. cbv zeta in Hs'.
  rewrite Hs in Hs'. injection Hs' as -> _. clear Hs.
  unfold qp_vhost_header_len, qp_vhost_features, header_len_of, txq_config, rxq_config,
    common_config. cbn [config.event_index].
  split; [| split].
  - match goal with |- context [u64 ?x] => set (F := u64 x) end.
    assert (HF : Z.land F (virtio_interface.VIRTIO_NET_F_MRG_RXBUF I)
                 = virtio_interface.VIRTIO_NET_F_MRG_RXBUF I).
    { unfold F. interface_bits I Hok.
      destruct (opt_off (store user) "event-index"),
        (opt_off (store user) "csum-offload"), (opt_off (store user) "tso"),
        (opt_off (store user) "ufo"); cbn [negb]; feature_bit; reflexivity. }
    rewrite <- Z.land_assoc, HF. destruct (Z.land _ _ =? 0); reflexivity.
  - intros storage n. interface_bits I Hok.
    destruct (opt_off (store user) "event-index"),
      (opt_off (store user) "csum-offload"), (opt_off (store user) "tso"),
      (opt_off (store user) "ufo"); cbn [negb]; feature_bit;
      rewrite ?Z.eqb_refl; cbn [negb];
      try (rewrite (proj2 (Z.eqb_neq _ 0)) by (apply pow2_nonzero; lia));
      split; reflexivity.
  - intros H0. rewrite (Z.land_comm vhost_supported_features), <- Z.land_assoc, H0.
    apply Z.land_0_r.
Qed.

Lemma negotiation_decides_witness :
  exists f hw,
    setup_features virtio_interface.standard (store ∅) hw_all_on = Some (f, hw)
    /\ qp_vhost_header_len virtio_interface.standard (qp_vhost_features f 0) = 10.
Proof.
  destruct (setup_features virtio_interface.standard (store ∅) hw_all_on)
    as [[f hw] |] eqn:Hs; [| vm_compute in Hs; discriminate].
  exists f, hw. split; [reflexivity |].
  exact (proj1 (negotiation_decides virtio_interface.standard ∅ hw_all_on f hw 0
                  standard_interface_ok well_typed_empty Hs)).
Defined.

(** ** The order of publication on an interrupt-driven ring *)

Section PublicationOrder.
Context {K : Type}.
Implicit Types (v : vring K) (fl : list Z) (cs : list (list Z)) (hs : host_sched).

Lemma record_chain_interrupt v (h : Z) (k : K) v' :
  record_chain v h k = Some v' -> _poll_mode v = false ->
  trace v' = EvStoreAvailRing (masked v (avail_head v)) h :: trace v
  /\ avail_head v' = u16 (avail_head v + 1)
  /\ _poll_mode v' = false.
Proof.
  unfold record_chain. intros H Hp.
  destruct (at_index (_completions v) h); [| discriminate].
  cbn [mbind option_bind] in H. cbn [_poll_mode set_completions] in H.
  rewrite Hp in H. cbn [negb] in H. injection H as <-.
  split; [reflexivity |]. split; [reflexivity | exact Hp].
Qed.

Lemma post_chains_interrupt (bcs : list (buffer_chain (K := K))) : forall v fl cs v1,
  vring_inv v fl cs -> _poll_mode v = false ->
  Forall (fun bc => bufs bc <> []) bcs ->
  post_chains v bcs = Some v1 ->
  exists stores,
    trace v1 = stores ++ trace v
    /\ forallb is_ring_store stores = true
    /\ length stores = length bcs
    /\ u16 (avail_head v1) = u16 (avail_head v + Z.of_nat (length bcs))
    /\ _poll_mode v1 = false.
Proof.
  induction bcs as [| bc bcs IH]; intros v fl cs v1 Hinv Hp Hne Hposts.
  - injection Hposts as <-. exists []. cbn. rewrite Z.add_0_r. auto.
  - inversion Hne as [| ? ? Hne1 Hne2]; subst. cbn [post_chains] in Hposts.
    destruct (post_chain v bc) as [vm |] eqn:Hpost; [| discriminate].
    cbn [mbind option_bind] in Hposts.
    destruct (post_chain_Some_inv v fl cs bc vm Hinv Hne1 Hpost) as (Hlen & Hinvm & _).
    destruct (post_chain_enough v fl cs bc Hinv Hne1 Hlen)
      as (v0 & pseudo & prev & vm' & _ & Hfr & Hrec & Hpost' & _).
    rewrite Hpost in Hpost'. injection Hpost' as <-.
    destruct (frame_descs_fields _ _ Hfr) as (Htr0 & _ & Hp0).
    destruct (frame_descs_avail _ _ Hfr) as (_ & _ & Hah0).
    destruct (record_chain_interrupt _ _ _ _ Hrec ltac:(congruence))
      as (Htrm & Hahm & Hpm).
    destruct (IH vm _ _ v1 Hinvm Hpm Hne2 Hposts)
      as (stores & Htr & Hall & Hl & Hah & Hp1).
    exists (stores ++ [EvStoreAvailRing (masked v0 (avail_head v0)) (desc._next pseudo)]).
    split; [rewrite Htr, Htrm, Htr0, <- app_assoc; reflexivity |].
    split; [rewrite forallb_app, Hall; reflexivity |].
    split; [rewrite length_app, Hl; cbn; lia |]. split; [| exact Hp1].
    rewrite Hah, Hahm, Hah0. unfold u16. rewrite Zplus_mod_idemp_l.
    f_equal. cbn [length]. lia.
Qed.

(** On an interrupt-driven ring [post] publishes in the order the host
    relies on: first the stores to the slots of the available ring, one
    for each chain, then the store of [avail.idx], which has advanced by
    the number of chains (modulo 2^16), then the fence, then at most one
    call of the notifier, and only then the completions. *)
Theorem post_publication_order v fl cs (bcs : list (buffer_chain (K := K))) hs v' hs' :
  vring_inv v fl cs -> _poll_mode v = false ->
  Forall (fun bc => bufs bc <> []) bcs ->
  post hs v bcs = Some (v', hs') ->
  exists stores completions,
    (trace v'
     = completions ++ EvFence :: EvStoreAvailIdx (avail_idx v') :: stores ++ trace v
     \/ trace v'
        = completions ++ EvNotify :: EvFence :: EvStoreAvailIdx (avail_idx v')
          :: stores ++ trace v)
    /\ forallb is_ring_store stores = true
    /\ length stores = length bcs
    /\ u16 (avail_idx v') = u16 (avail_head v + Z.of_nat (length bcs))
    /\ forallb (mode_event false (config.event_index (_config v'))) completions = true.
Proof.
  intros Hinv Hp Hne Hpost. unfold post in Hpost.
  destruct (post_chains v bcs) as [v1 |] eqn:Hposts; [| discriminate].
  cbn [mbind option_bind] in Hpost.
  destruct (post_chains_interrupt bcs v fl cs v1 Hinv Hp Hne Hposts)
    as (stores & Htr1 & Hall & Hlen & Hah & Hp1).
  rewrite Hp1 in Hpost. cbn [negb] in Hpost.
  set (w := kick (store_avail_idx v1)) in *.
  destruct (do_complete_loop_events _ hs w v' hs' Hpost) as ((t & Htr & Ht) & Hf & _).
  destruct (frame_completion_fields _ _ Hf) as (Hcf & _ & _ & _ & Hai & _).
  destruct (kick_avail (store_avail_idx v1)) as (Haiw & _). fold w in Haiw.
  assert (Hpw : _poll_mode w = false).
  { destruct (kick_fields (store_avail_idx v1)) as (_ & _ & Hpw). fold w in Hpw.
    rewrite Hpw. exact Hp1. }
  rewrite Hpw, <- Hcf in Ht.
  assert (Hidx : avail_idx v' = avail_head v1) by (rewrite Hai, Haiw; reflexivity).
  exists stores, t. split.
  - rewrite Htr, Hidx. unfold w.
    destruct (kick_cases (store_avail_idx v1)) as [[-> _] | [-> _]];
      cbn [trace emit set_trace set_avail_added_since_kick store_avail_idx
           set_avail_idx]; rewrite Htr1; [right | left]; reflexivity.
  - split; [exact Hall |]. split; [exact Hlen |]. split; [| exact Ht].
    rewrite Hidx. exact Hah.
Qed.

End PublicationOrder.

Lemma post_publication_order_witness :
  exists stores : list (event unit),
    forallb is_ring_store stores = true /\ length stores = 1%nat.
Proof.
  destruct (post_publication_order (vring_new conf4 false) _ [] [chain2] []
              ring_posted [] (vring_new_inv conf4 false conf4_ok)
              ltac:(vm_compute; reflexivity)
              ltac:(constructor; [discriminate | constructor])
              ltac:(vm_compute; reflexivity))
    as (stores & completions & _ & Hall & Hlen & _).
  exists stores. split; [exact Hall | exact Hlen].
Defined.

(** ** Starting the queue: [vring::run] and [vring::complete] *)

(** [run] on a polling ring touches nothing (the work is the poller's);
    on an interrupt-driven ring it waits for the host only after the
    completions are drained, the arm word is stored and fenced, and
    [used.idx] is read once more and found equal to [_used._tail]: no
    completion published before the wait is missed. *)
Theorem run_waits_armed {K : Type} (v : vring K) (hs : host_sched) v' hs' :
  run hs v = Some (v', hs') ->
  (_poll_mode v = true -> v' = v /\ hs' = hs)
  /\ (_poll_mode v = false ->
      exists older,
        trace v'
        = EvWait :: EvLoadUsedIdx (used_tail v') :: EvFence
          :: (if config.event_index (_config v')
              then EvStoreUsedEvent (used_tail v')
              else EvStoreAvailFlags 0)
          :: older
        /\ used_idx v' = used_tail v'
        /\ (if config.event_index (_config v')
            then used_event v' = used_tail v'
            else interrupts_disabled v' = false)
        /\ count_notify (trace v') = count_notify (trace v)).
Proof.
  unfold run. intros H. split; intros Hp; rewrite Hp in H; cbn [negb] in H.
  - injection H as <- <-. auto.
  - unfold complete in H.
    destruct (do_complete hs v) as [[v1 hs1] |] eqn:Hdo; [| discriminate].
    cbn [mbind option_bind] in H. injection H as <- <-.
    destruct (do_complete_loop_armed _ hs v v1 hs1 Hp Hdo)
      as (((older & Htr) & Hflag) & Hidle & _).
    destruct (do_complete_loop_events _ hs v v1 hs1 Hdo) as ((t & Ht & Hall) & _).
    destruct (mode_events_quiet _ _ _ Hall) as [Hn _].
    exists older. cbn [trace emit set_trace used_tail _config used_idx used_event].
    split; [rewrite Htr, Hidle; reflexivity |]. split; [exact Hidle |].
    split; [exact Hflag |].
    cbn [count_notify]. rewrite Ht, count_notify_app, Hn. reflexivity.
Qed.

Lemma run_waits_armed_witness :
  exists v' hs',
    run race_sched ring_posted = Some (v', hs') /\ used_idx v' = used_tail v'.
Proof.
  destruct (run race_sched ring_posted) as [[v' hs'] |] eqn:H;
    [| vm_compute in H; discriminate].
  exists v', hs'. split; [reflexivity |].
  destruct (proj2 (run_waits_armed ring_posted race_sched v' hs' H)
              ring_posted_interrupt_mode) as (older & _ & Hidle & _).
  exact Hidle.
Defined.

(** ** Why the ring size has to be a power of two *)

(** [masked] sends the indices below the ring size to distinct slots
    exactly when the size is a power of two (which [config_ring_size]
    does not check): for any other size two indices share a slot. *)
Theorem masked_injective_iff {K : Type} (v : vring K) :
  1 <= size v ->
  (forall i j, 0 <= i < size v -> 0 <= j < size v ->
               masked v i = masked v j -> i = j)
  <-> exists k, 0 <= k /\ size v = 2 ^ k.
Proof.
  intros HN. unfold masked, mask. split.
  - intros Hinj. set (m := size v - 1) in *.
    destruct (Z.eq_dec m 0) as [H0 | Hm]; [exists 0; split; [lia | cbn; lia] |].
    assert (Hpos : 0 < m) by lia.
    pose proof (Z.log2_nonneg m) as HL. pose proof (Z.log2_spec m Hpos) as [Hlo Hhi].
    set (L := Z.log2 m) in *.
    assert (Hbits : forall j, 0 <= j <= L -> Z.testbit m j = true).
    { intros j Hj. destruct (Z.testbit m j) eqn:E; [reflexivity |]. exfalso.
      assert (HjL : j < L).
      { destruct (Z.eq_dec j L) as [-> | Hne]; [| lia].
        unfold L in E. rewrite (Z.bit_log2 m Hpos) in E. discriminate. }
      assert (Hlt : 2 ^ j < 2 ^ L) by (apply Z.pow_lt_mono_r; lia).
      pose proof (Z.pow_pos_nonneg 2 j ltac:(lia) ltac:(lia)) as Hpj.
      assert (Heq : 2 ^ j = 0).
      { apply Hinj; [lia | lia |].
        rewrite Z.land_0_l, Z.land_comm, land_pow2, E by lia. reflexivity. }
      lia. }
    exists (L + 1). split; [lia |].
    assert (Hones : m = Z.ones (L + 1)).
    { apply Z.bits_inj'. intros n Hn.
      destruct (Z_lt_le_dec n (L + 1)) as [Hlt | Hge].
      - rewrite Z.ones_spec_low by lia. apply Hbits. lia.
      - rewrite Z.ones_spec_high by lia. apply Z.bits_above_log2; [lia |].
        fold L. lia. }
    rewrite Z.ones_equiv in Hones. unfold m in Hones. lia.
  - intros (k & Hk & Hsz) i j Hi Hj Heq. rewrite Hsz in *.
    change (2 ^ k - 1) with (Z.pred (2 ^ k)) in Heq.
    rewrite <- Z.ones_equiv, !Z.land_ones in Heq by lia.
    rewrite !Z.mod_small in Heq by lia. exact Heq.
Qed.

Lemma masked_injective_iff_witness :
  exists k, 0 <= k /\ size (vring_new (K := unit) conf4 false) = 2 ^ k.
Proof.
  apply (masked_injective_iff (vring_new (K := unit) conf4 false)
           ltac:(vm_compute; discriminate)).
  intros i j Hi Hj.
  change (size (vring_new (K := unit) conf4 false)) with 4 in Hi, Hj.
  assert (Hc : i = 0 \/ i = 1 \/ i = 2 \/ i = 3) by lia.
  assert (Hd : j = 0 \/ j = 1 \/ j = 2 \/ j = 3) by lia.
  destruct Hc as [-> | [-> | [-> | ->]]], Hd as [-> | [-> | [-> | ->]]];
    vm_compute; congruence.
Defined.

(** ** What [txq::post] stores to the available ring *)

Section AvailStores.
Context {K : Type}.
Implicit Types (v : vring K) (fl : list Z) (cs : list (list Z)) (hs : host_sched).

Lemma masked_config v v' (x : Z) : _config v' = _config v -> masked v' x = masked v x.
Proof. unfold masked, mask, size. intros ->. reflexivity. Qed.

Lemma masked_u16 v (x : Z) : conf_ok (_config v) -> masked v (u16 x) = masked v x.
Proof.
  intros Hconf. rewrite !masked_mod by exact Hconf.
  destruct Hconf as (k & Hk & Hsz). unfold size, u16. rewrite Hsz.
  apply Z.mod_mod_divide.
  exists (2 ^ (16 - k)). rewrite <- Z.pow_add_r by lia. f_equal. lia.
Qed.

(** The stores of a run of [publish_head]. *)
Lemma publish_heads_stores (batch : list Z) : forall v,
  exists stores,
    trace (foldl publish_head v batch) = stores ++ trace v
    /\ forallb is_ring_store stores = true
    /\ length stores = length batch
    /\ _config (foldl publish_head v batch) = _config v
    /\ u16 (avail_head (foldl publish_head v batch))
       = u16 (avail_head v + Z.of_nat (length batch))
    /\ avail_idx (foldl publish_head v batch) = avail_idx v.
Proof.
  induction batch as [| h batch IH]; intros v.
  - exists []. cbn. rewrite Z.add_0_r. repeat split.
  - cbn [foldl]. destruct (IH (publish_head v h)) as (stores & Ht & Hall & Hl & Hc & Hah & Hai).
    exists (stores ++ [EvStoreAvailRing (masked v (avail_head v)) h]).
    split; [rewrite Ht, <- app_assoc; reflexivity |].
    split; [rewrite forallb_app, Hall; reflexivity |].
    split; [rewrite length_app, Hl; cbn; lia |].
    split; [rewrite Hc; reflexivity |]. split; [| rewrite Hai; reflexivity].
    rewrite Hah. change (avail_head (publish_head v h)) with (u16 (avail_head v + 1)).
    unfold u16. rewrite Zplus_mod_idemp_l. f_equal. cbn [length]. lia.
Qed.

(** [flush_batch] on a batch that ends with [h]: the store of [h] is the
    last store to a slot, and the store of [avail.idx] follows it. *)
Lemma flush_batch_last v (l : list Z) (h : Z) :
  conf_ok (_config v) -> _batch v = l ++ [h] ->
  let r := flush_batch v in
  exists later stores,
    trace r = later ++ EvStoreAvailIdx (avail_idx r)
              :: EvStoreAvailRing (masked v (avail_head v + Z.of_nat (length l))) h
              :: stores ++ trace v
    /\ forallb (fun e => negb (is_avail_store e)) later = true
    /\ forallb is_ring_store stores = true
    /\ length stores = length l
    /\ avail_idx r = avail_head r
    /\ avail_idx r = u16 (avail_head v + Z.of_nat (length l) + 1)
    /\ _batch r = [].
Proof.
  intros Hconf Hb r.
  assert (Hr : r = kick (store_avail_idx
                           (set_batch [] (publish_head (foldl publish_head v l) h)))).
  { unfold r, flush_batch. rewrite Hb.
    destruct (l ++ [h]) as [| a m] eqn:E; [destruct l; discriminate |].
    rewrite <- E, foldl_app. reflexivity. }
  destruct (publish_heads_stores l v) as (stores & Ht & Hall & Hl & Hc & Hah & _).
  set (w := foldl publish_head v l) in *. clearbody w.
  set (w2 := store_avail_idx (set_batch [] (publish_head w h))) in *.
  assert (Hw2 : trace w2 = EvStoreAvailIdx (u16 (avail_head w + 1))
                           :: EvStoreAvailRing (masked w (avail_head w)) h :: trace w
                /\ avail_idx w2 = u16 (avail_head w + 1)
                /\ avail_head w2 = u16 (avail_head w + 1) /\ _batch w2 = [])
    by (repeat split).
  destruct Hw2 as (Htw2 & Hiw2 & Hhw2 & Hbw2).
  destruct (kick_avail w2) as (Hki & Hkh & _).
  destruct (kick_fields w2) as (_ & Hkb & _).
  assert (Hslot : masked w (avail_head w) = masked v (avail_head v + Z.of_nat (length l))).
  { rewrite (masked_config v w _ Hc).
    rewrite <- (masked_u16 v (avail_head w)), Hah by exact Hconf.
    apply masked_u16, Hconf. }
  assert (Hidx : u16 (avail_head w + 1) = u16 (avail_head v + Z.of_nat (length l) + 1)).
  { unfold u16 in *. rewrite <- Zplus_mod_idemp_l, Hah, Zplus_mod_idemp_l. reflexivity. }
  assert (Hlater : exists later, trace (kick w2) = later ++ trace w2
                     /\ forallb (fun e : event K => negb (is_avail_store e)) later = true).
  { destruct (kick_cases w2) as [[-> _] | [-> _]].
    - exists [EvNotify; EvFence]. split; reflexivity.
    - exists [EvFence]. split; reflexivity. }
  destruct Hlater as (later & Htl & Hnl).
  exists later, stores. rewrite Hr, Htl, Hki, Hkh, Hkb, Htw2, Hiw2, Hhw2, Hbw2, Hslot, Ht, Hidx.
  repeat split; assumption.
Qed.


(** One chain: in interrupt mode its head is stored to the slot of
    [_avail._head], in poll mode it joins the batch. *)
Lemma post_chain_stores v fl cs (bc : buffer_chain (K := K)) v1 :
  vring_inv v fl cs -> batch_ok v -> bufs bc <> [] ->
  post_chain v bc = Some v1 ->
  exists h,
    published v1 = published v ++ [h]
    /\ _config v1 = _config v /\ _poll_mode v1 = _poll_mode v
    /\ (_poll_mode v = false ->
        trace v1 = EvStoreAvailRing (masked v (avail_head v)) h :: trace v
        /\ avail_head v1 = u16 (avail_head v + 1) /\ _batch v1 = [])
    /\ (_poll_mode v = true ->
        trace v1 = trace v /\ avail_head v1 = avail_head v
        /\ _batch v1 = _batch v ++ [h]).
Proof.
  intros Hinv Hok Hne Hpost.
  destruct (post_chain_Some_inv v fl cs bc v1 Hinv Hne Hpost) as (Hlen & _ & Hcf).
  destruct (post_chain_enough v fl cs bc Hinv Hne Hlen)
    as (v0 & pseudo & prev & v1' & _ & Hfr & Hrec & Hpost' & _).
  rewrite Hpost in Hpost'. injection Hpost' as <-.
  destruct (frame_descs_fields _ _ Hfr) as (Htr0 & Hb0 & Hp0).
  destruct (frame_descs_avail _ _ Hfr) as (_ & _ & Hah0).
  assert (Hcf0 : _config v0 = _config v) by (rewrite Hfr; reflexivity).
  assert (Hok0 : batch_ok v0) by (unfold batch_ok; rewrite Hp0, Hb0; exact Hok).
  destruct (record_chain_published _ _ _ _ Hrec Hok0) as (Hpub & Hok1 & Hp1).
  exists (desc._next pseudo). split.
  { rewrite Hpub. unfold published. rewrite Htr0, Hb0. reflexivity. }
  split; [exact Hcf |]. split; [congruence |]. split.
  - intros Hp.
    destruct (record_chain_interrupt _ _ _ _ Hrec ltac:(congruence)) as (Ht & Hah & Hp').
    rewrite Ht, Hah, Htr0, Hah0, (masked_config v v0 _ Hcf0).
    split; [reflexivity |]. split; [reflexivity |]. apply Hok1, Hp'.
  - intros Hp.
    destruct (record_chain_poll _ _ _ _ Hrec) as (_ & Hpoll).
    destruct (Hpoll ltac:(congruence)) as (Ht & _ & Hah & Hb).
    rewrite Ht, Hah, Hb, Htr0, Hah0, Hb0. repeat split.
Qed.

Lemma mode_event_no_store (pm ei : bool) (t : list (event K)) :
  forallb (mode_event pm ei) t = true ->
  forallb (fun e => negb (is_avail_store e)) t = true /\ stored_heads t = [].
Proof.
  induction t as [| e t IH]; [split; reflexivity |]. cbn [forallb].
  intros H. apply andb_true_iff in H as [He Ht]. destruct (IH Ht) as [IH1 IH2].
  destruct e; try discriminate; cbn; rewrite ?IH1; split; auto.
Qed.

(** [do_complete] hands nothing to the host, in either mode. *)
Lemma do_complete_published hs v v' hs' :
  do_complete hs v = Some (v', hs') -> published v' = published v.
Proof.
  intros H. destruct (do_complete_loop_events _ hs v v' hs' H) as ((t & Ht & Hall) & Hf & _).
  destruct (frame_completion_batch _ _ Hf) as [Hb _].
  destruct (mode_event_no_store _ _ t Hall) as [_ Hs].
  unfold published. rewrite Ht, Hb, stored_heads_app, Hs, app_nil_r. reflexivity.
Qed.

(** [post] of one chain, up to the next [flush_batch]: the head of the
    chain is the last one stored to a slot of the available ring, the
    slot is the one that follows the earlier heads, and the store of
    [avail.idx], which counts this head as well, is the last store to the
    available ring. *)
Lemma post_one_avail hs v fl cs (bc : buffer_chain (K := K)) v' hs' :
  vring_inv v fl cs -> batch_ok v -> bufs bc <> [] ->
  post hs v [bc] = Some (v', hs') ->
  let r := flush_batch v' in
  exists h later stores,
    published v' = published v ++ [h]
    /\ trace r = later ++ EvStoreAvailIdx (avail_idx r)
                 :: EvStoreAvailRing
                      (masked v (avail_head v + Z.of_nat (length (_batch v)))) h
                 :: stores ++ trace v
    /\ forallb (fun e => negb (is_avail_store e)) later = true
    /\ forallb is_ring_store stores = true
    /\ length stores = length (_batch v)
    /\ avail_idx r = avail_head r
    /\ avail_idx r = u16 (avail_head v + Z.of_nat (length (_batch v)) + 1).
Proof.
  intros Hinv Hok Hne Hpost r.
  assert (Hsome : exists v1, post_chain v bc = Some v1).
  { unfold post in Hpost. cbn [post_chains] in Hpost.
    destruct (post_chain v bc) as [v1 |]; [eauto | discriminate]. }
  destruct Hsome as [v1 H1].
  assert (Hchains : post_chains v [bc] = Some v1)
    by (cbn [post_chains]; rewrite H1; reflexivity).
  destruct (post_chain_stores v fl cs bc v1 Hinv Hok Hne H1)
    as (h & Hpub1 & Hcf1 & Hp1 & Hint & Hpoll).
  destruct (post_after_chains hs v [bc] v1 v' hs' Hchains Hpost) as (Hpub' & _ & _ & _).
  exists h. unfold post in Hpost. rewrite Hchains in Hpost.
  cbn [mbind option_bind] in Hpost.
  destruct (_poll_mode v) eqn:Hp; rewrite Hp1 in Hpost; cbn [negb] in Hpost.
  - destruct (Hpoll eq_refl) as (Ht1 & Hah1 & Hb1).
    assert (Hr : r = flush_batch v1).
    { unfold r. destruct (16 <=? _); injection Hpost as <- <-; [| reflexivity].
      destruct (flush_batch_fields v1) as (_ & Hbf & _).
      unfold flush_batch at 1. rewrite Hbf. reflexivity. }
    assert (Hconf1 : conf_ok (_config v1)) by (rewrite Hcf1; apply (inv_conf _ _ _ Hinv)).
    destruct (flush_batch_last v1 (_batch v) h Hconf1 Hb1)
      as (later & stores & Htr & Hl & Hs & Hlen & Hih & Hidx & _).
    rewrite Hah1 in Htr, Hidx. rewrite (masked_config v v1 _ Hcf1), Ht1 in Htr.
    exists later, stores. rewrite Hr.
    split; [congruence |]. split; [exact Htr |]. split; [exact Hl |].
    split; [exact Hs |]. split; [exact Hlen |]. split; [exact Hih | exact Hidx].
  - destruct (Hint eq_refl) as (Ht1 & Hah1 & Hb1).
    rewrite (Hok Hp). cbn [length Z.of_nat]. rewrite Z.add_0_r.
    set (w := kick (store_avail_idx v1)) in *.
    destruct (do_complete_loop_events _ hs w v' hs' Hpost) as ((t & Htr & Hall) & Hf & _).
    destruct (frame_completion_fields _ _ Hf) as (_ & _ & Hb' & _ & Hai & Hah & _).
    destruct (kick_avail (store_avail_idx v1)) as (Haiw & Hahw & _).
    destruct (kick_fields (store_avail_idx v1)) as (_ & Hbw & _).
    fold w in Haiw, Hahw, Hbw.
    assert (Hr : r = v').
    { unfold r, flush_batch. rewrite Hb', Hbw. cbn [_batch store_avail_idx emit
        set_trace set_avail_idx]. rewrite Hb1. reflexivity. }
    assert (Hkick : exists kicks, trace w = kicks ++ EvStoreAvailIdx (avail_head v1) :: trace v1
                      /\ forallb (fun e : event K => negb (is_avail_store e)) kicks = true).
    { unfold w. destruct (kick_cases (store_avail_idx v1)) as [[-> _] | [-> _]].
      - exists [EvNotify; EvFence]. split; reflexivity.
      - exists [EvFence]. split; reflexivity. }
    destruct Hkick as (kicks & Htw & Hk).
    destruct (mode_event_no_store _ _ t Hall) as [Hquiet _].
    exists (t ++ kicks), [].
    rewrite Hr, Htr, Htw, Ht1, Hai, Hah, Haiw, Hahw, Hah1, <- app_assoc.
    cbn [store_avail_idx avail_idx avail_head emit set_trace set_avail_idx].
    rewrite Hah1.
    split; [congruence |]. split; [reflexivity |].
    split; [rewrite forallb_app, Hquiet, Hk; reflexivity |]. repeat split.
Qed.

End AvailStores.

(** ** Calls of [txq::post], suspended ones included *)

Lemma txq_post_static (vhdr_at : Z) (hs : host_sched) (t : txq.t) (p : packet.t) t' hs' :
  txq_post vhdr_at hs t p = Done (t', hs') ->
  txq.hw t' = txq.hw t /\ txq._header_len t' = txq._header_len t.
Proof.
  unfold txq_post. cbv zeta. destruct (sem_wait _ _) as [ring |]; [| discriminate].
  destruct (post hs ring _) as [[r hs1] |]; [| discriminate].
  intros [= <- <-]. split; reflexivity.
Qed.

(** The continuation of [wait], once it has run: the host finds one more
    head, and reads from it the header and the fragments of the packet. *)
Lemma tx_continue_Done (conf : config.t) (poll_mode : bool)
    (hs : host_sched) (t : txq.t) (w : tx_waiter.t) t' hs' (pub : publication) :
  conf_ok conf -> reachable conf poll_mode (txq._ring t) ->
  tx_host_ok hs t w ->
  tx_continue hs t w = Done (t', hs', pub) ->
  exists h,
    pub = (w, Some (h, buffer.mk (tx_waiter.vhdr_at w) (u32 (txq._header_len t)) false
                       :: map (fun fr => buffer.mk (fragment.base fr)
                                           (u32 (fragment.size fr)) false)
                            (packet.fragments (tx_waiter.p w))))
    /\ published (txq._ring t') = published (txq._ring t) ++ [h]
    /\ reachable conf poll_mode (txq._ring t')
    /\ txq._header_len t' = txq._header_len t.
Proof.
  intros Hconf Hreach Hhost H. unfold tx_continue in H.
  destruct (txq_post _ hs t _) as [[t1 hs1] | |] eqn:Hdone; try discriminate.
  injection H as <- <- <-.
  destruct (txq_post_static _ _ _ _ _ _ Hdone) as [_ Hlen].
  destruct (txq_post_Done conf poll_mode _ hs t _ t1 hs1 Hconf Hreach Hdone)
    as (ring & v1 & c & h & Hw & Hchains & Hpost & _ & _ & _ & _ & Hread & Hpub1
        & Hpub & _).
  exists h. split.
  - f_equal. unfold tx_seen. cbv zeta. rewrite txq_chain_nr_frags, Hw.
    cbn [mbind option_bind]. rewrite Hchains. cbn [mbind option_bind].
    rewrite Hpub1, last_snoc. cbn [mbind option_bind]. rewrite Hread.
    reflexivity.
  - split; [exact Hpub |]. split; [| exact Hlen].
    destruct (sem_wait_Some _ _ _ Hw) as [_ Hring].
    apply (reach_post conf poll_mode ring hs [txq_chain t (tx_waiter.vhdr_at w)
                                                (tx_waiter.p w)] (txq._ring t1) hs1).
    + rewrite Hring. apply reach_semaphore, Hreach.
    + constructor; [rewrite txq_chain_bufs; discriminate | constructor].
    + intros v1' Hv1'. apply (Hhost ring v1'); [| exact Hv1'].
      rewrite txq_chain_nr_frags. exact Hw.
    + exact Hpost.
Qed.

(** The invariant of [tx_run]: the callers whose continuation has run,
    followed by those that wait, are the callers in call order, and the
    heads handed to the host are those of the former, in that order. *)
Lemma tx_run_fifo (conf : config.t) (poll_mode : bool) (t0 : txq.t)
    (calls : list tx_waiter.t) (s : tx_sending.t) (pubs : list publication) :
  conf_ok conf -> reachable conf poll_mode (txq._ring t0) ->
  tx_run t0 calls s pubs ->
  calls = map fst pubs ++ tx_sending._wait_list s
  /\ txq._header_len (tx_sending.q s) = txq._header_len t0
  /\ reachable conf poll_mode (txq._ring (tx_sending.q s))
  /\ exists heads,
       published (txq._ring (tx_sending.q s)) = published (txq._ring t0) ++ heads
       /\ Forall2
            (fun (pub : publication) (h : Z) =>
               pub = (pub.1,
                      Some (h, buffer.mk (tx_waiter.vhdr_at pub.1)
                                 (u32 (txq._header_len t0)) false
                               :: map (fun fr => buffer.mk (fragment.base fr)
                                                   (u32 (fragment.size fr)) false)
                                    (packet.fragments (tx_waiter.p pub.1)))))
            pubs heads.
Proof.
  intros Hconf Hreach0 Hrun.
  induction Hrun as
    [ | calls s pubs hs w s' hs' out _ IH Hhost Hcall
      | calls s pubs k len _ IH
      | calls s pubs hs w s' hs' out _ IH Hhd Hhost Hres
      | calls s pubs hs ring' hs' _ IH Hsched Hcomp
      | calls s pubs hs ring' hs' _ IH Hsched Hpoll ].
  - split; [reflexivity |]. split; [reflexivity |]. split; [exact Hreach0 |].
    exists []. rewrite app_nil_r. split; [reflexivity | constructor].
  - destruct IH as (Hcalls & Hlen & Hreach & heads & Hpub & Hall).
    unfold tx_call in Hcall.
    destruct (tx_sending._wait_list s) as [| w0 ws] eqn:Hws.
    + destruct (tx_continue hs (tx_sending.q s) w) as [[[t' hs1] pub] | |] eqn:Hcont;
        try discriminate.
      * injection Hcall as <- <- <-.
        destruct (tx_continue_Done conf poll_mode hs _ w t' hs1 pub Hconf Hreach
                    (Hhost eq_refl) Hcont) as (h & Hp & Hpub' & Hreach' & Hlen').
        cbn [tx_sending.q tx_sending._wait_list].
        split.
        { rewrite Hcalls, map_app, Hp, !app_nil_r. reflexivity. }
        split; [congruence |]. split; [exact Hreach' |].
        exists (heads ++ [h]). split; [rewrite Hpub', Hpub, app_assoc; reflexivity |].
        apply Forall2_app; [exact Hall |]. constructor; [| constructor].
        rewrite Hp at 1. cbn [fst]. rewrite Hp. cbn [fst]. rewrite Hlen. reflexivity.
      * injection Hcall as <- <- <-. cbn [tx_sending.q tx_sending._wait_list].
        rewrite !app_nil_r. split; [rewrite Hcalls, app_nil_r; reflexivity |].
        split; [exact Hlen |]. split; [exact Hreach |]. exists heads. auto.
    + injection Hcall as <- <- <-. cbn [tx_sending.q tx_sending._wait_list].
      rewrite !app_nil_r. split; [rewrite Hcalls, <- app_assoc; reflexivity |].
      split; [exact Hlen |]. split; [exact Hreach |]. exists heads. auto.
  - destruct IH as (Hcalls & Hlen & Hreach & heads & Hpub & Hall).
    cbn [tx_sending.q tx_sending._wait_list].
    split; [exact Hcalls |]. split; [exact Hlen |].
    split; [apply reach_semaphore, Hreach |]. exists heads. split; [exact Hpub | exact Hall].
  - destruct IH as (Hcalls & Hlen & Hreach & heads & Hpub & Hall).
    unfold tx_resume in Hres.
    destruct (tx_sending._wait_list s) as [| w0 ws] eqn:Hws; [discriminate |].
    injection Hhd as ->.
    destruct (tx_continue hs (tx_sending.q s) w) as [[[t' hs1] pub] | |] eqn:Hcont;
      try discriminate.
    injection Hres as <- <- <-.
    destruct (tx_continue_Done conf poll_mode hs _ w t' hs1 pub Hconf Hreach
                Hhost Hcont) as (h & Hp & Hpub' & Hreach' & Hlen').
    cbn [tx_sending.q tx_sending._wait_list].
    split.
    { rewrite Hcalls, map_app, Hp, <- app_assoc. reflexivity. }
    split; [congruence |]. split; [exact Hreach' |].
    exists (heads ++ [h]). split; [rewrite Hpub', Hpub, app_assoc; reflexivity |].
    apply Forall2_app; [exact Hall |]. constructor; [| constructor].
    rewrite Hp at 1. cbn [fst]. rewrite Hp. cbn [fst]. rewrite Hlen. reflexivity.
  - destruct IH as (Hcalls & Hlen & Hreach & heads & Hpub & Hall).
    cbn [tx_with_ring tx_sending.q tx_sending._wait_list txq._ring txq._header_len].
    split; [exact Hcalls |]. split; [exact Hlen |].
    split; [exact (reach_complete conf poll_mode _ hs ring' hs' Hreach Hsched Hcomp) |].
    exists heads. split; [| exact Hall]. rewrite <- Hpub.
    unfold complete in Hcomp.
    destruct (do_complete hs _) as [[v1 hs1] |] eqn:Hdo; [| discriminate].
    injection Hcomp as <- <-. rewrite <- (do_complete_published _ _ _ _ Hdo).
    reflexivity.
  - destruct IH as (Hcalls & Hlen & Hreach & heads & Hpub & Hall).
    cbn [tx_with_ring tx_sending.q tx_sending._wait_list txq._ring txq._header_len].
    split; [exact Hcalls |]. split; [exact Hlen |].
    split.
    { apply (reach_do_complete conf poll_mode _ hs ring' hs'
               (reach_flush_batch conf poll_mode _ Hreach) Hsched Hpoll). }
    exists heads. split; [| exact Hall]. rewrite <- Hpub.
    unfold poll_tick in Hpoll. rewrite (do_complete_published _ _ _ _ Hpoll).
    apply published_flush_batch.
Qed.

(** C5.  [txq::post] of a packet of [K] fragments.

    - The call takes [K + 1] permits; with fewer it is suspended before
      anything is posted, and with the permits (backed by free
      descriptors, the host being well behaved) it runs to the end.
    - A call that runs to the end, at once or after having waited, hands
      the host exactly one chain, of [K + 1] descriptors: the host reads
      it from the head along [has_next]/[_next], up to a descriptor with
      [has_next] clear, as the header fragment (at [vhdr_at], of
      [_header_len] bytes) followed by the [K] fragments of the packet,
      each with its address and its size, all read-only.  The head is
      stored to the slot of the available ring that follows the heads
      handed over before, after which [avail.idx] is stored, advanced to
      count this head too; nothing else is stored to the available ring
      afterwards.  (On a polling ring the stores are those of the next
      [flush_batch], in [post] or in the poller, which stores the batched
      heads in their order.)  The head of the next call follows.
    - First in, first out, suspended callers included: whatever the
      calls, the completions that return permits, the resumptions and the
      runs of [complete] and of the poller, the callers whose
      continuation has run followed by those that still wait are the
      callers in call order, and the heads handed to the host are, in the
      same order, one for each of the former; at the moment it was
      handed over the host read from each the header and the fragments of
      that caller's packet. *)
Theorem txq_post_one_chain_fifo (conf : config.t) (poll_mode : bool) :
  conf_ok conf ->
  (forall (vhdr_at : Z) (hs : host_sched) (t : txq.t) (p : packet.t) (f : Z),
     reachable conf poll_mode (txq._ring t) ->
     free_count (txq._ring t) = Some f -> sem_current (txq._ring t) <= f ->
     tx_host_ok hs t (tx_waiter.mk vhdr_at p) ->
     let K := Z.of_nat (length (packet.fragments p)) in
     (sem_current (txq._ring t) < K + 1 -> txq_post vhdr_at hs t p = Suspended)
     /\ (K + 1 <= sem_current (txq._ring t) ->
         exists t' hs', txq_post vhdr_at hs t p = Done (t', hs')))
  /\ (forall (vhdr_at : Z) (hs : host_sched) (t : txq.t) (p : packet.t) t' hs',
        reachable conf poll_mode (txq._ring t) ->
        tx_host_ok hs t (tx_waiter.mk vhdr_at p) ->
        txq_post vhdr_at hs t p = Done (t', hs') ->
        let K := Z.of_nat (length (packet.fragments p)) in
        let vbc := txq_chain t vhdr_at p in
        let bs := buffer.mk vhdr_at (u32 (txq._header_len t)) false
                  :: map (fun fr => buffer.mk (fragment.base fr)
                                      (u32 (fragment.size fr)) false)
                       (packet.fragments p) in
        let r := flush_batch (txq._ring t') in
        let slot := masked (txq._ring t)
                      (avail_head (txq._ring t)
                       + Z.of_nat (length (_batch (txq._ring t)))) in
        exists ring v1 c h later stores,
          sem_wait (K + 1) (txq._ring t) = Some ring
          /\ post_chains ring [vbc] = Some v1
          /\ bufs vbc = bs
          /\ head c = Some h /\ Z.of_nat (length c) = K + 1
          /\ is_chain (_descs v1) c
          /\ Forall2 (desc_holds (_descs v1)) c bs
          /\ Forall (fun x => exists d, at_index (_descs v1) x = Some d
                                        /\ desc.writeable d = false) c
          /\ host_read_chain (length (_descs v1)) (_descs v1) h = Some bs
          /\ published v1 = published (txq._ring t) ++ [h]
          /\ published (txq._ring t') = published (txq._ring t) ++ [h]
          /\ stored_heads (trace r) = published (txq._ring t) ++ [h]
          /\ trace r = later ++ EvStoreAvailIdx (avail_idx r)
                       :: EvStoreAvailRing slot h :: stores ++ trace (txq._ring t)
          /\ forallb (fun e => negb (is_avail_store e)) later = true
          /\ forallb is_ring_store stores = true
          /\ length stores = length (_batch (txq._ring t))
          /\ avail_idx r = avail_head r
          /\ avail_idx r
             = u16 (avail_head (txq._ring t)
                    + Z.of_nat (length (_batch (txq._ring t))) + 1)
          /\ reachable conf poll_mode (txq._ring t')
          /\ forall vhdr_at2 hs2 p2 t2 hs2',
               txq_post vhdr_at2 hs2 t' p2 = Done (t2, hs2') ->
               exists h2,
                 published (txq._ring t2) = published (txq._ring t) ++ [h; h2]
                 /\ stored_heads (trace (flush_batch (txq._ring t2)))
                    = published (txq._ring t) ++ [h; h2])
  /\ (forall (t0 : txq.t) (calls : list tx_waiter.t) (s : tx_sending.t)
             (pubs : list publication),
        reachable conf poll_mode (txq._ring t0) ->
        tx_run t0 calls s pubs ->
        calls = map fst pubs ++ tx_sending._wait_list s
        /\ reachable conf poll_mode (txq._ring (tx_sending.q s))
        /\ exists heads,
             published (txq._ring (tx_sending.q s))
             = published (txq._ring t0) ++ heads
             /\ stored_heads (trace (flush_batch (txq._ring (tx_sending.q s))))
                = published (txq._ring t0) ++ heads
             /\ Forall2
                  (fun (pub : publication) (h : Z) =>
                     snd pub
                     = Some (h, buffer.mk (tx_waiter.vhdr_at (fst pub))
                                  (u32 (txq._header_len t0)) false
                                :: map (fun fr => buffer.mk (fragment.base fr)
                                                    (u32 (fragment.size fr)) false)
                                     (packet.fragments (tx_waiter.p (fst pub)))))
                  pubs heads).
Proof.
  intros Hconf. split; [| split].
  - intros vhdr_at hs t p f Hreach Hfree Hcap Hhost K. split.
    + intros Hlt. unfold txq_post. cbv zeta. rewrite txq_chain_nr_frags. fold K.
      unfold sem_wait. unfold sem_current in Hlt.
      destruct (K + 1 <=? _) eqn:E; [lia | reflexivity].
    + intros Hn.
      destruct (txq_post_runs conf poll_mode vhdr_at hs t p f Hconf Hreach Hfree Hcap)
        as (t' & hs' & Hdone & _); [| exact Hn | eauto].
      intros ring v1 Hw Hc. apply (Hhost ring v1); [| exact Hc].
      cbn [tx_waiter.vhdr_at tx_waiter.p]. rewrite txq_chain_nr_frags. exact Hw.
  - intros vhdr_at hs t p t' hs' Hreach Hhost Hdone K vbc bs r slot.
    destruct (txq_post_Done conf poll_mode vhdr_at hs t p t' hs' Hconf Hreach Hdone)
      as (ring & v1 & c & h & Hw & Hchains & Hpost & Hhd & Hlc & Hc & Hh & Hread
          & Hpub1 & Hpub & Hflush).
    fold K vbc in Hw, Hchains, Hpost, Hlc, Hh, Hread.
    assert (Hbs : bufs vbc = bs) by reflexivity. rewrite Hbs in Hh, Hread.
    assert (Hro : Forall (fun b => buffer.writeable b = false) bs).
    { constructor; [reflexivity |]. apply Forall_map, Forall_forall. reflexivity. }
    destruct (sem_wait_Some _ _ _ Hw) as [_ Hring].
    assert (Hreach1 : reachable conf poll_mode ring)
      by (rewrite Hring; apply reach_semaphore, Hreach).
    destruct (reachable_inv conf poll_mode ring Hconf Hreach1) as [_ (fl & cs & Hinv)].
    destruct (reachable_batch_ok conf poll_mode ring Hconf Hreach1) as [_ Hok].
    assert (Hne : bufs vbc <> []) by (rewrite Hbs; discriminate).
    destruct (post_one_avail hs ring fl cs vbc _ hs' Hinv Hok Hne Hpost)
      as (h' & later & stores & Hpub' & Htr & Hlater & Hstores & Hlen & Hih & Hidx).
    fold r in Htr, Hih, Hidx. rewrite Hring in Hpub', Htr, Hlen, Hidx.
    assert (Hhh : h' = h).
    { rewrite Hpub in Hpub'. apply app_inj_tail in Hpub' as [_ Hx]. congruence. }
    subst h'.
    assert (Hreach' : reachable conf poll_mode (txq._ring t')).
    { apply (reach_post conf poll_mode ring hs [vbc] (txq._ring t') hs').
      - exact Hreach1.
      - constructor; [exact Hne | constructor].
      - intros v1' Hv1'. apply (Hhost ring v1'); [| exact Hv1'].
        cbn [tx_waiter.vhdr_at tx_waiter.p]. rewrite txq_chain_nr_frags. exact Hw.
      - exact Hpost. }
    exists ring, v1, c, h, later, stores.
    split; [exact Hw |]. split; [exact Hchains |]. split; [exact Hbs |].
    split; [exact Hhd |]. split; [exact Hlc |]. split; [exact Hc |].
    split; [exact Hh |]. split; [exact (desc_holds_read_only _ _ _ Hh Hro) |].
    split; [exact Hread |]. split; [exact Hpub1 |]. split; [exact Hpub |].
    split; [exact Hflush |]. split; [exact Htr |]. split; [exact Hlater |].
    split; [exact Hstores |]. split; [exact Hlen |]. split; [exact Hih |].
    split; [exact Hidx |]. split; [exact Hreach' |].
    intros vhdr_at2 hs2 p2 t2 hs2' Hdone2.
    destruct (txq_post_Done conf poll_mode vhdr_at2 hs2 t' p2 t2 hs2' Hconf Hreach'
                Hdone2)
      as (_ & _ & _ & h2 & _ & _ & _ & _ & _ & _ & _ & _ & _ & Hpub2 & Hflush2).
    exists h2. rewrite Hpub2, Hflush2, Hpub, <- app_assoc. split; reflexivity.
  - intros t0 calls s pubs Hreach0 Hrun.
    destruct (tx_run_fifo conf poll_mode t0 calls s pubs Hconf Hreach0 Hrun)
      as (Hcalls & _ & Hreach & heads & Hpub & Hall).
    split; [exact Hcalls |]. split; [exact Hreach |]. exists heads.
    split; [exact Hpub |]. split.
    { destruct (flush_batch_fields (txq._ring (tx_sending.q s))) as (Ht & _).
      rewrite Ht. exact Hpub. }
    eapply Forall2_impl; [exact Hall |]. intros pub h Hp. cbv beta in Hp.
    rewrite Hp. reflexivity.
Qed.

Ltac tx_host_ok_here :=
  let ring := fresh "ring" in
  let v1 := fresh "v1" in
  let Hw := fresh "Hw" in
  let Hc := fresh "Hc" in
  intros ring v1 Hw Hc; vm_compute in Hw;
  first [ discriminate Hw
        | injection Hw as <-; vm_compute in Hc;
          first [ discriminate Hc
                | injection Hc as <-; split; vm_compute; constructor ] ].

Lemma txq_post_one_chain_fifo_witness :
  (exists h t' hs',
     txq_post 4096 [] txq4 packet2 = Done (t', hs')
     /\ published (txq._ring t') = published (txq._ring txq4) ++ [h]
     /\ avail_idx (flush_batch (txq._ring t')) = 1)
  /\ exists s pubs heads,
       tx_run txq4 [waiter_a; waiter_b; waiter_c] s pubs
       /\ [waiter_a; waiter_b; waiter_c] = map fst pubs ++ tx_sending._wait_list s
       /\ tx_sending._wait_list s = []
       /\ published (txq._ring (tx_sending.q s))
          = published (txq._ring txq4) ++ heads.
Proof.
  destruct (txq_post_one_chain_fifo conf4 false conf4_ok) as (Hruns & Hone & Hfifo).
  assert (Hhost : tx_host_ok [] txq4 waiter_a) by tx_host_ok_here.
  split.
  - assert (Hfree : free_count (txq._ring txq4) = Some 4) by (vm_compute; reflexivity).
    assert (Hcap : sem_current (txq._ring txq4) <= 4) by (vm_compute; discriminate).
    assert (Hn : Z.of_nat (length (packet.fragments packet2)) + 1
                 <= sem_current (txq._ring txq4)) by (vm_compute; discriminate).
    destruct (Hruns 4096 [] txq4 packet2 4 (reach_new conf4 false) Hfree Hcap Hhost)
      as [_ Hdone].
    destruct (Hdone Hn) as (t' & hs' & Hd).
    destruct (Hone 4096 [] txq4 packet2 t' hs' (reach_new conf4 false) Hhost Hd)
      as (_ & _ & _ & h & _ & _ & _ & _ & _ & _ & _ & _ & _ & _ & _ & _ & Hpub & _
          & _ & _ & _ & _ & _ & Hidx & _).
    exists h, t', hs'. split; [exact Hd |]. split; [exact Hpub | exact Hidx].
  - eassert (H1 : tx_run txq4 _ _ _).
    { eapply (run_call txq4 _ _ _ [] waiter_a);
        [apply run_start | intros _; exact Hhost | vm_compute; reflexivity]. }
    eassert (H2 : tx_run txq4 _ _ _).
    { eapply (run_call txq4 _ _ _ [] waiter_b);
        [exact H1 | intros _; tx_host_ok_here | vm_compute; reflexivity]. }
    eassert (H3 : tx_run txq4 _ _ _).
    { eapply (run_call txq4 _ _ _ [] waiter_c);
        [exact H2 | intros Hx; vm_compute in Hx; discriminate Hx
        | vm_compute; reflexivity]. }
    eassert (H4 : tx_run txq4 _ _ _).
    { eapply (run_complete txq4 _ _ _ [[used_elem.mk 0 0]]); [exact H3 | |].
      - split.
        + vm_compute. apply NoDup_singleton.
        + vm_compute. constructor; [| constructor]. eexists. reflexivity.
      - vm_compute. reflexivity. }
    pose proof (run_signal txq4 _ _ _ (completed (txq_chain txq4 4096 packet2)) 0 H4)
      as H5.
    eassert (H6 : tx_run txq4 _ _ _).
    { eapply (run_resume txq4 _ _ _ [] waiter_b);
        [exact H5 | vm_compute; reflexivity | tx_host_ok_here
        | vm_compute; reflexivity]. }
    eassert (H7 : tx_run txq4 _ _ _).
    { eapply (run_resume txq4 _ _ _ [] waiter_c);
        [exact H6 | vm_compute; reflexivity | tx_host_ok_here
        | vm_compute; reflexivity]. }
    destruct (Hfifo txq4 _ _ _ (reach_new conf4 false) H7)
      as (Hcalls & _ & heads & Hpub & _).
    eexists _, _, heads. split; [exact H7 |]. split; [exact Hcalls |].
    split; [vm_compute; reflexivity | exact Hpub].
Defined.
